(** * Trivia rewards: a shallow embedding of the reward-claim core

    Source files embedded here:
    - [src/triviaRewards/helpers.ts]  (normalizeAnswer, deterministicPick,
      toDayKey, pickFirstString, parseTweetForReply)
    - [src/db/triviaRewards.ts]       (TriviaRewardsStore)
    - [src/triviaRewards/routes.ts]   (allowRateLimit, requireAdmin,
      getRequestIp, getRuntime, collectReplies and the create / close /
      claim handlers)
    - [src/triviaRewards/rmzSend.ts]  (sendRmz)
    - [src/triviaRewards/chronik.ts]  (getBlockHeight, ownsToken and what
      they call)

    Conventions.  A JavaScript string is the list of its UTF-16 code units.
    A JavaScript number that the program uses as an integer (timestamps in
    milliseconds, counters, token amounts, array lengths) is a [Z]; an SQL
    column that may be NULL is an [option].  [Date.now()], the environment
    variables, the random generator and the network collaborators are
    explicit parameters of the functions that read them. *)

From Stdlib Require Import ZArith NArith List String Ascii Lia Bool Sorted Permutation.
From stdpp Require Import base option list gmap.
Import ListNotations.

Set Warnings "-register-all".
Local Open Scope Z_scope.

(* ===================================================================== *)
(** ** JavaScript strings *)
(* ===================================================================== *)

(** A string is its sequence of UTF-16 code units. *)
Abbreviation jsstring := (list N).

(** Literals: an ASCII Rocq string read as a JavaScript string. *)
Definition js (s : string) : jsstring :=
  map N_of_ascii (list_ascii_of_string s).

(** Truthiness of a string: only the empty string is falsy. *)
Definition truthy_str (s : jsstring) : bool :=
  match s with [] => false | _ => true end.

(** Truthiness of a [number | null]: [null], [0] (and NaN, not
    represented) are falsy. *)
Definition truthy_num (x : option Z) : bool :=
  match x with
  | Some z => negb (z =? 0)
  | None => false
  end.

(** Truthiness of a [string | null | undefined]. *)
Definition truthy_ostr (x : option jsstring) : bool :=
  match x with
  | Some s => truthy_str s
  | None => false
  end.

Definition jsstring_eqb (a b : jsstring) : bool := bool_decide (a = b).

(** [Array.prototype.join]. *)
Fixpoint join (sep : jsstring) (parts : list jsstring) : jsstring :=
  match parts with
  | [] => []
  | [p] => p
  | p :: rest => p ++ sep ++ join sep rest
  end.

(** WhiteSpace and LineTerminator code points of ECMAScript: the class
    [\s] of regular expressions and the characters removed by [trim]. *)
Definition is_ws (c : N) : bool :=
  ((9 <=? c) && (c <=? 13) || (c =? 32) || (c =? 0xA0) || (c =? 0x1680)
   || (0x2000 <=? c) && (c <=? 0x200A)
   || (c =? 0x2028) || (c =? 0x2029) || (c =? 0x202F) || (c =? 0x205F)
   || (c =? 0x3000) || (c =? 0xFEFF))%N.

(** LineTerminator: what [.] does not match. *)
Definition is_line_terminator (c : N) : bool :=
  ((c =? 10) || (c =? 13) || (c =? 0x2028) || (c =? 0x2029))%N.

Fixpoint drop_ws (s : jsstring) : jsstring :=
  match s with
  | [] => []
  | c :: rest => if is_ws c then drop_ws rest else s
  end.

(** [String.prototype.trim]. *)
Definition trim (s : jsstring) : jsstring :=
  rev (drop_ws (rev (drop_ws s))).

(** Decimal rendering of a non-negative integer, as [String(n)] does. *)
Fixpoint digits_fuel (fuel : nat) (n : Z) (acc : jsstring) : jsstring :=
  match fuel with
  | O => acc
  | S f =>
      let d := Z.to_N (n mod 10 + 48) in
      if n <? 10 then d :: acc else digits_fuel f (n / 10) (d :: acc)
  end.

Definition String_of_nonneg (n : Z) : jsstring :=
  digits_fuel (S (Z.to_nat (Z.log2 n))) n [].

Definition String_of_int (n : Z) : jsstring :=
  if n <? 0 then 45%N :: String_of_nonneg (- n) else String_of_nonneg n.

(** [String.prototype.padStart(2, "0")]. *)
Definition padStart2 (s : jsstring) : jsstring :=
  match s with
  | [] => [48; 48]%N
  | [c] => [48%N; c]
  | _ => s
  end.

(* ===================================================================== *)
(** ** UTF-8 and SHA-256 (the [crypto] module) *)
(* ===================================================================== *)

(** UTF-8 encoding of a UTF-16 string, as [hash.update(string)] performs
    it: a surrogate pair is one 4-byte sequence, a lone surrogate becomes
    U+FFFD. Bytes are integers in [0, 256). *)
Definition utf8_of_codepoint (cp : Z) : list Z :=
  if cp <? 0x80 then [cp]
  else if cp <? 0x800 then
    [Z.lor 0xC0 (Z.shiftr cp 6); Z.lor 0x80 (Z.land cp 0x3F)]
  else if cp <? 0x10000 then
    [Z.lor 0xE0 (Z.shiftr cp 12);
     Z.lor 0x80 (Z.land (Z.shiftr cp 6) 0x3F);
     Z.lor 0x80 (Z.land cp 0x3F)]
  else
    [Z.lor 0xF0 (Z.shiftr cp 18);
     Z.lor 0x80 (Z.land (Z.shiftr cp 12) 0x3F);
     Z.lor 0x80 (Z.land (Z.shiftr cp 6) 0x3F);
     Z.lor 0x80 (Z.land cp 0x3F)].

Definition is_high_surrogate (c : N) : bool := ((0xD800 <=? c) && (c <? 0xDC00))%N.
Definition is_low_surrogate (c : N) : bool := ((0xDC00 <=? c) && (c <? 0xE000))%N.

Fixpoint utf8_encode (s : jsstring) : list Z :=
  match s with
  | [] => []
  | c :: rest =>
      if is_high_surrogate c then
        match rest with
        | d :: rest' =>
            if is_low_surrogate d then
              utf8_of_codepoint
                (0x10000 + (Z.of_N c - 0xD800) * 0x400 + (Z.of_N d - 0xDC00))
              ++ utf8_encode rest'
            else utf8_of_codepoint 0xFFFD ++ utf8_encode rest
        | [] => utf8_of_codepoint 0xFFFD
        end
      else if is_low_surrogate c then
        utf8_of_codepoint 0xFFFD ++ utf8_encode rest
      else utf8_of_codepoint (Z.of_N c) ++ utf8_encode rest
  end.

Module Sha256.

Definition wrap32 (x : Z) : Z := x mod 2 ^ 32.
Definition add32 (x y : Z) : Z := wrap32 (x + y).
Definition not32 (x : Z) : Z := Z.lxor x 0xFFFFFFFF.
Definition rotr (n x : Z) : Z :=
  Z.lor (Z.shiftr x n) (wrap32 (Z.shiftl x (32 - n))).

Definition ch (x y z : Z) : Z :=
  Z.lxor (Z.land x y) (Z.land (not32 x) z).
Definition maj (x y z : Z) : Z :=
  Z.lxor (Z.lxor (Z.land x y) (Z.land x z)) (Z.land y z).
Definition bsig0 (x : Z) : Z :=
  Z.lxor (Z.lxor (rotr 2 x) (rotr 13 x)) (rotr 22 x).
Definition bsig1 (x : Z) : Z :=
  Z.lxor (Z.lxor (rotr 6 x) (rotr 11 x)) (rotr 25 x).
Definition ssig0 (x : Z) : Z :=
  Z.lxor (Z.lxor (rotr 7 x) (rotr 18 x)) (Z.shiftr x 3).
Definition ssig1 (x : Z) : Z :=
  Z.lxor (Z.lxor (rotr 17 x) (rotr 19 x)) (Z.shiftr x 10).

(** The constants of FIPS 180-4, computed as the standard defines them:
    the round constants are the first 32 bits of the fractional parts of
    the cube roots of the first sixty-four primes, the initial state
    those of the square roots of the first eight. *)
Definition first_primes : list Z :=
  [ 2; 3; 5; 7; 11; 13; 17; 19; 23; 29; 31; 37; 41; 43; 47; 53;
    59; 61; 67; 71; 73; 79; 83; 89; 97; 101; 103; 107; 109; 113; 127; 131;
    137; 139; 149; 151; 157; 163; 167; 173; 179; 181; 191; 193; 197; 199;
    211; 223; 227; 229; 233; 239; 241; 251; 257; 263; 269; 271; 277; 281;
    283; 293; 307; 311 ].

(** Integer cube root, one bit at a time from bit [k - 1] down. *)
Fixpoint cube_root_bits (k : nat) (n root : Z) : Z :=
  match k with
  | O => root
  | S k' =>
      let candidate := root + 2 ^ Z.of_nat k' in
      cube_root_bits k' n
        (if candidate * candidate * candidate <=? n then candidate else root)
  end.

Definition round_constants : list Z :=
  Eval vm_compute in
    map (fun p => wrap32 (cube_root_bits 36 (p * 2 ^ 96) 0)) first_primes.

Definition initial_state : list Z :=
  Eval vm_compute in
    map (fun p => wrap32 (Z.sqrt (p * 2 ^ 64))) (firstn 8 first_primes).

(** Message padding: a 1 bit, zeros up to 56 mod 64 bytes, then the bit
    length as a 64-bit big-endian integer. *)
Fixpoint be_bytes (n : nat) (x : Z) : list Z :=
  match n with
  | O => []
  | S k => be_bytes k (Z.shiftr x 8) ++ [Z.land x 0xFF]
  end.

Definition pad (msg : list Z) : list Z :=
  let len := Z.of_nat (length msg) in
  let zeros := Z.to_nat ((55 - len) mod 64) in
  msg ++ [0x80] ++ repeat 0 zeros ++ be_bytes 8 (8 * len).

Fixpoint words_of_bytes (bs : list Z) : list Z :=
  match bs with
  | b0 :: b1 :: b2 :: b3 :: rest =>
      (Z.lor (Z.shiftl b0 24)
         (Z.lor (Z.shiftl b1 16) (Z.lor (Z.shiftl b2 8) b3)))
      :: words_of_bytes rest
  | _ => []
  end.

(** The message schedule, from a sliding window of sixteen words. *)
Fixpoint schedule (n : nat) (window : list Z) : list Z :=
  match n with
  | O => []
  | S k =>
      match window with
      | w0 :: tl =>
          let w1 := nth 0 tl 0 in
          let w9 := nth 8 tl 0 in
          let w14 := nth 13 tl 0 in
          let next := add32 (add32 (ssig1 w14) w9) (add32 (ssig0 w1) w0) in
          w0 :: schedule k (tl ++ [next])
      | [] => []
      end
  end.

Record regs := Regs { ra : Z; rb : Z; rc : Z; rd : Z;
                      re : Z; rf : Z; rg : Z; rh : Z }.

Definition step (r : regs) (kw : Z * Z) : regs :=
  let t1 :=
    add32 (add32 (add32 (rh r) (bsig1 (re r))) (ch (re r) (rf r) (rg r)))
          (add32 (fst kw) (snd kw)) in
  let t2 := add32 (bsig0 (ra r)) (maj (ra r) (rb r) (rc r)) in
  Regs (add32 t1 t2) (ra r) (rb r) (rc r) (add32 (rd r) t1) (re r) (rf r) (rg r).

Definition regs_of_list (h : list Z) : regs :=
  Regs (nth 0 h 0) (nth 1 h 0) (nth 2 h 0) (nth 3 h 0)
       (nth 4 h 0) (nth 5 h 0) (nth 6 h 0) (nth 7 h 0).

Definition compress (h : list Z) (block : list Z) : list Z :=
  let w := schedule 64 (words_of_bytes block) in
  let r0 := regs_of_list h in
  let r := fold_left step (combine round_constants w) r0 in
  [ add32 (ra r0) (ra r); add32 (rb r0) (rb r);
    add32 (rc r0) (rc r); add32 (rd r0) (rd r);
    add32 (re r0) (re r); add32 (rf r0) (rf r);
    add32 (rg r0) (rg r); add32 (rh r0) (rh r) ].

Fixpoint blocks (n : nat) (h : list Z) (bs : list Z) : list Z :=
  match n with
  | O => h
  | S k =>
      match bs with
      | [] => h
      | _ => blocks k (compress h (firstn 64 bs)) (skipn 64 bs)
      end
  end.

(** The 32 digest bytes. *)
Definition digest (msg : list Z) : list Z :=
  let p := pad msg in
  flat_map (be_bytes 4) (blocks (length p) initial_state p).

End Sha256.

(** [digest("hex")]: two lower-case hexadecimal digits per byte. *)
Definition hex_digit (d : Z) : N :=
  if d <? 10 then Z.to_N (48 + d) else Z.to_N (87 + d).

Definition hex_of_bytes (bs : list Z) : jsstring :=
  flat_map (fun b => [hex_digit (Z.shiftr b 4); hex_digit (Z.land b 15)]) bs.

(** [crypto.createHash("sha256").update(s).digest("hex")]. *)
Definition sha256_hex (s : jsstring) : jsstring :=
  hex_of_bytes (Sha256.digest (utf8_encode s)).

(** [BigInt("0x" + h)] on a string of hexadecimal digits; [None] where
    JavaScript throws a SyntaxError. *)
Definition hex_value (c : N) : option Z :=
  if ((48 <=? c) && (c <=? 57))%N then Some (Z.of_N c - 48)
  else if ((97 <=? c) && (c <=? 102))%N then Some (Z.of_N c - 87)
  else if ((65 <=? c) && (c <=? 70))%N then Some (Z.of_N c - 55)
  else None.

Fixpoint parse_hex_from (acc : Z) (s : jsstring) : option Z :=
  match s with
  | [] => Some acc
  | c :: rest =>
      match hex_value c with
      | Some d => parse_hex_from (16 * acc + d) rest
      | None => None
      end
  end.

Definition BigInt_of_hex (h : jsstring) : option Z :=
  match h with
  | [] => None
  | _ => parse_hex_from 0 h
  end.

(* ===================================================================== *)
(** ** Dynamic values ([any]) *)
(* ===================================================================== *)

(** The JSON-shaped values that reach the program as [any]: a raw tweet
    returned by the reply source, an HTTP request. An object is the list
    of its own properties. *)
Inductive JsVal : Type :=
| JUndefined
| JNull
| JBool (b : bool)
| JNum (n : Z)
| JStr (s : jsstring)
| JArr (items : list JsVal)
| JObj (props : list (jsstring * JsVal)).

Fixpoint assoc (k : jsstring) (props : list (jsstring * JsVal)) : JsVal :=
  match props with
  | [] => JUndefined
  | (k', v) :: rest => if jsstring_eqb k k' then v else assoc k rest
  end.

(** Property read [v?.k]. The properties read by the program are own data
    properties of objects; on every other value the read is [undefined]. *)
Definition get (v : JsVal) (k : string) : JsVal :=
  match v with
  | JObj props => assoc (js k) props
  | _ => JUndefined
  end.

Definition truthy (v : JsVal) : bool :=
  match v with
  | JUndefined | JNull => false
  | JBool b => b
  | JNum n => negb (n =? 0)
  | JStr s => truthy_str s
  | JArr _ | JObj _ => true
  end.

(** [a || b]. *)
Definition js_or (a b : JsVal) : JsVal := if truthy a then a else b.

(* ===================================================================== *)
(** ** helpers.ts *)
(* ===================================================================== *)

Section Helpers.

(** The Unicode operations of the runtime:
    [String.prototype.toLowerCase] and
    [String.prototype.normalize("NFKD")]. *)
Variable toLowerCase : jsstring -> jsstring.
Variable normalizeNFKD : jsstring -> jsstring.

(** [Date.parse]; [None] is NaN. *)
Variable Date_parse : jsstring -> option Z.

(** [.replace(/[̀-ͯ]/g, "")] *)
Definition is_combining_mark (c : N) : bool :=
  ((0x300 <=? c) && (c <=? 0x36F))%N.

Definition strip_marks (s : jsstring) : jsstring :=
  List.filter (fun c => negb (is_combining_mark c)) s.

(** [.replace(/[^a-z0-9\s]/g, " ")] *)
Definition is_lower_alnum (c : N) : bool :=
  ((97 <=? c) && (c <=? 122) || (48 <=? c) && (c <=? 57))%N.

Definition blank_other (s : jsstring) : jsstring :=
  map (fun c => if is_lower_alnum c || is_ws c then c else 32%N) s.

(** [.replace(/\s+/g, " ")]: every maximal run of white space becomes
    one space. [in_run] tells that the previous character was white
    space, so that the run has been replaced already. *)
Fixpoint collapse_ws (in_run : bool) (s : jsstring) : jsstring :=
  match s with
  | [] => []
  | c :: rest =>
      if is_ws c then
        if in_run then collapse_ws true rest
        else 32%N :: collapse_ws true rest
      else c :: collapse_ws false rest
  end.

Definition normalizeAnswer (answer : jsstring) : jsstring :=
  trim
    (collapse_ws false
       (blank_other
          (strip_marks
             (normalizeNFKD (toLowerCase answer))))).

(** [deterministicPick]. [count] is an integer of at most 2^53 (the
    only caller passes an array length): there the conversion
    [BigInt(count)] is exact, the remainder is below 2^53, so that
    [Number(...)] is exact as well, and [%] on BigInt is the truncating
    remainder [Z.rem]. On a count that is not an integer [BigInt] throws,
    and above 2^53 [Number] rounds the remainder to the nearest double:
    neither is modelled, and the properties below are stated for counts
    up to 2^53. The digest is a string of 64 hexadecimal digits, so
    [BigInt] does not throw on it; the [None] branch is there only to
    keep the function total. *)
Definition deterministicPick (seed : jsstring) (count : Z) : Z :=
  if count <=? 0 then -1
  else
    let hash := sha256_hex seed in
    match BigInt_of_hex hash with
    | Some value => Z.rem value count
    | None => -1
    end.

(** [toDayKey]: the UTC calendar date of a time value. *)
Definition ms_per_day : Z := 86400000.

(** Year, month and day of the month of a day number counted from
    1970-01-01, in the proleptic Gregorian calendar. *)
Definition civil_from_days (days : Z) : Z * Z * Z :=
  let z := days + 719468 in
  let era := z / 146097 in
  let doe := z - era * 146097 in
  let yoe := (doe - doe / 1460 + doe / 36524 - doe / 146096) / 365 in
  let doy := doe - (365 * yoe + yoe / 4 - yoe / 100) in
  let mp := (5 * doy + 2) / 153 in
  let d := doy - (153 * mp + 2) / 5 + 1 in
  let m := if mp <? 10 then mp + 3 else mp - 9 in
  let y := yoe + era * 400 + (if m <=? 2 then 1 else 0) in
  (y, m, d).

Definition toDayKey (timestampMs : Z) : jsstring :=
  if (timestampMs <? -8640000000000000) || (8640000000000000 <? timestampMs)
  then js "NaN-NaN-NaN"
  else
    let '(year, month, day) := civil_from_days (timestampMs / ms_per_day) in
    String_of_int year ++ js "-" ++ padStart2 (String_of_int month)
      ++ js "-" ++ padStart2 (String_of_int day).

Record ParsedTweet := {
  pt_id : jsstring;
  pt_text : jsstring;
  pt_twitterUserId : jsstring;
  pt_twitterUsername : option jsstring;
  pt_inReplyToStatusId : option jsstring;
  pt_createdAtMs : option Z
}.

Fixpoint pickFirstString (values : list JsVal) : jsstring :=
  match values with
  | [] => []
  | JStr value :: rest =>
      if truthy_str (trim value) then value else pickFirstString rest
  | _ :: rest => pickFirstString rest
  end.

(** [x || null] on a string. *)
Definition or_null (s : jsstring) : option jsstring :=
  if truthy_str s then Some s else None.

Definition is_object (raw : JsVal) : bool :=
  match raw with
  | JObj _ | JArr _ => true
  | _ => false
  end.

Definition parse_createdAtMs (raw : JsVal) : option Z :=
  match get raw "timestamp" with
  | JNum t => Some (t * 1000)
  | _ =>
      match get raw "created_at" with
      | JNum t => Some t
      | _ =>
          match get (get raw "legacy") "created_at" with
          | JStr s => Date_parse s
          | _ => None
          end
      end
  end.

(** The five prioritized field lists of [parseTweetForReply]. *)
Definition raw_id (raw : JsVal) : jsstring :=
  pickFirstString
    [get raw "id"; get raw "rest_id"; get raw "tweet_id";
     get (get raw "legacy") "id_str"].

Definition raw_text (raw : JsVal) : jsstring :=
  pickFirstString
    [get raw "text"; get raw "full_text";
     get (get raw "legacy") "full_text"; get (get raw "legacy") "text"].

Definition raw_twitterUserId (raw : JsVal) : jsstring :=
  pickFirstString
    [get raw "userId"; get raw "user_id";
     get (get (get (get raw "core") "user_results") "result") "rest_id";
     get (get raw "user") "id_str"].

Definition raw_twitterUsername (raw : JsVal) : jsstring :=
  pickFirstString
    [get raw "username";
     get (get (get (get (get raw "core") "user_results") "result") "legacy")
         "screen_name";
     get (get raw "user") "screen_name"].

Definition raw_inReplyToStatusId (raw : JsVal) : jsstring :=
  pickFirstString
    [get raw "inReplyToStatusId"; get raw "in_reply_to_status_id_str";
     get (get raw "legacy") "in_reply_to_status_id_str"].

Definition parseTweetForReply (raw : JsVal) : option ParsedTweet :=
  if negb (is_object raw) then None
  else
    let id := raw_id raw in
    if negb (truthy_str id) then None
    else
      let text := raw_text raw in
      let twitterUserId := raw_twitterUserId raw in
      if negb (truthy_str twitterUserId) then None
      else
        let twitterUsername := raw_twitterUsername raw in
        let inReplyToStatusId := raw_inReplyToStatusId raw in
        Some {| pt_id := id;
                pt_text := text;
                pt_twitterUserId := twitterUserId;
                pt_twitterUsername := or_null twitterUsername;
                pt_inReplyToStatusId := or_null inReplyToStatusId;
                pt_createdAtMs := parse_createdAtMs raw |}.

End Helpers.


(* ===================================================================== *)
(** ** db/triviaRewards.ts: the store *)
(* ===================================================================== *)

Inductive TriviaStatus := status_open | status_closed.

(** A row of [trivia_rewards]. [correct_answers] is kept as the array
    that [JSON.stringify] writes and [JSON.parse] reads back. *)
Record TriviaRecord := {
  trivia_id : jsstring;
  tweet_id : jsstring;
  correct_answers : list jsstring;
  window_minutes : Z;
  reward_rmz : Z;
  created_at : Z;
  closes_at : Z;
  status : TriviaStatus;
  block_height : option Z;
  seed : option jsstring;
  winner_twitter_user_id : option jsstring;
  winner_tweet_id : option jsstring;
  claim_code : option jsstring;
  claim_expires_at : option Z;
  used_at : option Z;
  used_address : option jsstring;
  txid : option jsstring;
  invalid_attempts : Z;
  lock_expires_at : option Z
}.

(** A row of [trivia_replies] ([TriviaReplyInsert] is the same without
    [id]). *)
Record TriviaReplyInsert := {
  ri_trivia_id : jsstring;
  ri_tweet_id : jsstring;
  ri_twitter_user_id : jsstring;
  ri_twitter_username : option jsstring;
  ri_reply_text : jsstring;
  ri_normalized_text : jsstring;
  ri_is_correct : Z;
  ri_created_at : Z
}.

Record TriviaReplyRecord := {
  reply_id : Z;
  reply : TriviaReplyInsert
}.

(** A row of [trivia_payouts]. *)
Record PayoutRecord := {
  p_id : Z;
  p_trivia_id : jsstring;
  p_twitter_user_id : jsstring;
  p_address : jsstring;
  p_rmz_amount : Z;
  p_txid : jsstring;
  p_created_at : Z;
  p_day_key : jsstring
}.

(** A row of [trivia_claim_attempts], without its key [claim_code]. *)
Record ClaimAttempt := {
  ca_invalid_attempts : Z;
  ca_lock_expires_at : option Z;
  ca_updated_at : Z
}.

(** The five tables. The three tables that are scanned or listed keep
    their rows in insertion (rowid) order; the two tables that are only
    read through their primary key are finite maps. *)
Record Db := {
  trivia_rewards : list TriviaRecord;
  trivia_replies : list TriviaReplyRecord;
  trivia_payouts : list PayoutRecord;
  daily_spend : gmap jsstring Z;
  trivia_claim_attempts : gmap jsstring ClaimAttempt
}.

Definition empty_db : Db :=
  {| trivia_rewards := []; trivia_replies := []; trivia_payouts := [];
     daily_spend := ∅; trivia_claim_attempts := ∅ |}.

Definition with_trivia_rewards (rows : list TriviaRecord) (db : Db) : Db :=
  {| trivia_rewards := rows;
     trivia_replies := trivia_replies db;
     trivia_payouts := trivia_payouts db;
     daily_spend := daily_spend db;
     trivia_claim_attempts := trivia_claim_attempts db |}.

Definition with_trivia_replies (rows : list TriviaReplyRecord) (db : Db) : Db :=
  {| trivia_rewards := trivia_rewards db;
     trivia_replies := rows;
     trivia_payouts := trivia_payouts db;
     daily_spend := daily_spend db;
     trivia_claim_attempts := trivia_claim_attempts db |}.

Definition with_trivia_payouts (rows : list PayoutRecord) (db : Db) : Db :=
  {| trivia_rewards := trivia_rewards db;
     trivia_replies := trivia_replies db;
     trivia_payouts := rows;
     daily_spend := daily_spend db;
     trivia_claim_attempts := trivia_claim_attempts db |}.

Definition with_daily_spend (m : gmap jsstring Z) (db : Db) : Db :=
  {| trivia_rewards := trivia_rewards db;
     trivia_replies := trivia_replies db;
     trivia_payouts := trivia_payouts db;
     daily_spend := m;
     trivia_claim_attempts := trivia_claim_attempts db |}.

Definition with_trivia_claim_attempts (m : gmap jsstring ClaimAttempt) (db : Db) : Db :=
  {| trivia_rewards := trivia_rewards db;
     trivia_replies := trivia_replies db;
     trivia_payouts := trivia_payouts db;
     daily_spend := daily_spend db;
     trivia_claim_attempts := m |}.

(** [UPDATE t SET ... WHERE cond]: the new rows and [changes]. *)
Definition sql_update {A} (cond : A -> bool) (set : A -> A) (rows : list A)
  : list A * Z :=
  (map (fun r => if cond r then set r else r) rows,
   Z.of_nat (length (List.filter cond rows))).

(** [SELECT ... WHERE cond] read with [.get()]: the first row. *)
Definition sql_get {A} (cond : A -> bool) (rows : list A) : option A :=
  List.find cond rows.

Record CreateTriviaParams := {
  ct_triviaId : jsstring;
  ct_tweetId : jsstring;
  ct_correctAnswers : list jsstring;
  ct_windowMinutes : Z;
  ct_rewardRmz : Z;
  ct_createdAt : Z;
  ct_closesAt : Z
}.

Definition has_trivia_id (id : jsstring) (r : TriviaRecord) : bool :=
  jsstring_eqb (trivia_id r) id.

(** [createTrivia]; [None] when the INSERT throws on the primary key. The
    columns left out of the INSERT take their defaults. *)
Definition createTrivia (params : CreateTriviaParams) (db : Db) : option Db :=
  if existsb (has_trivia_id (ct_triviaId params)) (trivia_rewards db) then None
  else
    Some (with_trivia_rewards
            (trivia_rewards db ++
               [ {| trivia_id := ct_triviaId params;
                    tweet_id := ct_tweetId params;
                    correct_answers := ct_correctAnswers params;
                    window_minutes := ct_windowMinutes params;
                    reward_rmz := ct_rewardRmz params;
                    created_at := ct_createdAt params;
                    closes_at := ct_closesAt params;
                    status := status_open;
                    block_height := None;
                    seed := None;
                    winner_twitter_user_id := None;
                    winner_tweet_id := None;
                    claim_code := None;
                    claim_expires_at := None;
                    used_at := None;
                    used_address := None;
                    txid := None;
                    invalid_attempts := 0;
                    lock_expires_at := None |} ])
            db).

Definition getTrivia (triviaId : jsstring) (db : Db) : option TriviaRecord :=
  sql_get (has_trivia_id triviaId) (trivia_rewards db).

Definition getClaimByCode (claimCode : jsstring) (db : Db) : option TriviaRecord :=
  sql_get (fun r => bool_decide (claim_code r = Some claimCode))
          (trivia_rewards db).

(** One [INSERT OR IGNORE INTO trivia_replies]: ignored when a row with
    the same [(trivia_id, tweet_id)] exists. *)
Definition same_reply_key (a : TriviaReplyInsert) (row : TriviaReplyRecord) : bool :=
  jsstring_eqb (ri_trivia_id (reply row)) (ri_trivia_id a)
  && jsstring_eqb (ri_tweet_id (reply row)) (ri_tweet_id a).

Definition insert_reply (rows : list TriviaReplyRecord) (a : TriviaReplyInsert)
  : list TriviaReplyRecord :=
  if existsb (same_reply_key a) rows then rows
  else rows ++ [ {| reply_id := Z.of_nat (length rows) + 1; reply := a |} ].

Definition addReplies (replies : list TriviaReplyInsert) (db : Db) : Db :=
  match replies with
  | [] => db
  | _ => with_trivia_replies (fold_left insert_reply replies (trivia_replies db)) db
  end.

(** [ORDER BY created_at ASC]: rows with equal keys stay in rowid order. *)
Fixpoint insert_sorted {A} (le : A -> A -> bool) (x : A) (l : list A) : list A :=
  match l with
  | [] => [x]
  | y :: rest => if le y x then y :: insert_sorted le x rest else x :: l
  end.

Definition sort_by {A} (le : A -> A -> bool) (l : list A) : list A :=
  fold_left (fun acc x => insert_sorted le x acc) l [].

Definition listCorrectReplies (triviaId : jsstring) (db : Db)
  : list TriviaReplyRecord :=
  sort_by (fun a b => ri_created_at (reply a) <=? ri_created_at (reply b))
    (List.filter
       (fun row => jsstring_eqb (ri_trivia_id (reply row)) triviaId
                   && (ri_is_correct (reply row) =? 1))
       (trivia_replies db)).

Record CloseTriviaParams := {
  cl_triviaId : jsstring;
  cl_blockHeight : Z;
  cl_seed : jsstring;
  cl_winnerTwitterUserId : option jsstring;
  cl_winnerTweetId : option jsstring;
  cl_claimCode : option jsstring;
  cl_claimExpiresAt : option Z
}.

Definition set_closed (params : CloseTriviaParams) (r : TriviaRecord) : TriviaRecord :=
  {| trivia_id := trivia_id r;
     tweet_id := tweet_id r;
     correct_answers := correct_answers r;
     window_minutes := window_minutes r;
     reward_rmz := reward_rmz r;
     created_at := created_at r;
     closes_at := closes_at r;
     status := status_closed;
     block_height := Some (cl_blockHeight params);
     seed := Some (cl_seed params);
     winner_twitter_user_id := cl_winnerTwitterUserId params;
     winner_tweet_id := cl_winnerTweetId params;
     claim_code := cl_claimCode params;
     claim_expires_at := cl_claimExpiresAt params;
     used_at := used_at r;
     used_address := used_address r;
     txid := txid r;
     invalid_attempts := invalid_attempts r;
     lock_expires_at := lock_expires_at r |}.

Definition closeTrivia (params : CloseTriviaParams) (db : Db) : Db :=
  with_trivia_rewards
    (fst (sql_update (has_trivia_id (cl_triviaId params)) (set_closed params)
            (trivia_rewards db)))
    db.

Record MarkClaimUsedParams := {
  mu_triviaId : jsstring;
  mu_usedAt : Z;
  mu_usedAddress : jsstring;
  mu_txid : jsstring
}.

(** The SET clause of [markClaimUsed]. *)
Definition set_used (params : MarkClaimUsedParams) (r : TriviaRecord) : TriviaRecord :=
  {| trivia_id := trivia_id r;
     tweet_id := tweet_id r;
     correct_answers := correct_answers r;
     window_minutes := window_minutes r;
     reward_rmz := reward_rmz r;
     created_at := created_at r;
     closes_at := closes_at r;
     status := status r;
     block_height := block_height r;
     seed := seed r;
     winner_twitter_user_id := winner_twitter_user_id r;
     winner_tweet_id := winner_tweet_id r;
     claim_code := claim_code r;
     claim_expires_at := claim_expires_at r;
     used_at := Some (mu_usedAt params);
     used_address := Some (mu_usedAddress params);
     txid := Some (mu_txid params);
     invalid_attempts := 0;
     lock_expires_at := None |}.

(** The WHERE clause of [markClaimUsed]:
    [trivia_id = ? AND used_at IS NULL]. *)
Definition unused_with_id (id : jsstring) (r : TriviaRecord) : bool :=
  has_trivia_id id r && bool_decide (used_at r = None).

(** [markClaimUsed]: the result [changes > 0] and the new database. *)
Definition markClaimUsed (params : MarkClaimUsedParams) (db : Db) : bool * Db :=
  let '(rows, changes) :=
    sql_update (unused_with_id (mu_triviaId params)) (set_used params)
      (trivia_rewards db) in
  (0 <? changes, with_trivia_rewards rows db).

(** The SET clause shared by [clearClaimLock] and [recordInvalidAttempt]. *)
Definition set_lock (attempts : Z) (lock : option Z) (r : TriviaRecord) : TriviaRecord :=
  {| trivia_id := trivia_id r;
     tweet_id := tweet_id r;
     correct_answers := correct_answers r;
     window_minutes := window_minutes r;
     reward_rmz := reward_rmz r;
     created_at := created_at r;
     closes_at := closes_at r;
     status := status r;
     block_height := block_height r;
     seed := seed r;
     winner_twitter_user_id := winner_twitter_user_id r;
     winner_tweet_id := winner_tweet_id r;
     claim_code := claim_code r;
     claim_expires_at := claim_expires_at r;
     used_at := used_at r;
     used_address := used_address r;
     txid := txid r;
     invalid_attempts := attempts;
     lock_expires_at := lock |}.

Definition clearClaimLock (triviaId : jsstring) (db : Db) : Db :=
  with_trivia_rewards
    (fst (sql_update (has_trivia_id triviaId) (set_lock 0 None)
            (trivia_rewards db)))
    db.

Record AttemptParams := {
  at_key : jsstring;   (* triviaId, or claimCode *)
  at_now : Z;
  at_maxAttempts : Z;
  at_lockMs : Z
}.

Record AttemptResult := {
  invalidAttempts : Z;
  lockExpiresAt : option Z
}.

(** The computation common to [recordInvalidAttempt] and
    [recordInvalidClaimCodeAttempt], from the stored counter and lock. *)
Definition next_attempt (params : AttemptParams)
    (stored_attempts : Z) (stored_lock : option Z) : AttemptResult :=
  let expired :=
    match stored_lock with
    | Some l => truthy_num stored_lock && (l <=? at_now params)
    | None => false
    end in
  let invalidAttempts0 := if expired then 0 else stored_attempts in
  let lockExpiresAt0 := if expired then None else stored_lock in
  let invalidAttempts1 := invalidAttempts0 + 1 in
  let newLockExpiresAt :=
    if at_maxAttempts params <=? invalidAttempts1
    then Some (at_now params + at_lockMs params)
    else lockExpiresAt0 in
  {| invalidAttempts := invalidAttempts1; lockExpiresAt := newLockExpiresAt |}.

Definition recordInvalidAttempt (params : AttemptParams) (db : Db)
  : AttemptResult * Db :=
  let row := sql_get (has_trivia_id (at_key params)) (trivia_rewards db) in
  let res :=
    next_attempt params
      (match row with Some r => invalid_attempts r | None => 0 end)
      (match row with Some r => lock_expires_at r | None => None end) in
  (res,
   with_trivia_rewards
     (fst (sql_update (has_trivia_id (at_key params))
             (set_lock (invalidAttempts res) (lockExpiresAt res))
             (trivia_rewards db)))
     db).

Definition getClaimAttemptByCode (claimCode : jsstring) (db : Db)
  : option ClaimAttempt :=
  trivia_claim_attempts db !! claimCode.

(** [clearClaimAttemptLock]; [now] is the [Date.now()] it reads. *)
Definition clearClaimAttemptLock (claimCode : jsstring) (now : Z) (db : Db) : Db :=
  with_trivia_claim_attempts
    (alter (fun _ => {| ca_invalid_attempts := 0;
                        ca_lock_expires_at := None;
                        ca_updated_at := now |})
           claimCode (trivia_claim_attempts db))
    db.

Definition recordInvalidClaimCodeAttempt (params : AttemptParams) (db : Db)
  : AttemptResult * Db :=
  let existing := getClaimAttemptByCode (at_key params) db in
  let res :=
    next_attempt params
      (match existing with Some a => ca_invalid_attempts a | None => 0 end)
      (match existing with Some a => ca_lock_expires_at a | None => None end) in
  (res,
   with_trivia_claim_attempts
     (<[ at_key params :=
           {| ca_invalid_attempts := invalidAttempts res;
              ca_lock_expires_at := lockExpiresAt res;
              ca_updated_at := at_now params |} ]>
        (trivia_claim_attempts db))
     db).

Record PayoutParams := {
  rp_triviaId : jsstring;
  rp_twitterUserId : jsstring;
  rp_address : jsstring;
  rp_rmzAmount : Z;
  rp_txid : jsstring;
  rp_createdAt : Z;
  rp_dayKey : jsstring
}.

Definition recordPayout (params : PayoutParams) (db : Db) : Db :=
  with_trivia_payouts
    (trivia_payouts db ++
       [ {| p_id := Z.of_nat (length (trivia_payouts db)) + 1;
            p_trivia_id := rp_triviaId params;
            p_twitter_user_id := rp_twitterUserId params;
            p_address := rp_address params;
            p_rmz_amount := rp_rmzAmount params;
            p_txid := rp_txid params;
            p_created_at := rp_createdAt params;
            p_day_key := rp_dayKey params |} ])
    db.

Definition getDailySpend (dayKey : jsstring) (db : Db) : Z :=
  default 0 (daily_spend db !! dayKey).

(** [INSERT ... ON CONFLICT(day_key) DO UPDATE SET
     total_rmz = total_rmz + excluded.total_rmz]. *)
Definition incrementDailySpend (dayKey : jsstring) (amount : Z) (db : Db) : Db :=
  with_daily_spend
    (match daily_spend db !! dayKey with
     | Some total => <[ dayKey := total + amount ]> (daily_spend db)
     | None => <[ dayKey := amount ]> (daily_spend db)
     end)
    db.

Record ClaimAndPayoutParams := {
  cp_triviaId : jsstring;
  cp_usedAt : Z;
  cp_usedAddress : jsstring;
  cp_txid : jsstring;
  cp_twitterUserId : jsstring;
  cp_rmzAmount : Z;
  cp_dayKey : jsstring
}.

(** [recordClaimAndPayout]: the body of the transaction. No statement of
    the body throws, so the transaction commits what the body did. *)
Definition recordClaimAndPayout (params : ClaimAndPayoutParams) (db : Db)
  : bool * Db :=
  let '(updated, db1) :=
    markClaimUsed {| mu_triviaId := cp_triviaId params;
                     mu_usedAt := cp_usedAt params;
                     mu_usedAddress := cp_usedAddress params;
                     mu_txid := cp_txid params |} db in
  if negb updated then (false, db1)
  else
    let db2 :=
      recordPayout {| rp_triviaId := cp_triviaId params;
                      rp_twitterUserId := cp_twitterUserId params;
                      rp_address := cp_usedAddress params;
                      rp_rmzAmount := cp_rmzAmount params;
                      rp_txid := cp_txid params;
                      rp_createdAt := cp_usedAt params;
                      rp_dayKey := cp_dayKey params |} db1 in
    (true, incrementDailySpend (cp_dayKey params) (cp_rmzAmount params) db2).

Definition countWinsForUser (dayKey twitterUserId : jsstring) (db : Db) : Z :=
  Z.of_nat
    (length
       (List.filter
          (fun p => jsstring_eqb (p_day_key p) dayKey
                    && jsstring_eqb (p_twitter_user_id p) twitterUserId)
          (trivia_payouts db))).

(** [SUM(rmz_amount)] is NULL over no rows, and [?? 0] makes it 0. *)
Definition sumAddressSpend (dayKey address : jsstring) (db : Db) : Z :=
  fold_right Z.add 0
    (map p_rmz_amount
       (List.filter
          (fun p => jsstring_eqb (p_day_key p) dayKey
                    && jsstring_eqb (p_address p) address)
          (trivia_payouts db))).


(** *** The store as a state machine

    The operations through which the routes write to the store (the
    three single statements of the settlement are reached only through
    [recordClaimAndPayout]). A [createTrivia] that throws changes
    nothing. *)
Inductive StoreOp :=
| OpCreateTrivia (params : CreateTriviaParams)
| OpAddReplies (replies : list TriviaReplyInsert)
| OpCloseTrivia (params : CloseTriviaParams)
| OpClearClaimLock (triviaId : jsstring)
| OpRecordInvalidAttempt (params : AttemptParams)
| OpClearClaimAttemptLock (claimCode : jsstring) (now : Z)
| OpRecordInvalidClaimCodeAttempt (params : AttemptParams)
| OpRecordClaimAndPayout (params : ClaimAndPayoutParams).

Definition store_step (db : Db) (op : StoreOp) : Db :=
  match op with
  | OpCreateTrivia params => default db (createTrivia params db)
  | OpAddReplies replies => addReplies replies db
  | OpCloseTrivia params => closeTrivia params db
  | OpClearClaimLock triviaId => clearClaimLock triviaId db
  | OpRecordInvalidAttempt params => snd (recordInvalidAttempt params db)
  | OpClearClaimAttemptLock claimCode now => clearClaimAttemptLock claimCode now db
  | OpRecordInvalidClaimCodeAttempt params =>
      snd (recordInvalidClaimCodeAttempt params db)
  | OpRecordClaimAndPayout params => snd (recordClaimAndPayout params db)
  end.

Definition store_run (ops : list StoreOp) (db : Db) : Db :=
  fold_left store_step ops db.

(** The payouts recorded for a round. *)
Definition payouts_of (triviaId : jsstring) (db : Db) : list PayoutRecord :=
  List.filter (fun p => jsstring_eqb (p_trivia_id p) triviaId) (trivia_payouts db).

(* ===================================================================== *)
(** ** triviaRewards/routes.ts and rmzSend.ts *)
(* ===================================================================== *)

Definition REWARD_RMZ_DEFAULT : Z := 3.
Definition TRIVIA_WINDOW_MINUTES_DEFAULT : Z := 10.
Definition CLAIM_TTL_MS : Z := 60 * 60 * 1000.
Definition CLAIM_LOCK_MS : Z := 15 * 60 * 1000.
Definition rateLimitWindowMs : Z := 60 * 1000.

(** [process.env]. A numeric variable is the number it denotes when it is
    set to a non-empty string, so that [Number(process.env.X || d)] is
    [default d]. *)
Record Env := {
  TRIVIA_ADMIN_TOKEN : option jsstring;
  TRIVIA_SALT : option jsstring;
  RMZSTATE_TOKEN_ID : option jsstring;
  RMZ_TOKEN_ID : option jsstring;
  REWARD_DRY_RUN : option jsstring;
  REWARD_WALLET_MNEMONIC : option jsstring;
  REWARD_WALLET_WIF : option jsstring;
  CLAIM_RATE_LIMIT_PER_MINUTE : option Z;
  DAILY_CAP_RMZ : option Z;
  MAX_WIN_PER_USER_PER_DAY : option Z;
  MAX_RMZ_PER_USER_PER_DAY : option Z
}.

Record Bucket := { bucket_count : Z; bucket_resetAt : Z }.

(** What [res.status(code).json(body)] sends; [res.json] alone sends 200. *)
Record Response := { res_status : Z; res_body : JsVal }.

Inductive LogLevel := LogInfo | LogWarn | LogError.

Record RmzSendParams := {
  toAddress : jsstring;
  amountRmz : Z;
  tokenId : jsstring;
  mnemonic : option jsstring;
  wif : option jsstring
}.

Inductive RmzSendResult :=
| SendOk (txid : jsstring)
| SendNotImplemented.

(** Everything a handler can change: the database, the in-memory rate
    limiter, the log of [elizaLogger], the calls made to [sendRmz] (kept
    to tell whether the payment executor was invoked) and the response
    sent on [res]. *)
Record World := {
  db : Db;
  rateLimitBuckets : gmap jsstring Bucket;
  log : list (LogLevel * jsstring);
  sent : list RmzSendParams;
  response : option Response
}.

Definition with_db (d : Db) (w : World) : World :=
  {| db := d; rateLimitBuckets := rateLimitBuckets w; log := log w;
     sent := sent w; response := response w |}.

Definition with_buckets (b : gmap jsstring Bucket) (w : World) : World :=
  {| db := db w; rateLimitBuckets := b; log := log w;
     sent := sent w; response := response w |}.

Definition with_log (l : list (LogLevel * jsstring)) (w : World) : World :=
  {| db := db w; rateLimitBuckets := rateLimitBuckets w; log := l;
     sent := sent w; response := response w |}.

Definition with_sent (l : list RmzSendParams) (w : World) : World :=
  {| db := db w; rateLimitBuckets := rateLimitBuckets w; log := log w;
     sent := l; response := response w |}.

Definition with_response (r : option Response) (w : World) : World :=
  {| db := db w; rateLimitBuckets := rateLimitBuckets w; log := log w;
     sent := sent w; response := r |}.

(** A handler body: a computation over the world that either yields a
    value or has executed [return]. *)
Definition M (A : Type) : Type := World -> (A + unit) * World.

Definition ret {A} (a : A) : M A := fun w => (inl a, w).

Definition bind {A B} (m : M A) (k : A -> M B) : M B :=
  fun w =>
    match m w with
    | (inl a, w') => k a w'
    | (inr u, w') => (inr u, w')
    end.

Notation "x <- c1 ;; c2" := (bind c1 (fun x => c2))
  (at level 100, c1 at next level, right associativity).
Notation "c1 ;; c2" := (bind c1 (fun _ => c2))
  (at level 100, right associativity).

(** [return;] *)
Definition exit {A} : M A := fun w => (inr tt, w).

(** [res.status(code).json(body)] *)
Definition send (code : Z) (body : list (jsstring * JsVal)) : M unit :=
  fun w =>
    (inl tt, with_response (Some {| res_status := code; res_body := JObj body |}) w).

(** [res.status(code).json(body); return;] *)
Definition respond {A} (code : Z) (body : list (jsstring * JsVal)) : M A :=
  send code body ;; exit.

Definition when_ (c : bool) (m : M unit) : M unit :=
  if c then m else ret tt.

Definition query {A} (f : Db -> A) : M A := fun w => (inl (f (db w)), w).

Definition update (f : Db -> Db) : M unit :=
  fun w => (inl tt, with_db (f (db w)) w).

Definition call {A} (f : Db -> A * Db) : M A :=
  fun w => let '(a, d) := f (db w) in (inl a, with_db d w).

Definition elizaLogger (level : LogLevel) (message : jsstring) : M unit :=
  fun w => (inl tt, with_log (log w ++ [(level, message)]) w).

(** One request: a fresh [res], the handler, and what was sent. *)
Definition run_handler (h : M unit) (w : World) : option Response * World :=
  let w' := snd (h (with_response None w)) in (response w', w').

Definition error_body (message : string) : list (jsstring * JsVal) :=
  [(js "error", JStr (js message))].

Definition opt_str (x : option jsstring) : JsVal :=
  match x with Some s => JStr s | None => JNull end.

Definition allowRateLimit (key : jsstring) (limit : Z) (now : Z) : M bool :=
  fun w =>
    match rateLimitBuckets w !! key with
    | Some bucket =>
        if bucket_resetAt bucket <? now then
          (inl true,
           with_buckets
             (<[ key := {| bucket_count := 1;
                           bucket_resetAt := now + rateLimitWindowMs |} ]>
                (rateLimitBuckets w)) w)
        else if limit <=? bucket_count bucket then (inl false, w)
        else
          (inl true,
           with_buckets
             (<[ key := {| bucket_count := bucket_count bucket + 1;
                           bucket_resetAt := bucket_resetAt bucket |} ]>
                (rateLimitBuckets w)) w)
    | None =>
        (inl true,
         with_buckets
           (<[ key := {| bucket_count := 1;
                         bucket_resetAt := now + rateLimitWindowMs |} ]>
              (rateLimitBuckets w)) w)
    end.

(** An HTTP request as the handlers read it: the headers object, [req.ip]
    and the parsed body, whose fields have the types the handler takes
    them for. *)
Record Request (B : Type) := {
  req_headers : JsVal;
  req_ip : option jsstring;
  req_body : B
}.
Arguments req_headers {B} _.
Arguments req_ip {B} _.
Arguments req_body {B} _.

(** Case-insensitive match of one pattern character of [/.../i]: the
    pattern letters are ASCII, and only the two ASCII cases canonicalize
    to them. *)
Definition ascii_upper (c : N) : N :=
  if ((97 <=? c) && (c <=? 122))%N then (c - 32)%N else c.

Fixpoint match_prefix_i (pattern s : jsstring) : option jsstring :=
  match pattern with
  | [] => Some s
  | p :: pattern' =>
      match s with
      | c :: s' =>
          if (ascii_upper c =? ascii_upper p)%N then match_prefix_i pattern' s'
          else None
      | [] => None
      end
  end.

(** [(.+)$]: the rest of the input, if it is not empty and has no line
    terminator. *)
Definition match_dot_plus_end (s : jsstring) : option jsstring :=
  match s with
  | [] => None
  | _ => if forallb (fun c => negb (is_line_terminator c)) s then Some s else None
  end.

(** [\s+(.+)$] after at least one white-space character has been
    consumed: the greedy [\s+] takes one more if it can, and gives it
    back when the rest does not match. *)
Fixpoint match_ws_star_capture (s : jsstring) : option jsstring :=
  match s with
  | c :: rest =>
      if is_ws c then
        match match_ws_star_capture rest with
        | Some captured => Some captured
        | None => match_dot_plus_end s
        end
      else match_dot_plus_end s
  | [] => None
  end.

(** [header.match(/^Bearer\s+(.+)$/i)?.[1]] *)
Definition match_bearer (header : jsstring) : option jsstring :=
  match match_prefix_i (js "Bearer") header with
  | Some (c :: rest) => if is_ws c then match_ws_star_capture rest else None
  | _ => None
  end.

Definition extractBearerToken {B} (req : Request B) : jsstring :=
  let header :=
    js_or (get (req_headers req) "authorization")
          (js_or (get (req_headers req) "Authorization") (JStr [])) in
  match header with
  | JStr h => default [] (match_bearer h)
  | _ => []
  end.

(** [requireAdmin]: answers 401 and yields [false], or yields [true]. *)
Definition requireAdmin {B} (env : Env) (req : Request B) : M bool :=
  let expected := TRIVIA_ADMIN_TOKEN env in
  let provided := extractBearerToken req in
  if negb (truthy_ostr expected)
     || negb (bool_decide (Some provided = expected))
  then
    elizaLogger LogWarn (js "Unauthorized trivia admin request.") ;;
    send 401 (error_body "unauthorized") ;;
    ret false
  else ret true.

(** [s.split(",")[0]] *)
Fixpoint before_comma (s : jsstring) : jsstring :=
  match s with
  | [] => []
  | c :: rest => if (c =? 44)%N then [] else c :: before_comma rest
  end.

Definition getRequestIp {B} (req : Request B) : jsstring :=
  match get (req_headers req) "x-forwarded-for" with
  | JStr forwarded =>
      if truthy_str (trim forwarded)
      then trim (before_comma forwarded)
      else if truthy_ostr (req_ip req) then default [] (req_ip req)
           else js "unknown"
  | _ =>
      if truthy_ostr (req_ip req) then default [] (req_ip req)
      else js "unknown"
  end.

(** [String.prototype.startsWith] *)
Fixpoint startsWith (s prefix : jsstring) : bool :=
  match prefix with
  | [] => true
  | p :: prefix' =>
      match s with
      | c :: s' => (c =? p)%N && startsWith s' prefix'
      | [] => false
      end
  end.

Definition isValidEcashAddress (address : jsstring) : bool :=
  startsWith address (js "ecash:") && (12 <? Z.of_nat (length address)).

(** The default order of [Array.prototype.sort] on strings: code unit by
    code unit. *)
Fixpoint jsstring_leb (a b : jsstring) : bool :=
  match a, b with
  | [], _ => true
  | _ :: _, [] => false
  | x :: a', y :: b' =>
      if (x <? y)%N then true
      else if (y <? x)%N then false
      else jsstring_leb a' b'
  end.

(** The [Map] filled by the loop over the correct replies: the first
    reply of each user, users in order of first appearance. *)
Definition uniqueCorrect_set (m : list (jsstring * TriviaReplyRecord))
    (row : TriviaReplyRecord) : list (jsstring * TriviaReplyRecord) :=
  if existsb (fun kv => jsstring_eqb (fst kv) (ri_twitter_user_id (reply row))) m
  then m
  else m ++ [(ri_twitter_user_id (reply row), row)].

Definition uniqueCorrect_of (correctReplies : list TriviaReplyRecord)
  : list (jsstring * TriviaReplyRecord) :=
  fold_left uniqueCorrect_set correctReplies [].

Definition map_get (key : jsstring) (m : list (jsstring * TriviaReplyRecord))
  : option TriviaReplyRecord :=
  option_map snd (List.find (fun kv => jsstring_eqb (fst kv) key) m).

(** The outcome of [getRuntime] and [getTwitterManager], which walk the
    agent runtime: no runtime, no Twitter client, or a client whose
    [fetchSearchTweets(query, 100)] yields the array
    [searchResult?.tweets || []], or throws ([None]). *)
Inductive TwitterLookup :=
| NoRuntime
| NoTwitterClient
| TwitterClient (fetchSearchTweets : jsstring -> option (list JsVal)).

Record CreateBody := {
  cb_triviaId : option jsstring;
  cb_tweetId : option jsstring;
  cb_correctAnswers : option (list jsstring);
  cb_windowMinutes : option Z;
  cb_rewardRmz : option Z
}.

Record CloseBody := {
  clb_triviaId : option jsstring;
  clb_agentId : option jsstring
}.

Record ClaimBody := {
  clm_claimCode : option jsstring;
  clm_address : option jsstring
}.

(** What the close handler reads from outside: the clock (at the close,
    at each reply that has no timestamp, at the claim expiry), the
    Twitter client, the block height of the chain oracle ([None] when it
    throws) and the sixteen random bytes. *)
Record CloseInputs := {
  ci_now : Z;
  ci_replyClock : nat -> Z;
  ci_expiryNow : Z;
  ci_twitter : TwitterLookup;
  ci_blockHeight : option Z;
  ci_randomBytes : list Z
}.

(** What the claim handler reads from outside: [Date.now()] at each place
    that reads it, and the chain oracle [ownsToken]. *)
Record ClaimInputs := {
  clock_ipCheck : Z;
  clock_now : Z;
  clock_codeClear : Z;
  clock_userCheck : Z;
  clock_send : Z;
  ownsToken : jsstring -> jsstring -> bool
}.

(** [Number(x) || d] *)
Definition number_or (x : option Z) (d : Z) : Z :=
  match x with
  | Some n => if n =? 0 then d else n
  | None => d
  end.

Section Routes.

Variable toLowerCase : jsstring -> jsstring.
Variable normalizeNFKD : jsstring -> jsstring.
Variable Date_parse : jsstring -> option Z.

Local Abbreviation normalizeAnswer' := (normalizeAnswer toLowerCase normalizeNFKD).
Local Abbreviation parseTweetForReply' := (parseTweetForReply Date_parse).

(** The body of the loop of [collectReplies] for one raw tweet; [now] is
    the [Date.now()] read when the tweet has no timestamp. *)
Definition collect_one (tweetId triviaId : jsstring)
    (correctAnswers : list jsstring) (createdAt closesAt : Z)
    (now : Z) (raw : JsVal) : option TriviaReplyInsert :=
  match parseTweetForReply' raw with
  | None => None
  | Some parsed =>
      if truthy_ostr (pt_inReplyToStatusId parsed)
         && negb (bool_decide (pt_inReplyToStatusId parsed = Some tweetId))
      then None
      else if truthy_num (pt_createdAtMs parsed)
              && ((default 0 (pt_createdAtMs parsed) <? createdAt)
                  || (closesAt <? default 0 (pt_createdAtMs parsed)))
      then None
      else
        let normalized := normalizeAnswer' (pt_text parsed) in
        let isCorrect :=
          if existsb (fun a => jsstring_eqb a normalized) correctAnswers
          then 1 else 0 in
        Some {| ri_trivia_id := triviaId;
                ri_tweet_id := pt_id parsed;
                ri_twitter_user_id := pt_twitterUserId parsed;
                ri_twitter_username := pt_twitterUsername parsed;
                ri_reply_text := pt_text parsed;
                ri_normalized_text := normalized;
                ri_is_correct := isCorrect;
                ri_created_at := default now (pt_createdAtMs parsed) |}
  end.

Fixpoint collect_loop (tweetId triviaId : jsstring)
    (correctAnswers : list jsstring) (createdAt closesAt : Z)
    (replyClock : nat -> Z) (i : nat) (rawTweets : list JsVal)
  : list TriviaReplyInsert :=
  match rawTweets with
  | [] => []
  | raw :: rest =>
      let tail :=
        collect_loop tweetId triviaId correctAnswers createdAt closesAt
          replyClock (S i) rest in
      match collect_one tweetId triviaId correctAnswers createdAt closesAt
              (replyClock i) raw with
      | Some r => r :: tail
      | None => tail
      end
  end.

(** [collectReplies]; [None] when the search throws. *)
Definition collectReplies
    (fetchSearchTweets : jsstring -> option (list JsVal))
    (replyClock : nat -> Z)
    (tweetId triviaId : jsstring) (correctAnswers : list jsstring)
    (createdAt closesAt : Z) : option (list TriviaReplyInsert) :=
  let query := js "conversation_id:" ++ tweetId in
  match fetchSearchTweets query with
  | Some rawTweets =>
      Some (collect_loop tweetId triviaId correctAnswers createdAt closesAt
              replyClock 0 rawTweets)
  | None => None
  end.

(** [POST /api/trivia/create]; [now] is the [Date.now()] read. *)
Definition create_handler (env : Env) (now : Z) (req : Request CreateBody)
  : M unit :=
  ok <- requireAdmin env req ;;
  if negb ok then exit
  else
    match cb_triviaId (req_body req), cb_tweetId (req_body req),
          cb_correctAnswers (req_body req) with
    | Some triviaId, Some tweetId, Some correctAnswers =>
        if negb (truthy_str triviaId) || negb (truthy_str tweetId)
        then respond 400 (error_body "Missing triviaId, tweetId, or answers.")
        else
          let normalizedAnswers :=
            List.filter truthy_str (map normalizeAnswer' correctAnswers) in
          match normalizedAnswers with
          | [] => respond 400 (error_body "No valid answers provided.")
          | _ =>
              existing <- query (getTrivia triviaId) ;;
              match existing with
              | Some _ => respond 409 (error_body "Trivia already exists.")
              | None =>
                  let createdAt := now in
                  let windowMinutesFinal :=
                    number_or (cb_windowMinutes (req_body req))
                              TRIVIA_WINDOW_MINUTES_DEFAULT in
                  let rewardFinal :=
                    number_or (cb_rewardRmz (req_body req)) REWARD_RMZ_DEFAULT in
                  let closesAt := createdAt + windowMinutesFinal * 60 * 1000 in
                  update (fun d =>
                            default d
                              (createTrivia
                                 {| ct_triviaId := triviaId;
                                    ct_tweetId := tweetId;
                                    ct_correctAnswers := normalizedAnswers;
                                    ct_windowMinutes := windowMinutesFinal;
                                    ct_rewardRmz := rewardFinal;
                                    ct_createdAt := createdAt;
                                    ct_closesAt := closesAt |} d)) ;;
                  elizaLogger LogInfo
                    (js "Trivia created: " ++ triviaId ++ js " for tweet " ++ tweetId) ;;
                  respond 200
                    [ (js "triviaId", JStr triviaId);
                      (js "tweetId", JStr tweetId);
                      (js "windowMinutes", JNum windowMinutesFinal);
                      (js "rewardRmz", JNum rewardFinal);
                      (js "closesAt", JNum closesAt) ]
              end
          end
    | _, _, _ =>
        respond 400 (error_body "Missing triviaId, tweetId, or answers.")
    end.

(** The [catch] of the close handler. *)
Definition close_failed {A} : M A :=
  elizaLogger LogError (js "Trivia close failed:") ;;
  respond 500 (error_body "Failed to close trivia.").

(** [POST /api/trivia/close] *)
Definition close_handler (env : Env) (inp : CloseInputs) (req : Request CloseBody)
  : M unit :=
  ok <- requireAdmin env req ;;
  if negb ok then exit
  else
    if negb (truthy_ostr (clb_triviaId (req_body req)))
    then respond 400 (error_body "Missing triviaId.")
    else
      let triviaId := default [] (clb_triviaId (req_body req)) in
      found <- query (getTrivia triviaId) ;;
      match found with
      | None => respond 404 (error_body "Trivia not found.")
      | Some trivia =>
          match status trivia with
          | status_closed => respond 409 (error_body "Trivia already closed.")
          | status_open =>
              let now := ci_now inp in
              if now <? closes_at trivia
              then respond 400 (error_body "Trivia window still open.")
              else
                match ci_twitter inp with
                | NoRuntime => respond 500 (error_body "Runtime not available.")
                | NoTwitterClient =>
                    respond 500 (error_body "Twitter client not available.")
                | TwitterClient fetchSearchTweets =>
                    let correctAnswers := correct_answers trivia in
                    match collectReplies fetchSearchTweets (ci_replyClock inp)
                            (tweet_id trivia) (trivia_id trivia) correctAnswers
                            (created_at trivia) (closes_at trivia) with
                    | None => close_failed
                    | Some replies =>
                        update (addReplies replies) ;;
                        correctReplies <- query (listCorrectReplies (trivia_id trivia)) ;;
                        let uniqueCorrect := uniqueCorrect_of correctReplies in
                        if negb (truthy_ostr (TRIVIA_SALT env))
                        then respond 500 (error_body "TRIVIA_SALT not configured.")
                        else
                          let salt := default [] (TRIVIA_SALT env) in
                          match ci_blockHeight inp with
                          | None => close_failed
                          | Some blockHeight =>
                              let participantIds :=
                                sort_by jsstring_leb (map fst uniqueCorrect) in
                              let seed :=
                                salt ++ js ":" ++ trivia_id trivia ++ js ":"
                                  ++ tweet_id trivia ++ js ":"
                                  ++ join (js ",") participantIds in
                              match participantIds with
                              | [] =>
                                  update
                                    (closeTrivia
                                       {| cl_triviaId := trivia_id trivia;
                                          cl_blockHeight := blockHeight;
                                          cl_seed := seed;
                                          cl_winnerTwitterUserId := None;
                                          cl_winnerTweetId := None;
                                          cl_claimCode := None;
                                          cl_claimExpiresAt := None |}) ;;
                                  elizaLogger LogInfo
                                    (js "Trivia closed without winners: "
                                       ++ trivia_id trivia) ;;
                                  respond 200
                                    [ (js "triviaId", JStr (trivia_id trivia));
                                      (js "seed", JStr seed);
                                      (js "status", JStr (js "no_correct_answers"));
                                      (js "winner", JNull) ]
                              | _ =>
                                  let winnerIndex :=
                                    deterministicPick seed
                                      (Z.of_nat (length participantIds)) in
                                  let winnerId :=
                                    if winnerIndex <? 0 then None
                                    else participantIds !! Z.to_nat winnerIndex in
                                  match
                                    match winnerId with
                                    | Some id => map_get id uniqueCorrect
                                    | None => None
                                    end
                                  with
                                  | None =>
                                      respond 500 (error_body "Failed to pick winner.")
                                  | Some winner =>
                                      let claimCode :=
                                        hex_of_bytes (ci_randomBytes inp) in
                                      let claimExpiresAt :=
                                        ci_expiryNow inp + CLAIM_TTL_MS in
                                      update
                                        (closeTrivia
                                           {| cl_triviaId := trivia_id trivia;
                                              cl_blockHeight := blockHeight;
                                              cl_seed := seed;
                                              cl_winnerTwitterUserId :=
                                                Some (ri_twitter_user_id (reply winner));
                                              cl_winnerTweetId :=
                                                Some (ri_tweet_id (reply winner));
                                              cl_claimCode := Some claimCode;
                                              cl_claimExpiresAt := Some claimExpiresAt |}) ;;
                                      elizaLogger LogInfo
                                        (js "Trivia closed: " ++ trivia_id trivia
                                           ++ js " winner "
                                           ++ ri_twitter_user_id (reply winner)) ;;
                                      respond 200
                                        [ (js "triviaId", JStr (trivia_id trivia));
                                          (js "seed", JStr seed);
                                          (js "winner",
                                           JObj
                                             [ (js "twitterUserId",
                                                JStr (ri_twitter_user_id (reply winner)));
                                               (js "tweetId",
                                                JStr (ri_tweet_id (reply winner))) ]);
                                          (js "claimCode", JStr claimCode);
                                          (js "claimExpiresAt", JNum claimExpiresAt) ]
                                  end
                              end
                          end
                    end
                end
          end
      end.

(** rmzSend.ts *)
Definition isDryRun (env : Env) : bool :=
  jsstring_eqb (toLowerCase (default [] (REWARD_DRY_RUN env))) (js "true").

Definition sendRmz (env : Env) (now : Z) (params : RmzSendParams) : RmzSendResult :=
  if isDryRun env then
    let hash :=
      firstn 16
        (sha256_hex
           (toAddress params ++ js ":" ++ String_of_int (amountRmz params)
              ++ js ":" ++ tokenId params ++ js ":" ++ String_of_int now)) in
    SendOk (js "dryrun_" ++ hash)
  else SendNotImplemented.

(** The call of [sendRmz] made by the claim handler, noted in [sent]. *)
Definition await_sendRmz (env : Env) (now : Z) (params : RmzSendParams)
  : M RmzSendResult :=
  fun w => (inl (sendRmz env now params), with_sent (sent w ++ [params]) w).

(** [lock && now < lock] *)
Definition lock_active (lock : option Z) (now : Z) : bool :=
  truthy_num lock && (now <? default 0 lock).

(** [lock && now >= lock] *)
Definition lock_expired (lock : option Z) (now : Z) : bool :=
  truthy_num lock && (default 0 lock <=? now).

(** The three places that record an invalid attempt against the round
    and answer 429 when that locks it, or else the given error. *)
Definition reject_attempt {A} (triviaId : jsstring) (now : Z)
    (note : M unit) (code : Z) (message : string) : M A :=
  lock <- call (recordInvalidAttempt
                  {| at_key := triviaId; at_now := now;
                     at_maxAttempts := 3; at_lockMs := CLAIM_LOCK_MS |}) ;;
  note ;;
  if lock_active (lockExpiresAt lock) now
  then respond 429 (error_body "rate_limited")
  else respond code (error_body message).

(** [store.recordClaimAndPayout], with the warning that [markClaimUsed]
    logs when nothing changed. *)
Definition store_recordClaimAndPayout (params : ClaimAndPayoutParams) : M bool :=
  updated <- call (recordClaimAndPayout params) ;;
  when_ (negb updated)
    (elizaLogger LogWarn (js "Claim already used or missing trivia.")) ;;
  ret updated.

(** [POST /api/claim] *)
Definition claim_handler (env : Env) (inp : ClaimInputs) (req : Request ClaimBody)
  : M unit :=
  let claimRateLimit := default 10 (CLAIM_RATE_LIMIT_PER_MINUTE env) in
  let requestIp := getRequestIp req in
  allowed <- allowRateLimit (js "ip:" ++ requestIp) claimRateLimit
               (clock_ipCheck inp) ;;
  if negb allowed then respond 429 (error_body "rate_limited")
  else
    if negb (truthy_ostr (clm_claimCode (req_body req)))
       || negb (truthy_ostr (clm_address (req_body req)))
    then respond 400 (error_body "Missing claimCode or address.")
    else
      let claimCode := default [] (clm_claimCode (req_body req)) in
      let address := default [] (clm_address (req_body req)) in
      let now := clock_now inp in
      claimAttempt <- query (getClaimAttemptByCode claimCode) ;;
      let codeLock := claimAttempt ≫= ca_lock_expires_at in
      if lock_active codeLock now then respond 429 (error_body "rate_limited")
      else
        when_ (lock_expired codeLock now)
          (update (clearClaimAttemptLock claimCode (clock_codeClear inp))) ;;
        found <- query (getClaimByCode claimCode) ;;
        match found with
        | None =>
            lock <- call (recordInvalidClaimCodeAttempt
                            {| at_key := claimCode; at_now := now;
                               at_maxAttempts := 3; at_lockMs := CLAIM_LOCK_MS |}) ;;
            if lock_active (lockExpiresAt lock) now
            then respond 429 (error_body "rate_limited")
            else respond 404 (error_body "Claim code not found.")
        | Some claim =>
            elizaLogger LogInfo
              (js "Claim request: " ++ trivia_id claim ++ js " address " ++ address) ;;
            if lock_active (lock_expires_at claim) now
            then respond 429 (error_body "rate_limited")
            else
              when_ (lock_expired (lock_expires_at claim) now)
                (update (clearClaimLock (trivia_id claim))) ;;
              userAllowed <-
                (if truthy_ostr (winner_twitter_user_id claim)
                 then allowRateLimit
                        (js "user:" ++ default [] (winner_twitter_user_id claim))
                        claimRateLimit (clock_userCheck inp)
                 else ret true) ;;
              if negb userAllowed then respond 429 (error_body "rate_limited")
              else if truthy_num (used_at claim) then
                respond 200
                  [ (js "triviaId", JStr (trivia_id claim));
                    (js "txid", opt_str (txid claim));
                    (js "status", JStr (js "already_paid")) ]
              else if negb (isValidEcashAddress address) then
                reject_attempt (trivia_id claim) now (ret tt) 400 "invalid_address"
              else if truthy_num (claim_expires_at claim)
                      && (default 0 (claim_expires_at claim) <? now) then
                reject_attempt (trivia_id claim) now (ret tt) 410 "Claim expired."
              else if negb (truthy_ostr (winner_twitter_user_id claim)) then
                respond 400 (error_body "Claim not eligible.")
              else if negb (truthy_ostr (RMZSTATE_TOKEN_ID env)) then
                respond 500 (error_body "RMZSTATE_TOKEN_ID not configured.")
              else
                let winnerUserId := default [] (winner_twitter_user_id claim) in
                let gatingTokenId := default [] (RMZSTATE_TOKEN_ID env) in
                let hasGate := ownsToken inp address gatingTokenId in
                if negb hasGate then
                  reject_attempt (trivia_id claim) now
                    (elizaLogger LogWarn
                       (js "Claim not eligible (missing token): " ++ trivia_id claim
                          ++ js " address " ++ address))
                    403 "not_eligible"
                else
                  let rewardRmz := reward_rmz claim in
                  let dayKey := toDayKey now in
                  let dailyCap := default 50 (DAILY_CAP_RMZ env) in
                  let maxWinPerUser := default 1 (MAX_WIN_PER_USER_PER_DAY env) in
                  let maxRmzPerAddress := default 3 (MAX_RMZ_PER_USER_PER_DAY env) in
                  spendSoFar <- query (getDailySpend dayKey) ;;
                  if dailyCap <? spendSoFar + rewardRmz then
                    elizaLogger LogWarn
                      (js "Daily cap reached for " ++ trivia_id claim) ;;
                    respond 429 (error_body "rate_limited")
                  else
                    winsSoFar <- query (countWinsForUser dayKey winnerUserId) ;;
                    if maxWinPerUser <=? winsSoFar then
                      elizaLogger LogWarn
                        (js "User daily win limit reached for " ++ winnerUserId) ;;
                      respond 429 (error_body "rate_limited")
                    else
                      addressSpend <- query (sumAddressSpend dayKey address) ;;
                      if maxRmzPerAddress <? addressSpend + rewardRmz then
                        elizaLogger LogWarn
                          (js "Address daily limit reached for " ++ address) ;;
                        respond 429 (error_body "rate_limited")
                      else if negb (truthy_ostr (RMZ_TOKEN_ID env)) then
                        respond 500 (error_body "RMZ_TOKEN_ID not configured.")
                      else
                        let tokenId := default [] (RMZ_TOKEN_ID env) in
                        elizaLogger LogInfo
                          (js "Claim payout attempt: " ++ trivia_id claim
                             ++ js " -> " ++ address ++ js " ("
                             ++ String_of_int rewardRmz ++ js " RMZ)") ;;
                        sendResult <-
                          await_sendRmz env (clock_send inp)
                            {| toAddress := address;
                               amountRmz := rewardRmz;
                               tokenId := tokenId;
                               mnemonic := REWARD_WALLET_MNEMONIC env;
                               wif := REWARD_WALLET_WIF env |} ;;
                        match sendResult with
                        | SendNotImplemented =>
                            elizaLogger LogWarn
                              (js "Payout not implemented for " ++ trivia_id claim) ;;
                            respond 501 (error_body "payout_not_implemented")
                        | SendOk txid =>
                            store_recordClaimAndPayout
                              {| cp_triviaId := trivia_id claim;
                                 cp_usedAt := now;
                                 cp_usedAddress := address;
                                 cp_txid := txid;
                                 cp_twitterUserId := winnerUserId;
                                 cp_rmzAmount := rewardRmz;
                                 cp_dayKey := dayKey |} ;;
                            elizaLogger LogInfo
                              (js "Claim paid: " ++ trivia_id claim ++ js " -> "
                                 ++ address ++ js " txid " ++ txid) ;;
                            respond 200
                              [ (js "triviaId", JStr (trivia_id claim));
                                (js "txid", JStr txid);
                                (js "rewardRmz", JNum rewardRmz) ]
                        end
        end.

End Routes.

(* ===================================================================== *)
(** ** triviaRewards/chronik.ts: the chain oracle *)
(* ===================================================================== *)

(** [a ?? b] *)
Definition js_nullish (a b : JsVal) : JsVal :=
  match a with
  | JUndefined | JNull => b
  | _ => a
  end.

(** [base.replace(/\/+$/, "")]: the trailing run of slashes is removed. *)
Fixpoint drop_slashes (s : jsstring) : jsstring :=
  match s with
  | [] => []
  | c :: rest => if (c =? 47)%N then drop_slashes rest else s
  end.

Definition strip_trailing_slashes (s : jsstring) : jsstring :=
  rev (drop_slashes (rev s)).

(** [getChronikUrl]; [None] where it throws. *)
Definition getChronikUrl (CHRONIK_URL CHRONIK_HTTP_URL : option jsstring)
  : option jsstring :=
  let base :=
    if truthy_ostr CHRONIK_URL then CHRONIK_URL else CHRONIK_HTTP_URL in
  if negb (truthy_ostr base) then None
  else Some (strip_trailing_slashes (default [] base)).

Section Chronik.

(** [String.prototype.toLowerCase]. *)
Variable toLowerCase : jsstring -> jsstring.

(** The two environment variables, and the network: the JSON body of an
    [ok] response to a GET of the URL, [None] when [fetch] rejects, the
    response is not [ok] or its body is not JSON. *)
Variables CHRONIK_URL CHRONIK_HTTP_URL : option jsstring.
Variable http_get_json : jsstring -> option JsVal.

(** The conversion of [tokenAmount]:
    [typeof raw === "string" ? BigInt(raw) : BigInt(Math.floor(raw))],
    [None] where it throws. *)
Variable BigInt_of_raw : JsVal -> option Z.

(** [chronikFetch]; [None] where it throws. *)
Definition chronikFetch (path : jsstring) : option JsVal :=
  match getChronikUrl CHRONIK_URL CHRONIK_HTTP_URL with
  | Some base => http_get_json (base ++ path)
  | None => None
  end.

(** [getBlockHeight]; [None] where it throws. *)
Definition getBlockHeight : option Z :=
  match chronikFetch (js "/blockchaininfo") with
  | Some data =>
      let height :=
        js_nullish (get data "blockHeight")
          (js_nullish (get data "block_height")
             (js_nullish (get data "tip_height") (get data "height"))) in
      match height with
      | JNum n => Some n
      | _ => None
      end
  | None => None
  end.

Definition tokenMatch (token : JsVal) (tokenId : jsstring) : bool :=
  let id :=
    js_or (get token "tokenId")
      (js_or (get token "token_id") (get token "tokenid")) in
  match id with
  | JStr s => jsstring_eqb (toLowerCase s) (toLowerCase tokenId)
  | _ => false
  end.

(** [tokenAmount]; [None] is [null]. *)
Definition tokenAmount (token : JsVal) : option Z :=
  let raw :=
    js_nullish (get token "amount")
      (js_nullish (get token "amountBase")
         (js_nullish (get token "tokenAmount")
            (js_nullish (get token "amount_decimal") (get token "value")))) in
  match raw with
  | JUndefined | JNull => None
  | _ => BigInt_of_raw raw
  end.

(** [data?.tokens || data?.tokenBalances || data?.balances || []] *)
Definition balance_tokens (data : JsVal) : JsVal :=
  js_or (get data "tokens")
    (js_or (get data "tokenBalances")
       (js_or (get data "balances") (JArr []))).

Definition hasTokenInUtxos (data : JsVal) (tokenId : jsstring) : bool :=
  let utxos :=
    js_or (get data "utxos")
      (js_or (get data "utxo") (js_or (get data "outputs") (JArr []))) in
  match utxos with
  | JArr items =>
      existsb
        (fun utxo =>
           let tokens :=
             if truthy (get utxo "token") then JArr [get utxo "token"]
             else js_or (get utxo "tokens") (JArr []) in
           match tokens with
           | JArr ts => existsb (fun token => tokenMatch token tokenId) ts
           | _ => false
           end)
        items
  | _ => false
  end.

Definition hasTokenInBalance (data : JsVal) (tokenId : jsstring) : bool :=
  match balance_tokens data with
  | JArr ts => existsb (fun token => tokenMatch token tokenId) ts
  | _ => false
  end.

Definition getTokenBalance (address tokenId : jsstring) : Z :=
  match chronikFetch (js "/address/" ++ address ++ js "/tokens") with
  | Some data =>
      match balance_tokens data with
      | JArr ts =>
          match List.find (fun token => tokenMatch token tokenId) ts with
          | Some token =>
              match tokenAmount token with
              | Some amount => amount
              | None => 1
              end
          | None => 0
          end
      | _ => 0
      end
  | None => 0
  end.

Definition token_endpoints (address : jsstring) : list jsstring :=
  [ js "/address/" ++ address ++ js "/utxos";
    js "/address/" ++ address ++ js "/tokens";
    js "/address/" ++ address ++ js "/balance" ].

Definition hasToken (address tokenId : jsstring) : bool :=
  existsb
    (fun endpoint =>
       match chronikFetch endpoint with
       | Some data => hasTokenInUtxos data tokenId || hasTokenInBalance data tokenId
       | None => false
       end)
    (token_endpoints address).

(** [ownsToken] of chronik.ts, the oracle the claim handler asks. *)
Definition chronik_ownsToken (address tokenId : jsstring) : bool :=
  if 0 <? getTokenBalance address tokenId then true
  else hasToken address tokenId.

End Chronik.

(* ===================================================================== *)
(** ** routes.ts: the agent runtime and its Twitter client *)
(* ===================================================================== *)

(** What the close handler reads of an agent runtime: the name of its
    character ([runtime?.character?.name]) and, of each of its clients,
    the search function [client?.client?.fetchSearchTweets] if it has
    one. [rt_clients] is [None] when [runtime.clients] is falsy. *)
Record Runtime := {
  rt_name : option jsstring;
  rt_clients : option (list (option (jsstring -> option (list JsVal))))
}.

(** [Map.prototype.get] on the entries of a [Map], in insertion order. *)
Definition agents_get {A} (key : jsstring) (agents : list (jsstring * A)) : option A :=
  option_map snd (List.find (fun kv => jsstring_eqb (fst kv) key) agents).

Section Runtimes.

Variable toLowerCase : jsstring -> jsstring.

(** [getRuntime]; [agents] is [None] when [directClient?.agents] is
    falsy. *)
Definition getRuntime (agents : option (list (jsstring * Runtime)))
    (agentId : option jsstring) : option Runtime :=
  match agents with
  | None => None
  | Some entries =>
      let id := default [] agentId in
      match (if truthy_ostr agentId then agents_get id entries else None) with
      | Some runtime => Some runtime
      | None =>
          match
            (if truthy_ostr agentId
             then List.find
                    (fun runtime =>
                       truthy_ostr (rt_name runtime)
                       && jsstring_eqb (toLowerCase (default [] (rt_name runtime)))
                                       (toLowerCase id))
                    (map snd entries)
             else None)
          with
          | Some runtime => Some runtime
          | None => head (map snd entries)
          end
      end
  end.

(** [getTwitterManager]: the first client with a search function. *)
Definition getTwitterManager (runtime : Runtime)
  : option (jsstring -> option (list JsVal)) :=
  match rt_clients runtime with
  | None => None
  | Some clients =>
      match List.find (fun client => bool_decide (client <> None)) clients with
      | Some client => client
      | None => None
      end
  end.

(** What the close handler gets from the two lookups. *)
Definition twitter_lookup (agents : option (list (jsstring * Runtime)))
    (agentId : option jsstring) : TwitterLookup :=
  match getRuntime agents agentId with
  | None => NoRuntime
  | Some runtime =>
      match getTwitterManager runtime with
      | None => NoTwitterClient
      | Some fetchSearchTweets => TwitterClient fetchSearchTweets
      end
  end.

End Runtimes.

(* ===================================================================== *)
(** ** Reference definitions used to state the properties *)
(* ===================================================================== *)

(** A byte string read as an unsigned big-endian integer. *)
Definition be_value (bs : list Z) : Z :=
  fold_left (fun acc b => 256 * acc + b) bs 0.

(** The SHA-256 digest of the UTF-8 bytes of a string, as an unsigned
    integer. *)
Definition sha256_value (seed : jsstring) : Z :=
  be_value (Sha256.digest (utf8_encode seed)).

(** The characters of a normalized answer: lower-case ASCII letters,
    ASCII digits and the space. *)
Definition plain_char (c : N) : Prop :=
  is_lower_alnum c = true \/ c = 32%N.

(** No two spaces in a row. *)
Definition single_spaced (s : jsstring) : Prop :=
  forall l1 l2, s <> l1 ++ [32; 32]%N ++ l2.

(** Neither the first nor the last character is white space. *)
Definition trimmed (s : jsstring) : Prop :=
  drop_ws s = s /\ drop_ws (rev s) = rev s.

(** *** The Unicode operations on Basic Latin and Latin-1 Supplement

    The two runtime operations restricted to code units below U+0100
    (every other code unit is left as it is). They instantiate the
    parameters of [normalizeAnswer] in the closed examples, and they say
    what the runtime does on such strings where a property is about
    letter case and diacritics. *)
Definition lower_latin1_char (c : N) : N :=
  if ((65 <=? c) && (c <=? 90))%N then (c + 32)%N
  else if ((0xC0 <=? c) && (c <=? 0xDE) && negb (c =? 0xD7))%N then (c + 32)%N
  else c.

Definition toLowerCase_latin1 (s : jsstring) : jsstring :=
  map lower_latin1_char s.

(** Compatibility decompositions of the Latin-1 Supplement block
    (UnicodeData.txt, fields 5), fully decomposed. *)
Definition nfkd_latin1_table : list (N * jsstring) :=
  [ (0xA0, [0x20]); (0xA8, [0x20; 0x308]); (0xAA, [0x61]);
    (0xAF, [0x20; 0x304]); (0xB2, [0x32]); (0xB3, [0x33]);
    (0xB4, [0x20; 0x301]); (0xB5, [0x3BC]); (0xB8, [0x20; 0x327]);
    (0xB9, [0x31]); (0xBA, [0x6F]);
    (0xBC, [0x31; 0x2044; 0x34]); (0xBD, [0x31; 0x2044; 0x32]);
    (0xBE, [0x33; 0x2044; 0x34]);
    (0xC0, [0x41; 0x300]); (0xC1, [0x41; 0x301]); (0xC2, [0x41; 0x302]);
    (0xC3, [0x41; 0x303]); (0xC4, [0x41; 0x308]); (0xC5, [0x41; 0x30A]);
    (0xC7, [0x43; 0x327]);
    (0xC8, [0x45; 0x300]); (0xC9, [0x45; 0x301]); (0xCA, [0x45; 0x302]);
    (0xCB, [0x45; 0x308]);
    (0xCC, [0x49; 0x300]); (0xCD, [0x49; 0x301]); (0xCE, [0x49; 0x302]);
    (0xCF, [0x49; 0x308]);
    (0xD1, [0x4E; 0x303]);
    (0xD2, [0x4F; 0x300]); (0xD3, [0x4F; 0x301]); (0xD4, [0x4F; 0x302]);
    (0xD5, [0x4F; 0x303]); (0xD6, [0x4F; 0x308]);
    (0xD9, [0x55; 0x300]); (0xDA, [0x55; 0x301]); (0xDB, [0x55; 0x302]);
    (0xDC, [0x55; 0x308]); (0xDD, [0x59; 0x301]);
    (0xE0, [0x61; 0x300]); (0xE1, [0x61; 0x301]); (0xE2, [0x61; 0x302]);
    (0xE3, [0x61; 0x303]); (0xE4, [0x61; 0x308]); (0xE5, [0x61; 0x30A]);
    (0xE7, [0x63; 0x327]);
    (0xE8, [0x65; 0x300]); (0xE9, [0x65; 0x301]); (0xEA, [0x65; 0x302]);
    (0xEB, [0x65; 0x308]);
    (0xEC, [0x69; 0x300]); (0xED, [0x69; 0x301]); (0xEE, [0x69; 0x302]);
    (0xEF, [0x69; 0x308]);
    (0xF1, [0x6E; 0x303]);
    (0xF2, [0x6F; 0x300]); (0xF3, [0x6F; 0x301]); (0xF4, [0x6F; 0x302]);
    (0xF5, [0x6F; 0x303]); (0xF6, [0x6F; 0x308]);
    (0xF9, [0x75; 0x300]); (0xFA, [0x75; 0x301]); (0xFB, [0x75; 0x302]);
    (0xFC, [0x75; 0x308]); (0xFD, [0x79; 0x301]); (0xFF, [0x79; 0x308]) ]%N.

Fixpoint nfkd_lookup (c : N) (table : list (N * jsstring)) : jsstring :=
  match table with
  | [] => [c]
  | (k, d) :: rest => if (c =? k)%N then d else nfkd_lookup c rest
  end.

Definition nfkd_latin1_char (c : N) : jsstring :=
  if (c <? 0xA0)%N then [c] else nfkd_lookup c nfkd_latin1_table.

Definition normalizeNFKD_latin1 (s : jsstring) : jsstring :=
  flat_map nfkd_latin1_char s.

(** *** Letters up to case and diacritics

    The strings on which the two Unicode operations are tabulated above:
    code units of Basic Latin and Latin-1 Supplement, and the combining
    marks U+0300 to U+036F. *)
Definition latin1_or_mark (c : N) : bool :=
  ((c <? 0x100) || (0x300 <=? c) && (c <=? 0x36F))%N.

(** The Latin-1 letters that are a letter of the second column in another
    case or with a diacritic. *)
Definition letter_variants : list (N * list N) :=
  [ (0x61, [0xC0; 0xC1; 0xC2; 0xC3; 0xC4; 0xC5; 0xE0; 0xE1; 0xE2; 0xE3; 0xE4; 0xE5]);
    (0x63, [0xC7; 0xE7]);
    (0x65, [0xC8; 0xC9; 0xCA; 0xCB; 0xE8; 0xE9; 0xEA; 0xEB]);
    (0x69, [0xCC; 0xCD; 0xCE; 0xCF; 0xEC; 0xED; 0xEE; 0xEF]);
    (0x6E, [0xD1; 0xF1]);
    (0x6F, [0xD2; 0xD3; 0xD4; 0xD5; 0xD6; 0xF2; 0xF3; 0xF4; 0xF5; 0xF6]);
    (0x75, [0xD9; 0xDA; 0xDB; 0xDC; 0xF9; 0xFA; 0xFB; 0xFC]);
    (0x79, [0xDD; 0xFD; 0xFF]);
    (0xE6, [0xC6]); (0xF0, [0xD0]); (0xF8, [0xD8]); (0xFE, [0xDE]) ]%N.

(** The letter without its case and its diacritic: [A] to [Z] become
    [a] to [z], a letter of the table becomes its base letter, every
    other code unit is kept. *)
Definition base_letter (c : N) : N :=
  if ((65 <=? c) && (c <=? 90))%N then (c + 32)%N
  else
    match find (fun entry => existsb (N.eqb c) (snd entry)) letter_variants with
    | Some entry => fst entry
    | None => c
    end.

(** A string without its combining marks, letter case and diacritics. *)
Definition fold_letters (s : jsstring) : jsstring :=
  map base_letter (List.filter (fun c => (c <? 0x300) || (0x36F <? c))%N s).

(** What the normalizer keeps of one code unit before it blanks and
    collapses, with the Latin-1 tables. *)
Definition latin1_core (c : N) : jsstring :=
  strip_marks (nfkd_latin1_char (lower_latin1_char c)).

(** Every recorded payout belongs to a stored round, and every stored
    round with that id is marked used. *)
Definition payouts_settled (db : Db) : Prop :=
  forall p, In p (trivia_payouts db) ->
    (exists r, In r (trivia_rewards db) /\ trivia_id r = p_trivia_id p)
    /\ (forall r, In r (trivia_rewards db) ->
                  trivia_id r = p_trivia_id p -> used_at r <> None).

Definition one_payout_per_round (db : Db) : Prop :=
  forall id, (length (payouts_of id db) <= 1)%nat.

(** *** The attempt counter as the specification words it

    A counter is its count and its lock expiry. On an access at [now]:
    an expiry that is set and reached resets the count to zero and clears
    the lock; then the count grows by one; and a count that reaches
    [maxAttempts] sets the expiry to [now + lockWindow]. *)
Definition lazy_expiry_step (now maxAttempts lockWindow : Z)
    (counter : Z * option Z) : Z * option Z :=
  let '(count, lock) :=
    match snd counter with
    | Some expires => if expires <=? now then (0, None) else counter
    | None => counter
    end in
  let count' := count + 1 in
  (count', if maxAttempts <=? count' then Some (now + lockWindow) else lock).

Definition lazy_expiry_run (calls : list AttemptParams)
    (counter : Z * option Z) : Z * option Z :=
  fold_left
    (fun c p => lazy_expiry_step (at_now p) (at_maxAttempts p) (at_lockMs p) c)
    calls counter.

(** The stored counters: of a round, and of a claim code (a code without
    a row counts as zero attempts and no lock, as the code reads it). *)
Definition round_counter (r : TriviaRecord) : Z * option Z :=
  (invalid_attempts r, lock_expires_at r).

Definition code_counter (claimCode : jsstring) (db : Db) : Z * option Z :=
  match getClaimAttemptByCode claimCode db with
  | Some a => (ca_invalid_attempts a, ca_lock_expires_at a)
  | None => (0, None)
  end.

Definition result_counter (res : AttemptResult) : Z * option Z :=
  (invalidAttempts res, lockExpiresAt res).

(** A sequence of calls, against rounds and against claim codes. *)
Definition record_round_attempts (calls : list AttemptParams) (db : Db) : Db :=
  fold_left (fun d p => snd (recordInvalidAttempt p d)) calls db.

Definition record_code_attempts (calls : list AttemptParams) (db : Db) : Db :=
  fold_left (fun d p => snd (recordInvalidClaimCodeAttempt p d)) calls db.

Definition calls_for (key : jsstring) (calls : list AttemptParams)
  : list AttemptParams :=
  List.filter (fun p => jsstring_eqb (at_key p) key) calls.

(** Clock readings are positive and lock windows are not negative. *)
Definition sane_call (p : AttemptParams) : Prop :=
  0 < at_now p /\ 0 <= at_lockMs p.

(** *** Administrative authentication *)

(** The caller's bearer credential equals the configured secret (and a
    secret is configured). *)
Definition authorized {B} (env : Env) (req : Request B) : Prop :=
  exists secret,
    TRIVIA_ADMIN_TOKEN env = Some secret
    /\ secret <> []
    /\ extractBearerToken req = secret.

Definition unauthorized_response : Response :=
  {| res_status := 401; res_body := JObj (error_body "unauthorized") |}.

(** *** Reply filtering *)

(** The three reasons to drop a reply, as the claim lists them: the
    author id cannot be extracted; the reply-to id is present and is not
    the contest post; the creation time is known and outside the
    window. *)
Definition claimed_drop_condition (Date_parse : jsstring -> option Z)
    (tweetId : jsstring) (createdAt closesAt : Z) (raw : JsVal) : Prop :=
  raw_twitterUserId raw = []
  \/ (raw_inReplyToStatusId raw <> [] /\ raw_inReplyToStatusId raw <> tweetId)
  \/ (exists t, parse_createdAtMs Date_parse raw = Some t
                /\ (t < createdAt \/ closesAt < t)).

(** *** Winner selection *)

(** The eligible participants of a round: the authors of its correct
    replies, each once, in sorted order. *)
Definition eligible_ids (triviaId : jsstring) (d : Db) : list jsstring :=
  sort_by jsstring_leb (map fst (uniqueCorrect_of (listCorrectReplies triviaId d))).

(** The ids one after the other, with a comma between two of them. *)
Fixpoint comma_separated (ids : list jsstring) : jsstring :=
  match ids with
  | [] => []
  | id :: rest =>
      match rest with
      | [] => id
      | _ :: _ => id ++ [44%N] ++ comma_separated rest
      end
  end.

(** The selection seed: the server secret, the round id, the post id and
    the sorted participant ids, with [:] between the parts and [,]
    between the ids. *)
Definition selection_seed (salt : jsstring) (trivia : TriviaRecord)
    (ids : list jsstring) : jsstring :=
  salt ++ [58%N] ++ trivia_id trivia ++ [58%N] ++ tweet_id trivia ++ [58%N]
    ++ comma_separated ids.

Definition jsstring_le (a b : jsstring) : Prop := jsstring_leb a b = true.

Definition author (row : TriviaReplyRecord) : jsstring :=
  ri_twitter_user_id (reply row).

(** What [closeTrivia] is called with when nobody is eligible, and when
    a winner was picked. *)
Definition close_without_winner (trivia : TriviaRecord) (blockHeight : Z)
    (seed : jsstring) : CloseTriviaParams :=
  {| cl_triviaId := trivia_id trivia;
     cl_blockHeight := blockHeight;
     cl_seed := seed;
     cl_winnerTwitterUserId := None;
     cl_winnerTweetId := None;
     cl_claimCode := None;
     cl_claimExpiresAt := None |}.

Definition close_with_winner (trivia : TriviaRecord) (blockHeight : Z)
    (seed : jsstring) (winner : TriviaReplyRecord) (claimCode : jsstring)
    (claimExpiresAt : Z) : CloseTriviaParams :=
  {| cl_triviaId := trivia_id trivia;
     cl_blockHeight := blockHeight;
     cl_seed := seed;
     cl_winnerTwitterUserId := Some (author winner);
     cl_winnerTweetId := Some (ri_tweet_id (reply winner));
     cl_claimCode := Some claimCode;
     cl_claimExpiresAt := Some claimExpiresAt |}.

(** What a successful close did, in a world [w] and leaving the world
    [w']: the checks it passed, the eligible ids, and the two outcomes. *)
Definition close_selection
    (toLowerCase normalizeNFKD : jsstring -> jsstring)
    (Date_parse : jsstring -> option Z)
    (env : Env) (inp : CloseInputs) (req : Request CloseBody)
    (w w' : World) (resp : Response) : Prop :=
  exists triviaId trivia fetch replies salt blockHeight,
    clb_triviaId (req_body req) = Some triviaId
    /\ getTrivia triviaId (db w) = Some trivia
    /\ status trivia = status_open
    /\ closes_at trivia <= ci_now inp
    /\ ci_twitter inp = TwitterClient fetch
    /\ collectReplies toLowerCase normalizeNFKD Date_parse fetch
         (ci_replyClock inp) (tweet_id trivia) (trivia_id trivia)
         (correct_answers trivia) (created_at trivia) (closes_at trivia)
       = Some replies
    /\ TRIVIA_SALT env = Some salt
    /\ ci_blockHeight inp = Some blockHeight
    /\ let db1 := addReplies replies (db w) in
       let ids := eligible_ids (trivia_id trivia) db1 in
       let selectionSeed := selection_seed salt trivia ids in
       let pick := deterministicPick selectionSeed (Z.of_nat (length ids)) in
       ((forall u, In u ids
                   <-> exists row, In row (listCorrectReplies (trivia_id trivia) db1)
                                   /\ author row = u)
        /\ NoDup ids /\ Sorted jsstring_le ids)
       /\ (ids = [] ->
           db w' = closeTrivia
                     (close_without_winner trivia blockHeight selectionSeed) db1
           /\ (exists stored,
                 getTrivia triviaId (db w') = Some stored
                 /\ status stored = status_closed
                 /\ winner_twitter_user_id stored = None
                 /\ claim_code stored = None)
           /\ get (res_body resp) "winner" = JNull
           /\ get (res_body resp) "claimCode" = JUndefined)
       /\ (ids <> [] ->
           exists winnerId winner,
             0 <= pick < Z.of_nat (length ids)
             /\ ids !! Z.to_nat pick = Some winnerId
             /\ map_get winnerId
                  (uniqueCorrect_of (listCorrectReplies (trivia_id trivia) db1))
                = Some winner
             /\ author winner = winnerId
             /\ db w'
                = closeTrivia
                    (close_with_winner trivia blockHeight selectionSeed winner
                       (hex_of_bytes (ci_randomBytes inp))
                       (ci_expiryNow inp + CLAIM_TTL_MS))
                    db1
             /\ (exists stored,
                   getTrivia triviaId (db w') = Some stored
                   /\ status stored = status_closed
                   /\ seed stored = Some selectionSeed
                   /\ winner_twitter_user_id stored = Some winnerId
                   /\ claim_code stored = Some (hex_of_bytes (ci_randomBytes inp))
                   /\ claim_expires_at stored
                      = Some (ci_expiryNow inp + CLAIM_TTL_MS))
             /\ get (get (res_body resp) "winner") "twitterUserId" = JStr winnerId
             /\ get (res_body resp) "claimCode"
                = JStr (hex_of_bytes (ci_randomBytes inp))
             /\ get (res_body resp) "claimExpiresAt"
                = JNum (ci_expiryNow inp + CLAIM_TTL_MS)).

Definition failed_pick : Response :=
  {| res_status := 500; res_body := JObj (error_body "Failed to pick winner.") |}.

(** *** Claims: responses, guards and frames *)

Definition rate_limited : Response :=
  {| res_status := 429; res_body := JObj (error_body "rate_limited") |}.

(** The idempotent answer for a round that is already settled. *)
Definition already_paid (claim : TriviaRecord) : Response :=
  {| res_status := 200;
     res_body := JObj [ (js "triviaId", JStr (trivia_id claim));
                        (js "txid", opt_str (txid claim));
                        (js "status", JStr (js "already_paid")) ] |}.

(** The in-memory limiter lets a key pass when it has no bucket, when its
    window is over, or when its count is below the limit. *)
Definition rate_allows (key : jsstring) (limit now : Z)
    (buckets : gmap jsstring Bucket) : Prop :=
  match buckets !! key with
  | Some bucket => bucket_resetAt bucket < now \/ bucket_count bucket < limit
  | None => True
  end.

(** The guards that come before the test of [used_at] let the request
    through: the limiter on the requester's address, the lock of the
    claim code, the lock of the round, the limiter on the winner. *)
Definition claim_guards_pass (env : Env) (inp : ClaimInputs)
    (req : Request ClaimBody) (w : World)
    (claimCode : jsstring) (claim : TriviaRecord) : Prop :=
  let limit := default 10 (CLAIM_RATE_LIMIT_PER_MINUTE env) in
  rate_allows (js "ip:" ++ getRequestIp req) limit (clock_ipCheck inp)
    (rateLimitBuckets w)
  /\ lock_active (getClaimAttemptByCode claimCode (db w) ≫= ca_lock_expires_at)
       (clock_now inp) = false
  /\ lock_active (lock_expires_at claim) (clock_now inp) = false
  /\ (forall user,
        winner_twitter_user_id claim = Some user -> user <> [] ->
        rate_allows (js "user:" ++ user) limit (clock_userCheck inp)
          (rateLimitBuckets w)).

(** Nothing of a settlement was written: no payment was invoked, no
    payout was recorded, no daily total changed, and every round has the
    settlement columns it had. *)
Definition settlement_untouched (w w' : World) : Prop :=
  sent w' = sent w
  /\ trivia_payouts (db w') = trivia_payouts (db w)
  /\ daily_spend (db w') = daily_spend (db w)
  /\ map (fun r => (trivia_id r, used_at r, used_address r, txid r))
         (trivia_rewards (db w'))
     = map (fun r => (trivia_id r, used_at r, used_address r, txid r))
         (trivia_rewards (db w)).

(** No invalid attempt was recorded: every counter, of a round or of a
    claim code, is what it was, or was reset because its lock had
    expired. *)
Definition no_attempt_recorded (w w' : World) : Prop :=
  Forall2 (fun r r' => round_counter r' = round_counter r
                       \/ round_counter r' = (0, None))
          (trivia_rewards (db w)) (trivia_rewards (db w'))
  /\ (forall code,
        code_counter code (db w') = code_counter code (db w)
        \/ code_counter code (db w') = (0, None)).

(** The log entries written between two worlds. *)
Definition new_log (w w' : World) : list (LogLevel * jsstring) :=
  skipn (length (log w)) (log w').

(** The three warnings of the capacity checks. *)
Definition cap_breach_warning (entry : LogLevel * jsstring) : Prop :=
  fst entry = LogWarn
  /\ exists subject,
       snd entry = js "Daily cap reached for " ++ subject
       \/ snd entry = js "User daily win limit reached for " ++ subject
       \/ snd entry = js "Address daily limit reached for " ++ subject.

(** One of the three capacity limits would be exceeded by paying the
    reward of [claim] to [address] on the day of [now]. *)
Definition cap_breached (env : Env) (now : Z) (d : Db)
    (claim : TriviaRecord) (address : jsstring) : Prop :=
  let dayKey := toDayKey now in
  default 50 (DAILY_CAP_RMZ env) < getDailySpend dayKey d + reward_rmz claim
  \/ default 1 (MAX_WIN_PER_USER_PER_DAY env)
     <= countWinsForUser dayKey (default [] (winner_twitter_user_id claim)) d
  \/ default 3 (MAX_RMZ_PER_USER_PER_DAY env)
     < sumAddressSpend dayKey address d + reward_rmz claim.

(** A claim that passes every check before the capacity checks. *)
Definition claim_reaches_caps (env : Env) (inp : ClaimInputs)
    (req : Request ClaimBody) (w : World)
    (claimCode address : jsstring) (claim : TriviaRecord) : Prop :=
  clm_claimCode (req_body req) = Some claimCode /\ claimCode <> []
  /\ clm_address (req_body req) = Some address /\ address <> []
  /\ getClaimByCode claimCode (db w) = Some claim
  /\ claim_guards_pass env inp req w claimCode claim
  /\ truthy_num (used_at claim) = false
  /\ isValidEcashAddress address = true
  /\ (truthy_num (claim_expires_at claim)
      && (default 0 (claim_expires_at claim) <? clock_now inp)) = false
  /\ truthy_ostr (winner_twitter_user_id claim) = true
  /\ truthy_ostr (RMZSTATE_TOKEN_ID env) = true
  /\ ownsToken inp address (default [] (RMZSTATE_TOKEN_ID env)) = true.

(** The database after the two lazy clears of the claim handler. *)
Definition after_clears (c1 c2 : bool) (code id : jsstring) (t : Z) (d : Db) : Db :=
  let d1 := if c1 then clearClaimAttemptLock code t d else d in
  if c2 then clearClaimLock id d1 else d1.

(** What a claim on a settled round may write and nothing else: the
    database is the one before the request, up to the reset of the
    lockout of the claim code and of the round, each only if it has
    expired; the only buckets of the limiter that change are the one of
    the requester's address and the one of the winner; and the log grows
    by the line that announces the request, or not at all. *)
Definition settled_claim_writes (inp : ClaimInputs) (req : Request ClaimBody)
    (claimCode address : jsstring) (claim : TriviaRecord) (w w' : World) : Prop :=
  let codeLock := getClaimAttemptByCode claimCode (db w) ≫= ca_lock_expires_at in
  (exists c1 c2 : bool,
     db w' = after_clears c1 c2 claimCode (trivia_id claim)
               (clock_codeClear inp) (db w)
     /\ (c1 = true -> lock_expired codeLock (clock_now inp) = true)
     /\ (c2 = true -> lock_expired (lock_expires_at claim) (clock_now inp) = true))
  /\ (forall key,
        key <> js "ip:" ++ getRequestIp req ->
        (forall user, winner_twitter_user_id claim = Some user ->
                      key <> js "user:" ++ user) ->
        rateLimitBuckets w' !! key = rateLimitBuckets w !! key)
  /\ (log w' = log w
      \/ log w' = log w ++ [(LogInfo, js "Claim request: " ++ trivia_id claim
                                        ++ js " address " ++ address)]).

(** *** Further definitions used to state properties of the code *)

(** The key of the UNIQUE constraint of [trivia_replies]. *)
Definition reply_key (a : TriviaReplyInsert) : jsstring * jsstring :=
  (ri_trivia_id a, ri_tweet_id a).

Definition unique_reply_keys (rows : list TriviaReplyRecord) : Prop :=
  List.NoDup (map (fun row => reply_key (reply row)) rows).

(** The payouts of a day, and their total. *)
Definition day_total (dayKey : jsstring) (db : Db) : Z :=
  fold_right Z.add 0
    (map p_rmz_amount
       (List.filter (fun p => jsstring_eqb (p_day_key p) dayKey) (trivia_payouts db))).

Definition daily_spend_consistent (db : Db) : Prop :=
  forall dayKey, getDailySpend dayKey db = day_total dayKey db.

(** What a call of [allowRateLimit] answered. *)
Definition allowed_of (r : (bool + unit) * World) : bool :=
  match fst r with inl b => b | inr _ => false end.

(** Successive calls of [allowRateLimit] for one key, at the given clock
    readings: the answers, and the world after the last. *)
Fixpoint rate_limit_calls (key : jsstring) (limit : Z) (times : list Z) (w : World)
  : list bool * World :=
  match times with
  | [] => ([], w)
  | t :: rest =>
      let r := allowRateLimit key limit t w in
      let '(answers, w') := rate_limit_calls key limit rest (snd r) in
      (allowed_of r :: answers, w')
  end.

(** The answers the limiter gives inside one window whose counter is at
    [count]: a call passes while the counter is below the limit. *)
Fixpoint window_answers (limit count : Z) (n : nat) : list bool :=
  match n with
  | O => []
  | S k => (count <? limit) :: window_answers limit (if count <? limit then count + 1 else count) k
  end.

Definition is_hex_lower (c : N) : bool :=
  ((48 <=? c) && (c <=? 57) || (97 <=? c) && (c <=? 102))%N.

(** The round that [POST /api/trivia/create] stores, from the body of
    the request, the normalized answers and the clock reading. *)
Definition created_round (now : Z) (body : CreateBody) (triviaId tweetId : jsstring)
    (normalizedAnswers : list jsstring) : CreateTriviaParams :=
  let windowMinutesFinal :=
    number_or (cb_windowMinutes body) TRIVIA_WINDOW_MINUTES_DEFAULT in
  {| ct_triviaId := triviaId;
     ct_tweetId := tweetId;
     ct_correctAnswers := normalizedAnswers;
     ct_windowMinutes := windowMinutesFinal;
     ct_rewardRmz := number_or (cb_rewardRmz body) REWARD_RMZ_DEFAULT;
     ct_createdAt := now;
     ct_closesAt := now + windowMinutesFinal * 60 * 1000 |}.

Definition error_response (code : Z) (message : string) : Response :=
  {| res_status := code; res_body := JObj (error_body message) |}.

(** What the claim handler hands to [sendRmz], and to
    [recordClaimAndPayout] once a transaction id came back. *)
Definition claim_payment (env : Env) (claim : TriviaRecord) (address : jsstring)
  : RmzSendParams :=
  {| toAddress := address;
     amountRmz := reward_rmz claim;
     tokenId := default [] (RMZ_TOKEN_ID env);
     mnemonic := REWARD_WALLET_MNEMONIC env;
     wif := REWARD_WALLET_WIF env |}.

Definition claim_settlement (inp : ClaimInputs) (claim : TriviaRecord)
    (address txid : jsstring) : ClaimAndPayoutParams :=
  {| cp_triviaId := trivia_id claim;
     cp_usedAt := clock_now inp;
     cp_usedAddress := address;
     cp_txid := txid;
     cp_twitterUserId := default [] (winner_twitter_user_id claim);
     cp_rmzAmount := reward_rmz claim;
     cp_dayKey := toDayKey (clock_now inp) |}.

(** The answer to a claim that was paid. *)
Definition paid_response (claim : TriviaRecord) (txid : jsstring) : Response :=
  {| res_status := 200;
     res_body := JObj [ (js "triviaId", JStr (trivia_id claim));
                        (js "txid", JStr txid);
                        (js "rewardRmz", JNum (reward_rmz claim)) ] |}.

(** The three rejections of a claim that count as an invalid attempt
    against the round, in the order the handler tests them: a payout
    address of the wrong form, a claim past its expiry, an address that
    does not hold the gating token. *)
Definition claim_rejection (env : Env) (inp : ClaimInputs) (claim : TriviaRecord)
    (address : jsstring) : option Response :=
  if negb (isValidEcashAddress address)
  then Some (error_response 400 "invalid_address")
  else if truthy_num (claim_expires_at claim)
          && (default 0 (claim_expires_at claim) <? clock_now inp)
  then Some (error_response 410 "Claim expired.")
  else if truthy_ostr (winner_twitter_user_id claim)
          && truthy_ostr (RMZSTATE_TOKEN_ID env)
          && negb (ownsToken inp address (default [] (RMZSTATE_TOKEN_ID env)))
  then Some (error_response 403 "not_eligible")
  else None.

(** *** Calendar dates *)

(** The time values of a [Date]. *)
Definition date_in_range (t : Z) : Prop :=
  -8640000000000000 <= t <= 8640000000000000.

(** The value of a string of decimal digits, and of a decimal numeral
    with an optional minus sign. *)
Definition decimal_value (acc : Z) (s : jsstring) : Z :=
  fold_left (fun a c => 10 * a + (Z.of_N c - 48)) s acc.

Definition numeral_value (s : jsstring) : Z :=
  match s with
  | 45%N :: digits => - decimal_value 0 digits
  | _ => decimal_value 0 s
  end.

(** The day number of a civil date: the inverse of [civil_from_days]. *)
Definition days_from_civil (date : Z * Z * Z) : Z :=
  let '(y, m, d) := date in
  let y' := if m <=? 2 then y - 1 else y in
  let era := y' / 400 in
  let yoe := y' - era * 400 in
  let mp := if 2 <? m then m - 3 else m + 9 in
  let doy := (153 * mp + 2) / 5 + d - 1 in
  let doe := yoe * 365 + yoe / 4 - yoe / 100 + doy in
  era * 146097 + doe - 719468.

(** One era of 400 years, day by day: the date is a calendar date and
    [days_from_civil] gives the day back. *)
Definition era_day_ok (doe : Z) : bool :=
  let '(y, m, d) := civil_from_days (doe - 719468) in
  (days_from_civil (y, m, d) =? doe - 719468)
  && (1 <=? m) && (m <=? 12) && (1 <=? d) && (d <=? 31)
  && (0 <=? (if m <=? 2 then y - 1 else y)) && ((if m <=? 2 then y - 1 else y) <=? 399).

(** [check] holds of the [fuel] integers from [from] on. *)
Fixpoint holds_from (check : Z -> bool) (fuel : nat) (from : Z) : bool :=
  match fuel with
  | O => true
  | S k => check from && holds_from check k (from + 1)
  end.

Definition two_digits_ok (n : Z) : bool :=
  (length (padStart2 (String_of_int n)) =? 2)%nat
  && (numeral_value (padStart2 (String_of_int n)) =? n).

(** What a settlement writes, and what the close handler stores: the
    payouts, the daily totals, the settlement columns of every round,
    and the replies. *)
Definition settlement_tables (d : Db)
  : list PayoutRecord * gmap jsstring Z
    * list (jsstring * option Z * option jsstring * option jsstring)
    * list TriviaReplyRecord :=
  (trivia_payouts d, daily_spend d,
   map (fun r => (trivia_id r, used_at r, used_address r, txid r)) (trivia_rewards d),
   trivia_replies d).

(** *** Sample data for the closed examples *)

Definition sample_round : TriviaRecord :=
  {| trivia_id := js "trivia-001";
     tweet_id := js "1850000000000000000";
     correct_answers := [js "paris"];
     window_minutes := 10;
     reward_rmz := 3;
     created_at := 1700000000000;
     closes_at := 1700000600000;
     status := status_closed;
     block_height := Some 820000;
     seed := Some (js "salt:trivia-001:1850000000000000000:11");
     winner_twitter_user_id := Some (js "11");
     winner_tweet_id := Some (js "1850000000000000001");
     claim_code := Some (js "00112233445566778899aabbccddeeff");
     claim_expires_at := Some 1700004200000;
     used_at := None;
     used_address := None;
     txid := None;
     invalid_attempts := 2;
     lock_expires_at := Some 1700000700000 |}.

Definition sample_db : Db :=
  with_trivia_rewards [sample_round] empty_db.

Definition sample_address : jsstring :=
  js "ecash:qpm2qsznhks23z7629mms6s4cwef74vcwvy22gdx6a".

Definition sample_mark : MarkClaimUsedParams :=
  {| mu_triviaId := js "trivia-001";
     mu_usedAt := 1700001000000;
     mu_usedAddress := sample_address;
     mu_txid := js "dryrun_0123456789abcdef" |}.

Definition sample_settlement : ClaimAndPayoutParams :=
  {| cp_triviaId := js "trivia-001";
     cp_usedAt := 1700001000000;
     cp_usedAddress := sample_address;
     cp_txid := js "dryrun_0123456789abcdef";
     cp_twitterUserId := js "11";
     cp_rmzAmount := 3;
     cp_dayKey := js "2023-11-14" |}.

Definition sample_attempt (key : jsstring) (now : Z) : AttemptParams :=
  {| at_key := key; at_now := now; at_maxAttempts := 3; at_lockMs := 900000 |}.

Definition sample_attempts (key : jsstring) : list AttemptParams :=
  [ sample_attempt key 1700000800000;
    sample_attempt key 1700000801000;
    sample_attempt key 1700000802000;
    sample_attempt key 1700000803000;
    sample_attempt key 1700002000000 ].

Definition sample_env : Env :=
  {| TRIVIA_ADMIN_TOKEN := Some (js "s3cret");
     TRIVIA_SALT := Some (js "salt");
     RMZSTATE_TOKEN_ID := Some (js "aa11");
     RMZ_TOKEN_ID := Some (js "bb22");
     REWARD_DRY_RUN := Some (js "true");
     REWARD_WALLET_MNEMONIC := None;
     REWARD_WALLET_WIF := None;
     CLAIM_RATE_LIMIT_PER_MINUTE := None;
     DAILY_CAP_RMZ := None;
     MAX_WIN_PER_USER_PER_DAY := None;
     MAX_RMZ_PER_USER_PER_DAY := None |}.

Definition empty_world : World :=
  {| db := empty_db; rateLimitBuckets := ∅; log := []; sent := [];
     response := None |}.

Definition sample_world : World := with_db sample_db empty_world.

Definition close_request (authorization : option string) : Request CloseBody :=
  {| req_headers :=
       JObj match authorization with
            | Some h => [(js "authorization", JStr (js h))]
            | None => []
            end;
     req_ip := Some (js "203.0.113.7");
     req_body := {| clb_triviaId := Some (js "trivia-001"); clb_agentId := None |} |}.

Definition create_request (authorization : option string) : Request CreateBody :=
  {| req_headers :=
       JObj match authorization with
            | Some h => [(js "authorization", JStr (js h))]
            | None => []
            end;
     req_ip := Some (js "203.0.113.7");
     req_body := {| cb_triviaId := Some (js "trivia-002");
                    cb_tweetId := Some (js "1850000000000000777");
                    cb_correctAnswers := Some [js "Paris"];
                    cb_windowMinutes := None;
                    cb_rewardRmz := None |} |}.

Definition no_date_parse (s : jsstring) : option Z := None.

(** The scenario of the specification: answers ["paris"], a window of
    ten minutes, a reply "Paris!!" by user 11 and a reply "london" by
    user 22. *)
Definition paris_round : TriviaRecord :=
  {| trivia_id := js "trivia-003";
     tweet_id := js "1850000000000000300";
     correct_answers := [js "paris"];
     window_minutes := 10;
     reward_rmz := 3;
     created_at := 1700000000000;
     closes_at := 1700000600000;
     status := status_open;
     block_height := None;
     seed := None;
     winner_twitter_user_id := None;
     winner_tweet_id := None;
     claim_code := None;
     claim_expires_at := None;
     used_at := None;
     used_address := None;
     txid := None;
     invalid_attempts := 0;
     lock_expires_at := None |}.

Definition paris_world : World :=
  with_db (with_trivia_rewards [paris_round] empty_db) empty_world.

Definition reply_paris : JsVal :=
  JObj [ (js "id", JStr (js "1850000000000000301"));
         (js "text", JStr (js "Paris!!"));
         (js "userId", JStr (js "11"));
         (js "username", JStr (js "alice"));
         (js "inReplyToStatusId", JStr (js "1850000000000000300"));
         (js "timestamp", JNum 1700000100) ].

Definition reply_london : JsVal :=
  JObj [ (js "rest_id", JStr (js "1850000000000000302"));
         (js "legacy",
          JObj [ (js "full_text", JStr (js "london"));
                 (js "in_reply_to_status_id_str", JStr (js "1850000000000000300")) ]);
         (js "core",
          JObj [ (js "user_results",
                  JObj [ (js "result",
                          JObj [ (js "rest_id", JStr (js "22"));
                                 (js "legacy",
                                  JObj [ (js "screen_name", JStr (js "bob")) ]) ]) ]) ]);
         (js "created_at", JNum 1700000200000) ].

(** A reply whose tweet id is in none of the recognized fields. *)
Definition reply_without_id : JsVal :=
  JObj [ (js "text", JStr (js "paris")); (js "userId", JStr (js "33")) ].

Definition paris_inputs : CloseInputs :=
  {| ci_now := 1700000700000;
     ci_replyClock := fun _ => 1700000700001;
     ci_expiryNow := 1700000700002;
     ci_twitter := TwitterClient (fun _ => Some [reply_paris; reply_london]);
     ci_blockHeight := Some 820000;
     ci_randomBytes := [0; 17; 34; 51; 68; 85; 102; 119;
                        136; 153; 170; 187; 204; 221; 238; 255] |}.

Definition paris_close_request (authorization : option string) : Request CloseBody :=
  {| req_headers :=
       JObj match authorization with
            | Some h => [(js "authorization", JStr (js h))]
            | None => []
            end;
     req_ip := Some (js "203.0.113.7");
     req_body := {| clb_triviaId := Some (js "trivia-003"); clb_agentId := None |} |}.

Definition paris_close : option Response * World :=
  run_handler
    (close_handler toLowerCase_latin1 normalizeNFKD_latin1 no_date_parse
       sample_env paris_inputs (paris_close_request (Some "Bearer s3cret"%string)))
    paris_world.

(** A round with several participants: users 42, 7 and 11 answer
    correctly (user 42 twice), user 22 does not. *)
Definition quiz_round : TriviaRecord :=
  {| trivia_id := js "trivia-004";
     tweet_id := js "1850000000000000400";
     correct_answers := [js "paris"];
     window_minutes := 10;
     reward_rmz := 3;
     created_at := 1700000000000;
     closes_at := 1700000600000;
     status := status_open;
     block_height := None;
     seed := None;
     winner_twitter_user_id := None;
     winner_tweet_id := None;
     claim_code := None;
     claim_expires_at := None;
     used_at := None;
     used_address := None;
     txid := None;
     invalid_attempts := 0;
     lock_expires_at := None |}.

Definition quiz_world : World :=
  with_db (with_trivia_rewards [quiz_round] empty_db) empty_world.

Definition quiz_reply (id text user : string) (seconds : Z) : JsVal :=
  JObj [ (js "id", JStr (js id));
         (js "text", JStr (js text));
         (js "userId", JStr (js user));
         (js "inReplyToStatusId", JStr (js "1850000000000000400"));
         (js "timestamp", JNum seconds) ].

Definition quiz_replies : list JsVal :=
  [ quiz_reply "1850000000000000401" "Paris" "42" 1700000100;
    quiz_reply "1850000000000000402" "PARIS!" "7" 1700000150;
    quiz_reply "1850000000000000403" "london" "22" 1700000200;
    quiz_reply "1850000000000000404" " paris " "11" 1700000250;
    quiz_reply "1850000000000000405" "paris" "42" 1700000300 ].

Definition quiz_inputs : CloseInputs :=
  {| ci_now := 1700000700000;
     ci_replyClock := fun _ => 1700000700001;
     ci_expiryNow := 1700000700002;
     ci_twitter := TwitterClient (fun _ => Some quiz_replies);
     ci_blockHeight := Some 820000;
     ci_randomBytes := [0; 17; 34; 51; 68; 85; 102; 119;
                        136; 153; 170; 187; 204; 221; 238; 255] |}.

Definition quiz_close_request : Request CloseBody :=
  {| req_headers := JObj [(js "authorization", JStr (js "Bearer s3cret"))];
     req_ip := Some (js "203.0.113.7");
     req_body := {| clb_triviaId := Some (js "trivia-004"); clb_agentId := None |} |}.

Definition quiz_close : option Response * World :=
  run_handler
    (close_handler toLowerCase_latin1 normalizeNFKD_latin1 no_date_parse
       sample_env quiz_inputs quiz_close_request)
    quiz_world.

(** A claim on the sample round, from the address of the samples. *)
Definition claim_request : Request ClaimBody :=
  {| req_headers := JObj [];
     req_ip := Some (js "203.0.113.7");
     req_body := {| clm_claimCode := Some (js "00112233445566778899aabbccddeeff");
                    clm_address := Some sample_address |} |}.

Definition claim_inputs : ClaimInputs :=
  {| clock_ipCheck := 1700002000000;
     clock_now := 1700002000001;
     clock_codeClear := 1700002000002;
     clock_userCheck := 1700002000003;
     clock_send := 1700002000004;
     ownsToken := fun _ _ => true |}.

(** The sample round once it is settled. *)
Definition settled_db : Db := snd (recordClaimAndPayout sample_settlement sample_db).

Definition settled_round : TriviaRecord :=
  Eval vm_compute in
    default sample_round (getTrivia (js "trivia-001") settled_db).

Definition settled_world : World := with_db settled_db empty_world.

(** The same world when the requester's address has used up its ten
    requests of the current minute. *)
Definition throttled_world : World :=
  with_buckets
    {[ js "ip:203.0.113.7" := {| bucket_count := 10; bucket_resetAt := 1700002050000 |} ]}
    settled_world.

(** The sample round not yet settled, on a day whose payouts already
    add up to the global cap of fifty. *)
Definition capped_world : World :=
  with_db (with_daily_spend {[ js "2023-11-14" := 50 ]} sample_db) empty_world.

(** The sample environment outside a dry run. *)
Definition live_env : Env :=
  {| TRIVIA_ADMIN_TOKEN := Some (js "s3cret");
     TRIVIA_SALT := Some (js "salt");
     RMZSTATE_TOKEN_ID := Some (js "aa11");
     RMZ_TOKEN_ID := Some (js "bb22");
     REWARD_DRY_RUN := None;
     REWARD_WALLET_MNEMONIC := None;
     REWARD_WALLET_WIF := None;
     CLAIM_RATE_LIMIT_PER_MINUTE := None;
     DAILY_CAP_RMZ := None;
     MAX_WIN_PER_USER_PER_DAY := None;
     MAX_RMZ_PER_USER_PER_DAY := None |}.

(** A claim with a code that no round has, and a claim on the sample
    round with a payout address of the wrong form. *)
Definition wrong_code_request : Request ClaimBody :=
  {| req_headers := JObj [];
     req_ip := Some (js "203.0.113.7");
     req_body := {| clm_claimCode := Some (js "ffffffffffffffffffffffffffffffff");
                    clm_address := Some sample_address |} |}.

Definition bad_address_request : Request ClaimBody :=
  {| req_headers := JObj [];
     req_ip := Some (js "203.0.113.7");
     req_body := {| clm_claimCode := Some (js "00112233445566778899aabbccddeeff");
                    clm_address := Some (js "bitcoincash:qq") |} |}.

Example join_samples :
  join (js ",") [js "11"; js "42"; js "7"] = js "11,42,7"
  /\ join (js ",") [js "11"] = js "11"
  /\ join (js ",") [] = [].
Proof. repeat split; reflexivity. Qed.

Example sha256_empty :
  sha256_hex (js "") =
  js "e3b0c44298fc1c149afbf4c8996fb92427ae41e4649b934ca495991b7852b855".
Proof. vm_compute. reflexivity. Qed.

Example sha256_abc :
  sha256_hex (js "abc") =
  js "ba7816bf8f01cfea414140de5dae2223b00361a396177a9cb410ff61f20015ad".
Proof. vm_compute. reflexivity. Qed.

Example sha256_two_blocks :
  sha256_hex (js "abcdbcdecdefdefgefghfghighijhijkijkljklmklmnlmnomnopnopq") =
  js "248d6a61d20638b8e5c026930c3e6039a33ce45964ff2167f6ecedd419db06c1".
Proof. vm_compute. reflexivity. Qed.

(** The UTF-8 encoding that [hash.update] applies to a string: two bytes
    for U+00E9, three for U+20AC, four for the surrogate pair of U+1F600,
    and U+FFFD for a surrogate without its partner. *)
Example utf8_encode_samples :
  utf8_encode [0xE9]%N = [0xC3; 0xA9]
  /\ utf8_encode [0x20AC]%N = [0xE2; 0x82; 0xAC]
  /\ utf8_encode [0xD83D; 0xDE00]%N = [0xF0; 0x9F; 0x98; 0x80]
  /\ utf8_encode [0xD83D]%N = [0xEF; 0xBF; 0xBD]
  /\ utf8_encode [0xDE00; 0x41]%N = [0xEF; 0xBF; 0xBD; 0x41].
Proof. vm_compute. repeat split; reflexivity. Qed.

Example sha256_non_ascii :
  sha256_hex [0xE9]%N =
  js "4a99557e4033c3539de2eb65472017cad5f9557f7a0625a09f1c3f6e2ba69c4c"
  /\ sha256_hex [0xD83D; 0xDE00]%N =
     js "f0443a342c5ef54783a111b51ba56c938e474c32324d90c3a60c9c8e3a37e2d9".
Proof. vm_compute. split; reflexivity. Qed.

Example toDayKey_epoch : toDayKey 0 = js "1970-01-01".
Proof. vm_compute. reflexivity. Qed.
Example toDayKey_2023 : toDayKey 1700000000000 = js "2023-11-14".
Proof. vm_compute. reflexivity. Qed.
Example toDayKey_leap : toDayKey 1709164800000 = js "2024-02-29".
Proof. vm_compute. reflexivity. Qed.
Example toDayKey_before_epoch : toDayKey (-1) = js "1969-12-31".
Proof. vm_compute. reflexivity. Qed.

(* ===================================================================== *)
(** * Properties *)
(* ===================================================================== *)

(** ** The deterministic selector *)

Lemma hex_value_hex_digit (d : Z) :
  0 <= d < 16 -> hex_value (hex_digit d) = Some d.
Proof.
  intros Hd.
  assert (Hcases : d = 0 \/ d = 1 \/ d = 2 \/ d = 3 \/ d = 4 \/ d = 5 \/ d = 6
                   \/ d = 7 \/ d = 8 \/ d = 9 \/ d = 10 \/ d = 11 \/ d = 12
                   \/ d = 13 \/ d = 14 \/ d = 15) by lia.
  repeat (destruct Hcases as [-> | Hcases]; [reflexivity |]).
  subst d. reflexivity.
Qed.

Lemma byte_nibbles (b : Z) :
  0 <= b < 256 ->
  0 <= Z.shiftr b 4 < 16 /\ 0 <= Z.land b 15 < 16
  /\ 16 * Z.shiftr b 4 + Z.land b 15 = b.
Proof.
  intros Hb.
  rewrite Z.shiftr_div_pow2 by lia.
  change 15 with (Z.ones 4). rewrite Z.land_ones by lia.
  change (2 ^ 4) with 16.
  pose proof (Z.div_mod b 16 ltac:(lia)).
  pose proof (Z.mod_pos_bound b 16 ltac:(lia)).
  assert (0 <= b / 16 < 16).
  { split; [apply Z.div_pos; lia | apply Z.div_lt_upper_bound; lia]. }
  lia.
Qed.

Lemma parse_hex_bytes (bs : list Z) (acc : Z) :
  Forall (fun b => 0 <= b < 256) bs ->
  parse_hex_from acc (hex_of_bytes bs)
  = Some (fold_left (fun a b => 256 * a + b) bs acc).
Proof.
  intros Hbs. revert acc.
  induction Hbs as [| b bs Hb _ IH]; intros acc; [reflexivity |].
  destruct (byte_nibbles b Hb) as (Hhi & Hlo & Hsum).
  cbn [hex_of_bytes flat_map app parse_hex_from fold_left].
  rewrite (hex_value_hex_digit _ Hhi), (hex_value_hex_digit _ Hlo).
  fold (hex_of_bytes bs). rewrite IH.
  do 2 f_equal. lia.
Qed.

Lemma be_bytes_range (n : nat) (x : Z) :
  Forall (fun b => 0 <= b < 256) (Sha256.be_bytes n x).
Proof.
  revert x. induction n as [| n IH]; intros x; cbn [Sha256.be_bytes].
  - constructor.
  - apply Forall_app. split; [apply IH |].
    constructor; [| constructor].
    change 0xFF with (Z.ones 8). rewrite Z.land_ones by lia.
    apply Z.mod_pos_bound. lia.
Qed.

Lemma digest_range (msg : list Z) :
  Forall (fun b => 0 <= b < 256) (Sha256.digest msg).
Proof.
  unfold Sha256.digest.
  induction (Sha256.blocks _ _ _) as [| w ws IH]; cbn [flat_map].
  - constructor.
  - apply Forall_app. split; [apply be_bytes_range | exact IH].
Qed.

Lemma blocks_nonempty (n : nat) (h bs : list Z) :
  h <> [] -> Sha256.blocks n h bs <> [].
Proof.
  revert h bs. induction n as [| n IH]; intros h bs Hh; cbn [Sha256.blocks].
  - exact Hh.
  - destruct bs; [exact Hh |]. apply IH. discriminate.
Qed.

Lemma digest_nonempty (msg : list Z) : Sha256.digest msg <> [].
Proof.
  unfold Sha256.digest.
  pose proof (blocks_nonempty (length (Sha256.pad msg)) Sha256.initial_state
                (Sha256.pad msg) ltac:(discriminate)) as Hne.
  destruct (Sha256.blocks _ _ _) as [| w ws]; [congruence |].
  cbn. discriminate.
Qed.

Lemma fold_be_nonneg (bs : list Z) (acc : Z) :
  Forall (fun b => 0 <= b < 256) bs -> 0 <= acc ->
  0 <= fold_left (fun a b => 256 * a + b) bs acc.
Proof.
  intros Hbs. revert acc.
  induction Hbs as [| b bs Hb _ IH]; intros acc Hacc; cbn; [lia |].
  apply IH. lia.
Qed.

Lemma sha256_value_nonneg (seed : jsstring) : 0 <= sha256_value seed.
Proof.
  unfold sha256_value, be_value.
  apply fold_be_nonneg; [apply digest_range | lia].
Qed.

Lemma BigInt_of_sha256_hex (seed : jsstring) :
  BigInt_of_hex (sha256_hex seed) = Some (sha256_value seed).
Proof.
  unfold BigInt_of_hex, sha256_hex, sha256_value, be_value.
  pose proof (digest_nonempty (utf8_encode seed)) as Hne.
  pose proof (digest_range (utf8_encode seed)) as Hrange.
  destruct (Sha256.digest (utf8_encode seed)) as [| b bs] eqn:Hd;
    [congruence |].
  rewrite <- (parse_hex_bytes (b :: bs) 0 Hrange).
  reflexivity.
Qed.

Lemma deterministicPick_positive (seed : jsstring) (count : Z) :
  0 < count ->
  deterministicPick seed count = sha256_value seed mod count
  /\ 0 <= deterministicPick seed count < count.
Proof.
  intros Hc.
  assert (Heq : deterministicPick seed count = sha256_value seed mod count).
  { unfold deterministicPick.
    destruct (Z.leb_spec count 0); [lia |].
    rewrite BigInt_of_sha256_hex.
    apply Z.rem_mod_nonneg; [apply sha256_value_nonneg | lia]. }
  split; [exact Heq |].
  rewrite Heq. apply Z.mod_pos_bound. exact Hc.
Qed.

(** C2. [deterministicPick seed count] is the sentinel -1 when
    [count <= 0]; for a count from 1 to 2^53 (the integers on which the
    conversions between [number] and [BigInt] are exact) it is the
    SHA-256 digest of the UTF-8 bytes of [seed], read as an unsigned
    integer, modulo [count], and therefore lies in [0, count). The result
    is a function of the two arguments alone, so equal arguments give
    equal results. *)
Theorem deterministicPick_spec (seed : jsstring) (count : Z) :
  (count <= 0 -> deterministicPick seed count = -1)
  /\ (0 < count <= 2 ^ 53 ->
      deterministicPick seed count = sha256_value seed mod count
      /\ 0 <= deterministicPick seed count < count)
  /\ (forall seed' count',
        seed' = seed -> count' = count ->
        deterministicPick seed' count' = deterministicPick seed count).
Proof.
  split; [| split].
  - intros Hc. unfold deterministicPick.
    destruct (Z.leb_spec count 0); [reflexivity | lia].
  - intros [Hc _]. apply deterministicPick_positive, Hc.
  - intros seed' count' -> ->. reflexivity.
Qed.

(** Three participants and the seed of a round: the digest, and the
    index picked among the three; and a seed with a letter of two UTF-8
    bytes and a character outside the Basic Multilingual Plane (a
    surrogate pair, four UTF-8 bytes). *)
Lemma deterministicPick_spec_witness :
  deterministicPick (js "salt:round-1:1850:11,42,7") 0 = -1
  /\ sha256_value (js "salt:round-1:1850:11,42,7")
     = 0xd8c7f6c1b0898c3f8bc0298802943bba482910c7948a3936d20edb5bc0bedf77
  /\ deterministicPick (js "salt:round-1:1850:11,42,7") 3 = 2
  /\ deterministicPick (js "salt:round-1:1850:11,42,7") (2 ^ 53)
     = 4181836796190583
  /\ deterministicPick (js "caf" ++ [0xE9; 58; 0xD83D; 0xDE00]%N) 1000 = 933.
Proof.
  split.
  { apply (proj1 (deterministicPick_spec (js "salt:round-1:1850:11,42,7") 0)).
    lia. }
  split; [vm_compute; reflexivity |].
  split.
  { destruct (proj1 (proj2 (deterministicPick_spec
                              (js "salt:round-1:1850:11,42,7") 3)))
      as [-> _]; [lia | vm_compute; reflexivity]. }
  split.
  { destruct (proj1 (proj2 (deterministicPick_spec
                              (js "salt:round-1:1850:11,42,7") (2 ^ 53))))
      as [-> _]; [lia | vm_compute; reflexivity]. }
  destruct (proj1 (proj2 (deterministicPick_spec
                            (js "caf" ++ [0xE9; 58; 0xD83D; 0xDE00]%N) 1000)))
    as [-> _]; [lia | vm_compute; reflexivity].
Defined.

Example deterministicPick_abc : deterministicPick (js "abc") 1000 = 965.
Proof. vm_compute. reflexivity. Qed.

(** ** The answer normalizer *)

Lemma lower_alnum_not_ws (c : N) : is_lower_alnum c = true -> is_ws c = false.
Proof.
  intros H. apply not_true_is_false. intros Hws. revert H Hws.
  unfold is_lower_alnum, is_ws.
  rewrite !orb_true_iff, !andb_true_iff, !N.leb_le, !N.eqb_eq. lia.
Qed.

Lemma plain_not_mark (c : N) : plain_char c -> is_combining_mark c = false.
Proof.
  intros H. apply not_true_is_false. intros Hm. revert H Hm.
  unfold plain_char, is_lower_alnum, is_combining_mark.
  rewrite !orb_true_iff, !andb_true_iff, !N.leb_le. lia.
Qed.

Lemma plain_ws_space (c : N) : plain_char c -> is_ws c = true -> c = 32%N.
Proof.
  intros [H | H] Hws; [| exact H].
  rewrite (lower_alnum_not_ws c H) in Hws. discriminate.
Qed.

Lemma drop_ws_head (s : jsstring) :
  match drop_ws s with
  | [] => True
  | c :: _ => is_ws c = false
  end.
Proof.
  induction s as [| c s IH]; cbn [drop_ws]; [exact I |].
  destruct (is_ws c) eqn:Hc; [exact IH | exact Hc].
Qed.

Lemma drop_ws_fixed (s : jsstring) :
  match s with
  | [] => True
  | c :: _ => is_ws c = false
  end -> drop_ws s = s.
Proof. destruct s as [| c s]; cbn; [reflexivity |]. intros ->. reflexivity. Qed.

Lemma drop_ws_suffix (s : jsstring) : exists pre, s = pre ++ drop_ws s.
Proof.
  induction s as [| c s [pre IH]]; [exists []; reflexivity |].
  cbn [drop_ws]. destruct (is_ws c).
  - exists (c :: pre). cbn. rewrite <- IH. reflexivity.
  - exists []. reflexivity.
Qed.

Lemma drop_ws_rev_fixed (s : jsstring) :
  drop_ws s = s -> drop_ws (rev (drop_ws (rev s))) = rev (drop_ws (rev s)).
Proof.
  intros Hs. apply drop_ws_fixed.
  destruct (drop_ws_suffix (rev s)) as [pre Hpre].
  assert (Hrev : s = rev (drop_ws (rev s)) ++ rev pre).
  { rewrite <- rev_app_distr, <- Hpre, rev_involutive. reflexivity. }
  destruct (rev (drop_ws (rev s))) as [| c t] eqn:Ht; [exact I |].
  pose proof (drop_ws_head s) as Hh. rewrite Hs in Hh.
  rewrite Hrev in Hh. exact Hh.
Qed.

(** The result of [trim] starts and ends with a character that is not
    white space. *)
Lemma trim_trimmed (s : jsstring) : trimmed (trim s).
Proof.
  unfold trimmed, trim. split.
  - apply drop_ws_rev_fixed. apply drop_ws_fixed. apply drop_ws_head.
  - rewrite rev_involutive. apply drop_ws_fixed. apply drop_ws_head.
Qed.

Lemma trim_fixed (s : jsstring) : trimmed s -> trim s = s.
Proof.
  intros [H1 H2]. unfold trim. rewrite H1, H2. apply rev_involutive.
Qed.

Lemma Forall_drop_ws (P : N -> Prop) (s : jsstring) :
  Forall P s -> Forall P (drop_ws s).
Proof.
  induction 1 as [| c s Hc Hs IH]; cbn [drop_ws]; [constructor |].
  destruct (is_ws c); [exact IH | constructor; assumption].
Qed.

Lemma Forall_trim (P : N -> Prop) (s : jsstring) :
  Forall P s -> Forall P (trim s).
Proof.
  intros H. unfold trim.
  apply Forall_rev, Forall_drop_ws, Forall_rev, Forall_drop_ws, H.
Qed.

Lemma single_spaced_tail (c : N) (s : jsstring) :
  single_spaced (c :: s) -> single_spaced s.
Proof. intros H l1 l2 ->. apply (H (c :: l1) l2). reflexivity. Qed.

Lemma single_spaced_drop_ws (s : jsstring) :
  single_spaced s -> single_spaced (drop_ws s).
Proof.
  induction s as [| c s IH]; cbn [drop_ws]; [auto |].
  intros H. destruct (is_ws c); [| exact H].
  apply IH. exact (single_spaced_tail c s H).
Qed.

Lemma single_spaced_rev (s : jsstring) :
  single_spaced s -> single_spaced (rev s).
Proof.
  intros H l1 l2 Heq. apply (H (rev l2) (rev l1)).
  rewrite <- (rev_involutive s), Heq.
  rewrite !rev_app_distr. cbn. rewrite <- app_assoc. reflexivity.
Qed.

Lemma single_spaced_trim (s : jsstring) :
  single_spaced s -> single_spaced (trim s).
Proof.
  intros H. unfold trim.
  apply single_spaced_rev, single_spaced_drop_ws,
        single_spaced_rev, single_spaced_drop_ws, H.
Qed.

(** Inside a run, [collapse_ws] emits nothing until the run ends. *)
Lemma collapse_ws_in_run_head (s : jsstring) :
  match collapse_ws true s with
  | [] => True
  | c :: _ => is_ws c = false
  end.
Proof.
  induction s as [| c s IH]; cbn [collapse_ws]; [exact I |].
  destruct (is_ws c) eqn:Hc; [exact IH | exact Hc].
Qed.

Lemma collapse_ws_single_spaced (s : jsstring) (in_run : bool) :
  single_spaced (collapse_ws in_run s).
Proof.
  revert in_run. induction s as [| c s IH]; intros in_run l1 l2;
    cbn [collapse_ws].
  - destruct l1; discriminate.
  - destruct (is_ws c) eqn:Hc.
    + destruct in_run; [apply IH |].
      destruct l1 as [| x l1]; cbn.
      * intros Heq. injection Heq as Heq.
        pose proof (collapse_ws_in_run_head s) as Hh.
        rewrite Heq in Hh. discriminate.
      * intros Heq. injection Heq as _ Heq. exact (IH true l1 l2 Heq).
    + destruct l1 as [| x l1]; cbn.
      * intros Heq. injection Heq as -> _. discriminate.
      * intros Heq. injection Heq as _ Heq. exact (IH false l1 l2 Heq).
Qed.

Lemma collapse_blank_plain (s : jsstring) (in_run : bool) :
  Forall plain_char (collapse_ws in_run (blank_other s)).
Proof.
  revert in_run. induction s as [| c s IH]; intros in_run;
    cbn [blank_other map collapse_ws]; [constructor |].
  fold (blank_other s).
  destruct (is_lower_alnum c) eqn:Ha; cbn [orb].
  - rewrite (lower_alnum_not_ws c Ha).
    constructor; [left; exact Ha | apply IH].
  - destruct (is_ws c) eqn:Hw.
    + rewrite Hw. destruct in_run; [apply IH |].
      constructor; [right; reflexivity | apply IH].
    + change (is_ws 32) with true. cbn iota.
      destruct in_run; [apply IH |].
      constructor; [right; reflexivity | apply IH].
Qed.

(** On a string of plain characters without doubled spaces the three
    regular-expression replacements change nothing. *)
Lemma strip_marks_plain (s : jsstring) :
  Forall plain_char s -> strip_marks s = s.
Proof.
  induction 1 as [| c s Hc _ IH]; [reflexivity |].
  unfold strip_marks in *. cbn [List.filter].
  rewrite (plain_not_mark c Hc). cbn. rewrite IH. reflexivity.
Qed.

Lemma blank_other_plain (s : jsstring) :
  Forall plain_char s -> blank_other s = s.
Proof.
  induction 1 as [| c s Hc _ IH]; [reflexivity |].
  unfold blank_other in *. cbn [map]. rewrite IH.
  destruct Hc as [Hc | ->]; [rewrite Hc |]; reflexivity.
Qed.

Lemma collapse_ws_plain (s : jsstring) (in_run : bool) :
  Forall plain_char s -> single_spaced s ->
  (in_run = true -> drop_ws s = s) ->
  collapse_ws in_run s = s.
Proof.
  intros Hp. revert in_run.
  induction Hp as [| c s Hc Hs IH]; intros in_run Hss Hhead; [reflexivity |].
  cbn [collapse_ws].
  destruct (is_ws c) eqn:Hw.
  - pose proof (plain_ws_space c Hc Hw) as ->.
    destruct in_run.
    + specialize (Hhead eq_refl). cbn in Hhead.
      exfalso. clear -Hhead.
      pose proof (drop_ws_suffix s) as [pre Hpre].
      assert (Hlen : length (drop_ws s) = S (length s)) by (rewrite Hhead; reflexivity).
      rewrite Hpre in Hlen at 2. rewrite length_app in Hlen. lia.
    + f_equal. apply IH; [exact (single_spaced_tail _ _ Hss) |].
      intros _. apply drop_ws_fixed.
      destruct s as [| d s]; [exact I |].
      destruct (is_ws d) eqn:Hd; [| reflexivity].
      exfalso. inversion Hs as [| ? ? Hdp _]; subst.
      pose proof (plain_ws_space d Hdp Hd) as ->.
      apply (Hss [] s). reflexivity.
  - f_equal. apply IH; [exact (single_spaced_tail _ _ Hss) |]. discriminate.
Qed.

Lemma strip_marks_app (a b : jsstring) :
  strip_marks (a ++ b) = strip_marks a ++ strip_marks b.
Proof. apply List.filter_app. Qed.

Lemma latin1_core_string (s : jsstring) :
  strip_marks (normalizeNFKD_latin1 (toLowerCase_latin1 s)) = flat_map latin1_core s.
Proof.
  induction s as [| c s IH]; [reflexivity |].
  unfold normalizeNFKD_latin1, toLowerCase_latin1 in *.
  cbn [map flat_map]. rewrite strip_marks_app, IH. reflexivity.
Qed.

Lemma latin1_below (c : N) :
  (c <? 0x100)%N = true -> In c (map N.of_nat (seq 0 256)).
Proof.
  intros Hc. apply N.ltb_lt in Hc.
  rewrite <- (N2Nat.id c). apply in_map, in_seq. lia.
Qed.

Lemma latin1_core_base (c : N) :
  (c <? 0x100)%N = true -> latin1_core (base_letter c) = latin1_core c.
Proof.
  intros Hc.
  assert (Hall : forallb (fun c => jsstring_eqb (latin1_core (base_letter c))
                                     (latin1_core c))
                   (map N.of_nat (seq 0 256)) = true)
    by (vm_compute; reflexivity).
  rewrite forallb_forall in Hall.
  specialize (Hall c (latin1_below c Hc)). unfold jsstring_eqb in Hall.
  apply bool_decide_eq_true in Hall. exact Hall.
Qed.

Lemma nfkd_lookup_miss (c : N) (table : list (N * jsstring)) :
  Forall (fun entry => (fst entry <? 0x100)%N = true) table ->
  (0x100 <= c)%N -> nfkd_lookup c table = [c].
Proof.
  intros Ht Hc. induction Ht as [| [k d] table Hk _ IH]; [reflexivity |].
  cbn [nfkd_lookup]. cbn [fst] in Hk. apply N.ltb_lt in Hk.
  destruct (N.eqb_spec c k); [lia | exact IH].
Qed.

Lemma latin1_core_mark (c : N) :
  is_combining_mark c = true -> latin1_core c = [].
Proof.
  intros Hm. unfold latin1_core.
  assert (Hc : (0x300 <= c)%N).
  { unfold is_combining_mark in Hm. apply andb_true_iff in Hm as [Hm _].
    apply N.leb_le, Hm. }
  assert (Hlow : lower_latin1_char c = c).
  { unfold lower_latin1_char.
    destruct (N.leb_spec c 90); [lia |]. rewrite andb_false_r.
    destruct (N.leb_spec c 0xDE); [lia |]. rewrite andb_false_r. reflexivity. }
  rewrite Hlow. unfold nfkd_latin1_char.
  destruct (N.ltb_spec c 0xA0); [lia |].
  rewrite nfkd_lookup_miss; [| | lia].
  - unfold strip_marks. cbn [List.filter]. rewrite Hm. reflexivity.
  - apply List.Forall_forall. intros entry Hin.
    assert (Hall : forallb (fun entry : N * jsstring => (fst entry <? 0x100)%N)
                     nfkd_latin1_table = true) by (vm_compute; reflexivity).
    rewrite forallb_forall in Hall. apply Hall, Hin.
Qed.

Lemma latin1_not_mark (c : N) :
  (c <? 0x100)%N = true -> is_combining_mark c = false.
Proof.
  intros Hc. apply N.ltb_lt in Hc. unfold is_combining_mark.
  destruct (N.leb_spec 0x300 c); [lia | reflexivity].
Qed.

Lemma scope_cases (c : N) :
  latin1_or_mark c = true
  <-> (c <? 0x100)%N = true \/ is_combining_mark c = true.
Proof. unfold latin1_or_mark, is_combining_mark. apply orb_true_iff. Qed.

Lemma latin1_core_fold (s : jsstring) :
  Forall (fun c => latin1_or_mark c = true) s ->
  flat_map latin1_core s = flat_map latin1_core (fold_letters s).
Proof.
  induction 1 as [| c s Hc _ IH]; [reflexivity |].
  unfold fold_letters in *. cbn [flat_map List.filter].
  apply scope_cases in Hc as [Hc | Hc].
  - assert (Hkeep : ((c <? 0x300) || (0x36F <? c))%N = true).
    { apply N.ltb_lt in Hc. destruct (N.ltb_spec c 0x300); [reflexivity | lia]. }
    rewrite Hkeep. cbn [map flat_map].
    rewrite (latin1_core_base c Hc), IH. reflexivity.
  - assert (Hdrop : ((c <? 0x300) || (0x36F <? c))%N = false).
    { unfold is_combining_mark in Hc. apply andb_true_iff in Hc as [H1 H2].
      apply N.leb_le in H1, H2.
      destruct (N.ltb_spec c 0x300); [lia |].
      destruct (N.ltb_spec 0x36F c); [lia | reflexivity]. }
    rewrite Hdrop, (latin1_core_mark c Hc). cbn [app]. exact IH.
Qed.

Lemma toLowerCase_latin1_scope (s : jsstring) :
  Forall (fun c => latin1_or_mark c = true) s ->
  Forall (fun c => latin1_or_mark c = true) (toLowerCase_latin1 s).
Proof.
  intros Hs. unfold toLowerCase_latin1. apply Forall_map.
  eapply List.Forall_impl; [| exact Hs]. cbn beta.
  intros c Hc. apply scope_cases in Hc as [Hc | Hc]; apply scope_cases.
  - left. apply N.ltb_lt in Hc. apply N.ltb_lt.
    unfold lower_latin1_char.
    destruct ((65 <=? c) && (c <=? 90))%N eqn:H1.
    + apply andb_true_iff in H1 as [_ H1]. apply N.leb_le in H1. lia.
    + destruct ((0xC0 <=? c) && (c <=? 0xDE) && negb (c =? 0xD7))%N eqn:H2; [| lia].
      apply andb_true_iff in H2 as [H2 _]. apply andb_true_iff in H2 as [_ H2].
      apply N.leb_le in H2. lia.
  - right.
    assert (Hc' : (0x300 <= c)%N).
    { unfold is_combining_mark in Hc. apply andb_true_iff in Hc as [Hc _].
      apply N.leb_le, Hc. }
    unfold lower_latin1_char.
    destruct (N.leb_spec c 90); [lia |]. rewrite andb_false_r.
    destruct (N.leb_spec c 0xDE); [lia |]. rewrite andb_false_r. exact Hc.
Qed.

Section NormalizerFacts.

Variables toLowerCase normalizeNFKD : jsstring -> jsstring.

(** What the proof of idempotence uses of the two Unicode operations:
    they leave lower-case ASCII letters, digits and spaces alone. *)
Hypothesis toLowerCase_plain :
  forall s, Forall plain_char s -> toLowerCase s = s.
Hypothesis normalizeNFKD_plain :
  forall s, Forall plain_char s -> normalizeNFKD s = s.

Local Abbreviation normalize := (normalizeAnswer toLowerCase normalizeNFKD).

(** Every result is in normal form: plain characters, single spaces,
    no white space at either end. This part needs nothing of the
    Unicode operations. *)
Lemma normalizeAnswer_normal_form (x : jsstring) :
  Forall plain_char (normalize x)
  /\ single_spaced (normalize x)
  /\ trimmed (normalize x).
Proof.
  unfold normalizeAnswer. split; [| split].
  - apply Forall_trim, collapse_blank_plain.
  - apply single_spaced_trim, collapse_ws_single_spaced.
  - apply trim_trimmed.
Qed.

Lemma normalizeAnswer_fixed (r : jsstring) :
  Forall plain_char r -> single_spaced r -> trimmed r -> normalize r = r.
Proof.
  intros Hp Hs Ht. unfold normalizeAnswer.
  rewrite (toLowerCase_plain r Hp), (normalizeNFKD_plain r Hp).
  rewrite (strip_marks_plain r Hp), (blank_other_plain r Hp).
  rewrite (collapse_ws_plain r false Hp Hs) by discriminate.
  apply trim_fixed, Ht.
Qed.

(** On a string of Latin-1 code units and combining marks the answer is
    the one computed with the Latin-1 tables, and it depends on the
    string only through its letters without case and diacritics. *)
Lemma normalizeAnswer_latin1 (x : jsstring) :
  (forall s, Forall (fun c => latin1_or_mark c = true) s ->
             toLowerCase s = toLowerCase_latin1 s) ->
  (forall s, Forall (fun c => latin1_or_mark c = true) s ->
             strip_marks (normalizeNFKD s) = strip_marks (normalizeNFKD_latin1 s)) ->
  Forall (fun c => latin1_or_mark c = true) x ->
  normalize x
  = trim (collapse_ws false (blank_other (flat_map latin1_core (fold_letters x)))).
Proof.
  intros Hlow Hnfkd Hx. unfold normalizeAnswer.
  rewrite (Hlow x Hx), (Hnfkd _ (toLowerCase_latin1_scope x Hx)).
  rewrite latin1_core_string, (latin1_core_fold x Hx). reflexivity.
Qed.

(** C3. [normalizeAnswer] is defined on every string and idempotent.
    It is insensitive to case and diacritics: on the strings of Latin-1
    code units and combining marks, where the two Unicode operations are
    the tabulated ones (the lower-casing as it stands; the decomposition
    up to the marks, which the runtime may reorder or decompose and
    which the next replacement removes), two answers with equal
    [fold_letters], that is, equal once the combining marks are dropped
    and every letter is replaced by its base letter in lower case,
    normalize to the same string. In particular it identifies "Café!"
    (with the precomposed U+00E9) with "cafe". *)
Theorem normalizeAnswer_idempotent :
  (forall x, exists y, normalize x = y)
  /\ (forall x, normalize (normalize x) = normalize x)
  /\ ((forall s, Forall (fun c => latin1_or_mark c = true) s ->
                 toLowerCase s = toLowerCase_latin1 s) ->
      (forall s, Forall (fun c => latin1_or_mark c = true) s ->
                 strip_marks (normalizeNFKD s)
                 = strip_marks (normalizeNFKD_latin1 s)) ->
      (forall x y,
         Forall (fun c => latin1_or_mark c = true) x ->
         Forall (fun c => latin1_or_mark c = true) y ->
         fold_letters x = fold_letters y ->
         normalize x = normalize y)
      /\ normalize [67; 97; 102; 0xE9; 33]%N = normalize (js "cafe")).
Proof.
  split; [| split].
  - intros x. eexists. reflexivity.
  - intros x.
    destruct (normalizeAnswer_normal_form x) as (Hp & Hs & Ht).
    apply normalizeAnswer_fixed; assumption.
  - intros Hlow Hnfkd. split.
    + intros x y Hx Hy Hfold.
      rewrite (normalizeAnswer_latin1 x Hlow Hnfkd Hx),
              (normalizeAnswer_latin1 y Hlow Hnfkd Hy), Hfold.
      reflexivity.
    + rewrite !(normalizeAnswer_latin1 _ Hlow Hnfkd) by (repeat constructor).
      vm_compute. reflexivity.
Qed.

End NormalizerFacts.

Lemma lower_latin1_plain_char (c : N) :
  plain_char c -> lower_latin1_char c = c.
Proof.
  unfold plain_char, is_lower_alnum, lower_latin1_char.
  rewrite !orb_true_iff, !andb_true_iff, !N.leb_le. intros H.
  destruct (N.leb_spec 65 c), (N.leb_spec c 90); cbn [andb]; try lia;
    destruct (N.leb_spec 0xC0 c), (N.leb_spec c 0xDE); cbn [andb]; try lia;
    reflexivity.
Qed.

Lemma toLowerCase_latin1_plain (s : jsstring) :
  Forall plain_char s -> toLowerCase_latin1 s = s.
Proof.
  induction 1 as [| c s Hc _ IH]; [reflexivity |].
  unfold toLowerCase_latin1 in *. cbn [map].
  rewrite IH, (lower_latin1_plain_char c Hc). reflexivity.
Qed.

Lemma nfkd_latin1_plain_char (c : N) :
  plain_char c -> nfkd_latin1_char c = [c].
Proof.
  unfold plain_char, is_lower_alnum, nfkd_latin1_char.
  rewrite !orb_true_iff, !andb_true_iff, !N.leb_le. intros H.
  destruct (N.ltb_spec c 0xA0); [reflexivity | lia].
Qed.

Lemma normalizeNFKD_latin1_plain (s : jsstring) :
  Forall plain_char s -> normalizeNFKD_latin1 s = s.
Proof.
  induction 1 as [| c s Hc _ IH]; [reflexivity |].
  unfold normalizeNFKD_latin1 in *. cbn [flat_map].
  rewrite IH, (nfkd_latin1_plain_char c Hc). reflexivity.
Qed.

(** Idempotence on a sample answer; "Café!", "CAFÉS" and "Cafés" written
    with a combining acute accent against their plain forms. *)
Lemma normalizeAnswer_idempotent_witness :
  let normalize := normalizeAnswer toLowerCase_latin1 normalizeNFKD_latin1 in
  normalize (normalize (js "  Hello,   WORLD!  ")) = normalize (js "  Hello,   WORLD!  ")
  /\ normalize [67; 97; 102; 0xE9; 33]%N = normalize (js "cafe")
  /\ normalize [67; 65; 70; 0xC9; 83]%N = normalize (js "cafes")
  /\ normalize [67; 97; 102; 101; 0x301; 115]%N = normalize (js "cafes")
  /\ normalize (js "cafes") = js "cafes".
Proof.
  destruct (normalizeAnswer_idempotent
              toLowerCase_latin1 normalizeNFKD_latin1
              toLowerCase_latin1_plain normalizeNFKD_latin1_plain)
    as (_ & Hidem & Hfold).
  destruct Hfold as [Hsame Hcafe]; [reflexivity | reflexivity |].
  cbv zeta.
  split; [apply Hidem |].
  split; [exact Hcafe |].
  split; [apply Hsame; [repeat constructor | repeat constructor | reflexivity] |].
  split; [apply Hsame; [repeat constructor | repeat constructor | reflexivity] |].
  vm_compute. reflexivity.
Defined.

Example normalizeAnswer_paris :
  normalizeAnswer toLowerCase_latin1 normalizeNFKD_latin1 (js "Paris!!")
  = js "paris".
Proof. vm_compute. reflexivity. Qed.

Example normalizeAnswer_spaces :
  normalizeAnswer toLowerCase_latin1 normalizeNFKD_latin1
    (js "  Hello,   WORLD!  ")
  = js "hello world".
Proof. vm_compute. reflexivity. Qed.

Example normalizeAnswer_cafe :
  normalizeAnswer toLowerCase_latin1 normalizeNFKD_latin1
    [67; 97; 102; 0xE9; 33]%N
  = js "cafe".
Proof. vm_compute. reflexivity. Qed.

(** ** The store: settlement *)

Lemma jsstring_eqb_eq (a b : jsstring) : jsstring_eqb a b = true <-> a = b.
Proof. unfold jsstring_eqb. apply bool_decide_eq_true. Qed.

Lemma jsstring_eqb_refl (a : jsstring) : jsstring_eqb a a = true.
Proof. apply jsstring_eqb_eq. reflexivity. Qed.

Lemma jsstring_eqb_neq (a b : jsstring) : jsstring_eqb a b = false <-> a <> b.
Proof. unfold jsstring_eqb. apply bool_decide_eq_false. Qed.

Lemma find_map_preserve {A} (p : A -> bool) (f : A -> A) (rows : list A) :
  (forall r, p (f r) = p r) ->
  List.find p (map f rows) = option_map f (List.find p rows).
Proof.
  intros Hp. induction rows as [| r rows IH]; [reflexivity |].
  cbn [map List.find]. rewrite Hp.
  destruct (p r); [reflexivity | exact IH].
Qed.

Lemma filter_nonempty_iff {A} (p : A -> bool) (rows : list A) :
  ((0 <? Z.of_nat (length (List.filter p rows))) = true)
  <-> (exists r, In r rows /\ p r = true).
Proof.
  rewrite Z.ltb_lt. split.
  - intros Hlen. destruct (List.filter p rows) as [| r t] eqn:Hf.
    + cbn in Hlen. lia.
    + assert (Hin : In r (List.filter p rows)) by (rewrite Hf; left; reflexivity).
      apply filter_In in Hin. exists r. exact Hin.
  - intros (r & Hin & Hr).
    assert (Hin' : In r (List.filter p rows)) by (apply filter_In; auto).
    destruct (List.filter p rows); [contradiction | cbn; lia].
Qed.

Lemma filter_none {A} (p : A -> bool) (rows : list A) :
  (forall r, In r rows -> p r = false) ->
  map (fun r => if p r then r else r) rows = rows /\ List.filter p rows = [].
Proof.
  intros H. induction rows as [| r rows IH]; [split; reflexivity |].
  destruct IH as [IH1 IH2]; [intros x Hx; apply H; right; exact Hx |].
  cbn [map List.filter]. rewrite (H r) by (left; reflexivity).
  rewrite IH1, IH2. split; reflexivity.
Qed.

Lemma update_none {A} (p : A -> bool) (f : A -> A) (rows : list A) :
  (forall r, In r rows -> p r = false) ->
  map (fun r => if p r then f r else r) rows = rows.
Proof.
  intros H. induction rows as [| r rows IH]; [reflexivity |].
  cbn [map]. rewrite (H r) by (left; reflexivity).
  rewrite IH; [reflexivity |]. intros x Hx. apply H. right. exact Hx.
Qed.

Lemma db_eta (db : Db) :
  with_trivia_rewards (trivia_rewards db) db = db.
Proof. destruct db. reflexivity. Qed.

Lemma unused_with_id_true (id : jsstring) (r : TriviaRecord) :
  unused_with_id id r = true <-> trivia_id r = id /\ used_at r = None.
Proof.
  unfold unused_with_id, has_trivia_id.
  rewrite andb_true_iff, jsstring_eqb_eq, bool_decide_eq_true. reflexivity.
Qed.

(** [markClaimUsed] reports a change exactly when some row of the round
    is still unused; without one it leaves the database as it was. *)
Lemma markClaimUsed_true_iff (params : MarkClaimUsedParams) (db : Db) :
  fst (markClaimUsed params db) = true
  <-> exists r, In r (trivia_rewards db)
                /\ trivia_id r = mu_triviaId params /\ used_at r = None.
Proof.
  unfold markClaimUsed, sql_update. cbn [fst].
  rewrite filter_nonempty_iff.
  split; intros (r & Hin & Hr); exists r; split; try exact Hin;
    apply unused_with_id_true; exact Hr.
Qed.

Lemma markClaimUsed_false (params : MarkClaimUsedParams) (db : Db) :
  fst (markClaimUsed params db) = false -> snd (markClaimUsed params db) = db.
Proof.
  intros Hf. unfold markClaimUsed, sql_update in *. cbn [fst snd] in *.
  rewrite update_none; [apply db_eta |].
  intros r Hin. destruct (unused_with_id (mu_triviaId params) r) eqn:Hr;
    [| reflexivity].
  exfalso.
  assert (Ht : (0 <? Z.of_nat (length (List.filter
                  (unused_with_id (mu_triviaId params)) (trivia_rewards db))))
               = true).
  { apply filter_nonempty_iff. exists r. auto. }
  congruence.
Qed.

Lemma getTrivia_markClaimUsed (params : MarkClaimUsedParams) (db : Db)
    (id : jsstring) :
  getTrivia id (snd (markClaimUsed params db))
  = option_map
      (fun r => if unused_with_id (mu_triviaId params) r
                then set_used params r else r)
      (getTrivia id db).
Proof.
  unfold getTrivia, sql_get, markClaimUsed, sql_update. cbn [snd trivia_rewards
    with_trivia_rewards].
  apply find_map_preserve. intros r.
  destruct (unused_with_id _ r); reflexivity.
Qed.

(** C10. When the round [r] found under the settlement's id is still
    unused, [markClaimUsed] succeeds and the stored round afterwards has,
    besides [used_at], [used_address] and [txid], its [invalid_attempts]
    set to 0 and its [lock_expires_at] cleared, whatever they were; the
    identifying columns are those of [r]. *)
Theorem markClaimUsed_resets_lockout
    (params : MarkClaimUsedParams) (db : Db) (r : TriviaRecord) :
  getTrivia (mu_triviaId params) db = Some r ->
  used_at r = None ->
  fst (markClaimUsed params db) = true
  /\ exists r',
       getTrivia (mu_triviaId params) (snd (markClaimUsed params db)) = Some r'
       /\ used_at r' = Some (mu_usedAt params)
       /\ used_address r' = Some (mu_usedAddress params)
       /\ txid r' = Some (mu_txid params)
       /\ invalid_attempts r' = 0
       /\ lock_expires_at r' = None
       /\ trivia_id r' = trivia_id r
       /\ status r' = status r
       /\ claim_code r' = claim_code r
       /\ winner_twitter_user_id r' = winner_twitter_user_id r
       /\ reward_rmz r' = reward_rmz r.
Proof.
  intros Hget Hunused.
  assert (Hid : trivia_id r = mu_triviaId params /\ In r (trivia_rewards db)).
  { unfold getTrivia, sql_get in Hget.
    destruct (find_some _ _ Hget) as [Hin Hr].
    split; [apply jsstring_eqb_eq; exact Hr | exact Hin]. }
  destruct Hid as [Hid Hin].
  split.
  - apply markClaimUsed_true_iff. exists r. auto.
  - exists (set_used params r).
    rewrite getTrivia_markClaimUsed, Hget. cbn [option_map].
    assert (Hcond : unused_with_id (mu_triviaId params) r = true)
      by (apply unused_with_id_true; auto).
    rewrite Hcond. repeat split; reflexivity.
Qed.

Lemma markClaimUsed_resets_lockout_witness :
  getTrivia (js "trivia-001") sample_db = Some sample_round
  /\ invalid_attempts sample_round = 2
  /\ lock_expires_at sample_round = Some 1700000700000
  /\ fst (markClaimUsed sample_mark sample_db) = true
  /\ exists r',
       getTrivia (js "trivia-001") (snd (markClaimUsed sample_mark sample_db))
       = Some r'
       /\ invalid_attempts r' = 0 /\ lock_expires_at r' = None.
Proof.
  destruct (markClaimUsed_resets_lockout sample_mark sample_db sample_round
              eq_refl eq_refl) as (Hok & r' & Hget & _ & _ & _ & Hia & Hlock & _).
  repeat split; try reflexivity; try exact Hok.
  exists r'. auto.
Defined.

Lemma getDailySpend_increment (k k' : jsstring) (amount : Z) (db : Db) :
  getDailySpend k' (incrementDailySpend k amount db)
  = if decide (k = k') then getDailySpend k db + amount else getDailySpend k' db.
Proof.
  unfold getDailySpend, incrementDailySpend. cbn [daily_spend with_daily_spend].
  destruct (daily_spend db !! k) as [total |] eqn:Hk;
    rewrite lookup_insert; destruct (decide (k = k')); cbn; auto; lia.
Qed.

Lemma payouts_settled_map (f : TriviaRecord -> TriviaRecord) (db : Db) :
  (forall r, trivia_id (f r) = trivia_id r) ->
  (forall r, used_at r <> None -> used_at (f r) <> None) ->
  payouts_settled db ->
  payouts_settled (with_trivia_rewards (map f (trivia_rewards db)) db).
Proof.
  intros Hid Hused Hinv p Hp. cbn [trivia_payouts with_trivia_rewards] in Hp.
  destruct (Hinv p Hp) as [(r & Hin & Hr) Hall].
  cbn [trivia_rewards with_trivia_rewards]. split.
  - exists (f r). split; [apply in_map; exact Hin | rewrite Hid; exact Hr].
  - intros r' Hin' Hr'. apply in_map_iff in Hin' as (r0 & <- & Hin0).
    apply Hused. apply Hall; [exact Hin0 | rewrite <- Hid; exact Hr'].
Qed.

Lemma payouts_settled_update (cond : TriviaRecord -> bool)
    (set : TriviaRecord -> TriviaRecord) (db : Db) :
  (forall r, trivia_id (set r) = trivia_id r) ->
  (forall r, used_at r <> None -> used_at (set r) <> None) ->
  payouts_settled db ->
  payouts_settled
    (with_trivia_rewards (fst (sql_update cond set (trivia_rewards db))) db).
Proof.
  intros Hid Hused. unfold sql_update. cbn [fst].
  apply payouts_settled_map; intros r; destruct (cond r); auto.
Qed.

Lemma payouts_settled_createTrivia (params : CreateTriviaParams) (db db' : Db) :
  createTrivia params db = Some db' -> payouts_settled db -> payouts_settled db'.
Proof.
  unfold createTrivia.
  destruct (existsb _ _) eqn:Hex; [discriminate |].
  intros [= <-] Hinv p Hp. cbn [trivia_payouts with_trivia_rewards] in Hp.
  destruct (Hinv p Hp) as [(r & Hin & Hr) Hall].
  cbn [trivia_rewards with_trivia_rewards]. split.
  - exists r. split; [apply in_or_app; left; exact Hin | exact Hr].
  - intros r' Hin' Hr'. apply in_app_or in Hin' as [Hin' | [<- | []]].
    + apply Hall; assumption.
    + exfalso. cbn [trivia_id] in Hr'.
      assert (Hx : existsb (has_trivia_id (ct_triviaId params)) (trivia_rewards db)
                   = true).
      { apply existsb_exists. exists r. split; [exact Hin |].
        apply jsstring_eqb_eq. congruence. }
      congruence.
Qed.

Lemma payouts_of_app (id : jsstring) (db : Db) (p : PayoutRecord) :
  payouts_of id (with_trivia_payouts (trivia_payouts db ++ [p]) db)
  = payouts_of id db ++ (if jsstring_eqb (p_trivia_id p) id then [p] else []).
Proof.
  unfold payouts_of. cbn [trivia_payouts with_trivia_payouts].
  rewrite List.filter_app. reflexivity.
Qed.

Lemma payouts_of_nil (id : jsstring) (db : Db) :
  (forall p, In p (trivia_payouts db) -> p_trivia_id p <> id) ->
  payouts_of id db = [].
Proof.
  intros H. unfold payouts_of.
  destruct (List.filter _ _) as [| p t] eqn:Hf; [reflexivity |].
  assert (Hin : In p (p :: t)) by (left; reflexivity).
  rewrite <- Hf in Hin. apply filter_In in Hin as [Hin Hp].
  apply jsstring_eqb_eq in Hp. exfalso. exact (H p Hin Hp).
Qed.

(** The settlement keeps both invariants. *)
Lemma recordClaimAndPayout_invariant (params : ClaimAndPayoutParams) (db : Db) :
  payouts_settled db /\ one_payout_per_round db ->
  payouts_settled (snd (recordClaimAndPayout params db))
  /\ one_payout_per_round (snd (recordClaimAndPayout params db)).
Proof.
  intros [Hset Hone]. unfold recordClaimAndPayout.
  set (mp := {| mu_triviaId := cp_triviaId params;
                mu_usedAt := cp_usedAt params;
                mu_usedAddress := cp_usedAddress params;
                mu_txid := cp_txid params |}).
  pose proof (markClaimUsed_true_iff mp db) as Htrue.
  pose proof (markClaimUsed_false mp db) as Hfalse.
  destruct (markClaimUsed mp db) as [updated db1] eqn:Hm.
  cbn [fst snd] in *.
  destruct updated; cbn [negb snd].
  - destruct (proj1 Htrue eq_refl) as (r0 & Hin0 & Hid0 & Hunused0).
    change (trivia_id r0 = cp_triviaId params) in Hid0.
    assert (Hdb1 : db1 = with_trivia_rewards
                      (fst (sql_update (unused_with_id (cp_triviaId params))
                              (set_used mp) (trivia_rewards db))) db).
    { unfold markClaimUsed in Hm. cbn in Hm. injection Hm as _ <-. reflexivity. }
    assert (Hset1 : payouts_settled db1).
    { rewrite Hdb1. apply payouts_settled_update; auto; discriminate. }
    assert (Hfresh : forall p, In p (trivia_payouts db) ->
                               p_trivia_id p <> cp_triviaId params).
    { intros p Hp Heq. destruct (Hset p Hp) as [_ Hall].
      apply (Hall r0 Hin0); [congruence | exact Hunused0]. }
    assert (Hpay1 : trivia_payouts db1 = trivia_payouts db)
      by (rewrite Hdb1; reflexivity).
    split.
    + intros p Hp.
      cbn [incrementDailySpend recordPayout trivia_payouts trivia_rewards
           with_daily_spend with_trivia_payouts] in *.
      apply in_app_or in Hp as [Hp | [<- | []]]; [exact (Hset1 p Hp) |].
      cbn [p_trivia_id rp_triviaId]. rewrite Hdb1.
      cbn [trivia_rewards with_trivia_rewards sql_update fst]. split.
      * exists (set_used mp r0). split; [| exact Hid0].
        apply in_map_iff. exists r0. split; [| exact Hin0].
        assert (Hc : unused_with_id (cp_triviaId params) r0 = true)
          by (apply unused_with_id_true; auto).
        rewrite Hc. reflexivity.
      * intros r' Hin' Hid'. apply in_map_iff in Hin' as (r1 & <- & Hin1).
        destruct (unused_with_id (cp_triviaId params) r1) eqn:Hc;
          [discriminate |].
        intros Hnone. cbn in Hid'.
        assert (unused_with_id (cp_triviaId params) r1 = true)
          by (apply unused_with_id_true; auto).
        congruence.
    + intros id. unfold payouts_of.
      cbn [incrementDailySpend recordPayout trivia_payouts
           with_daily_spend with_trivia_payouts].
      rewrite List.filter_app, length_app, Hpay1. cbn [List.filter p_trivia_id rp_triviaId].
      destruct (jsstring_eqb (cp_triviaId params) id) eqn:Heq.
      * apply jsstring_eqb_eq in Heq. subst id.
        fold (payouts_of (cp_triviaId params) db).
        rewrite (payouts_of_nil _ _ Hfresh). cbn. lia.
      * cbn. specialize (Hone id). unfold payouts_of in Hone. lia.
  - rewrite (Hfalse eq_refl). split; assumption.
Qed.

Lemma store_step_invariant (db : Db) (op : StoreOp) :
  payouts_settled db /\ one_payout_per_round db ->
  payouts_settled (store_step db op) /\ one_payout_per_round (store_step db op).
Proof.
  intros [Hset Hone].
  destruct op as [params | replies | params | id | params | code now | params
                  | params]; cbn [store_step].
  - destruct (createTrivia params db) as [db' |] eqn:Hc; cbn [default];
      [| split; assumption].
    split; [exact (payouts_settled_createTrivia _ _ _ Hc Hset) |].
    unfold createTrivia in Hc. destruct (existsb _ _); [discriminate |].
    injection Hc as <-. exact Hone.
  - unfold addReplies. destruct replies; split; assumption.
  - split; [| exact Hone].
    unfold closeTrivia. apply payouts_settled_update; auto.
  - split; [| exact Hone].
    unfold clearClaimLock. apply payouts_settled_update; auto.
  - split; [| exact Hone].
    unfold recordInvalidAttempt. cbn [snd].
    apply payouts_settled_update; auto.
  - split; assumption.
  - split; assumption.
  - apply recordClaimAndPayout_invariant. split; assumption.
Qed.

Lemma store_run_invariant (ops : list StoreOp) (db : Db) :
  payouts_settled db /\ one_payout_per_round db ->
  payouts_settled (store_run ops db) /\ one_payout_per_round (store_run ops db).
Proof.
  revert db. induction ops as [| op ops IH]; intros db Hinv; [exact Hinv |].
  cbn [store_run fold_left]. apply IH. apply store_step_invariant. exact Hinv.
Qed.

Lemma empty_db_invariant :
  payouts_settled empty_db /\ one_payout_per_round empty_db.
Proof.
  split; [intros p [] | intros id; cbn; lia].
Qed.

(** C1. The settlement [recordClaimAndPayout] is one all-or-nothing
    step. It reports [true] exactly when a row of the round with
    [used_at] NULL exists; rows that are already used (and rows of other
    rounds) are left as they are. When it reports [true] the round is
    marked used with the given time, address and transaction id, exactly
    one PayoutRecord is appended and the daily total of the day key grows
    by the amount (the other days are untouched). When it reports [false]
    the whole database is unchanged. Consequently, in every store reached
    from the empty one through the store's operations, a round has at
    most one payout. *)
Theorem recordClaimAndPayout_atomic (params : ClaimAndPayoutParams) (db : Db) :
  let updated := fst (recordClaimAndPayout params db) in
  let db' := snd (recordClaimAndPayout params db) in
  (updated = true <->
     exists r, In r (trivia_rewards db)
               /\ trivia_id r = cp_triviaId params /\ used_at r = None)
  /\ (forall id r,
        getTrivia id db = Some r ->
        used_at r <> None \/ id <> cp_triviaId params ->
        getTrivia id db' = Some r)
  /\ (updated = true ->
        (forall r,
           getTrivia (cp_triviaId params) db = Some r -> used_at r = None ->
           exists r',
             getTrivia (cp_triviaId params) db' = Some r'
             /\ used_at r' = Some (cp_usedAt params)
             /\ used_address r' = Some (cp_usedAddress params)
             /\ txid r' = Some (cp_txid params))
        /\ trivia_payouts db'
           = trivia_payouts db ++
               [ {| p_id := Z.of_nat (length (trivia_payouts db)) + 1;
                    p_trivia_id := cp_triviaId params;
                    p_twitter_user_id := cp_twitterUserId params;
                    p_address := cp_usedAddress params;
                    p_rmz_amount := cp_rmzAmount params;
                    p_txid := cp_txid params;
                    p_created_at := cp_usedAt params;
                    p_day_key := cp_dayKey params |} ]
        /\ (forall k,
              getDailySpend k db'
              = if decide (cp_dayKey params = k)
                then getDailySpend k db + cp_rmzAmount params
                else getDailySpend k db))
  /\ (updated = false -> db' = db)
  /\ (forall ops id,
        (length (payouts_of id (store_run ops empty_db)) <= 1)%nat).
Proof.
  cbv zeta. unfold recordClaimAndPayout.
  set (mp := {| mu_triviaId := cp_triviaId params;
                mu_usedAt := cp_usedAt params;
                mu_usedAddress := cp_usedAddress params;
                mu_txid := cp_txid params |}).
  pose proof (markClaimUsed_true_iff mp db) as Htrue.
  pose proof (markClaimUsed_false mp db) as Hfalse.
  pose proof (getTrivia_markClaimUsed mp db) as Hget.
  assert (Hpay : trivia_payouts (snd (markClaimUsed mp db)) = trivia_payouts db)
    by reflexivity.
  assert (Hspend : forall k, getDailySpend k (snd (markClaimUsed mp db))
                             = getDailySpend k db) by reflexivity.
  destruct (markClaimUsed mp db) as [updated db1] eqn:Hm.
  cbn [fst snd] in *.
  assert (Hkeep : forall id r,
             getTrivia id db = Some r ->
             used_at r <> None \/ id <> cp_triviaId params ->
             getTrivia id db1 = Some r).
  { intros id r Hr Hcase. rewrite Hget, Hr. cbn [option_map].
    destruct (unused_with_id (mu_triviaId mp) r) eqn:Hc; [| reflexivity].
    apply unused_with_id_true in Hc as [Hid Hnone]. exfalso.
    destruct Hcase as [Hused | Hne]; [exact (Hused Hnone) |].
    apply Hne.
    unfold getTrivia, sql_get in Hr. apply find_some in Hr as [_ Hr].
    apply jsstring_eqb_eq in Hr. rewrite <- Hr. exact Hid. }
  destruct updated; cbn [negb fst snd].
  - split; [exact Htrue |]. split; [exact Hkeep |].
    split; [| split; [discriminate |]].
    + intros _. split; [| split].
      * intros r Hr Hnone. exists (set_used mp r).
        change (getTrivia (cp_triviaId params) (incrementDailySpend _ _ _))
          with (getTrivia (mu_triviaId mp) db1).
        rewrite Hget. change (mu_triviaId mp) with (cp_triviaId params) at 2.
        rewrite Hr. cbn [option_map].
        assert (Hc : unused_with_id (mu_triviaId mp) r = true).
        { apply unused_with_id_true. split; [| exact Hnone].
          unfold getTrivia, sql_get in Hr. apply find_some in Hr as [_ Hr].
          apply jsstring_eqb_eq. exact Hr. }
        rewrite Hc. repeat split; reflexivity.
      * cbn [incrementDailySpend recordPayout trivia_payouts
             with_daily_spend with_trivia_payouts].
        rewrite Hpay. reflexivity.
      * intros k. rewrite getDailySpend_increment.
        cbn [rp_dayKey rp_rmzAmount].
        change (getDailySpend ?a (recordPayout ?b db1))
          with (getDailySpend a db1).
        rewrite !Hspend.
        destruct (decide (cp_dayKey params = k)) as [-> |]; reflexivity.
    + intros ops id. apply store_run_invariant, empty_db_invariant.
  - rewrite (Hfalse eq_refl) in *.
    split; [exact Htrue |]. split; [exact Hkeep |].
    split; [discriminate |]. split; [reflexivity |].
    intros ops id. apply store_run_invariant, empty_db_invariant.
Qed.

Lemma recordClaimAndPayout_atomic_witness :
  let first := recordClaimAndPayout sample_settlement sample_db in
  let second := recordClaimAndPayout sample_settlement (snd first) in
  fst first = true
  /\ length (trivia_payouts (snd first)) = 1%nat
  /\ getDailySpend (js "2023-11-14") (snd first) = 3
  /\ fst second = false
  /\ snd second = snd first.
Proof.
  cbv zeta.
  destruct (recordClaimAndPayout_atomic sample_settlement sample_db)
    as (Hiff & _ & Hall & _ & _).
  assert (Hfirst : fst (recordClaimAndPayout sample_settlement sample_db) = true).
  { apply Hiff. exists sample_round.
    split; [left; reflexivity | split; reflexivity]. }
  destruct (Hall Hfirst) as (_ & Hpay & Hspend).
  destruct (recordClaimAndPayout_atomic sample_settlement
              (snd (recordClaimAndPayout sample_settlement sample_db)))
    as (_ & _ & _ & Hnone & _).
  split; [exact Hfirst |].
  split; [rewrite Hpay; reflexivity |].
  split; [rewrite Hspend; reflexivity |].
  assert (Hsecond : fst (recordClaimAndPayout sample_settlement
                           (snd (recordClaimAndPayout sample_settlement sample_db)))
                    = false) by (vm_compute; reflexivity).
  split; [exact Hsecond | exact (Hnone Hsecond)].
Defined.

(** ** The store: attempt counters *)

(** On a stored lock that is NULL or a non-zero time, the code's
    computation is the lazy-expiry step. *)
Lemma next_attempt_lazy_expiry (p : AttemptParams) (a : Z) (l : option Z) :
  l <> Some 0 ->
  result_counter (next_attempt p a l)
  = lazy_expiry_step (at_now p) (at_maxAttempts p) (at_lockMs p) (a, l).
Proof.
  intros Hl. unfold result_counter, next_attempt, lazy_expiry_step.
  cbn [invalidAttempts lockExpiresAt snd].
  destruct l as [e |]; [| reflexivity].
  assert (He : e <> 0) by congruence.
  cbn [truthy_num]. apply Z.eqb_neq in He. rewrite He. cbn [negb andb].
  destruct (e <=? at_now p); reflexivity.
Qed.

Lemma next_attempt_lock_nonzero (p : AttemptParams) (a : Z) (l : option Z) :
  sane_call p -> l <> Some 0 -> lockExpiresAt (next_attempt p a l) <> Some 0.
Proof.
  intros [Hnow Hlock] Hl. unfold next_attempt. cbn [lockExpiresAt].
  destruct (at_maxAttempts p <=? _).
  - intros [= H]. lia.
  - destruct l as [e |]; [| discriminate].
    destruct (truthy_num (Some e) && (e <=? at_now p)); [discriminate | exact Hl].
Qed.

Lemma getTrivia_recordInvalidAttempt (p : AttemptParams) (db : Db) (id : jsstring) :
  getTrivia id (snd (recordInvalidAttempt p db))
  = option_map
      (fun r =>
         if has_trivia_id (at_key p) r
         then set_lock (invalidAttempts (fst (recordInvalidAttempt p db)))
                       (lockExpiresAt (fst (recordInvalidAttempt p db))) r
         else r)
      (getTrivia id db).
Proof.
  unfold getTrivia, sql_get, recordInvalidAttempt, sql_update.
  cbn [fst snd trivia_rewards with_trivia_rewards].
  apply find_map_preserve. intros r.
  destruct (has_trivia_id (at_key p) r); reflexivity.
Qed.

Lemma getTrivia_has_id (id : jsstring) (db : Db) (r : TriviaRecord) :
  getTrivia id db = Some r -> trivia_id r = id.
Proof.
  unfold getTrivia, sql_get. intros H. apply find_some in H as [_ H].
  apply jsstring_eqb_eq. exact H.
Qed.

(** One call against a round. *)
Lemma recordInvalidAttempt_step (p : AttemptParams) (db : Db) (r : TriviaRecord) :
  getTrivia (at_key p) db = Some r ->
  lock_expires_at r <> Some 0 ->
  result_counter (fst (recordInvalidAttempt p db))
  = lazy_expiry_step (at_now p) (at_maxAttempts p) (at_lockMs p) (round_counter r)
  /\ exists r',
       getTrivia (at_key p) (snd (recordInvalidAttempt p db)) = Some r'
       /\ round_counter r'
          = lazy_expiry_step (at_now p) (at_maxAttempts p) (at_lockMs p)
              (round_counter r)
       /\ used_at r' = used_at r.
Proof.
  intros Hget Hl.
  assert (Hres : result_counter (fst (recordInvalidAttempt p db))
                 = lazy_expiry_step (at_now p) (at_maxAttempts p) (at_lockMs p)
                     (round_counter r)).
  { unfold recordInvalidAttempt. cbn [fst].
    change (sql_get (has_trivia_id (at_key p)) (trivia_rewards db))
      with (getTrivia (at_key p) db).
    rewrite Hget. apply next_attempt_lazy_expiry. exact Hl. }
  split; [exact Hres |].
  rewrite getTrivia_recordInvalidAttempt, Hget. cbn [option_map].
  unfold has_trivia_id. rewrite (getTrivia_has_id _ _ _ Hget), jsstring_eqb_refl.
  eexists. split; [reflexivity |]. split; [exact Hres | reflexivity].
Qed.

(** A call against another round leaves this round's row alone. *)
Lemma recordInvalidAttempt_other (p : AttemptParams) (db : Db)
    (id : jsstring) (r : TriviaRecord) :
  getTrivia id db = Some r -> at_key p <> id ->
  getTrivia id (snd (recordInvalidAttempt p db)) = Some r.
Proof.
  intros Hget Hne.
  rewrite getTrivia_recordInvalidAttempt, Hget. cbn [option_map].
  unfold has_trivia_id. rewrite (getTrivia_has_id _ _ _ Hget).
  assert (Hf : jsstring_eqb id (at_key p) = false)
    by (apply jsstring_eqb_neq; congruence).
  rewrite Hf. reflexivity.
Qed.

Lemma lazy_expiry_step_lock_nonzero (p : AttemptParams) (c : Z * option Z) :
  sane_call p -> snd c <> Some 0 ->
  snd (lazy_expiry_step (at_now p) (at_maxAttempts p) (at_lockMs p) c) <> Some 0.
Proof.
  intros Hs Hl. destruct c as [a l]. cbn [snd] in Hl.
  rewrite <- (next_attempt_lazy_expiry p a l Hl). cbn [result_counter snd].
  apply next_attempt_lock_nonzero; assumption.
Qed.

(** Any sequence of calls against rounds: the stored counter of a round
    is the lazy-expiry run over the calls made against that round. *)
Lemma record_round_attempts_run (calls : list AttemptParams) (db : Db)
    (id : jsstring) (r : TriviaRecord) :
  Forall sane_call calls ->
  getTrivia id db = Some r ->
  lock_expires_at r <> Some 0 ->
  exists r',
    getTrivia id (record_round_attempts calls db) = Some r'
    /\ round_counter r' = lazy_expiry_run (calls_for id calls) (round_counter r).
Proof.
  intros Hsane. revert db r.
  induction Hsane as [| p calls Hp _ IH]; intros db r Hget Hl.
  - exists r. split; [exact Hget | reflexivity].
  - cbn [record_round_attempts fold_left calls_for List.filter].
    fold (record_round_attempts calls (snd (recordInvalidAttempt p db))).
    fold (calls_for id calls).
    destruct (jsstring_eqb (at_key p) id) eqn:Hk.
    + apply jsstring_eqb_eq in Hk. subst id.
      destruct (recordInvalidAttempt_step p db r Hget Hl)
        as (_ & r1 & Hget1 & Hc1 & _).
      destruct (IH _ r1 Hget1) as (r' & Hget' & Hc').
      { change (lock_expires_at r1) with (snd (round_counter r1)).
        rewrite Hc1. apply lazy_expiry_step_lock_nonzero; assumption. }
      exists r'. split; [exact Hget' |].
      rewrite Hc'. cbn [lazy_expiry_run fold_left]. rewrite Hc1. reflexivity.
    + apply jsstring_eqb_neq in Hk.
      apply (IH _ r); [| exact Hl].
      apply recordInvalidAttempt_other; assumption.
Qed.

(** One call against a claim code. *)
Lemma recordInvalidClaimCodeAttempt_step (p : AttemptParams) (db : Db) :
  snd (code_counter (at_key p) db) <> Some 0 ->
  result_counter (fst (recordInvalidClaimCodeAttempt p db))
  = lazy_expiry_step (at_now p) (at_maxAttempts p) (at_lockMs p)
      (code_counter (at_key p) db)
  /\ code_counter (at_key p) (snd (recordInvalidClaimCodeAttempt p db))
     = lazy_expiry_step (at_now p) (at_maxAttempts p) (at_lockMs p)
         (code_counter (at_key p) db).
Proof.
  intros Hl.
  assert (Hres : result_counter (fst (recordInvalidClaimCodeAttempt p db))
                 = lazy_expiry_step (at_now p) (at_maxAttempts p) (at_lockMs p)
                     (code_counter (at_key p) db)).
  { unfold recordInvalidClaimCodeAttempt, code_counter in *. cbn [fst].
    destruct (getClaimAttemptByCode (at_key p) db) as [a |];
      apply next_attempt_lazy_expiry; exact Hl. }
  split; [exact Hres |].
  rewrite <- Hres.
  unfold code_counter at 1, getClaimAttemptByCode, recordInvalidClaimCodeAttempt.
  cbn [snd trivia_claim_attempts with_trivia_claim_attempts].
  rewrite lookup_insert_eq. reflexivity.
Qed.

Lemma recordInvalidClaimCodeAttempt_other (p : AttemptParams) (db : Db)
    (code : jsstring) :
  at_key p <> code ->
  code_counter code (snd (recordInvalidClaimCodeAttempt p db))
  = code_counter code db.
Proof.
  intros Hne.
  unfold code_counter, getClaimAttemptByCode, recordInvalidClaimCodeAttempt.
  cbn [snd trivia_claim_attempts with_trivia_claim_attempts].
  rewrite lookup_insert_ne by exact Hne. reflexivity.
Qed.

Lemma record_code_attempts_run (calls : list AttemptParams) (db : Db)
    (code : jsstring) :
  Forall sane_call calls ->
  snd (code_counter code db) <> Some 0 ->
  code_counter code (record_code_attempts calls db)
  = lazy_expiry_run (calls_for code calls) (code_counter code db).
Proof.
  intros Hsane. revert db.
  induction Hsane as [| p calls Hp _ IH]; intros db Hl; [reflexivity |].
  cbn [record_code_attempts fold_left calls_for List.filter].
  fold (record_code_attempts calls (snd (recordInvalidClaimCodeAttempt p db))).
  fold (calls_for code calls).
  destruct (jsstring_eqb (at_key p) code) eqn:Hk.
  - apply jsstring_eqb_eq in Hk. subst code.
    destruct (recordInvalidClaimCodeAttempt_step p db Hl) as [_ Hc1].
    rewrite IH.
    + cbn [lazy_expiry_run fold_left]. rewrite Hc1. reflexivity.
    + rewrite Hc1. apply lazy_expiry_step_lock_nonzero; assumption.
  - apply jsstring_eqb_neq in Hk.
    rewrite IH; rewrite recordInvalidClaimCodeAttempt_other by exact Hk;
      [reflexivity | exact Hl].
Qed.

(** C7. Both attempt counters follow the lazy-expiry rule. For a call
    against a round that exists, and for a call against a claim code, the
    returned and the stored counter are the lazy-expiry step of the
    stored one: a stored expiry that is set and reached resets the count
    to zero and clears the lock, then the count grows by one, and a count
    that reaches [maxAttempts] sets the expiry to [now + lockMs]. Over
    any sequence of calls the stored counter of a round (of a code) is
    the run of these steps over the calls made against it. Times are
    read from the clock, so they are positive, and a stored expiry is
    NULL or a time. *)
Theorem attempt_counters_lazy_expiry :
  (forall p db r,
     getTrivia (at_key p) db = Some r ->
     lock_expires_at r <> Some 0 ->
     result_counter (fst (recordInvalidAttempt p db))
     = lazy_expiry_step (at_now p) (at_maxAttempts p) (at_lockMs p)
         (round_counter r)
     /\ exists r',
          getTrivia (at_key p) (snd (recordInvalidAttempt p db)) = Some r'
          /\ round_counter r'
             = lazy_expiry_step (at_now p) (at_maxAttempts p) (at_lockMs p)
                 (round_counter r))
  /\ (forall p db,
        snd (code_counter (at_key p) db) <> Some 0 ->
        result_counter (fst (recordInvalidClaimCodeAttempt p db))
        = lazy_expiry_step (at_now p) (at_maxAttempts p) (at_lockMs p)
            (code_counter (at_key p) db)
        /\ code_counter (at_key p) (snd (recordInvalidClaimCodeAttempt p db))
           = lazy_expiry_step (at_now p) (at_maxAttempts p) (at_lockMs p)
               (code_counter (at_key p) db))
  /\ (forall calls db id r,
        Forall sane_call calls ->
        getTrivia id db = Some r ->
        lock_expires_at r <> Some 0 ->
        exists r',
          getTrivia id (record_round_attempts calls db) = Some r'
          /\ round_counter r'
             = lazy_expiry_run (calls_for id calls) (round_counter r))
  /\ (forall calls db code,
        Forall sane_call calls ->
        snd (code_counter code db) <> Some 0 ->
        code_counter code (record_code_attempts calls db)
        = lazy_expiry_run (calls_for code calls) (code_counter code db))
  /\ (forall now maxAttempts lockMs count lock,
        let after := lazy_expiry_step now maxAttempts lockMs (count, lock) in
        (forall expires, lock = Some expires -> expires <= now -> fst after = 1)
        /\ ((forall expires, lock = Some expires -> now < expires) ->
            fst after = count + 1)
        /\ (maxAttempts <= fst after -> snd after = Some (now + lockMs))
        /\ (fst after < maxAttempts ->
            snd after = match lock with
                        | Some expires =>
                            if expires <=? now then None else lock
                        | None => None
                        end)).
Proof.
  split; [| split; [| split; [| split]]].
  - intros p db r Hget Hl.
    destruct (recordInvalidAttempt_step p db r Hget Hl)
      as (Hres & r' & Hget' & Hc & _).
    split; [exact Hres |]. exists r'. split; assumption.
  - intros p db Hl. apply recordInvalidClaimCodeAttempt_step. exact Hl.
  - intros calls db id r. apply record_round_attempts_run.
  - intros calls db code. apply record_code_attempts_run.
  - intros now maxAttempts lockMs count lock. cbv zeta.
    unfold lazy_expiry_step. cbn [snd].
    repeat split.
    + intros e -> He. apply Z.leb_le in He. rewrite He. reflexivity.
    + intros Hlive. destruct lock as [e |]; [| reflexivity].
      specialize (Hlive e eq_refl).
      apply Z.leb_gt in Hlive. rewrite Hlive. reflexivity.
    + destruct lock as [e |]; [destruct (e <=? now) |]; cbn [fst snd];
        intros Hmax; apply Z.leb_le in Hmax; rewrite Hmax; reflexivity.
    + destruct lock as [e |]; [destruct (e <=? now) |]; cbn [fst snd];
        intros Hmax; apply Z.leb_gt in Hmax; rewrite Hmax; reflexivity.
Qed.

Lemma attempt_counters_lazy_expiry_witness :
  (exists r',
     getTrivia (js "trivia-001")
       (record_round_attempts
          (firstn 3 (sample_attempts (js "trivia-001"))) sample_db)
     = Some r'
     /\ round_counter r' = (3, Some 1700001702000))
  /\ code_counter (js "guess")
       (record_code_attempts (sample_attempts (js "guess")) empty_db)
     = (1, None).
Proof.
  destruct attempt_counters_lazy_expiry as (_ & _ & Hround & Hcode & _).
  split.
  - destruct (Hround (firstn 3 (sample_attempts (js "trivia-001")))
                sample_db (js "trivia-001") sample_round) as (r' & Hget & Hc).
    + unfold sample_attempts; cbn [firstn];
      repeat (constructor; [split; cbn; lia |]); constructor.
    + reflexivity.
    + discriminate.
    + exists r'. split; [exact Hget |]. rewrite Hc. reflexivity.
  - rewrite (Hcode (sample_attempts (js "guess")) empty_db (js "guess")).
    + reflexivity.
    + unfold sample_attempts; cbn [firstn];
      repeat (constructor; [split; cbn; lia |]); constructor.
    + discriminate.
Defined.

(** ** Administrative authentication *)

Lemma requireAdmin_cases {B} (env : Env) (req : Request B) (w : World) :
  (authorized env req /\ requireAdmin env req w = (inl true, w))
  \/ (~ authorized env req
      /\ requireAdmin env req w
         = (inl false,
            with_response (Some unauthorized_response)
              (with_log
                 (log w ++ [(LogWarn, js "Unauthorized trivia admin request.")])
                 w))).
Proof.
  unfold requireAdmin, authorized.
  destruct (TRIVIA_ADMIN_TOKEN env) as [secret |] eqn:Hsecret; cbn [truthy_ostr].
  - destruct secret as [| c secret]; cbn [truthy_str negb orb].
    + right. split; [| reflexivity].
      intros (s & Hs & Hne & _). congruence.
    + destruct (bool_decide (Some (extractBearerToken req) = Some (c :: secret)))
        eqn:Heq; cbn [negb].
      * left. apply bool_decide_eq_true in Heq. injection Heq as Heq.
        split; [| reflexivity].
        exists (c :: secret). split; [reflexivity |]. split; [discriminate | exact Heq].
      * right. apply bool_decide_eq_false in Heq. split; [| reflexivity].
        intros (s & Hs & _ & Hp). apply Heq. congruence.
  - right. split; [| reflexivity].
    intros (s & Hs & _). discriminate.
Qed.

(** A request without an authorization header carries the empty
    credential. *)
Lemma extractBearerToken_missing {B} (req : Request B) :
  get (req_headers req) "authorization" = JUndefined ->
  get (req_headers req) "Authorization" = JUndefined ->
  extractBearerToken req = [].
Proof. intros H1 H2. unfold extractBearerToken. rewrite H1, H2. reflexivity. Qed.

Section AdminFacts.

Variables toLowerCase normalizeNFKD : jsstring -> jsstring.
Variable Date_parse : jsstring -> option Z.

Local Abbreviation create_handler' := (create_handler toLowerCase normalizeNFKD).
Local Abbreviation close_handler' :=
  (close_handler toLowerCase normalizeNFKD Date_parse).

Lemma create_handler_unauthorized (env : Env) (now : Z)
    (req : Request CreateBody) (w : World) :
  ~ authorized env req ->
  fst (run_handler (create_handler' env now req) w) = Some unauthorized_response
  /\ db (snd (run_handler (create_handler' env now req) w)) = db w.
Proof.
  intros Hno. unfold run_handler, create_handler, bind.
  destruct (requireAdmin_cases env req (with_response None w)) as [[Hyes _] | [_ ->]];
    [contradiction |].
  split; reflexivity.
Qed.

Lemma close_handler_unauthorized (env : Env) (inp : CloseInputs)
    (req : Request CloseBody) (w : World) :
  ~ authorized env req ->
  fst (run_handler (close_handler' env inp req) w) = Some unauthorized_response
  /\ db (snd (run_handler (close_handler' env inp req) w)) = db w.
Proof.
  intros Hno. unfold run_handler, close_handler, bind.
  destruct (requireAdmin_cases env req (with_response None w)) as [[Hyes _] | [_ ->]];
    [contradiction |].
  split; reflexivity.
Qed.

(** C5. [requireAdmin] lets a request pass exactly when a secret is
    configured and the bearer credential of the request equals it; every
    other request, whether its credential is missing or wrong, gets the
    one response 401 [{error: "unauthorized"}]. Both administrative
    handlers answer a request that is not authorized with that response
    and leave the database alone, so whenever they answer anything else
    the credential equalled the secret. *)
Theorem requireAdmin_spec (env : Env) (w : World) :
  (forall B (req : Request B),
     (fst (requireAdmin env req w) = inl true <-> authorized env req)
     /\ (~ authorized env req ->
         fst (requireAdmin env req w) = inl false
         /\ response (snd (requireAdmin env req w)) = Some unauthorized_response
         /\ db (snd (requireAdmin env req w)) = db w))
  /\ (forall B (req : Request B),
        get (req_headers req) "authorization" = JUndefined ->
        get (req_headers req) "Authorization" = JUndefined ->
        ~ authorized env req)
  /\ (forall now (req : Request CreateBody),
        (~ authorized env req ->
         fst (run_handler (create_handler' env now req) w)
         = Some unauthorized_response
         /\ db (snd (run_handler (create_handler' env now req) w)) = db w)
        /\ (fst (run_handler (create_handler' env now req) w)
            <> Some unauthorized_response -> authorized env req))
  /\ (forall inp (req : Request CloseBody),
        (~ authorized env req ->
         fst (run_handler (close_handler' env inp req) w)
         = Some unauthorized_response
         /\ db (snd (run_handler (close_handler' env inp req) w)) = db w)
        /\ (fst (run_handler (close_handler' env inp req) w)
            <> Some unauthorized_response -> authorized env req)).
Proof.
  assert (Hdec : forall B (req : Request B), authorized env req \/ ~ authorized env req).
  { intros B req.
    destruct (requireAdmin_cases env req w) as [[H _] | [H _]]; auto. }
  split; [| split; [| split]].
  - intros B req.
    destruct (requireAdmin_cases env req w) as [[Hyes Hr] | [Hno Hr]]; rewrite Hr;
      cbn [fst snd].
    + split; [tauto | contradiction].
    + split; [split; [discriminate | contradiction] |].
      intros _. repeat split; reflexivity.
  - intros B req H1 H2 (secret & _ & Hne & Hp).
    rewrite (extractBearerToken_missing req H1 H2) in Hp. congruence.
  - intros now req. split; [apply create_handler_unauthorized |].
    intros Hresp. destruct (Hdec _ req) as [H | H]; [exact H |].
    exfalso. apply Hresp. apply create_handler_unauthorized. exact H.
  - intros inp req. split; [apply close_handler_unauthorized |].
    intros Hresp. destruct (Hdec _ req) as [H | H]; [exact H |].
    exfalso. apply Hresp. apply close_handler_unauthorized. exact H.
Qed.

End AdminFacts.

Lemma requireAdmin_spec_witness :
  fst (requireAdmin sample_env (paris_close_request (Some "bearer   s3cret"%string))
         paris_world) = inl true
  /\ fst (run_handler
            (close_handler toLowerCase_latin1 normalizeNFKD_latin1 no_date_parse
               sample_env paris_inputs (paris_close_request None))
            paris_world) = Some unauthorized_response
  /\ fst (run_handler
            (close_handler toLowerCase_latin1 normalizeNFKD_latin1 no_date_parse
               sample_env paris_inputs (paris_close_request (Some "Bearer wrong"%string)))
            paris_world) = Some unauthorized_response.
Proof.
  destruct (requireAdmin_spec toLowerCase_latin1 normalizeNFKD_latin1 no_date_parse
              sample_env paris_world) as (Hreq & Hmissing & _ & Hclose).
  split; [| split].
  - apply (Hreq _ (paris_close_request (Some "bearer   s3cret"%string))).
    exists (js "s3cret").
    split; [reflexivity | split; [discriminate | reflexivity]].
  - apply (Hclose paris_inputs (paris_close_request None)).
    apply Hmissing; reflexivity.
  - apply (Hclose paris_inputs (paris_close_request (Some "Bearer wrong"%string))).
    intros (secret & Hs & _ & Hp). injection Hs as <-. discriminate Hp.
Defined.

Example match_bearer_examples :
  match_bearer (js "Bearer abc") = Some (js "abc")
  /\ match_bearer (js "BEARER   a b ") = Some (js "a b ")
  /\ match_bearer (js "Bearer  ") = Some (js " ")
  /\ match_bearer (js "Bearer ") = None
  /\ match_bearer (js "Bearerabc") = None
  /\ match_bearer (js "Token abc") = None
  /\ match_bearer (js "Bearer a" ++ [10%N] ++ js "b") = None.
Proof. repeat split; reflexivity. Qed.

(** ** Reply filtering and scoring *)

Lemma truthy_str_false (s : jsstring) : truthy_str s = false <-> s = [].
Proof. destruct s; cbn; split; congruence. Qed.

Lemma truthy_str_true (s : jsstring) : truthy_str s = true <-> s <> [].
Proof. destruct s; cbn; split; congruence. Qed.

Lemma not_object_no_id (raw : JsVal) : is_object raw = false -> raw_id raw = [].
Proof. destruct raw; cbn [is_object]; intros H; try discriminate; reflexivity. Qed.

Lemma or_null_truthy (s : jsstring) : truthy_ostr (or_null s) = truthy_str s.
Proof. destruct s; reflexivity. Qed.

Lemma or_null_eq (s t : jsstring) : or_null s = Some t <-> s = t /\ s <> [].
Proof.
  destruct s as [| c s]; cbn.
  - split; [discriminate | intros [_ H]; congruence].
  - split; [intros [= <-]; split; [reflexivity | discriminate]
           | intros [-> _]; reflexivity].
Qed.

Section ReplyFacts.

Variables toLowerCase normalizeNFKD : jsstring -> jsstring.
Variable Date_parse : jsstring -> option Z.

Local Abbreviation normalize := (normalizeAnswer toLowerCase normalizeNFKD).
Local Abbreviation collect :=
  (collect_one toLowerCase normalizeNFKD Date_parse).

Variables tweetId triviaId : jsstring.
Variable correctAnswers : list jsstring.
Variables createdAt closesAt : Z.

(** What [collect_one] does on a raw tweet whose two mandatory ids can be
    extracted. *)
Lemma collect_one_parsed (now : Z) (raw : JsVal) :
  raw_id raw <> [] -> raw_twitterUserId raw <> [] ->
  collect tweetId triviaId correctAnswers createdAt closesAt now raw
  = if truthy_str (raw_inReplyToStatusId raw)
       && negb (bool_decide (or_null (raw_inReplyToStatusId raw) = Some tweetId))
    then None
    else if truthy_num (parse_createdAtMs Date_parse raw)
            && ((default 0 (parse_createdAtMs Date_parse raw) <? createdAt)
                || (closesAt <? default 0 (parse_createdAtMs Date_parse raw)))
    then None
    else
      Some {| ri_trivia_id := triviaId;
              ri_tweet_id := raw_id raw;
              ri_twitter_user_id := raw_twitterUserId raw;
              ri_twitter_username := or_null (raw_twitterUsername raw);
              ri_reply_text := raw_text raw;
              ri_normalized_text := normalize (raw_text raw);
              ri_is_correct :=
                if existsb (fun a => jsstring_eqb a (normalize (raw_text raw)))
                     correctAnswers
                then 1 else 0;
              ri_created_at := default now (parse_createdAtMs Date_parse raw) |}.
Proof.
  intros Hid Huser. unfold collect_one, parseTweetForReply.
  destruct (is_object raw) eqn:Hobj; cbn [negb];
    [| exfalso; exact (Hid (not_object_no_id raw Hobj))].
  apply truthy_str_true in Hid, Huser. rewrite Hid, Huser. cbn [negb].
  cbn [pt_inReplyToStatusId pt_createdAtMs pt_text pt_id pt_twitterUserId
       pt_twitterUsername].
  rewrite or_null_truthy. reflexivity.
Qed.

Lemma is_correct_flag (normalized : jsstring) :
  let flag := if existsb (fun a => jsstring_eqb a normalized) correctAnswers
              then 1 else 0 in
  (flag = 1 <-> In normalized correctAnswers) /\ (flag = 0 \/ flag = 1).
Proof.
  cbv zeta. destruct (existsb _ _) eqn:He.
  - apply existsb_exists in He as (a & Hin & Ha).
    apply jsstring_eqb_eq in Ha. subst a. tauto.
  - split; [| auto]. split; [discriminate |].
    intros Hin. exfalso.
    assert (Ht : existsb (fun a => jsstring_eqb a normalized) correctAnswers = true).
    { apply existsb_exists. exists normalized.
      split; [exact Hin | apply jsstring_eqb_refl]. }
    congruence.
Qed.

(** The two window tests, as propositions. *)
Lemma reply_to_test (parent : jsstring) :
  truthy_str parent && negb (bool_decide (or_null parent = Some tweetId)) = true
  <-> parent <> [] /\ parent <> tweetId.
Proof.
  rewrite andb_true_iff, negb_true_iff, bool_decide_eq_false, truthy_str_true,
    or_null_eq.
  tauto.
Qed.

Lemma window_test (created : option Z) :
  created <> Some 0 ->
  truthy_num created
  && ((default 0 created <? createdAt) || (closesAt <? default 0 created)) = true
  <-> exists t, created = Some t /\ (t < createdAt \/ closesAt < t).
Proof.
  intros Hzero. destruct created as [t |]; cbn [truthy_num default from_option].
  - assert (Ht0 : t <> 0) by congruence.
    apply Z.eqb_neq in Ht0. rewrite Ht0. cbn [negb andb].
    rewrite orb_true_iff, !Z.ltb_lt. unfold Datatypes.id. split.
    + intros H. exists t. auto.
    + intros (t' & [= <-] & H). exact H.
  - cbn [andb]. split; [discriminate | intros (t & H & _); discriminate].
Qed.

(** C4, as the code has it. For every raw reply whose creation time,
    when known, is not the zero time value: the reply is dropped exactly
    when its tweet id cannot be extracted (which covers a raw value that
    is not an object), or its author id cannot be extracted, or its
    reply-to id is present and differs from the contest post id, or its
    creation time is known and outside [createdAt, closesAt]. A reply
    with an unknown creation time that passes the other tests is kept,
    with the time of collection. A kept reply carries the normalized
    text and is marked correct (1, otherwise 0) exactly when that text is
    one of the correct answers. *)
Theorem collect_one_drop_spec (now : Z) (raw : JsVal) :
  parse_createdAtMs Date_parse raw <> Some 0 ->
  (collect tweetId triviaId correctAnswers createdAt closesAt now raw = None
   <-> raw_id raw = []
       \/ claimed_drop_condition Date_parse tweetId createdAt closesAt raw)
  /\ (parse_createdAtMs Date_parse raw = None ->
      raw_id raw <> [] -> raw_twitterUserId raw <> [] ->
      raw_inReplyToStatusId raw = [] \/ raw_inReplyToStatusId raw = tweetId ->
      exists r,
        collect tweetId triviaId correctAnswers createdAt closesAt now raw = Some r
        /\ ri_created_at r = now)
  /\ (forall r,
        collect tweetId triviaId correctAnswers createdAt closesAt now raw = Some r ->
        ri_twitter_user_id r = raw_twitterUserId raw
        /\ ri_normalized_text r = normalize (raw_text raw)
        /\ (ri_is_correct r = 1 <-> In (normalize (raw_text raw)) correctAnswers)
        /\ (ri_is_correct r = 0 \/ ri_is_correct r = 1)).
Proof.
  intros Hzero.
  assert (Hmissing : raw_id raw = [] \/ raw_twitterUserId raw = [] ->
            collect tweetId triviaId correctAnswers createdAt closesAt now raw
            = None).
  { intros Hm. unfold collect_one, parseTweetForReply.
    destruct (is_object raw); cbn [negb]; [| reflexivity].
    destruct (raw_id raw); cbn [truthy_str negb]; [reflexivity |].
    destruct (raw_twitterUserId raw); cbn [truthy_str negb]; [reflexivity |].
    destruct Hm; discriminate. }
  destruct (raw_id raw) as [| i0 idt] eqn:Hid.
  { rewrite Hmissing by auto. split; [| split].
    - split; [intros _; left; reflexivity | reflexivity].
    - intros _ Hne. congruence.
    - discriminate. }
  destruct (raw_twitterUserId raw) as [| u0 user] eqn:Huser.
  { rewrite Hmissing by auto. split; [| split].
    - split; [intros _; right; left; exact Huser | reflexivity].
    - intros _ _ Hne. congruence.
    - discriminate. }
  clear Hmissing.
  rewrite collect_one_parsed by (rewrite ?Hid, ?Huser; discriminate).
  pose proof (reply_to_test (raw_inReplyToStatusId raw)) as Hparent.
  pose proof (window_test (parse_createdAtMs Date_parse raw) Hzero) as Hwindow.
  pose proof (is_correct_flag (normalize (raw_text raw))) as Hflag.
  cbv zeta in Hflag. rewrite Huser.
  unfold claimed_drop_condition. rewrite Huser.
  destruct (truthy_str (raw_inReplyToStatusId raw)
            && negb (bool_decide (or_null (raw_inReplyToStatusId raw)
                                  = Some tweetId))) eqn:Hc1.
  { split; [| split].
    - split; [| reflexivity]. intros _. right. right. left. tauto.
    - intros _ _ _ Hok. exfalso.
      destruct (proj1 Hparent eq_refl) as [Hne Hne']. destruct Hok; contradiction.
    - discriminate. }
  destruct (truthy_num (parse_createdAtMs Date_parse raw)
            && ((default 0 (parse_createdAtMs Date_parse raw) <? createdAt)
                || (closesAt <? default 0 (parse_createdAtMs Date_parse raw))))
    eqn:Hc2.
  { split; [| split].
    - split; [| reflexivity]. intros _. right. right. right. tauto.
    - intros Hnone. exfalso.
      destruct (proj1 Hwindow eq_refl) as (t & Ht & _). congruence.
    - discriminate. }
  split; [| split].
  - split; [discriminate |].
    intros [H | [H | [H | H]]]; try discriminate.
    + apply Hparent in H. discriminate.
    + apply Hwindow in H. discriminate.
  - intros Hnone _ _ _. eexists. split; [reflexivity |].
    cbn [ri_created_at]. rewrite Hnone. reflexivity.
  - intros r [= <-]. cbn [ri_twitter_user_id ri_normalized_text ri_is_correct].
    split; [reflexivity |]. split; [reflexivity |]. exact Hflag.
Qed.

End ReplyFacts.

(** The claim as it is worded misses a case: a reply whose author id is
    there, which is not a reply to another tweet and has no timestamp,
    but whose own tweet id is in none of the recognized fields, is
    dropped. *)
Lemma collect_one_drop_claim_counterexample :
  collect_one toLowerCase_latin1 normalizeNFKD_latin1 no_date_parse
    (tweet_id paris_round) (trivia_id paris_round) (correct_answers paris_round)
    (created_at paris_round) (closes_at paris_round) 1700000700001
    reply_without_id = None
  /\ ~ claimed_drop_condition no_date_parse (tweet_id paris_round)
         (created_at paris_round) (closes_at paris_round) reply_without_id.
Proof.
  split; [vm_compute; reflexivity |].
  intros [H | [[H _] | (t & H & _)]].
  - vm_compute in H. discriminate.
  - apply H. vm_compute. reflexivity.
  - vm_compute in H. discriminate.
Qed.

Lemma collect_one_drop_spec_witness :
  (exists r,
     collect_one toLowerCase_latin1 normalizeNFKD_latin1 no_date_parse
       (tweet_id paris_round) (trivia_id paris_round) (correct_answers paris_round)
       (created_at paris_round) (closes_at paris_round) 1700000700001
       reply_paris = Some r
     /\ ri_is_correct r = 1)
  /\ collect_one toLowerCase_latin1 normalizeNFKD_latin1 no_date_parse
       (tweet_id paris_round) (trivia_id paris_round) (correct_answers paris_round)
       (created_at paris_round) (closes_at paris_round) 1700000700001
       reply_without_id = None.
Proof.
  split.
  - destruct (collect_one_drop_spec toLowerCase_latin1 normalizeNFKD_latin1
                no_date_parse (tweet_id paris_round) (trivia_id paris_round)
                (correct_answers paris_round) (created_at paris_round)
                (closes_at paris_round) 1700000700001 reply_paris)
      as (_ & _ & Hkept).
    + vm_compute. discriminate.
    + eexists. split; [vm_compute; reflexivity |].
      eapply Hkept; [vm_compute; reflexivity |].
      left. vm_compute. reflexivity.
  - destruct (collect_one_drop_spec toLowerCase_latin1 normalizeNFKD_latin1
                no_date_parse (tweet_id paris_round) (trivia_id paris_round)
                (correct_answers paris_round) (created_at paris_round)
                (closes_at paris_round) 1700000700001 reply_without_id)
      as (Hdrop & _ & _).
    + vm_compute. discriminate.
    + apply Hdrop. left. reflexivity.
Defined.

(** ** Winner selection *)

Lemma jsstring_leb_total (a b : jsstring) :
  jsstring_leb a b = true \/ jsstring_leb b a = true.
Proof.
  revert b. induction a as [| x a IH]; intros [| y b]; cbn; auto.
  destruct (N.ltb_spec x y), (N.ltb_spec y x); auto; try lia.
Qed.

Lemma insert_sorted_perm {A} (le : A -> A -> bool) (x : A) (l : list A) :
  Permutation (insert_sorted le x l) (x :: l).
Proof.
  induction l as [| y l IH]; cbn [insert_sorted]; [reflexivity |].
  destruct (le y x); [| reflexivity].
  rewrite IH. apply perm_swap.
Qed.

Lemma sort_by_fold_perm {A} (le : A -> A -> bool) (l acc : list A) :
  Permutation (fold_left (fun a x => insert_sorted le x a) l acc) (acc ++ l).
Proof.
  revert acc. induction l as [| x l IH]; intros acc; cbn [fold_left].
  - rewrite app_nil_r. reflexivity.
  - rewrite IH, insert_sorted_perm. apply Permutation_middle.
Qed.

Lemma sort_by_perm {A} (le : A -> A -> bool) (l : list A) :
  Permutation (sort_by le l) l.
Proof. unfold sort_by. apply (sort_by_fold_perm le l []). Qed.

Lemma insert_sorted_sorted {A} (le : A -> A -> bool) (x : A) (l : list A) :
  (forall a b, le a b = true \/ le b a = true) ->
  Sorted (fun a b => le a b = true) l ->
  Sorted (fun a b => le a b = true) (insert_sorted le x l).
Proof.
  intros Htotal. induction 1 as [| y l Hs IH Hhd]; cbn [insert_sorted].
  - repeat constructor.
  - destruct (le y x) eqn:Hyx.
    + constructor; [exact IH |].
      destruct l as [| z l]; cbn [insert_sorted].
      * constructor. exact Hyx.
      * destruct (le z x); constructor; [| exact Hyx].
        inversion Hhd; subst. assumption.
    + constructor; [constructor; assumption |].
      constructor. destruct (Htotal x y) as [H | H]; [exact H | congruence].
Qed.

Lemma sort_by_sorted {A} (le : A -> A -> bool) (l : list A) :
  (forall a b, le a b = true \/ le b a = true) ->
  Sorted (fun a b => le a b = true) (sort_by le l).
Proof.
  intros Htotal. unfold sort_by.
  assert (Hgen : forall acc, Sorted (fun a b => le a b = true) acc ->
            Sorted (fun a b => le a b = true)
              (fold_left (fun a x => insert_sorted le x a) l acc)).
  { induction l as [| x l IH]; intros acc Hacc; cbn [fold_left]; [exact Hacc |].
    apply IH. apply insert_sorted_sorted; assumption. }
  apply Hgen. constructor.
Qed.

(** The map of first correct replies: its keys are distinct, each key is
    the author of its reply, and the keys are the authors seen. *)
Lemma uniqueCorrect_fold (rows : list TriviaReplyRecord)
    (m : list (jsstring * TriviaReplyRecord)) :
  NoDup (map fst m) ->
  Forall (fun kv => fst kv = author (snd kv)) m ->
  NoDup (map fst (fold_left uniqueCorrect_set rows m))
  /\ Forall (fun kv => fst kv = author (snd kv)) (fold_left uniqueCorrect_set rows m)
  /\ (forall u, In u (map fst (fold_left uniqueCorrect_set rows m))
                <-> In u (map fst m) \/ exists row, In row rows /\ author row = u).
Proof.
  revert m. induction rows as [| row rows IH]; intros m Hnd Hkeys; cbn [fold_left].
  - split; [exact Hnd |]. split; [exact Hkeys |].
    intros u. split; [auto | intros [H | (row & [] & _)]; exact H].
  - assert (Hstep : NoDup (map fst (uniqueCorrect_set m row))
                    /\ Forall (fun kv => fst kv = author (snd kv))
                         (uniqueCorrect_set m row)
                    /\ (forall u, In u (map fst (uniqueCorrect_set m row))
                                  <-> In u (map fst m) \/ author row = u)).
    { unfold uniqueCorrect_set. fold (author row).
      destruct (existsb _ m) eqn:Hex.
      - split; [exact Hnd |]. split; [exact Hkeys |].
        intros u. split; [auto |]. intros [H | <-]; [exact H |].
        apply existsb_exists in Hex as (kv & Hin & Hkv).
        apply jsstring_eqb_eq in Hkv. rewrite <- Hkv.
        apply in_map. exact Hin.
      - assert (Hfresh : ~ In (author row) (map fst m)).
        { intros Hin. apply in_map_iff in Hin as (kv & Hkv & Hin).
          assert (Ht : existsb (fun kv => jsstring_eqb (fst kv) (author row)) m
                       = true).
          { apply existsb_exists. exists kv. split; [exact Hin |].
            apply jsstring_eqb_eq. exact Hkv. }
          congruence. }
        rewrite map_app. cbn [map fst]. split; [| split].
        + apply NoDup_app. split; [exact Hnd |]. split.
          * intros u Hu Hu'. apply list_elem_of_In in Hu, Hu'.
            destruct Hu' as [<- | []]. contradiction.
          * repeat constructor. intros H. apply list_elem_of_In in H.
            destruct H.
        + apply Forall_app. split; [exact Hkeys |]. repeat constructor.
        + intros u. rewrite in_app_iff. cbn [In]. tauto. }
    destruct Hstep as (Hnd1 & Hkeys1 & Hin1).
    destruct (IH _ Hnd1 Hkeys1) as (Hnd2 & Hkeys2 & Hin2).
    split; [exact Hnd2 |]. split; [exact Hkeys2 |].
    intros u. rewrite Hin2, Hin1. cbn [In]. split.
    + intros [[H | H] | (r & Hr & Hu)]; eauto 6.
    + intros [H | (r & [<- | Hr] & Hu)]; eauto 6.
Qed.

Lemma map_get_present (u : jsstring) (m : list (jsstring * TriviaReplyRecord)) :
  In u (map fst m) ->
  Forall (fun kv => fst kv = author (snd kv)) m ->
  exists row, map_get u m = Some row /\ author row = u.
Proof.
  intros Hin Hkeys. unfold map_get.
  destruct (List.find (fun kv => jsstring_eqb (fst kv) u) m) as [kv |] eqn:Hfind.
  - destruct (find_some _ _ Hfind) as [Hkv Heq].
    apply jsstring_eqb_eq in Heq.
    exists (snd kv). split; [reflexivity |].
    rewrite Forall_forall in Hkeys.
    rewrite <- (Hkeys kv); [exact Heq | apply list_elem_of_In; exact Hkv].
  - exfalso. apply in_map_iff in Hin as (kv & Hkv & Hin).
    pose proof (find_none _ _ Hfind kv Hin) as Hno. cbn in Hno.
    apply jsstring_eqb_neq in Hno. contradiction.
Qed.

(** The eligible ids are exactly the authors of the round's correct
    replies, without repetition and in ascending order. *)
Lemma eligible_ids_spec (triviaId : jsstring) (d : Db) :
  (forall u, In u (eligible_ids triviaId d)
             <-> exists row, In row (listCorrectReplies triviaId d)
                             /\ author row = u)
  /\ NoDup (eligible_ids triviaId d)
  /\ Sorted jsstring_le (eligible_ids triviaId d).
Proof.
  unfold eligible_ids, uniqueCorrect_of.
  destruct (uniqueCorrect_fold (listCorrectReplies triviaId d) [])
    as (Hnd & _ & Hin); [constructor | constructor |].
  split; [| split].
  - intros u. split.
    + intros Hu.
      apply (Permutation_in _ (sort_by_perm jsstring_leb _)) in Hu.
      apply Hin in Hu as [[] | H]. exact H.
    + intros H.
      apply (Permutation_in _ (Permutation_sym (sort_by_perm jsstring_leb _))).
      apply Hin. right. exact H.
  - rewrite sort_by_perm. exact Hnd.
  - apply sort_by_sorted. apply jsstring_leb_total.
Qed.

Lemma truthy_ostr_some (x : option jsstring) :
  truthy_ostr x = true -> exists s, x = Some s /\ s <> [].
Proof.
  destruct x as [[| c s] |]; cbn; try discriminate.
  intros _. eexists. split; [reflexivity | discriminate].
Qed.

(** [join] with a comma puts the ids one after the other with a comma
    between two of them. *)
Lemma join_comma_separated (ids : list jsstring) :
  join (js ",") ids = comma_separated ids.
Proof.
  induction ids as [| id rest IH]; [reflexivity |].
  cbn [join comma_separated]. destruct rest as [| next rest]; [reflexivity |].
  rewrite IH. reflexivity.
Qed.

(** The winner lookup of the close handler cannot fail: the pick is an
    index into the sorted ids, and every id is a key of the map. *)
Lemma winner_lookup (seed : jsstring) (rows : list TriviaReplyRecord) :
  let uniqueCorrect := uniqueCorrect_of rows in
  let ids := sort_by jsstring_leb (map fst uniqueCorrect) in
  ids <> [] ->
  let pick := deterministicPick seed (Z.of_nat (length ids)) in
  exists winnerId winner,
    0 <= pick < Z.of_nat (length ids)
    /\ (pick <? 0) = false
    /\ ids !! Z.to_nat pick = Some winnerId
    /\ map_get winnerId uniqueCorrect = Some winner
    /\ author winner = winnerId.
Proof.
  cbv zeta. intros Hne.
  set (ids := sort_by jsstring_leb (map fst (uniqueCorrect_of rows))) in *.
  assert (Hlen : 0 < Z.of_nat (length ids)).
  { destruct ids; [congruence | cbn; lia]. }
  destruct (deterministicPick_positive seed _ Hlen) as [_ Hrange].
  destruct (lookup_lt_is_Some_2 ids
              (Z.to_nat (deterministicPick seed (Z.of_nat (length ids)))))
    as [winnerId Hw]; [lia |].
  destruct (uniqueCorrect_fold rows []) as (_ & Hkeys & Hin);
    [constructor | constructor |].
  assert (Hmem : In winnerId (map fst (uniqueCorrect_of rows))).
  { apply (Permutation_in _ (sort_by_perm jsstring_leb _)).
    apply list_elem_of_In. eapply list_elem_of_lookup_2. exact Hw. }
  destruct (map_get_present winnerId _ Hmem Hkeys) as (winner & Hget & Hauthor).
  exists winnerId, winner. repeat split; try assumption; try lia.
Qed.

Lemma trivia_rewards_addReplies (replies : list TriviaReplyInsert) (d : Db) :
  trivia_rewards (addReplies replies d) = trivia_rewards d.
Proof. unfold addReplies. destruct replies; reflexivity. Qed.

Lemma getTrivia_addReplies (replies : list TriviaReplyInsert) (d : Db)
    (id : jsstring) :
  getTrivia id (addReplies replies d) = getTrivia id d.
Proof. unfold getTrivia. rewrite trivia_rewards_addReplies. reflexivity. Qed.

Lemma getTrivia_closeTrivia (params : CloseTriviaParams) (d : Db)
    (trivia : TriviaRecord) :
  getTrivia (cl_triviaId params) d = Some trivia ->
  getTrivia (cl_triviaId params) (closeTrivia params d)
  = Some (set_closed params trivia).
Proof.
  intros Hget. unfold getTrivia, sql_get, closeTrivia, sql_update in *.
  cbn [fst trivia_rewards with_trivia_rewards].
  rewrite find_map_preserve.
  - rewrite Hget. cbn [option_map].
    apply find_some in Hget as [_ Hid]. rewrite Hid. reflexivity.
  - intros r. destruct (has_trivia_id (cl_triviaId params) r) eqn:Hr; exact Hr.
Qed.

(** Reading off the result of a handler that has reached a [return]. *)
Ltac run_leaf H :=
  cbv beta iota zeta delta
    [respond close_failed send exit elizaLogger bind update query call ret when_] in H;
  apply pair_equal_spec in H; destruct H as [<- <-];
  cbn [response db log sent rateLimitBuckets
       with_response with_log with_db with_sent with_buckets].

Ltac close_fail H :=
  run_leaf H;
  split; [intros resp [= <-] H200; cbn [res_status] in H200; discriminate H200
         | intros Hpick; vm_compute in Hpick; discriminate Hpick].

Section CloseFacts.

Variables toLowerCase normalizeNFKD : jsstring -> jsstring.
Variable Date_parse : jsstring -> option Z.

Local Abbreviation close_handler' :=
  (close_handler toLowerCase normalizeNFKD Date_parse).

(** A close request that passes every check is answered with 200. *)
Lemma close_handler_succeeds (env : Env) (inp : CloseInputs)
    (req : Request CloseBody) (w : World)
    (triviaId : jsstring) (trivia : TriviaRecord)
    (fetch : jsstring -> option (list JsVal))
    (replies : list TriviaReplyInsert) (salt : jsstring) (blockHeight : Z) :
  authorized env req ->
  clb_triviaId (req_body req) = Some triviaId -> triviaId <> [] ->
  getTrivia triviaId (db w) = Some trivia ->
  status trivia = status_open ->
  closes_at trivia <= ci_now inp ->
  ci_twitter inp = TwitterClient fetch ->
  collectReplies toLowerCase normalizeNFKD Date_parse fetch
    (ci_replyClock inp) (tweet_id trivia) (trivia_id trivia)
    (correct_answers trivia) (created_at trivia) (closes_at trivia)
  = Some replies ->
  TRIVIA_SALT env = Some salt -> salt <> [] ->
  ci_blockHeight inp = Some blockHeight ->
  exists resp,
    fst (run_handler (close_handler' env inp req) w) = Some resp
    /\ res_status resp = 200.
Proof.
  intros Hauth Hid Hidne Hget Hstatus Hnow Htw Hcollect Hsalt Hsaltne Hbh.
  unfold run_handler.
  destruct (close_handler' env inp req (with_response None w)) as [r W] eqn:Hout.
  cbn [fst snd].
  unfold close_handler in Hout.
  unfold bind at 1 in Hout.
  destruct (requireAdmin_cases env req (with_response None w))
    as [[_ Hr] | [Hno _]]; [| contradiction].
  rewrite Hr in Hout. cbn [negb] in Hout.
  rewrite Hid in Hout. cbn [truthy_ostr default from_option Datatypes.id] in Hout.
  apply truthy_str_true in Hidne. rewrite Hidne in Hout. cbn [negb] in Hout.
  unfold bind at 1 in Hout. cbn [query] in Hout.
  change (db (with_response None w)) with (db w) in Hout.
  rewrite Hget, Hstatus in Hout.
  apply Z.ltb_ge in Hnow. rewrite Hnow, Htw, Hcollect in Hout.
  unfold bind at 1 in Hout. cbn [update] in Hout.
  unfold bind at 1 in Hout. cbn [query] in Hout.
  rewrite Hsalt in Hout. cbn [truthy_ostr default from_option Datatypes.id] in Hout.
  apply truthy_str_true in Hsaltne. rewrite Hsaltne in Hout. cbn [negb] in Hout.
  rewrite Hbh in Hout.
  cbn [db with_db with_response] in Hout.
  pose proof (winner_lookup
                (salt ++ js ":" ++ trivia_id trivia ++ js ":" ++ tweet_id trivia
                   ++ js ":" ++ join (js ",")
                        (sort_by jsstring_leb
                           (map fst (uniqueCorrect_of
                              (listCorrectReplies (trivia_id trivia)
                                 (addReplies replies (db w)))))))
                (listCorrectReplies (trivia_id trivia) (addReplies replies (db w))))
    as Hwin.
  cbv zeta in Hwin.
  destruct (sort_by jsstring_leb _) as [| i0 rest] eqn:Hids.
  - run_leaf Hout. eexists. split; reflexivity.
  - destruct Hwin as (winnerId & winner & _ & Hneg & Hlookup & Hget' & _);
      [discriminate |].
    rewrite Hneg, Hlookup, Hget' in Hout.
    run_leaf Hout. eexists. split; reflexivity.
Qed.

(** C9. Every close request that is answered with success made the
    selection described by [close_selection]: the round was found open
    and past its deadline, the replies were collected and stored, and the
    eligible ids are the authors of the round's correct replies, each
    once, in ascending order. With no eligible id the round is closed
    without winner and without claim code. Otherwise the seed is
    [salt:roundId:postId:id1,id2,...] over the sorted ids, the pick
    [deterministicPick seed n] is an index into the sorted ids, the
    winner is the id at that index with that user's first correct reply,
    and the round is closed with this winner, the hexadecimal form of the
    sixteen random bytes as claim code and the expiry
    [now + CLAIM_TTL_MS]. A request that passes the checks is answered
    with success, and the lookup of the winner never fails. *)
Theorem close_handler_selects_winner (env : Env) (inp : CloseInputs)
    (req : Request CloseBody) (w : World) :
  let out := run_handler (close_handler' env inp req) w in
  (forall resp,
     fst out = Some resp -> res_status resp = 200 ->
     close_selection toLowerCase normalizeNFKD Date_parse env inp req w
       (snd out) resp)
  /\ (forall triviaId trivia fetch replies salt blockHeight,
        authorized env req ->
        clb_triviaId (req_body req) = Some triviaId -> triviaId <> [] ->
        getTrivia triviaId (db w) = Some trivia ->
        status trivia = status_open ->
        closes_at trivia <= ci_now inp ->
        ci_twitter inp = TwitterClient fetch ->
        collectReplies toLowerCase normalizeNFKD Date_parse fetch
          (ci_replyClock inp) (tweet_id trivia) (trivia_id trivia)
          (correct_answers trivia) (created_at trivia) (closes_at trivia)
        = Some replies ->
        TRIVIA_SALT env = Some salt -> salt <> [] ->
        ci_blockHeight inp = Some blockHeight ->
        exists resp, fst out = Some resp /\ res_status resp = 200)
  /\ fst out <> Some failed_pick.
Proof.
  cbv zeta.
  cut ((forall resp,
          fst (run_handler (close_handler' env inp req) w) = Some resp ->
          res_status resp = 200 ->
          close_selection toLowerCase normalizeNFKD Date_parse env inp req w
            (snd (run_handler (close_handler' env inp req) w)) resp)
       /\ fst (run_handler (close_handler' env inp req) w) <> Some failed_pick).
  { intros [Hsel Hpick]. split; [exact Hsel |]. split; [| exact Hpick].
    intros. eapply close_handler_succeeds; eassumption. }
  unfold run_handler.
  destruct (close_handler' env inp req (with_response None w)) as [r W] eqn:Hout.
  cbn [fst snd].
  unfold close_handler in Hout.
  unfold bind at 1 in Hout.
  destruct (requireAdmin_cases env req (with_response None w))
    as [[Hyes Hr] | [Hno Hr]];
    rewrite Hr in Hout; cbn [negb] in Hout; [| close_fail Hout].
  destruct (truthy_ostr (clb_triviaId (req_body req))) eqn:Hid;
    cbn [negb] in Hout; [| close_fail Hout].
  destruct (truthy_ostr_some _ Hid) as (triviaId & HtriviaId & _).
  rewrite HtriviaId in Hout. cbn [default from_option Datatypes.id] in Hout.
  unfold bind at 1 in Hout. cbn [query] in Hout.
  change (db (with_response None w)) with (db w) in Hout.
  destruct (getTrivia triviaId (db w)) as [trivia |] eqn:Hget;
    [| close_fail Hout].
  destruct (status trivia) eqn:Hstatus; [| close_fail Hout].
  destruct (Z.ltb_spec (ci_now inp) (closes_at trivia)) as [Hnow | Hnow];
    [close_fail Hout |].
  destruct (ci_twitter inp) as [| | fetch] eqn:Htw;
    [close_fail Hout | close_fail Hout |].
  destruct (collectReplies _ _ _ _ _ _ _ _ _ _) as [replies |] eqn:Hcollect;
    [| close_fail Hout].
  unfold bind at 1 in Hout. cbn [update] in Hout.
  unfold bind at 1 in Hout. cbn [query] in Hout.
  destruct (truthy_ostr (TRIVIA_SALT env)) eqn:Hsalt; cbn [negb] in Hout;
    [| close_fail Hout].
  destruct (truthy_ostr_some _ Hsalt) as (salt & Hsalt' & _).
  rewrite Hsalt' in Hout. cbn [default from_option Datatypes.id] in Hout.
  destruct (ci_blockHeight inp) as [blockHeight |] eqn:Hbh;
    [| close_fail Hout].
  cbn [db with_db with_response] in Hout.
  set (db1 := addReplies replies (db w)) in *.
  change (sort_by jsstring_leb
            (map fst (uniqueCorrect_of (listCorrectReplies (trivia_id trivia) db1))))
    with (eligible_ids (trivia_id trivia) db1) in Hout.
  rewrite join_comma_separated in Hout.
  change (salt ++ js ":" ++ trivia_id trivia ++ js ":" ++ tweet_id trivia
            ++ js ":" ++ comma_separated (eligible_ids (trivia_id trivia) db1))
    with (selection_seed salt trivia (eligible_ids (trivia_id trivia) db1)) in Hout.
  pose proof (winner_lookup
                (selection_seed salt trivia (eligible_ids (trivia_id trivia) db1))
                (listCorrectReplies (trivia_id trivia) db1)) as Hwin.
  cbv zeta in Hwin.
  change (sort_by jsstring_leb
            (map fst (uniqueCorrect_of (listCorrectReplies (trivia_id trivia) db1))))
    with (eligible_ids (trivia_id trivia) db1) in Hwin.
  pose proof (eligible_ids_spec (trivia_id trivia) db1) as Hspec.
  pose proof (getTrivia_has_id _ _ _ Hget) as Hsame.
  assert (Hclosed : forall params,
            cl_triviaId params = trivia_id trivia ->
            getTrivia triviaId (closeTrivia params db1)
            = Some (set_closed params trivia)).
  { intros params Hp. rewrite <- Hsame, <- Hp.
    apply getTrivia_closeTrivia. rewrite Hp, Hsame.
    unfold db1. rewrite getTrivia_addReplies. exact Hget. }
  destruct (eligible_ids (trivia_id trivia) db1) as [| i0 rest] eqn:Hids.
  - run_leaf Hout.
    split; [| intros Hpick; vm_compute in Hpick; discriminate Hpick].
    intros resp [= <-] _.
    exists triviaId, trivia, fetch, replies, salt, blockHeight.
    repeat (split; [first [assumption | reflexivity] |]).
    cbv zeta. fold db1. rewrite Hids.
    split; [exact Hspec |].
    split; [intros _ | intros Hne; congruence].
    split; [reflexivity |].
    split; [| split; reflexivity].
    eexists. split; [apply Hclosed; reflexivity |].
    repeat split; reflexivity.
  - destruct Hwin as (winnerId & winner & Hrange & Hneg & Hlookup & Hget'
                      & Hauthor); [discriminate |].
    rewrite Hneg, Hlookup, Hget' in Hout.
    run_leaf Hout.
    split; [| intros Hpick; vm_compute in Hpick; discriminate Hpick].
    intros resp [= <-] _.
    exists triviaId, trivia, fetch, replies, salt, blockHeight.
    repeat (split; [first [assumption | reflexivity] |]).
    cbv zeta. fold db1. rewrite Hids.
    split; [exact Hspec |].
    split; [intros Hnil; discriminate Hnil | intros _].
    exists winnerId, winner.
    repeat (split; [first [assumption | lia] |]).
    split; [reflexivity |].
    split.
    + eexists. split; [apply Hclosed; reflexivity |].
      cbn [set_closed close_with_winner status seed
           winner_twitter_user_id claim_code claim_expires_at
           cl_seed cl_winnerTwitterUserId cl_claimCode cl_claimExpiresAt].
      rewrite <- Hauthor. repeat split; reflexivity.
    + rewrite <- Hauthor. repeat split; reflexivity.
Qed.

End CloseFacts.

(** The round with three eligible participants: the sorted ids are 11, 42
    and 7, the seed is the salt, the round id, the post id and the three
    ids, the digest of the seed picks index 2, and user 7 wins with the
    first correct reply of that user. *)
Lemma close_handler_selects_winner_witness :
  exists resp stored,
    fst quiz_close = Some resp
    /\ res_status resp = 200
    /\ close_selection toLowerCase_latin1 normalizeNFKD_latin1 no_date_parse
         sample_env quiz_inputs quiz_close_request quiz_world (snd quiz_close) resp
    /\ eligible_ids (js "trivia-004") (db (snd quiz_close))
       = [js "11"; js "42"; js "7"]
    /\ getTrivia (js "trivia-004") (db (snd quiz_close)) = Some stored
    /\ status stored = status_closed
    /\ seed stored = Some (js "salt:trivia-004:1850000000000000400:11,42,7")
    /\ deterministicPick (js "salt:trivia-004:1850000000000000400:11,42,7") 3 = 2
    /\ winner_twitter_user_id stored = Some (js "7")
    /\ winner_tweet_id stored = Some (js "1850000000000000402")
    /\ claim_code stored = Some (js "00112233445566778899aabbccddeeff")
    /\ claim_expires_at stored = Some (1700000700002 + 60 * 60 * 1000)
    /\ get (get (res_body resp) "winner") "twitterUserId" = JStr (js "7").
Proof.
  destruct (close_handler_selects_winner toLowerCase_latin1 normalizeNFKD_latin1
              no_date_parse sample_env quiz_inputs quiz_close_request quiz_world)
    as (Hsel & Hpass & _).
  destruct (Hpass (js "trivia-004") quiz_round (fun _ => Some quiz_replies)
              (default [] (collectReplies toLowerCase_latin1 normalizeNFKD_latin1
                             no_date_parse (fun _ => Some quiz_replies)
                             (ci_replyClock quiz_inputs) (tweet_id quiz_round)
                             (trivia_id quiz_round) (correct_answers quiz_round)
                             (created_at quiz_round) (closes_at quiz_round)))
              (js "salt") 820000)
    as (resp & Hresp & H200).
  { exists (js "s3cret"). split; [reflexivity |].
    split; [discriminate | vm_compute; reflexivity]. }
  { reflexivity. }
  { discriminate. }
  { vm_compute. reflexivity. }
  { reflexivity. }
  { vm_compute. discriminate. }
  { reflexivity. }
  { vm_compute. reflexivity. }
  { reflexivity. }
  { discriminate. }
  { reflexivity. }
  pose proof (Hsel resp Hresp H200) as Hdone.
  destruct Hdone
    as (triviaId & trivia & fetch & replies & salt & blockHeight
        & Hid & Hget & _ & _ & Htw & Hcollect & Hsalt & Hbh & Hrest).
  injection Hid as <-.
  vm_compute in Hget. injection Hget as <-.
  injection Htw as <-. injection Hsalt as <-. injection Hbh as <-.
  vm_compute in Hcollect. injection Hcollect as <-.
  cbv zeta in Hrest. destruct Hrest as (_ & _ & Hwinner).
  destruct Hwinner
    as (winnerId & winner & _ & Hlookup & Hfirst & _ & _
        & (stored & Hstored & Hstatus & Hseed & Hwin & Hcode & Hexpiry)
        & Hanswer & _).
  { vm_compute. discriminate. }
  vm_compute in Hlookup. injection Hlookup as <-.
  exists resp, stored.
  split; [exact Hresp |]. split; [exact H200 |].
  split; [exact (Hsel resp Hresp H200) |].
  split; [vm_compute; reflexivity |].
  split; [exact Hstored |]. split; [exact Hstatus |].
  split; [rewrite Hseed; vm_compute; reflexivity |].
  split; [vm_compute; reflexivity |].
  split; [exact Hwin |].
  split.
  { vm_compute in Hstored. injection Hstored as <-. reflexivity. }
  split; [rewrite Hcode; vm_compute; reflexivity |].
  split; [rewrite Hexpiry; reflexivity |].
  exact Hanswer.
Defined.

(** The scenario of the specification: "Paris!!" by user 11 is correct,
    "london" by user 22 is not; user 11 wins, a claim code is issued and
    it expires sixty minutes after the close. *)
Example paris_scenario :
  option_map res_status (fst paris_close) = Some 200
  /\ option_map (fun r => get (get (res_body r) "winner") "twitterUserId")
       (fst paris_close) = Some (JStr (js "11"))
  /\ option_map (fun r => get (res_body r) "claimCode") (fst paris_close)
     = Some (JStr (js "00112233445566778899aabbccddeeff"))
  /\ option_map (fun r => get (res_body r) "claimExpiresAt") (fst paris_close)
     = Some (JNum (1700000700002 + 60 * 60 * 1000))
  /\ map (fun row => (ri_twitter_user_id (reply row), ri_normalized_text (reply row),
                      ri_is_correct (reply row)))
       (trivia_replies (db (snd paris_close)))
     = [ (js "11", js "paris", 1); (js "22", js "london", 0) ].
Proof. vm_compute. repeat split; reflexivity. Qed.

(* ===================================================================== *)
(** ** The claim handler *)
(* ===================================================================== *)

Lemma allowRateLimit_run (key : jsstring) (limit now : Z) (w : World) :
  exists allowed buckets,
    allowRateLimit key limit now w = (inl allowed, with_buckets buckets w)
    /\ (allowed = true <-> rate_allows key limit now (rateLimitBuckets w))
    /\ (forall other, other <> key -> buckets !! other = rateLimitBuckets w !! other).
Proof.
  unfold allowRateLimit, rate_allows.
  destruct (rateLimitBuckets w !! key) as [bucket |] eqn:Hb.
  - destruct (Z.ltb_spec (bucket_resetAt bucket) now).
    + eexists _, _. split; [reflexivity |]. split; [tauto |].
      intros other Hne. rewrite lookup_insert_ne by congruence. reflexivity.
    + destruct (Z.leb_spec limit (bucket_count bucket)).
      * exists false, (rateLimitBuckets w). split.
        -- destruct w; reflexivity.
        -- split; [split; [discriminate | lia] | reflexivity].
      * eexists _, _. split; [reflexivity |]. split; [tauto |].
        intros other Hne. rewrite lookup_insert_ne by congruence. reflexivity.
  - eexists _, _. split; [reflexivity |]. split; [tauto |].
    intros other Hne. rewrite lookup_insert_ne by congruence. reflexivity.
Qed.

Lemma ip_user_keys_differ (a b : jsstring) : js "user:" ++ b <> js "ip:" ++ a.
Proof. cbn. discriminate. Qed.

Lemma getClaimByCode_clearClaimAttemptLock (code code' : jsstring) (now : Z) (d : Db) :
  getClaimByCode code (clearClaimAttemptLock code' now d) = getClaimByCode code d.
Proof. reflexivity. Qed.

Lemma key_fields_update (cond : TriviaRecord -> bool) (a : Z) (l : option Z)
    (rows : list TriviaRecord) :
  map (fun r => (trivia_id r, used_at r, used_address r, txid r))
      (fst (sql_update cond (set_lock a l) rows))
  = map (fun r => (trivia_id r, used_at r, used_address r, txid r)) rows.
Proof.
  unfold sql_update. cbn [fst]. rewrite map_map. apply map_ext.
  intros r. destruct (cond r); reflexivity.
Qed.

Lemma counters_clear (cond : TriviaRecord -> bool) (rows : list TriviaRecord) :
  Forall2 (fun r r' => round_counter r' = round_counter r
                       \/ round_counter r' = (0, None))
    rows (fst (sql_update cond (set_lock 0 None) rows)).
Proof.
  unfold sql_update. cbn [fst].
  induction rows as [| r rows IH]; cbn [map]; constructor; [| exact IH].
  destruct (cond r); [right | left]; reflexivity.
Qed.

Lemma counters_refl (rows : list TriviaRecord) :
  Forall2 (fun r r' => round_counter r' = round_counter r
                       \/ round_counter r' = (0, None)) rows rows.
Proof. induction rows; constructor; auto. Qed.

Lemma code_counter_clear (code code' : jsstring) (now : Z) (d : Db) :
  code_counter code (clearClaimAttemptLock code' now d) = code_counter code d
  \/ code_counter code (clearClaimAttemptLock code' now d) = (0, None).
Proof.
  unfold code_counter, getClaimAttemptByCode, clearClaimAttemptLock.
  cbn [trivia_claim_attempts with_trivia_claim_attempts].
  rewrite lookup_alter.
  destruct (decide (code' = code)) as [-> |]; [| left; reflexivity].
  destruct (trivia_claim_attempts d !! code); cbn; auto.
Qed.

Lemma after_clears_frame (c1 c2 : bool) (code id : jsstring) (t : Z) (d : Db) :
  trivia_payouts (after_clears c1 c2 code id t d) = trivia_payouts d
  /\ daily_spend (after_clears c1 c2 code id t d) = daily_spend d
  /\ map (fun r => (trivia_id r, used_at r, used_address r, txid r))
         (trivia_rewards (after_clears c1 c2 code id t d))
     = map (fun r => (trivia_id r, used_at r, used_address r, txid r))
         (trivia_rewards d)
  /\ Forall2 (fun r r' => round_counter r' = round_counter r
                          \/ round_counter r' = (0, None))
       (trivia_rewards d) (trivia_rewards (after_clears c1 c2 code id t d))
  /\ (forall c, code_counter c (after_clears c1 c2 code id t d) = code_counter c d
                \/ code_counter c (after_clears c1 c2 code id t d) = (0, None)).
Proof.
  unfold after_clears.
  destruct c1, c2; cbn [clearClaimLock clearClaimAttemptLock trivia_payouts daily_spend
    trivia_rewards with_trivia_rewards with_trivia_claim_attempts];
    repeat split; try reflexivity;
    try apply key_fields_update; try apply counters_clear; try apply counters_refl;
    intros c; try (left; reflexivity); apply code_counter_clear.
Qed.


Lemma frames_after_clears (c1 c2 : bool) (code id : jsstring) (t : Z) (w W : World) :
  sent W = sent w ->
  db W = after_clears c1 c2 code id t (db w) ->
  settlement_untouched w W /\ no_attempt_recorded w W.
Proof.
  intros Hsent Hdb.
  destruct (after_clears_frame c1 c2 code id t (db w)) as (H1 & H2 & H3 & H4 & H5).
  unfold settlement_untouched, no_attempt_recorded. rewrite Hdb.
  repeat split; assumption.
Qed.

Lemma rate_allows_lookup (key : jsstring) (limit now : Z)
    (b1 b2 : gmap jsstring Bucket) :
  b1 !! key = b2 !! key ->
  rate_allows key limit now b1 <-> rate_allows key limit now b2.
Proof. unfold rate_allows. intros ->. reflexivity. Qed.

Ltac claim_frames code id t :=
  first [ apply (frames_after_clears false false code id t); reflexivity
        | apply (frames_after_clears true false code id t); reflexivity
        | apply (frames_after_clears false true code id t); reflexivity
        | apply (frames_after_clears true true code id t); reflexivity ].


Lemma skipn_exact {A} (l l' : list A) : skipn (length l) (l ++ l') = l'.
Proof. induction l; [reflexivity | assumption]. Qed.

Lemma skipn_whole {A} (l : list A) : skipn (length l) l = [].
Proof. induction l; [reflexivity | assumption]. Qed.

Lemma not_breach_info (m : jsstring) : ~ cap_breach_warning (LogInfo, m).
Proof. intros [H _]. discriminate H. Qed.

Lemma not_breach_head (s : string) (rest : jsstring) :
  match js s with
  | c :: _ => (c =? 68)%N || (c =? 85)%N || (c =? 65)%N
  | [] => true
  end = false ->
  ~ cap_breach_warning (LogWarn, js s ++ rest).
Proof.
  intros Hhead (_ & subject & H). cbn [snd] in H.
  destruct (js s) as [| c cs]; [discriminate |].
  destruct H as [H | [H | H]]; cbn in H; injection H as -> _; discriminate.
Qed.

Lemma not_breach_head_only (s : string) :
  match js s with
  | c :: _ => (c =? 68)%N || (c =? 85)%N || (c =? 65)%N
  | [] => true
  end = false ->
  ~ cap_breach_warning (LogWarn, js s).
Proof.
  intros Hhead Hb. apply (not_breach_head s [] Hhead).
  rewrite app_nil_r. exact Hb.
Qed.

(** Refuting that a breach warning is among the given new entries. *)
Ltac no_breach H :=
  let entry := fresh "entry" in
  let Hin := fresh "Hin" in
  let Hb := fresh "Hb" in
  destruct H as (entry & Hin & Hb);
  unfold new_log in Hin;
  cbn [log with_response with_log with_db with_sent with_buckets] in Hin;
  rewrite <- ?app_assoc in Hin;
  first [rewrite skipn_exact in Hin | rewrite skipn_whole in Hin];
  cbn [app] in Hin;
  exfalso;
  repeat (destruct Hin as [<- | Hin];
          [first [exact (not_breach_info _ Hb)
                 | apply not_breach_head in Hb; [exact Hb | reflexivity]
                 | apply not_breach_head_only in Hb; [exact Hb | reflexivity]] |]);
  destruct Hin.

Ltac reject_leaf Hout Hlog :=
  cbv beta iota zeta delta
    [reject_attempt bind call recordInvalidAttempt elizaLogger ret] in Hout;
  match type of Hout with
  | context [if lock_active ?l ?n then _ else _] => destruct (lock_active l n)
  end; run_leaf Hout; no_breach Hlog.

Ltac breach_leaf Hout code id t :=
  run_leaf Hout;
  match goal with
  | |- _ /\ settlement_untouched ?w0 ?W0 /\ _ =>
      let Hfr := fresh "Hfr" in
      assert (Hfr : settlement_untouched w0 W0 /\ no_attempt_recorded w0 W0)
        by claim_frames code id t;
      destruct Hfr; split; [reflexivity |]; split; [assumption |];
      split; [assumption |]
  end.

Lemma settled_frames (c1 c2 : bool) (inp : ClaimInputs) (req : Request ClaimBody)
    (claimCode address : jsstring) (claim : TriviaRecord) (w W : World) :
  sent W = sent w ->
  db W = after_clears c1 c2 claimCode (trivia_id claim) (clock_codeClear inp) (db w) ->
  (c1 = true ->
   lock_expired (getClaimAttemptByCode claimCode (db w) ≫= ca_lock_expires_at)
     (clock_now inp) = true) ->
  (c2 = true -> lock_expired (lock_expires_at claim) (clock_now inp) = true) ->
  (forall key,
     key <> js "ip:" ++ getRequestIp req ->
     (forall user, winner_twitter_user_id claim = Some user ->
                   key <> js "user:" ++ user) ->
     rateLimitBuckets W !! key = rateLimitBuckets w !! key) ->
  (log W = log w
   \/ log W = log w ++ [(LogInfo, js "Claim request: " ++ trivia_id claim
                                    ++ js " address " ++ address)]) ->
  settlement_untouched w W /\ no_attempt_recorded w W
  /\ settled_claim_writes inp req claimCode address claim w W.
Proof.
  intros Hsent Hdb H1 H2 Hb Hl.
  destruct (frames_after_clears c1 c2 claimCode (trivia_id claim)
              (clock_codeClear inp) w W Hsent Hdb) as [Hs Hn].
  split; [exact Hs |]. split; [exact Hn |].
  split; [| split; [exact Hb | exact Hl]].
  exists c1, c2. split; [exact Hdb |]. split; assumption.
Qed.

(** A leaf of the claim handler that wrote nothing but the resets of
    expired lockouts: the four combinations of the two resets are tried. *)
Ltac settled_with c1 c2 buckets :=
  apply (settled_frames c1 c2);
  [ reflexivity | reflexivity
  | intros; first [discriminate | assumption]
  | intros; first [discriminate | assumption]
  | let key := fresh "key" in
    let Hk := fresh "Hk" in
    let Hu := fresh "Hu" in
    intros key Hk Hu; buckets key Hk Hu
  | first [left; reflexivity | right; reflexivity] ].

Ltac settled_leaf buckets :=
  first [ settled_with false false buckets | settled_with true false buckets
        | settled_with false true buckets | settled_with true true buckets ].

Section ClaimFacts.

Variable toLowerCase : jsstring -> jsstring.

Local Abbreviation claim_handler' := (claim_handler toLowerCase).

(** C6, as the code has it. A claim request that carries a claim code and
    an address, and whose code resolves to a round with [used_at] set, is
    answered either 429 [rate_limited] or 200 with the round's stored
    [txid] and status [already_paid]; it is the latter whenever the
    guards that the handler runs before it looks at [used_at] let the
    request through (the limiter on the requester's address, the lockout
    of the code, the lockout of the round, the limiter on the winner).
    Either way no payment is invoked, no payout and no daily total is
    written, no round changes its settlement columns, and no invalid
    attempt is recorded. What is written is the reset of the lockout of
    the code and of the round, each only when it has expired, with the
    database otherwise as it was; the buckets of the limiter for the
    requester's address and for the winner; and at most the line of the
    log that announces the request. *)
Theorem claim_already_settled (env : Env) (inp : ClaimInputs)
    (req : Request ClaimBody) (w : World)
    (claimCode address : jsstring) (claim : TriviaRecord) :
  clm_claimCode (req_body req) = Some claimCode -> claimCode <> [] ->
  clm_address (req_body req) = Some address -> address <> [] ->
  getClaimByCode claimCode (db w) = Some claim ->
  truthy_num (used_at claim) = true ->
  let out := run_handler (claim_handler' env inp req) w in
  (fst out = Some rate_limited \/ fst out = Some (already_paid claim))
  /\ (claim_guards_pass env inp req w claimCode claim ->
      fst out = Some (already_paid claim))
  /\ settlement_untouched w (snd out)
  /\ no_attempt_recorded w (snd out)
  /\ settled_claim_writes inp req claimCode address claim w (snd out).
Proof.
  intros Hcode Hcodene Haddr Haddrne Hclaim Hused. cbv zeta.
  unfold run_handler.
  destruct (claim_handler' env inp req (with_response None w)) as [r W] eqn:Hout.
  cbn [fst snd].
  unfold claim_handler in Hout.
  rewrite Hcode, Haddr in Hout.
  cbn [truthy_ostr default from_option Datatypes.id] in Hout.
  apply truthy_str_true in Hcodene, Haddrne.
  rewrite Hcodene, Haddrne in Hout. cbn [negb orb] in Hout.
  unfold claim_guards_pass. cbv zeta.
  set (limit := default 10 (CLAIM_RATE_LIMIT_PER_MINUTE env)) in *.
  (* the limiter on the requester's address *)
  unfold bind at 1 in Hout.
  destruct (allowRateLimit_run (js "ip:" ++ getRequestIp req) limit
              (clock_ipCheck inp) (with_response None w))
    as (allowed & bk & Hip & Hipok & Hipother).
  rewrite Hip in Hout.
  cbn [rateLimitBuckets with_response] in Hipother.
  destruct allowed; cbn [negb] in Hout.
  2: { run_leaf Hout. split; [left; reflexivity |].
       split; [intros (Hok & _); apply Hipok in Hok; discriminate |].
       settled_leaf ltac:(fun key Hk Hu => apply Hipother, Hk). }
  (* the lock of the claim code *)
  unfold bind at 1 in Hout. cbn [query] in Hout.
  cbn [db with_buckets with_response] in Hout.
  set (codeLock := getClaimAttemptByCode claimCode (db w) ≫= ca_lock_expires_at) in *.
  destruct (lock_active codeLock (clock_now inp)) eqn:Hcl.
  { run_leaf Hout. split; [left; reflexivity |].
    split; [intros (_ & Hok & _); discriminate |].
    settled_leaf ltac:(fun key Hk Hu => apply Hipother, Hk). }
  unfold bind at 1 in Hout.
  destruct (lock_expired codeLock (clock_now inp)) eqn:Hce;
    cbn [when_ update ret] in Hout.
  all: unfold bind at 1 in Hout; cbn [query] in Hout;
       cbn [db with_db with_buckets with_response] in Hout;
       rewrite ?getClaimByCode_clearClaimAttemptLock in Hout;
       rewrite Hclaim in Hout.
  all: unfold bind at 1 in Hout; cbn [elizaLogger] in Hout.
  all: destruct (lock_active (lock_expires_at claim) (clock_now inp)) eqn:Hrl.
  all: try (run_leaf Hout; split; [left; reflexivity |];
            split; [intros (_ & _ & Hok & _); discriminate |];
            settled_leaf ltac:(fun key Hk Hu => apply Hipother, Hk)).
  all: unfold bind at 1 in Hout.
  all: destruct (lock_expired (lock_expires_at claim) (clock_now inp)) eqn:Hre;
       cbn [when_ update ret] in Hout.
  all: unfold bind at 1 in Hout.
  all: destruct (truthy_ostr (winner_twitter_user_id claim)) eqn:Hwinner.
  all: try (destruct (truthy_ostr_some _ Hwinner) as (user & Huser & Huserne);
            rewrite Huser in Hout;
            cbn [default from_option Datatypes.id] in Hout;
            match type of Hout with
            | context [allowRateLimit ?k ?l ?t ?w0] =>
                destruct (allowRateLimit_run k l t w0)
                  as (userAllowed & bk' & Huc & Hucok & Hucother);
                rewrite Huc in Hout
            end;
            cbn [rateLimitBuckets with_buckets with_db with_log with_response]
              in Hucother;
            destruct userAllowed; cbn [negb] in Hout).
  all: try (cbn [ret negb] in Hout; rewrite Hused in Hout).
  all: run_leaf Hout.
  all: split;
         [first [right; reflexivity | left; reflexivity] |].
  all: split.
  all: try (settled_leaf
              ltac:(fun key Hk Hu =>
                      first [ rewrite Hucother by (apply (Hu user Huser));
                              apply Hipother, Hk
                            | apply Hipother, Hk ])).
  all: try (intros _; reflexivity).
  all: intros (_ & _ & _ & Hok); exfalso.
  all: specialize (Hok user Huser Huserne).
  all: cbn [rateLimitBuckets with_buckets with_db with_log with_response] in Hucok.
  all: assert (Hfalse : false = true); [| discriminate Hfalse].
  all: apply Hucok.
  all: eapply rate_allows_lookup; [| exact Hok].
  all: apply Hipother; apply ip_user_keys_differ.
Qed.

(** A request during which one of the three capacity warnings is logged
    is answered 429, with the frame of C8, and one of the three limits is
    indeed exceeded for the round its code resolves to. *)
Lemma claim_cap_breach_logged (env : Env) (inp : ClaimInputs)
    (req : Request ClaimBody) (w : World) :
  let out := run_handler (claim_handler' env inp req) w in
  (exists entry, In entry (new_log w (snd out)) /\ cap_breach_warning entry) ->
  fst out = Some rate_limited
  /\ settlement_untouched w (snd out)
  /\ no_attempt_recorded w (snd out)
  /\ exists claimCode address claim,
       clm_claimCode (req_body req) = Some claimCode
       /\ clm_address (req_body req) = Some address
       /\ getClaimByCode claimCode (db w) = Some claim
       /\ cap_breached env (clock_now inp) (db w) claim address.
Proof.
  cbv zeta. unfold run_handler.
  destruct (claim_handler' env inp req (with_response None w)) as [r W] eqn:Hout.
  cbn [fst snd]. intros Hlog.
  unfold claim_handler in Hout.
  set (limit := default 10 (CLAIM_RATE_LIMIT_PER_MINUTE env)) in *.
  unfold bind at 1 in Hout.
  destruct (allowRateLimit_run (js "ip:" ++ getRequestIp req) limit
              (clock_ipCheck inp) (with_response None w))
    as (allowed & bk & Hip & _ & _).
  rewrite Hip in Hout. clear Hip.
  destruct allowed; cbn [negb] in Hout.
  2: { run_leaf Hout. no_breach Hlog. }
  destruct (truthy_ostr (clm_claimCode (req_body req))) eqn:Hc;
    cbn [negb orb] in Hout.
  2: { run_leaf Hout. no_breach Hlog. }
  destruct (truthy_ostr (clm_address (req_body req))) eqn:Ha;
    cbn [negb orb] in Hout.
  2: { run_leaf Hout. no_breach Hlog. }
  destruct (truthy_ostr_some _ Hc) as (claimCode & Hcode & _).
  destruct (truthy_ostr_some _ Ha) as (address & Haddr & _).
  rewrite Hcode, Haddr in Hout.
  cbn [default from_option Datatypes.id] in Hout.
  unfold bind at 1 in Hout. cbn [query] in Hout.
  cbn [db with_buckets with_response] in Hout.
  set (codeLock := getClaimAttemptByCode claimCode (db w) ≫= ca_lock_expires_at) in *.
  destruct (lock_active codeLock (clock_now inp)) eqn:Hcl.
  { run_leaf Hout. no_breach Hlog. }
  unfold bind at 1 in Hout.
  destruct (lock_expired codeLock (clock_now inp)) eqn:Hce;
    cbn [when_ update ret] in Hout.
  all: unfold bind at 1 in Hout; cbn [query] in Hout;
       cbn [db with_db with_buckets with_response] in Hout;
       rewrite ?getClaimByCode_clearClaimAttemptLock in Hout.
  all: destruct (getClaimByCode claimCode (db w)) as [claim |] eqn:Hclaim.
  (* claim code not found *)
  2, 4: cbv beta iota zeta delta [bind call recordInvalidClaimCodeAttempt] in Hout;
        match type of Hout with
        | context [if lock_active ?l ?n then _ else _] => destruct (lock_active l n)
        end; run_leaf Hout; no_breach Hlog.
  all: unfold bind at 1 in Hout; cbn [elizaLogger] in Hout.
  all: destruct (lock_active (lock_expires_at claim) (clock_now inp)) eqn:Hrl;
       [run_leaf Hout; no_breach Hlog |].
  all: unfold bind at 1 in Hout.
  all: destruct (lock_expired (lock_expires_at claim) (clock_now inp)) eqn:Hre;
       cbn [when_ update ret] in Hout.
  all: unfold bind at 1 in Hout.
  all: destruct (truthy_ostr (winner_twitter_user_id claim)) eqn:Hwinner.
  all: try (match type of Hout with
            | context [allowRateLimit ?k ?l ?t ?w0] =>
                destruct (allowRateLimit_run k l t w0)
                  as (userAllowed & bk' & Huc & _ & _);
                rewrite Huc in Hout; clear Huc
            end;
            destruct userAllowed; cbn [negb] in Hout;
            [| run_leaf Hout; no_breach Hlog]).
  all: cbn [ret negb] in Hout.
  all: destruct (truthy_num (used_at claim)) eqn:Hused;
       [run_leaf Hout; no_breach Hlog |].
  all: destruct (isValidEcashAddress address) eqn:Hvalid; cbn [negb] in Hout.
  all: try solve [reject_leaf Hout Hlog].
  all: destruct (truthy_num (claim_expires_at claim)
                 && (default 0 (claim_expires_at claim) <? clock_now inp)) eqn:Hexp;
       [reject_leaf Hout Hlog |].
  all: cbn [negb] in Hout.
  all: try solve [run_leaf Hout; no_breach Hlog].
  all: destruct (truthy_ostr (RMZSTATE_TOKEN_ID env)) eqn:Hgate; cbn [negb] in Hout;
       [| run_leaf Hout; no_breach Hlog].
  all: destruct (ownsToken inp address (default [] (RMZSTATE_TOKEN_ID env))) eqn:Hown;
       cbn [negb] in Hout; [| reject_leaf Hout Hlog].
  all: unfold bind at 1 in Hout; cbn [query] in Hout.
  all: match type of Hout with
       | context [if ?a <? ?b then _ else _] =>
           destruct (Z.ltb_spec a b) as [Hcap | Hcap]
       end.
  all: try (breach_leaf Hout claimCode (trivia_id claim) (clock_codeClear inp);
            exists claimCode, address, claim;
            repeat (split; [assumption |]); left; exact Hcap).
  all: unfold bind at 1 in Hout; cbn [query] in Hout.
  all: match type of Hout with
       | context [if ?a <=? ?b then _ else _] =>
           destruct (Z.leb_spec a b) as [Hwins | Hwins]
       end.
  all: try (breach_leaf Hout claimCode (trivia_id claim) (clock_codeClear inp);
            exists claimCode, address, claim;
            repeat (split; [assumption |]); right; left; exact Hwins).
  all: unfold bind at 1 in Hout; cbn [query] in Hout.
  all: match type of Hout with
       | context [if ?a <? ?b then _ else _] =>
           destruct (Z.ltb_spec a b) as [Haddr' | Haddr']
       end.
  all: try (breach_leaf Hout claimCode (trivia_id claim) (clock_codeClear inp);
            exists claimCode, address, claim;
            repeat (split; [assumption |]); right; right; exact Haddr').
  all: destruct (truthy_ostr (RMZ_TOKEN_ID env)) eqn:Htoken; cbn [negb] in Hout;
       [| run_leaf Hout; no_breach Hlog].
  all: unfold bind at 1 in Hout; cbn [elizaLogger] in Hout.
  all: unfold bind at 1 in Hout; cbn [await_sendRmz] in Hout.
  all: match type of Hout with
       | context [sendRmz ?a ?b ?c ?d] => destruct (sendRmz a b c d) as [txid |]
       end.
  all: try solve [run_leaf Hout; no_breach Hlog].
  all: cbv beta iota zeta delta [store_recordClaimAndPayout bind call] in Hout.
  all: match type of Hout with
       | context [recordClaimAndPayout ?p ?d] =>
           destruct (recordClaimAndPayout p d) as [[|] d']
       end.
  all: run_leaf Hout; no_breach Hlog.
Qed.

(** A request that passes every check before the capacity checks and
    exceeds one of the three limits logs one of the three warnings. *)
Lemma claim_cap_breach_reached (env : Env) (inp : ClaimInputs)
    (req : Request ClaimBody) (w : World)
    (claimCode address : jsstring) (claim : TriviaRecord) :
  claim_reaches_caps env inp req w claimCode address claim ->
  cap_breached env (clock_now inp) (db w) claim address ->
  exists entry,
    In entry (new_log w (snd (run_handler (claim_handler' env inp req) w)))
    /\ cap_breach_warning entry.
Proof.
  intros (Hcode & Hcodene & Haddr & Haddrne & Hclaim & Hguards & Hused & Hvalid
          & Hexp & Hwinner & Hgate & Hown) Hbreach.
  destruct Hguards as (Hipok' & Hcl & Hrl & Huserok).
  cbv zeta in Hipok', Huserok.
  unfold run_handler.
  destruct (claim_handler' env inp req (with_response None w)) as [r W] eqn:Hout.
  cbn [fst snd].
  unfold claim_handler in Hout.
  rewrite Hcode, Haddr in Hout.
  cbn [truthy_ostr default from_option Datatypes.id] in Hout.
  apply truthy_str_true in Hcodene, Haddrne.
  rewrite Hcodene, Haddrne in Hout. cbn [negb orb] in Hout.
  set (limit := default 10 (CLAIM_RATE_LIMIT_PER_MINUTE env)) in *.
  unfold bind at 1 in Hout.
  destruct (allowRateLimit_run (js "ip:" ++ getRequestIp req) limit
              (clock_ipCheck inp) (with_response None w))
    as (allowed & bk & Hip & Hipok & Hipother).
  rewrite Hip in Hout.
  assert (allowed = true) as -> by (apply Hipok; exact Hipok').
  cbn [negb] in Hout.
  unfold bind at 1 in Hout. cbn [query] in Hout.
  cbn [db with_buckets with_response] in Hout.
  rewrite Hcl in Hout.
  unfold bind at 1 in Hout.
  destruct (lock_expired (getClaimAttemptByCode claimCode (db w) ≫= ca_lock_expires_at)
              (clock_now inp)) eqn:Hce;
    cbn [when_ update ret] in Hout.
  all: unfold bind at 1 in Hout; cbn [query] in Hout;
       cbn [db with_db with_buckets with_response] in Hout;
       rewrite ?getClaimByCode_clearClaimAttemptLock in Hout;
       rewrite Hclaim in Hout.
  all: unfold bind at 1 in Hout; cbn [elizaLogger] in Hout.
  all: rewrite Hrl in Hout.
  all: unfold bind at 1 in Hout.
  all: destruct (lock_expired (lock_expires_at claim) (clock_now inp)) eqn:Hre;
       cbn [when_ update ret] in Hout.
  all: unfold bind at 1 in Hout.
  all: rewrite Hwinner in Hout.
  all: destruct (truthy_ostr_some _ Hwinner) as (user & Huser & Huserne).
  all: match type of Hout with
       | context [allowRateLimit ?k ?l ?t ?w0] =>
           destruct (allowRateLimit_run k l t w0)
             as (userAllowed & bk' & Huc & Hucok & _);
           rewrite Huc in Hout
       end.
  all: assert (userAllowed = true) as ->
         by (apply Hucok;
             cbn [rateLimitBuckets with_buckets with_db with_log with_response];
             rewrite Huser; cbn [default from_option Datatypes.id];
             eapply rate_allows_lookup;
               [| exact (Huserok user Huser Huserne)];
             apply Hipother; apply ip_user_keys_differ).
  all: cbn [negb] in Hout.
  all: rewrite Hused, Hvalid in Hout; cbn [negb] in Hout.
  all: rewrite Hexp in Hout.
  all: rewrite Hgate, Hown in Hout; cbn [negb] in Hout.
  all: unfold bind at 1 in Hout; cbn [query] in Hout.
  all: unfold cap_breached in Hbreach; cbv zeta in Hbreach.
  all: match type of Hout with
       | context [if ?a <? ?b then _ else _] =>
           destruct (Z.ltb_spec a b) as [Hcap | Hcap]
       end.
  all: try (unfold bind at 1 in Hout; cbn [query] in Hout;
            match type of Hout with
            | context [if ?a <=? ?b then _ else _] =>
                destruct (Z.leb_spec a b) as [Hwins | Hwins]
            end).
  all: try (unfold bind at 1 in Hout; cbn [query] in Hout;
            match type of Hout with
            | context [if ?a <? ?b then _ else _] =>
                destruct (Z.ltb_spec a b) as [Haddr' | Haddr']
            end).
  all: try (exfalso;
            change (getDailySpend ?k (db ?x)) with (getDailySpend k (db w)) in *;
            cbn [db with_db with_log with_buckets with_response] in *;
            destruct Hbreach as [Hb | [Hb | Hb]];
            [ revert Hb Hcap | revert Hb Hwins | revert Hb Haddr' ];
            unfold getDailySpend, countWinsForUser, sumAddressSpend, clearClaimLock,
              clearClaimAttemptLock;
            cbn [daily_spend trivia_payouts with_trivia_rewards
                 with_trivia_claim_attempts];
            lia).
  all: run_leaf Hout.
  all: unfold new_log;
       cbn [log with_response with_log with_db with_sent with_buckets];
       rewrite <- ?app_assoc; rewrite skipn_exact; cbn [app].
  all: eexists; split; [right; left; reflexivity |].
  all: split; [reflexivity |]; eexists; cbn [snd]; eauto.
Qed.

(** C8. A claim request that comes to the capacity checks and exceeds the
    global daily cap, the winner's daily number of wins or the address's
    daily total is answered 429 [rate_limited]; no invalid attempt is
    recorded against the round or the claim code, [sendRmz] is not
    called, and no payout, daily total or settlement column is written.
    The same holds of every request during which the handler logs one of
    its three capacity warnings, and such a request does exceed one of
    the three limits. *)
Theorem claim_cap_breach_frame (env : Env) (inp : ClaimInputs)
    (req : Request ClaimBody) (w : World) :
  let out := run_handler (claim_handler' env inp req) w in
  (forall claimCode address claim,
     claim_reaches_caps env inp req w claimCode address claim ->
     cap_breached env (clock_now inp) (db w) claim address ->
     fst out = Some rate_limited
     /\ settlement_untouched w (snd out)
     /\ no_attempt_recorded w (snd out))
  /\ ((exists entry, In entry (new_log w (snd out)) /\ cap_breach_warning entry) ->
      fst out = Some rate_limited
      /\ settlement_untouched w (snd out)
      /\ no_attempt_recorded w (snd out)
      /\ exists claimCode address claim,
           clm_claimCode (req_body req) = Some claimCode
           /\ clm_address (req_body req) = Some address
           /\ getClaimByCode claimCode (db w) = Some claim
           /\ cap_breached env (clock_now inp) (db w) claim address).
Proof.
  cbv zeta. split.
  - intros claimCode address claim Hreach Hbreach.
    pose proof (claim_cap_breach_reached env inp req w claimCode address claim
                  Hreach Hbreach) as Hlogged.
    destruct (claim_cap_breach_logged env inp req w Hlogged) as (Hr & Hs & Hn & _).
    split; [exact Hr |]. split; [exact Hs | exact Hn].
  - exact (claim_cap_breach_logged env inp req w).
Qed.

End ClaimFacts.

(** The claim as it is worded fails on the settled sample round: when the
    requester's address has used up its requests of the minute the retry
    is answered 429, not with the stored [txid]; and a retry that is
    answered with it has advanced the counter of the limiter. *)
Lemma claim_already_settled_claim_counterexample :
  getClaimByCode (js "00112233445566778899aabbccddeeff") (db throttled_world)
  = Some settled_round
  /\ used_at settled_round = Some 1700001000000
  /\ fst (run_handler (claim_handler toLowerCase_latin1 sample_env claim_inputs
                         claim_request) throttled_world)
     = Some rate_limited
  /\ fst (run_handler (claim_handler toLowerCase_latin1 sample_env claim_inputs
                         claim_request) throttled_world)
     <> Some (already_paid settled_round)
  /\ rateLimitBuckets
       (snd (run_handler (claim_handler toLowerCase_latin1 sample_env claim_inputs
                            claim_request) settled_world))
     <> rateLimitBuckets settled_world.
Proof.
  split; [vm_compute; reflexivity |].
  split; [reflexivity |].
  split; [vm_compute; reflexivity |].
  split.
  - intros H. vm_compute in H. discriminate H.
  - intros H.
    apply (f_equal (fun m => bucket_count <$> m !! js "ip:203.0.113.7")) in H.
    vm_compute in H. discriminate H.
Qed.

(** The settled sample round, claimed again with nothing in the way. *)
Lemma claim_already_settled_witness :
  let out := run_handler (claim_handler toLowerCase_latin1 sample_env claim_inputs
                            claim_request) settled_world in
  fst out = Some (already_paid settled_round)
  /\ settlement_untouched settled_world (snd out)
  /\ no_attempt_recorded settled_world (snd out)
  /\ settled_claim_writes claim_inputs claim_request
       (js "00112233445566778899aabbccddeeff") sample_address settled_round
       settled_world (snd out)
  /\ trivia_rewards (db (snd out)) = [settled_round].
Proof.
  cbv zeta.
  destruct (claim_already_settled toLowerCase_latin1 sample_env claim_inputs
              claim_request settled_world
              (js "00112233445566778899aabbccddeeff") sample_address settled_round)
    as (_ & Hpass & Hs & Hn & Hw).
  - reflexivity.
  - discriminate.
  - reflexivity.
  - discriminate.
  - vm_compute. reflexivity.
  - reflexivity.
  - split.
    { apply Hpass.
      split; [vm_compute; exact I |].
      split; [vm_compute; reflexivity |].
      split; [vm_compute; reflexivity |].
      intros user _ _. vm_compute. exact I. }
    split; [exact Hs |]. split; [exact Hn |]. split; [exact Hw |].
    vm_compute. reflexivity.
Defined.

(** The sample round claimed on a day whose payouts already reach the
    global cap. *)
Lemma claim_cap_breach_frame_witness :
  fst (run_handler (claim_handler toLowerCase_latin1 sample_env claim_inputs
                      claim_request) capped_world)
  = Some rate_limited
  /\ settlement_untouched capped_world
       (snd (run_handler (claim_handler toLowerCase_latin1 sample_env claim_inputs
                            claim_request) capped_world))
  /\ no_attempt_recorded capped_world
       (snd (run_handler (claim_handler toLowerCase_latin1 sample_env claim_inputs
                            claim_request) capped_world)).
Proof.
  apply (proj1 (claim_cap_breach_frame toLowerCase_latin1 sample_env claim_inputs
                  claim_request capped_world)
           (js "00112233445566778899aabbccddeeff") sample_address sample_round).
  - split; [reflexivity |]. split; [discriminate |].
    split; [reflexivity |]. split; [discriminate |].
    split; [vm_compute; reflexivity |].
    split.
    { split; [vm_compute; exact I |].
      split; [vm_compute; reflexivity |].
      split; [vm_compute; reflexivity |].
      intros user _ _. vm_compute. exact I. }
    repeat split; vm_compute; reflexivity.
  - left. vm_compute. reflexivity.
Defined.

(* ===================================================================== *)
(** ** Further properties of the code *)
(* ===================================================================== *)

Lemma pickFirstString_blank (values : list JsVal) :
  pickFirstString values = [] <-> forall s, In (JStr s) values -> trim s = [].
Proof.
  induction values as [| v rest IH]; cbn [pickFirstString].
  - split; [intros _ s [] | reflexivity].
  - destruct v; try (rewrite IH; split;
                     [ intros H s' [Hs | Hs]; [discriminate Hs | exact (H s' Hs)]
                     | intros H s' Hs; apply H; right; exact Hs ]).
    destruct (trim s) eqn:Htrim; cbn [truthy_str].
    + rewrite IH. split.
      * intros H s' [[= <-] | Hs]; [exact Htrim | exact (H s' Hs)].
      * intros H s' Hs. apply H. right. exact Hs.
    + split.
      * intros ->. discriminate Htrim.
      * intros H. specialize (H s (or_introl eq_refl)). congruence.
Qed.

(** X1. [pickFirstString] yields the empty string exactly when no candidate is
    a string with something other than white space in it; otherwise it
    yields the first such candidate, as it is (not trimmed), and every
    string before it is blank. *)
Theorem pickFirstString_first (values : list JsVal) :
  (pickFirstString values = []
   <-> forall s, In (JStr s) values -> trim s = [])
  /\ (pickFirstString values <> [] ->
      exists before after,
        values = before ++ JStr (pickFirstString values) :: after
        /\ trim (pickFirstString values) <> []
        /\ forall s, In (JStr s) before -> trim s = []).
Proof.
  split; [apply pickFirstString_blank |].
  induction values as [| v rest IH]; cbn [pickFirstString].
  - intros H. contradiction H. reflexivity.
  - destruct v as [| | b | n | s | items | props];
      try (intros H; destruct (IH H) as (before & after & Heq & Hne & Hblank);
           eexists (_ :: before), after;
           split; [cbn [app]; f_equal; exact Heq |];
           split; [exact Hne |];
           intros s' [Hs | Hs]; [discriminate Hs | exact (Hblank s' Hs)]).
    destruct (trim s) eqn:Htrim; cbn [truthy_str].
    + intros H. destruct (IH H) as (before & after & Heq & Hne & Hblank).
      exists (JStr s :: before), after.
      split; [cbn [app]; f_equal; exact Heq |].
      split; [exact Hne |].
      intros s' [[= <-] | Hs]; [exact Htrim | exact (Hblank s' Hs)].
    + intros _. exists [], rest.
      split; [reflexivity |]. split; [congruence |]. intros s' [].
Qed.

Section ParseFacts.
Variable Date_parse : jsstring -> option Z.

Lemma pickFirstString_nonblank (values : list JsVal) :
  pickFirstString values <> [] -> trim (pickFirstString values) <> [].
Proof.
  intros H. destruct (proj2 (pickFirstString_first values) H) as (_ & _ & _ & Hne & _).
  exact Hne.
Qed.

(** X2. [parseTweetForReply] yields [null] exactly when the raw value is not
    an object, or no tweet id, or no author id can be picked. A parsed
    tweet has an id and an author id that are not blank; its user name
    and its reply-to id are [null] rather than empty; and a numeric
    [timestamp], read as seconds, decides its creation time before any
    other field. *)
Theorem parseTweetForReply_spec (raw : JsVal) :
  (parseTweetForReply Date_parse raw = None
   <-> is_object raw = false \/ raw_id raw = [] \/ raw_twitterUserId raw = [])
  /\ (forall p, parseTweetForReply Date_parse raw = Some p ->
        pt_id p = raw_id raw /\ trim (pt_id p) <> []
        /\ pt_twitterUserId p = raw_twitterUserId raw
        /\ trim (pt_twitterUserId p) <> []
        /\ pt_text p = raw_text raw
        /\ pt_twitterUsername p <> Some []
        /\ pt_inReplyToStatusId p <> Some []
        /\ (forall t, get raw "timestamp" = JNum t ->
                      pt_createdAtMs p = Some (t * 1000))).
Proof.
  unfold parseTweetForReply.
  destruct (is_object raw); cbn [negb].
  2:{ split; [split; [auto | reflexivity] | discriminate]. }
  destruct (raw_id raw) as [| i0 idt] eqn:Hid; cbn [truthy_str negb].
  { split; [split; [auto | reflexivity] | discriminate]. }
  destruct (raw_twitterUserId raw) as [| u0 ut] eqn:Huser; cbn [truthy_str negb].
  { split; [split; [auto | reflexivity] | discriminate]. }
  split.
  - split; [discriminate | intros [H | [H | H]]; discriminate].
  - intros p [= <-].
    cbn [pt_id pt_twitterUserId pt_text pt_twitterUsername pt_inReplyToStatusId
         pt_createdAtMs].
    split; [reflexivity |].
    split; [rewrite <- Hid; apply pickFirstString_nonblank; unfold raw_id in Hid;
            rewrite Hid; discriminate |].
    split; [reflexivity |].
    split; [rewrite <- Huser; apply pickFirstString_nonblank;
            unfold raw_twitterUserId in Huser; rewrite Huser; discriminate |].
    split; [reflexivity |].
    split; [unfold or_null; destruct (raw_twitterUsername raw); cbn; congruence |].
    split; [unfold or_null; destruct (raw_inReplyToStatusId raw); cbn; congruence |].
    intros t Ht. unfold parse_createdAtMs. rewrite Ht. reflexivity.
Qed.

End ParseFacts.

Lemma parseTweetForReply_spec_witness :
  exists p, parseTweetForReply no_date_parse reply_paris = Some p
            /\ pt_createdAtMs p = Some (1700000100 * 1000).
Proof.
  eexists. split; [reflexivity |].
  destruct (parseTweetForReply_spec no_date_parse reply_paris) as (_ & H).
  destruct (H _ eq_refl) as (_ & _ & _ & _ & _ & _ & _ & Ht).
  apply Ht. reflexivity.
Defined.

(** X3. Whatever the two Unicode operations do, a normalized answer is made
    of lower-case ASCII letters, digits and single spaces, with no
    space at either end. *)
Theorem normalizeAnswer_alphabet (toLowerCase normalizeNFKD : jsstring -> jsstring)
    (x : jsstring) :
  Forall plain_char (normalizeAnswer toLowerCase normalizeNFKD x)
  /\ single_spaced (normalizeAnswer toLowerCase normalizeNFKD x)
  /\ trimmed (normalizeAnswer toLowerCase normalizeNFKD x).
Proof. apply normalizeAnswer_normal_form. Qed.

(** *** Store *)

Lemma find_existsb {A} (p : A -> bool) (l : list A) :
  existsb p l = true <-> exists r, List.find p l = Some r.
Proof.
  induction l as [| a l IH]; cbn.
  - split; [discriminate | intros (r & H); discriminate].
  - destruct (p a); cbn; [split; eauto |]. exact IH.
Qed.

Lemma find_app_miss {A} (p : A -> bool) (l l' : list A) :
  List.find p l = None -> List.find p (l ++ l') = List.find p l'.
Proof.
  induction l as [| a l IH]; cbn; [reflexivity |].
  destruct (p a); [discriminate | exact IH].
Qed.

Lemma find_app_hit {A} (p : A -> bool) (l l' : list A) (r : A) :
  List.find p l = Some r -> List.find p (l ++ l') = Some r.
Proof.
  induction l as [| a l IH]; cbn; [discriminate |].
  destruct (p a); [auto | exact IH].
Qed.

(** X4. [createTrivia] throws exactly when a round with the id is stored.
    Otherwise [getTrivia] finds the new round with the columns given,
    open, without winner, claim code or settlement and with a counter at
    zero; every other round reads as before and no other table
    changes. *)
Theorem createTrivia_getTrivia (params : CreateTriviaParams) (db : Db) :
  (createTrivia params db = None
   <-> exists r, getTrivia (ct_triviaId params) db = Some r)
  /\ (forall db', createTrivia params db = Some db' ->
        (exists r,
           getTrivia (ct_triviaId params) db' = Some r
           /\ trivia_id r = ct_triviaId params
           /\ tweet_id r = ct_tweetId params
           /\ correct_answers r = ct_correctAnswers params
           /\ window_minutes r = ct_windowMinutes params
           /\ reward_rmz r = ct_rewardRmz params
           /\ created_at r = ct_createdAt params
           /\ closes_at r = ct_closesAt params
           /\ status r = status_open
           /\ winner_twitter_user_id r = None
           /\ claim_code r = None
           /\ used_at r = None
           /\ round_counter r = (0, None))
        /\ (forall id, id <> ct_triviaId params ->
                       getTrivia id db' = getTrivia id db)
        /\ trivia_replies db' = trivia_replies db
        /\ trivia_payouts db' = trivia_payouts db
        /\ daily_spend db' = daily_spend db
        /\ trivia_claim_attempts db' = trivia_claim_attempts db).
Proof.
  unfold createTrivia, getTrivia, sql_get.
  destruct (existsb (has_trivia_id (ct_triviaId params)) (trivia_rewards db)) eqn:Hex.
  - split; [| discriminate].
    split; [intros _; apply find_existsb; exact Hex | reflexivity].
  - assert (Hnone : List.find (has_trivia_id (ct_triviaId params)) (trivia_rewards db)
                    = None).
    { destruct (List.find _ _) eqn:Hf; [| reflexivity].
      assert (existsb (has_trivia_id (ct_triviaId params)) (trivia_rewards db) = true)
        by (apply find_existsb; eauto).
      congruence. }
    split.
    + split; [discriminate | intros (r & Hr); congruence].
    + intros db' [= <-]. cbn [trivia_rewards with_trivia_rewards trivia_replies
                               trivia_payouts daily_spend trivia_claim_attempts].
      split.
      * eexists. split.
        { rewrite find_app_miss by exact Hnone. cbn [List.find].
          unfold has_trivia_id at 1. cbn [trivia_id].
          rewrite jsstring_eqb_refl. reflexivity. }
        cbn. repeat split; reflexivity.
      * split; [| repeat split; reflexivity].
        intros id Hid.
        destruct (List.find (has_trivia_id id) (trivia_rewards db)) eqn:Hf.
        { apply find_app_hit. exact Hf. }
        rewrite find_app_miss by exact Hf. cbn [List.find].
        unfold has_trivia_id at 1. cbn [trivia_id].
        assert (jsstring_eqb (ct_triviaId params) id = false) as ->
          by (apply jsstring_eqb_neq; congruence).
        reflexivity.
Qed.

Lemma same_reply_key_iff (a : TriviaReplyInsert) (row : TriviaReplyRecord) :
  same_reply_key a row = true <-> reply_key (reply row) = reply_key a.
Proof.
  unfold same_reply_key, reply_key. rewrite andb_true_iff, !jsstring_eqb_eq.
  split; [intros [-> ->]; reflexivity | intros [= -> ->]; auto].
Qed.

Lemma key_present_iff (a : TriviaReplyInsert) (rows : list TriviaReplyRecord) :
  existsb (same_reply_key a) rows = true
  <-> In (reply_key a) (map (fun row => reply_key (reply row)) rows).
Proof.
  rewrite existsb_exists, in_map_iff. split.
  - intros (row & Hin & Hk). exists row. split; [apply same_reply_key_iff; exact Hk | exact Hin].
  - intros (row & Hk & Hin). exists row. split; [exact Hin | apply same_reply_key_iff; exact Hk].
Qed.

Lemma insert_reply_spec (rows : list TriviaReplyRecord) (a : TriviaReplyInsert) :
  (exists added, insert_reply rows a = rows ++ added
                 /\ Forall (fun row => reply row = a) added)
  /\ (unique_reply_keys rows -> unique_reply_keys (insert_reply rows a))
  /\ In (reply_key a) (map (fun row => reply_key (reply row)) (insert_reply rows a)).
Proof.
  unfold insert_reply.
  destruct (existsb (same_reply_key a) rows) eqn:Hex.
  - split; [exists []; split; [symmetry; apply app_nil_r | constructor] |].
    split; [auto |]. apply key_present_iff. exact Hex.
  - split; [eexists; split; [reflexivity | repeat constructor] |].
    split.
    + unfold unique_reply_keys. intros Hnd. rewrite map_app. cbn [map reply].
      apply List.NoDup_app; [exact Hnd | |].
      * apply List.NoDup_cons; [intros [] | apply List.NoDup_nil].
      * intros k Hk [<- | []]. apply key_present_iff in Hk. congruence.
    + rewrite map_app. apply in_or_app. right. left. reflexivity.
Qed.

Lemma fold_insert_reply_spec (replies : list TriviaReplyInsert)
    (rows : list TriviaReplyRecord) :
  (exists added, fold_left insert_reply replies rows = rows ++ added
                 /\ Forall (fun row => In (reply row) replies) added)
  /\ (unique_reply_keys rows -> unique_reply_keys (fold_left insert_reply replies rows))
  /\ (forall k, In k (map (fun row => reply_key (reply row)) rows)
                \/ In k (map reply_key replies) ->
                In k (map (fun row => reply_key (reply row))
                        (fold_left insert_reply replies rows))).
Proof.
  revert rows. induction replies as [| a replies IH]; intros rows; cbn [fold_left].
  - split; [exists []; split; [symmetry; apply app_nil_r | constructor] |].
    split; [auto |]. intros k [H | []]. exact H.
  - destruct (insert_reply_spec rows a) as ((added1 & Heq1 & Hall1) & Hnd1 & Hin1).
    destruct (IH (insert_reply rows a)) as ((added2 & Heq2 & Hall2) & Hnd2 & Hin2).
    split; [| split].
    + exists (added1 ++ added2). split.
      * rewrite Heq2, Heq1, app_assoc. reflexivity.
      * apply Forall_app. split.
        -- eapply List.Forall_impl; [| exact Hall1]. cbn. intros row ->. left. reflexivity.
        -- eapply List.Forall_impl; [| exact Hall2]. cbn. intros row H. right. exact H.
    + intros H. apply Hnd2, Hnd1, H.
    + intros k [Hk | [<- | Hk]].
      * apply Hin2. left. rewrite Heq1, map_app. apply in_or_app. left. exact Hk.
      * apply Hin2. left. exact Hin1.
      * apply Hin2. right. exact Hk.
Qed.

Lemma fold_insert_reply_present (replies : list TriviaReplyInsert)
    (rows : list TriviaReplyRecord) :
  (forall a, In a replies ->
             In (reply_key a) (map (fun row => reply_key (reply row)) rows)) ->
  fold_left insert_reply replies rows = rows.
Proof.
  induction replies as [| a replies IH]; intros H; cbn [fold_left]; [reflexivity |].
  assert (insert_reply rows a = rows) as ->.
  { unfold insert_reply.
    assert (existsb (same_reply_key a) rows = true) as ->; [| reflexivity].
    apply key_present_iff. apply H. left. reflexivity. }
  apply IH. intros a' Ha'. apply H. right. exact Ha'.
Qed.

Lemma addReplies_frame (replies : list TriviaReplyInsert) (db : Db) :
  trivia_rewards (addReplies replies db) = trivia_rewards db
  /\ trivia_payouts (addReplies replies db) = trivia_payouts db
  /\ daily_spend (addReplies replies db) = daily_spend db
  /\ trivia_claim_attempts (addReplies replies db) = trivia_claim_attempts db
  /\ exists added, trivia_replies (addReplies replies db) = trivia_replies db ++ added.
Proof.
  destruct replies as [| a0 replies0] eqn:Hreplies.
  { cbn [addReplies]. repeat split; try reflexivity.
    exists []. symmetry. apply app_nil_r. }
  rewrite <- Hreplies.
  assert (addReplies replies db
          = with_trivia_replies
              (fold_left insert_reply replies (trivia_replies db)) db) as ->
    by (rewrite Hreplies; reflexivity).
  cbn. repeat split; try reflexivity.
  destruct (fold_insert_reply_spec replies (trivia_replies db)) as ((added & H & _) & _).
  exists added. exact H.
Qed.

(** X5. [addReplies] is INSERT OR IGNORE: the rows stored before are kept as
    they are and in place, only replies of the batch are appended, no
    two rows share the key [(trivia_id, tweet_id)] if none did, every
    reply of the batch has a row with its key afterwards, and adding the
    same batch again changes nothing. It writes to no other table. *)
Theorem addReplies_insert_or_ignore (replies : list TriviaReplyInsert) (db : Db) :
  (exists added,
     trivia_replies (addReplies replies db) = trivia_replies db ++ added
     /\ Forall (fun row => In (reply row) replies) added)
  /\ (unique_reply_keys (trivia_replies db) ->
      unique_reply_keys (trivia_replies (addReplies replies db)))
  /\ (forall a, In a replies ->
        exists row, In row (trivia_replies (addReplies replies db))
                    /\ reply_key (reply row) = reply_key a)
  /\ addReplies replies (addReplies replies db) = addReplies replies db
  /\ trivia_rewards (addReplies replies db) = trivia_rewards db
  /\ trivia_payouts (addReplies replies db) = trivia_payouts db
  /\ daily_spend (addReplies replies db) = daily_spend db.
Proof.
  destruct replies as [| a0 replies0] eqn:Hreplies.
  { cbn [addReplies]. split; [exists []; split; [symmetry; apply app_nil_r | constructor] |].
    split; [auto |]. split; [intros a [] |]. repeat split; reflexivity. }
  rewrite <- Hreplies.
  assert (Hadd : forall d, addReplies replies d
                 = with_trivia_replies
                     (fold_left insert_reply replies (trivia_replies d)) d)
    by (intros d; rewrite Hreplies; reflexivity).
  rewrite !Hadd. cbn [trivia_replies with_trivia_replies trivia_rewards
                      trivia_payouts daily_spend trivia_claim_attempts].
  destruct (fold_insert_reply_spec replies (trivia_replies db))
    as (Hprefix & Hnd & Hin).
  split; [exact Hprefix |]. split; [exact Hnd |]. split.
  - intros a Ha.
    assert (Hk : In (reply_key a)
                   (map (fun row => reply_key (reply row))
                      (fold_left insert_reply replies (trivia_replies db)))).
    { apply Hin. right. apply in_map. exact Ha. }
    apply in_map_iff in Hk. destruct Hk as (row & Hk & Hrow). eauto.
  - split; [| repeat split; reflexivity].
    unfold with_trivia_replies at 1.
    cbn [trivia_replies with_trivia_replies trivia_rewards
         trivia_payouts daily_spend trivia_claim_attempts].
    rewrite fold_insert_reply_present; [reflexivity |].
    intros a Ha. apply Hin. right. apply in_map. exact Ha.
Qed.

(** X6. [listCorrectReplies] lists exactly the stored replies of the round
    marked correct, each as often as it is stored, by creation time in
    ascending order. *)
Theorem listCorrectReplies_spec (triviaId : jsstring) (db : Db) :
  Permutation (listCorrectReplies triviaId db)
    (List.filter
       (fun row => jsstring_eqb (ri_trivia_id (reply row)) triviaId
                   && (ri_is_correct (reply row) =? 1))
       (trivia_replies db))
  /\ Sorted (fun a b => ri_created_at (reply a) <= ri_created_at (reply b))
       (listCorrectReplies triviaId db)
  /\ (forall row, In row (listCorrectReplies triviaId db)
                  <-> In row (trivia_replies db)
                      /\ ri_trivia_id (reply row) = triviaId
                      /\ ri_is_correct (reply row) = 1).
Proof.
  unfold listCorrectReplies.
  split; [apply sort_by_perm |]. split.
  - pose proof (sort_by_sorted
                  (fun a b : TriviaReplyRecord =>
                     ri_created_at (reply a) <=? ri_created_at (reply b))
                  (List.filter
                     (fun row => jsstring_eqb (ri_trivia_id (reply row)) triviaId
                                 && (ri_is_correct (reply row) =? 1))
                     (trivia_replies db))) as Hs.
    assert (Htot : forall a b : TriviaReplyRecord,
               (ri_created_at (reply a) <=? ri_created_at (reply b)) = true
               \/ (ri_created_at (reply b) <=? ri_created_at (reply a)) = true).
    { intros a b. rewrite !Z.leb_le. lia. }
    specialize (Hs Htot).
    induction Hs as [| x l Hl IH Hhd]; constructor; [exact IH |].
    destruct Hhd; constructor. apply Z.leb_le. assumption.
  - intros row. rewrite (sort_by_perm _ _). rewrite List.filter_In.
    rewrite andb_true_iff, jsstring_eqb_eq, Z.eqb_eq. tauto.
Qed.

(** *** Accounting *)

Lemma day_total_rewards (rows : list TriviaRecord) (db : Db) (k : jsstring) :
  day_total k (with_trivia_rewards rows db) = day_total k db.
Proof. reflexivity. Qed.

Lemma markClaimUsed_tables (params : MarkClaimUsedParams) (db : Db) :
  trivia_payouts (snd (markClaimUsed params db)) = trivia_payouts db
  /\ daily_spend (snd (markClaimUsed params db)) = daily_spend db
  /\ trivia_replies (snd (markClaimUsed params db)) = trivia_replies db
  /\ trivia_claim_attempts (snd (markClaimUsed params db)) = trivia_claim_attempts db.
Proof. unfold markClaimUsed, sql_update. cbn. repeat split; reflexivity. Qed.

Lemma recordClaimAndPayout_true (params : ClaimAndPayoutParams) (db : Db) :
  fst (recordClaimAndPayout params db) = true ->
  let db1 := snd (markClaimUsed {| mu_triviaId := cp_triviaId params;
                                   mu_usedAt := cp_usedAt params;
                                   mu_usedAddress := cp_usedAddress params;
                                   mu_txid := cp_txid params |} db) in
  trivia_rewards (snd (recordClaimAndPayout params db)) = trivia_rewards db1
  /\ trivia_payouts (snd (recordClaimAndPayout params db))
     = trivia_payouts db
       ++ [ {| p_id := Z.of_nat (length (trivia_payouts db)) + 1;
               p_trivia_id := cp_triviaId params;
               p_twitter_user_id := cp_twitterUserId params;
               p_address := cp_usedAddress params;
               p_rmz_amount := cp_rmzAmount params;
               p_txid := cp_txid params;
               p_created_at := cp_usedAt params;
               p_day_key := cp_dayKey params |} ]
  /\ (forall k, getDailySpend k (snd (recordClaimAndPayout params db))
                = if decide (cp_dayKey params = k)
                  then getDailySpend (cp_dayKey params) db + cp_rmzAmount params
                  else getDailySpend k db).
Proof.
  unfold recordClaimAndPayout.
  destruct (markClaimUsed _ db) as [updated db1] eqn:Hmark.
  destruct updated; cbn [negb fst snd]; [intros _ | discriminate].
  pose proof (markClaimUsed_tables
                {| mu_triviaId := cp_triviaId params;
                   mu_usedAt := cp_usedAt params;
                   mu_usedAddress := cp_usedAddress params;
                   mu_txid := cp_txid params |} db) as (Hp & Hd & _).
  rewrite Hmark in Hp, Hd. cbn [snd] in Hp, Hd.
  split; [reflexivity |]. split.
  - cbn. rewrite Hp. reflexivity.
  - intros k. rewrite getDailySpend_increment.
    unfold getDailySpend, recordPayout. cbn [daily_spend with_trivia_payouts].
    rewrite Hd. reflexivity.
Qed.

Lemma recordClaimAndPayout_false (params : ClaimAndPayoutParams) (db : Db) :
  fst (recordClaimAndPayout params db) = false ->
  snd (recordClaimAndPayout params db) = db.
Proof.
  unfold recordClaimAndPayout.
  destruct (markClaimUsed _ db) as [updated db1] eqn:Hmark.
  destruct updated; cbn [negb fst snd]; [discriminate | intros _].
  pose proof (markClaimUsed_false
                {| mu_triviaId := cp_triviaId params;
                   mu_usedAt := cp_usedAt params;
                   mu_usedAddress := cp_usedAddress params;
                   mu_txid := cp_txid params |} db) as H.
  rewrite Hmark in H. apply H. reflexivity.
Qed.

Lemma fold_add_app (l l' : list Z) :
  fold_right Z.add 0 (l ++ l') = fold_right Z.add 0 l + fold_right Z.add 0 l'.
Proof. induction l; cbn; lia. Qed.

Lemma recordClaimAndPayout_consistent (params : ClaimAndPayoutParams) (db : Db) :
  daily_spend_consistent db ->
  daily_spend_consistent (snd (recordClaimAndPayout params db)).
Proof.
  intros Hinv.
  destruct (fst (recordClaimAndPayout params db)) eqn:Hres.
  - destruct (recordClaimAndPayout_true params db Hres) as (_ & Hpay & Hspend).
    intros k. rewrite Hspend. unfold day_total. rewrite Hpay.
    rewrite List.filter_app, map_app, fold_add_app. cbn [List.filter p_day_key].
    fold (day_total k db). rewrite <- Hinv.
    destruct (decide (cp_dayKey params = k)) as [-> | Hne].
    + rewrite jsstring_eqb_refl. cbn. lia.
    + assert (jsstring_eqb (cp_dayKey params) k = false) as ->
        by (apply jsstring_eqb_neq; exact Hne).
      cbn. lia.
  - rewrite recordClaimAndPayout_false by exact Hres. exact Hinv.
Qed.

Lemma store_step_consistent (db : Db) (op : StoreOp) :
  daily_spend_consistent db -> daily_spend_consistent (store_step db op).
Proof.
  intros Hinv. destruct op; cbn [store_step].
  - destruct (createTrivia params db) as [db' |] eqn:Hc; cbn; [| exact Hinv].
    unfold createTrivia in Hc.
    destruct (existsb _ _); [discriminate |]. injection Hc as <-. exact Hinv.
  - destruct replies; [exact Hinv |]. exact Hinv.
  - exact Hinv.
  - exact Hinv.
  - exact Hinv.
  - exact Hinv.
  - exact Hinv.
  - apply recordClaimAndPayout_consistent. exact Hinv.
Qed.

(** X7. Through every sequence of store operations the total of a day in
    [daily_spend] stays the sum of the amounts of the payouts recorded
    for that day. *)
Theorem daily_spend_matches_payouts (ops : list StoreOp) (db : Db) :
  daily_spend_consistent db ->
  daily_spend_consistent (store_run ops db).
Proof.
  unfold store_run. revert db.
  induction ops as [| op ops IH]; intros db Hinv; cbn [fold_left]; [exact Hinv |].
  apply IH, store_step_consistent, Hinv.
Qed.

Lemma daily_spend_matches_payouts_witness :
  daily_spend_consistent
    (store_run [OpRecordClaimAndPayout sample_settlement] sample_db).
Proof.
  apply daily_spend_matches_payouts. intros k. reflexivity.
Defined.

(** X8. After any call of [recordClaimAndPayout] for a round, a further call
    for the same round, whatever its other parameters, reports [false]
    and leaves the database as it is. *)
Theorem recordClaimAndPayout_once (first second : ClaimAndPayoutParams) (db : Db) :
  cp_triviaId second = cp_triviaId first ->
  recordClaimAndPayout second (snd (recordClaimAndPayout first db))
  = (false, snd (recordClaimAndPayout first db)).
Proof.
  intros Hid.
  assert (Hfalse : fst (recordClaimAndPayout second
                          (snd (recordClaimAndPayout first db))) = false).
  { destruct (fst (recordClaimAndPayout second _)) eqn:Hres; [| reflexivity].
    exfalso.
    assert (Hmark : fst (markClaimUsed
                           {| mu_triviaId := cp_triviaId second;
                              mu_usedAt := cp_usedAt second;
                              mu_usedAddress := cp_usedAddress second;
                              mu_txid := cp_txid second |}
                           (snd (recordClaimAndPayout first db))) = true).
    { unfold recordClaimAndPayout in Hres at 1.
      destruct (markClaimUsed _ (snd (recordClaimAndPayout first db)))
        as [updated d1]. destruct updated; [reflexivity | discriminate Hres]. }
    apply markClaimUsed_true_iff in Hmark.
    destruct Hmark as (r & Hin & Hrid & Hunused). cbn [mu_triviaId] in Hrid.
    assert (Hrows : trivia_rewards (snd (recordClaimAndPayout first db))
                    = map (fun r => if unused_with_id (cp_triviaId first) r
                                    then set_used
                                           {| mu_triviaId := cp_triviaId first;
                                              mu_usedAt := cp_usedAt first;
                                              mu_usedAddress := cp_usedAddress first;
                                              mu_txid := cp_txid first |} r
                                    else r) (trivia_rewards db)).
    { unfold recordClaimAndPayout, markClaimUsed, sql_update.
      cbn [mu_triviaId].
      destruct (0 <? _); reflexivity. }
    rewrite Hrows in Hin. apply in_map_iff in Hin.
    destruct Hin as (r0 & Hr0 & Hin0).
    destruct (unused_with_id (cp_triviaId first) r0) eqn:Hu.
    - subst r. cbn in Hunused. discriminate.
    - subst r. unfold unused_with_id, has_trivia_id in Hu.
      rewrite Hrid, Hid, jsstring_eqb_refl in Hu. cbn [andb] in Hu.
      apply bool_decide_eq_false in Hu. contradiction. }
  rewrite <- (recordClaimAndPayout_false second _ Hfalse) at 2.
  rewrite <- Hfalse at 1. destruct (recordClaimAndPayout second _). reflexivity.
Qed.

Lemma recordClaimAndPayout_once_witness :
  fst (recordClaimAndPayout sample_settlement sample_db) = true
  /\ recordClaimAndPayout sample_settlement
       (snd (recordClaimAndPayout sample_settlement sample_db))
     = (false, snd (recordClaimAndPayout sample_settlement sample_db)).
Proof.
  split; [vm_compute; reflexivity |].
  apply recordClaimAndPayout_once. reflexivity.
Defined.

(** X9. [recordInvalidAttempt] for a round that is not stored writes nothing:
    it reports one attempt (and a lock only when a single attempt
    already reaches the maximum). *)
Theorem recordInvalidAttempt_unknown_round (params : AttemptParams) (db : Db) :
  getTrivia (at_key params) db = None ->
  snd (recordInvalidAttempt params db) = db
  /\ invalidAttempts (fst (recordInvalidAttempt params db)) = 1
  /\ lockExpiresAt (fst (recordInvalidAttempt params db))
     = if at_maxAttempts params <=? 1
       then Some (at_now params + at_lockMs params) else None.
Proof.
  intros Hnone. unfold recordInvalidAttempt, getTrivia in *.
  rewrite Hnone. cbn [fst snd]. split; [| split].
  - unfold sql_update. cbn [fst].
    rewrite update_none; [destruct db; reflexivity |].
    intros r Hin. destruct (has_trivia_id (at_key params) r) eqn:Hr; [| reflexivity].
    exfalso. unfold sql_get in Hnone.
    pose proof (find_none _ _ Hnone r Hin) as Hf. congruence.
  - reflexivity.
  - reflexivity.
Qed.

Lemma recordInvalidAttempt_unknown_round_witness :
  snd (recordInvalidAttempt (sample_attempt (js "no-such-round") 1700000800000)
         sample_db) = sample_db.
Proof.
  apply (recordInvalidAttempt_unknown_round
           (sample_attempt (js "no-such-round") 1700000800000) sample_db).
  vm_compute. reflexivity.
Defined.

(** X10. A settlement that goes through adds its amount to the total of its
    day, one win to its winner on that day, and its amount to what its
    address received on that day; the figures of every other day, user
    and address stay as they were. *)
Theorem recordClaimAndPayout_accounting (params : ClaimAndPayoutParams) (db : Db) :
  fst (recordClaimAndPayout params db) = true ->
  forall dayKey user address,
    getDailySpend dayKey (snd (recordClaimAndPayout params db))
    = getDailySpend dayKey db
      + (if decide (dayKey = cp_dayKey params) then cp_rmzAmount params else 0)
    /\ countWinsForUser dayKey user (snd (recordClaimAndPayout params db))
       = countWinsForUser dayKey user db
         + (if decide (dayKey = cp_dayKey params /\ user = cp_twitterUserId params)
            then 1 else 0)
    /\ sumAddressSpend dayKey address (snd (recordClaimAndPayout params db))
       = sumAddressSpend dayKey address db
         + (if decide (dayKey = cp_dayKey params /\ address = cp_usedAddress params)
            then cp_rmzAmount params else 0).
Proof.
  intros Hres dayKey user address.
  destruct (recordClaimAndPayout_true params db Hres) as (_ & Hpay & Hspend).
  split; [| split].
  - rewrite Hspend.
    destruct (decide (cp_dayKey params = dayKey)) as [<- | Hne].
    + rewrite decide_True by reflexivity. reflexivity.
    + rewrite decide_False by congruence. lia.
  - unfold countWinsForUser. rewrite Hpay, List.filter_app, length_app.
    cbn [List.filter p_day_key p_twitter_user_id].
    destruct (decide (dayKey = cp_dayKey params /\ user = cp_twitterUserId params))
      as [[-> ->] | Hne].
    + rewrite !jsstring_eqb_refl. cbn. lia.
    + assert (jsstring_eqb (cp_dayKey params) dayKey
              && jsstring_eqb (cp_twitterUserId params) user = false) as ->.
      { apply andb_false_iff.
        destruct (decide (cp_dayKey params = dayKey)) as [<- | Hd];
          [right | left]; apply jsstring_eqb_neq; [| exact Hd].
        intros <-. apply Hne. auto. }
      cbn. lia.
  - unfold sumAddressSpend. rewrite Hpay, List.filter_app, map_app, fold_add_app.
    cbn [List.filter p_day_key p_address].
    destruct (decide (dayKey = cp_dayKey params /\ address = cp_usedAddress params))
      as [[-> ->] | Hne].
    + rewrite !jsstring_eqb_refl. cbn. lia.
    + assert (jsstring_eqb (cp_dayKey params) dayKey
              && jsstring_eqb (cp_usedAddress params) address = false) as ->.
      { apply andb_false_iff.
        destruct (decide (cp_dayKey params = dayKey)) as [<- | Hd];
          [right | left]; apply jsstring_eqb_neq; [| exact Hd].
        intros <-. apply Hne. auto. }
      cbn. lia.
Qed.

Lemma recordClaimAndPayout_accounting_witness :
  getDailySpend (js "2023-11-14")
    (snd (recordClaimAndPayout sample_settlement sample_db)) = 3.
Proof.
  destruct (recordClaimAndPayout_accounting sample_settlement sample_db eq_refl
              (js "2023-11-14") (js "11") sample_address) as (H & _).
  exact H.
Defined.

Lemma createTrivia_getTrivia_witness :
  exists db' r,
    createTrivia {| ct_triviaId := js "trivia-009"; ct_tweetId := js "1";
                    ct_correctAnswers := [js "paris"]; ct_windowMinutes := 10;
                    ct_rewardRmz := 3; ct_createdAt := 1700000000000;
                    ct_closesAt := 1700000600000 |} sample_db = Some db'
    /\ getTrivia (js "trivia-009") db' = Some r
    /\ status r = status_open.
Proof.
  eexists.
  destruct (createTrivia_getTrivia
              {| ct_triviaId := js "trivia-009"; ct_tweetId := js "1";
                 ct_correctAnswers := [js "paris"]; ct_windowMinutes := 10;
                 ct_rewardRmz := 3; ct_createdAt := 1700000000000;
                 ct_closesAt := 1700000600000 |} sample_db) as (_ & H).
  destruct (H _ eq_refl) as ((r & Hr & _ & _ & _ & _ & _ & _ & _ & Hs & _) & _).
  exists r. split; [reflexivity |]. split; [exact Hr | exact Hs].
Defined.

Lemma addReplies_insert_or_ignore_witness :
  unique_reply_keys
    (trivia_replies
       (addReplies
          [ {| ri_trivia_id := js "trivia-003"; ri_tweet_id := js "1";
               ri_twitter_user_id := js "11"; ri_twitter_username := None;
               ri_reply_text := js "Paris"; ri_normalized_text := js "paris";
               ri_is_correct := 1; ri_created_at := 1700000100000 |};
            {| ri_trivia_id := js "trivia-003"; ri_tweet_id := js "1";
               ri_twitter_user_id := js "11"; ri_twitter_username := None;
               ri_reply_text := js "Rome"; ri_normalized_text := js "rome";
               ri_is_correct := 0; ri_created_at := 1700000200000 |} ]
          empty_db)).
Proof.
  apply addReplies_insert_or_ignore. apply List.NoDup_nil.
Defined.

Lemma rate_limit_calls_in_window (key : jsstring) (limit : Z) (times : list Z)
    (w : World) (bucket : Bucket) :
  rateLimitBuckets w !! key = Some bucket ->
  Forall (fun t => t <= bucket_resetAt bucket) times ->
  fst (rate_limit_calls key limit times w)
  = window_answers limit (bucket_count bucket) (length times).
Proof.
  revert w bucket. induction times as [| t rest IH]; intros w bucket Hb Hall;
    [reflexivity |].
  apply Forall_cons in Hall as [Ht Hrest].
  cbn [rate_limit_calls length window_answers].
  destruct (rate_limit_calls key limit rest (snd (allowRateLimit key limit t w)))
    as [answers w'] eqn:Hrec.
  cbn [fst].
  unfold allowRateLimit in *. rewrite Hb in *.
  assert ((bucket_resetAt bucket <? t) = false) as Hnot by (apply Z.ltb_ge; lia).
  rewrite Hnot in *.
  destruct (Z.leb_spec limit (bucket_count bucket)) as [Hfull | Hroom].
  - assert ((bucket_count bucket <? limit) = false) as -> by (apply Z.ltb_ge; lia).
    cbn [allowed_of fst snd] in *. f_equal.
    specialize (IH w bucket Hb Hrest). rewrite Hrec in IH. exact IH.
  - assert ((bucket_count bucket <? limit) = true) as -> by (apply Z.ltb_lt; lia).
    cbn [allowed_of fst snd] in *. f_equal.
    match type of Hrec with
    | rate_limit_calls _ _ _ ?w0 = _ =>
        specialize (IH w0 {| bucket_count := bucket_count bucket + 1;
                             bucket_resetAt := bucket_resetAt bucket |}
                      (lookup_insert_eq _ _ _) Hrest)
    end.
    rewrite Hrec in IH. exact IH.
Qed.

Lemma window_answers_spec (limit count : Z) (n i : nat) :
  (i < n)%nat ->
  nth_error (window_answers limit count n) i
  = Some (count + Z.of_nat i <? limit).
Proof.
  revert count i. induction n as [| n IH]; intros count i Hi; [lia |].
  destruct i as [| i]; cbn [window_answers nth_error].
  - f_equal. f_equal. lia.
  - rewrite IH by lia. f_equal.
    destruct (Z.ltb_spec count limit).
    + f_equal. lia.
    + symmetry. transitivity false; [apply Z.ltb_ge; lia |].
      symmetry. apply Z.ltb_ge. lia.
Qed.

Lemma window_answers_length (limit count : Z) (n : nat) :
  length (window_answers limit count n) = n.
Proof. revert count. induction n; intros; cbn; auto. Qed.

(** X11. The limiter over one window. When the key has no bucket, or its
    window is over, a request is let through whatever the limit is, and
    opens a window of sixty seconds; of the requests that follow inside
    that window, the one at position [i] (the opening one at 0) passes
    exactly when [i] is below the limit. *)
Theorem allowRateLimit_window (key : jsstring) (limit first : Z) (later : list Z)
    (w : World) :
  match rateLimitBuckets w !! key with
  | Some bucket => bucket_resetAt bucket < first
  | None => True
  end ->
  Forall (fun t => t <= first + rateLimitWindowMs) later ->
  let answers := fst (rate_limit_calls key limit (first :: later) w) in
  length answers = S (length later)
  /\ forall i, (i <= length later)%nat ->
       nth_error answers i = Some ((i =? 0)%nat || (Z.of_nat i <? limit)).
Proof.
  intros Hfresh Hlater. cbv zeta.
  cbn [rate_limit_calls].
  destruct (rate_limit_calls key limit later (snd (allowRateLimit key limit first w)))
    as [answers w'] eqn:Hrec.
  cbn [fst].
  assert (Hfirst : allowRateLimit key limit first w
                   = (inl true,
                      with_buckets
                        (<[ key := {| bucket_count := 1;
                                      bucket_resetAt := first + rateLimitWindowMs |} ]>
                           (rateLimitBuckets w)) w)).
  { unfold allowRateLimit. destruct (rateLimitBuckets w !! key) as [bucket |].
    - assert ((bucket_resetAt bucket <? first) = true) as -> by (apply Z.ltb_lt; lia).
      reflexivity.
    - reflexivity. }
  rewrite Hfirst in *. cbn [allowed_of fst snd] in *.
  match type of Hrec with
  | rate_limit_calls _ _ _ ?w0 = _ =>
      pose proof (rate_limit_calls_in_window key limit later w0
                    {| bucket_count := 1;
                       bucket_resetAt := first + rateLimitWindowMs |}
                    (lookup_insert_eq _ _ _) Hlater) as Hin
  end.
  rewrite Hrec in Hin. cbn [fst bucket_count] in Hin. subst answers.
  split; [cbn [length]; rewrite window_answers_length; reflexivity |].
  intros [| i] Hi; cbn [nth_error Nat.eqb orb]; [reflexivity |].
  rewrite window_answers_spec by lia. f_equal. f_equal. lia.
Qed.

Lemma allowRateLimit_window_witness :
  fst (rate_limit_calls (js "ip:203.0.113.7") 2
         [1700002000000; 1700002000001; 1700002000002] empty_world)
  = [true; true; false].
Proof.
  destruct (allowRateLimit_window (js "ip:203.0.113.7") 2 1700002000000
              [1700002000001; 1700002000002] empty_world) as (_ & H).
  - exact I.
  - repeat constructor; vm_compute; discriminate.
  - vm_compute. reflexivity.
Defined.

(** *** Bearer token *)

Lemma match_prefix_i_app (pattern scheme rest : jsstring) :
  map ascii_upper scheme = map ascii_upper pattern ->
  match_prefix_i pattern (scheme ++ rest) = Some rest.
Proof.
  revert scheme. induction pattern as [| p pattern IH]; intros scheme Heq.
  - destruct scheme; [reflexivity | discriminate].
  - destruct scheme as [| c scheme]; [discriminate |].
    cbn [map] in Heq. injection Heq as Hc Hrest.
    cbn [match_prefix_i app]. rewrite Hc, N.eqb_refl. apply IH. exact Hrest.
Qed.

Lemma match_prefix_i_sound (pattern s rest : jsstring) :
  match_prefix_i pattern s = Some rest ->
  exists scheme, s = scheme ++ rest /\ map ascii_upper scheme = map ascii_upper pattern.
Proof.
  revert s. induction pattern as [| p pattern IH]; intros s H.
  - injection H as <-. exists []. split; reflexivity.
  - destruct s as [| c s]; [discriminate |]. cbn [match_prefix_i] in H.
    destruct (N.eqb_spec (ascii_upper c) (ascii_upper p)) as [Hc |]; [| discriminate].
    destruct (IH s H) as (scheme & -> & Hs). exists (c :: scheme).
    split; [reflexivity |]. cbn [map]. rewrite Hc, Hs. reflexivity.
Qed.

Lemma match_dot_plus_end_iff (s t : jsstring) :
  match_dot_plus_end s = Some t
  <-> t = s /\ s <> [] /\ Forall (fun c => is_line_terminator c = false) s.
Proof.
  unfold match_dot_plus_end. destruct s as [| c s].
  - split; [discriminate | intros (_ & H & _); contradiction].
  - destruct (forallb _ (c :: s)) eqn:Hall.
    + split.
      * intros [= <-]. split; [reflexivity |]. split; [discriminate |].
        apply List.Forall_forall. intros x Hx.
        rewrite forallb_forall in Hall. specialize (Hall x Hx).
        apply negb_true_iff. exact Hall.
      * intros (-> & _). reflexivity.
    + split; [discriminate |]. intros (_ & _ & H). exfalso.
      assert (forallb (fun c => negb (is_line_terminator c)) (c :: s) = true).
      { apply forallb_forall. intros x Hx. rewrite List.Forall_forall in H.
        rewrite (H x Hx). reflexivity. }
      congruence.
Qed.

Lemma match_ws_star_capture_token (ws token : jsstring) :
  Forall (fun c => is_ws c = true) ws ->
  match token with c :: _ => is_ws c = false | [] => False end ->
  Forall (fun c => is_line_terminator c = false) token ->
  match_ws_star_capture (ws ++ token) = Some token.
Proof.
  intros Hws Hhead Hline.
  induction Hws as [| c ws Hc _ IH]; cbn [app].
  - destruct token as [| t0 token]; [contradiction |].
    cbn [match_ws_star_capture]. rewrite Hhead.
    apply match_dot_plus_end_iff. split; [reflexivity |]. split; [discriminate | exact Hline].
  - cbn [match_ws_star_capture]. rewrite Hc, IH. reflexivity.
Qed.

Lemma match_ws_star_capture_sound (s t : jsstring) :
  match_ws_star_capture s = Some t ->
  t <> [] /\ Forall (fun c => is_line_terminator c = false) t
  /\ exists ws, s = ws ++ t /\ Forall (fun c => is_ws c = true) ws.
Proof.
  revert t. induction s as [| c s IH]; intros t H; [discriminate |].
  cbn [match_ws_star_capture] in H.
  assert (Hend : match_dot_plus_end (c :: s) = Some t ->
                 t <> [] /\ Forall (fun c => is_line_terminator c = false) t
                 /\ exists ws, c :: s = ws ++ t /\ Forall (fun c => is_ws c = true) ws).
  { intros Hd. apply match_dot_plus_end_iff in Hd. destruct Hd as (-> & Hne & Hl).
    split; [exact Hne |]. split; [exact Hl |]. exists []. split; [reflexivity | constructor]. }
  destruct (is_ws c) eqn:Hc; [| exact (Hend H)].
  destruct (match_ws_star_capture s) as [captured |] eqn:Hrec; [| exact (Hend H)].
  injection H as <-. destruct (IH _ eq_refl) as (Hne & Hl & ws & -> & Hws).
  split; [exact Hne |]. split; [exact Hl |].
  exists (c :: ws). split; [reflexivity |]. constructor; assumption.
Qed.

(** X12. The bearer token of a non-empty [authorization] header. A header made
    of the word Bearer in any letter case, white space, and a token that
    does not start with white space and has no line terminator yields
    that token, as it is. And whenever a token is extracted, the header
    is such a word, white space and the token, and the token has no
    line terminator. *)
Theorem extractBearerToken_spec {B} (req : Request B) (header : jsstring) :
  get (req_headers req) "authorization" = JStr header -> header <> [] ->
  (forall scheme ws token,
     header = scheme ++ ws ++ token ->
     map ascii_upper scheme = js "BEARER" ->
     ws <> [] -> Forall (fun c => is_ws c = true) ws ->
     match token with c :: _ => is_ws c = false | [] => False end ->
     Forall (fun c => is_line_terminator c = false) token ->
     extractBearerToken req = token)
  /\ (extractBearerToken req <> [] ->
      Forall (fun c => is_line_terminator c = false) (extractBearerToken req)
      /\ exists scheme ws,
           header = scheme ++ ws ++ extractBearerToken req
           /\ map ascii_upper scheme = js "BEARER"
           /\ ws <> [] /\ Forall (fun c => is_ws c = true) ws).
Proof.
  intros Hget Hne.
  assert (Hext : extractBearerToken req = default [] (match_bearer header)).
  { unfold extractBearerToken. rewrite Hget. unfold js_or at 1.
    cbn [truthy]. destruct header; [contradiction | reflexivity]. }
  rewrite Hext. split.
  - intros scheme ws token -> Hscheme Hwsne Hws Hhead Hline.
    unfold match_bearer.
    rewrite match_prefix_i_app by (rewrite Hscheme; reflexivity).
    destruct Hws as [| c ws Hc Hws]; [contradiction |]. cbn [app]. rewrite Hc.
    rewrite match_ws_star_capture_token by assumption. reflexivity.
  - unfold match_bearer.
    destruct (match_prefix_i (js "Bearer") header) as [rest |] eqn:Hprefix;
      [| intros H; contradiction H; reflexivity].
    destruct rest as [| c rest]; [intros H; contradiction H; reflexivity |].
    destruct (is_ws c) eqn:Hc; [| intros H; contradiction H; reflexivity].
    destruct (match_ws_star_capture rest) as [token |] eqn:Hcap;
      [| intros H; contradiction H; reflexivity].
    intros _. cbn [default from_option Datatypes.id].
    destruct (match_ws_star_capture_sound _ _ Hcap) as (_ & Hl & ws & -> & Hws).
    destruct (match_prefix_i_sound _ _ _ Hprefix) as (scheme & -> & Hs).
    split; [exact Hl |]. exists scheme, (c :: ws).
    split; [reflexivity |]. split; [exact Hs |]. split; [discriminate |].
    constructor; assumption.
Qed.

Lemma extractBearerToken_spec_witness :
  extractBearerToken (close_request (Some "bearer   s3cret"%string)) = js "s3cret".
Proof.
  destruct (extractBearerToken_spec (close_request (Some "bearer   s3cret"%string))
              (js "bearer   s3cret") eq_refl ltac:(discriminate)) as (H & _).
  apply (H (js "bearer") (js "   ") (js "s3cret")).
  - reflexivity.
  - reflexivity.
  - discriminate.
  - repeat constructor.
  - reflexivity.
  - repeat constructor.
Defined.

(** *** Request address *)

Lemma before_comma_spec (s : jsstring) :
  ~ In 44%N (before_comma s)
  /\ (s = before_comma s \/ exists rest, s = before_comma s ++ 44%N :: rest).
Proof.
  induction s as [| c s (IHn & IHs)]; cbn [before_comma].
  - split; [intros [] | left; reflexivity].
  - destruct (N.eqb_spec c 44) as [-> | Hc].
    + split; [intros [] | right; exists s; reflexivity].
    + split.
      * intros [H | H]; [congruence | exact (IHn H)].
      * destruct IHs as [IHs | (rest & IHs)].
        -- left. f_equal. exact IHs.
        -- right. exists rest. cbn [app]. f_equal. exact IHs.
Qed.

Lemma In_drop_ws (x : N) (s : jsstring) : In x (drop_ws s) -> In x s.
Proof.
  induction s as [| c s IH]; cbn [drop_ws]; [auto |].
  destruct (is_ws c); [intros H; right; exact (IH H) | auto].
Qed.

Lemma In_trim (x : N) (s : jsstring) : In x (trim s) -> In x s.
Proof.
  unfold trim. intros H. apply in_rev in H. apply In_drop_ws in H.
  apply in_rev in H. apply In_drop_ws in H. exact H.
Qed.

(** X13. The requester's address. A non-blank [x-forwarded-for] header decides
    it, whatever [req.ip] is: the text before the first comma, trimmed,
    so without comma or white space around it (it is empty when that
    text is blank). Without such a header it is [req.ip], or the word
    unknown when there is none, and it is not empty. *)
Theorem getRequestIp_spec {B} (req : Request B) :
  (forall forwarded,
     get (req_headers req) "x-forwarded-for" = JStr forwarded ->
     trim forwarded <> [] ->
     getRequestIp req = trim (before_comma forwarded)
     /\ ~ In 44%N (getRequestIp req)
     /\ trimmed (getRequestIp req))
  /\ ((forall forwarded,
         get (req_headers req) "x-forwarded-for" = JStr forwarded ->
         trim forwarded = []) ->
      getRequestIp req <> []
      /\ (getRequestIp req = js "unknown" \/ req_ip req = Some (getRequestIp req))).
Proof.
  unfold getRequestIp. split.
  - intros forwarded -> Hne.
    destruct (trim forwarded) eqn:Ht; [contradiction |]. cbn [truthy_str].
    split; [reflexivity |]. split.
    + intros H. apply In_trim in H. exact (proj1 (before_comma_spec forwarded) H).
    + apply trim_trimmed.
  - intros Hblank.
    assert (Hfall : (if truthy_ostr (req_ip req) then default [] (req_ip req)
                     else js "unknown") <> []
                    /\ ((if truthy_ostr (req_ip req) then default [] (req_ip req)
                         else js "unknown") = js "unknown"
                        \/ req_ip req
                           = Some (if truthy_ostr (req_ip req)
                                   then default [] (req_ip req) else js "unknown"))).
    { destruct (req_ip req) as [[| c ip] |]; cbn.
      - split; [discriminate | left; reflexivity].
      - split; [discriminate | right; reflexivity].
      - split; [discriminate | left; reflexivity]. }
    destruct (get (req_headers req) "x-forwarded-for"); try exact Hfall.
    rewrite (Hblank s eq_refl). cbn [truthy_str]. exact Hfall.
Qed.

Lemma getRequestIp_spec_witness :
  getRequestIp
    {| req_headers := JObj [(js "x-forwarded-for", JStr (js " 198.51.100.4 , 10.0.0.1"))];
       req_ip := Some (js "203.0.113.7");
       req_body := tt |}
  = js "198.51.100.4".
Proof.
  destruct (getRequestIp_spec
              {| req_headers :=
                   JObj [(js "x-forwarded-for", JStr (js " 198.51.100.4 , 10.0.0.1"))];
                 req_ip := Some (js "203.0.113.7");
                 req_body := tt |}) as (H & _).
  destruct (H (js " 198.51.100.4 , 10.0.0.1") eq_refl) as (Heq & _).
  - vm_compute. discriminate.
  - rewrite Heq. vm_compute. reflexivity.
Defined.

(** *** Payout address *)

Lemma startsWith_iff (s prefix : jsstring) :
  startsWith s prefix = true <-> exists rest, s = prefix ++ rest.
Proof.
  revert s. induction prefix as [| p prefix IH]; intros s.
  - split; [intros _; exists s; reflexivity | destruct s; reflexivity].
  - destruct s as [| c s]; cbn [startsWith].
    + split; [discriminate | intros (rest & H); discriminate].
    + rewrite andb_true_iff, N.eqb_eq, IH. split.
      * intros (-> & rest & ->). exists rest. reflexivity.
      * intros (rest & [= -> ->]). split; [reflexivity | exists rest; reflexivity].
Qed.

(** X14. The only test of a payout address: it is accepted exactly when it
    is the prefix [ecash:] followed by at least seven code units, of any
    kind. *)
Theorem isValidEcashAddress_iff (address : jsstring) :
  isValidEcashAddress address = true
  <-> exists rest, address = js "ecash:" ++ rest /\ (7 <= length rest)%nat.
Proof.
  unfold isValidEcashAddress. rewrite andb_true_iff, startsWith_iff, Z.ltb_lt.
  split.
  - intros ((rest & ->) & Hlen). exists rest. split; [reflexivity |].
    rewrite length_app in Hlen. cbn in Hlen. lia.
  - intros (rest & -> & Hlen). split; [exists rest; reflexivity |].
    rewrite length_app. cbn. lia.
Qed.

(** *** Digest and dry-run payment *)

Lemma blocks_length (n : nat) (h bs : list Z) :
  length h = 8%nat -> length (Sha256.blocks n h bs) = 8%nat.
Proof.
  revert h bs. induction n as [| n IH]; intros h bs Hh; cbn [Sha256.blocks];
    [exact Hh |].
  destruct bs; [exact Hh |]. apply IH. reflexivity.
Qed.

Lemma be_bytes_length (n : nat) (x : Z) : length (Sha256.be_bytes n x) = n.
Proof.
  revert x. induction n as [| n IH]; intros x; cbn [Sha256.be_bytes]; [reflexivity |].
  rewrite length_app, IH. cbn. lia.
Qed.

Lemma digest_length (msg : list Z) : length (Sha256.digest msg) = 32%nat.
Proof.
  unfold Sha256.digest.
  pose proof (blocks_length (length (Sha256.pad msg)) Sha256.initial_state
                (Sha256.pad msg) eq_refl) as H.
  destruct (Sha256.blocks _ _ _) as [| a [| b [| c [| d [| e [| f [| g [| h [| ? ?]]]]]]]]];
    try discriminate H.
  cbn [flat_map]. rewrite !length_app, !be_bytes_length. reflexivity.
Qed.

Lemma hex_digit_lower (d : Z) : 0 <= d < 16 -> is_hex_lower (hex_digit d) = true.
Proof.
  intros Hd. unfold hex_digit, is_hex_lower.
  assert (d = 0 \/ d = 1 \/ d = 2 \/ d = 3 \/ d = 4 \/ d = 5 \/ d = 6 \/ d = 7
          \/ d = 8 \/ d = 9 \/ d = 10 \/ d = 11 \/ d = 12 \/ d = 13 \/ d = 14
          \/ d = 15) as H by lia.
  repeat (destruct H as [-> | H]; [reflexivity |]). subst. reflexivity.
Qed.

Lemma hex_of_bytes_spec (bs : list Z) :
  Forall (fun b => 0 <= b < 256) bs ->
  length (hex_of_bytes bs) = (2 * length bs)%nat
  /\ Forall (fun c => is_hex_lower c = true) (hex_of_bytes bs).
Proof.
  induction 1 as [| b bs Hb _ (IHl & IHh)]; [split; [reflexivity | constructor] |].
  unfold hex_of_bytes in *. cbn [flat_map app length]. split; [lia |].
  constructor; [| constructor; [| exact IHh]].
  - apply hex_digit_lower. rewrite Z.shiftr_div_pow2 by lia.
    change (2 ^ 4) with 16. split; [apply Z.div_pos; lia |].
    apply Z.div_lt_upper_bound; lia.
  - apply hex_digit_lower. change 15 with (Z.ones 4).
    rewrite Z.land_ones by lia. change (2 ^ 4) with 16.
    apply Z.mod_pos_bound. lia.
Qed.

(** The hexadecimal SHA-256 digest of any string is 64 characters long,
    all of them digits or the letters a to f. *)
Theorem sha256_hex_shape (s : jsstring) :
  length (sha256_hex s) = 64%nat
  /\ Forall (fun c => is_hex_lower c = true) (sha256_hex s).
Proof.
  unfold sha256_hex.
  destruct (hex_of_bytes_spec _ (digest_range (utf8_encode s))) as (Hl & Hh).
  rewrite Hl, digest_length. split; [reflexivity | exact Hh].
Qed.

Lemma firstn_Forall_list {A} (P : A -> Prop) (n : nat) (l : list A) :
  Forall P l -> Forall P (firstn n l).
Proof.
  intros H. revert n. induction H; intros [| n]; cbn; constructor; auto.
Qed.

(** X15. [sendRmz] pays nothing: outside a dry run it reports that the payout
    is not implemented; in a dry run its transaction id is the word
    dryrun, an underscore, and the first sixteen hexadecimal digits of
    the digest of address, amount, token and clock reading. *)
Theorem sendRmz_spec (toLowerCase : jsstring -> jsstring) (env : Env) (now : Z)
    (params : RmzSendParams) :
  (isDryRun toLowerCase env = false ->
   sendRmz toLowerCase env now params = SendNotImplemented)
  /\ (isDryRun toLowerCase env = true ->
      exists hash,
        sendRmz toLowerCase env now params = SendOk (js "dryrun_" ++ hash)
        /\ length hash = 16%nat
        /\ Forall (fun c => is_hex_lower c = true) hash
        /\ hash = firstn 16
                    (sha256_hex
                       (toAddress params ++ js ":" ++ String_of_int (amountRmz params)
                          ++ js ":" ++ tokenId params ++ js ":" ++ String_of_int now))).
Proof.
  unfold sendRmz. split; intros ->; [reflexivity |].
  eexists. split; [reflexivity |].
  match goal with
  | |- context [sha256_hex ?m] =>
      destruct (sha256_hex_shape m) as (Hl & Hh)
  end.
  split; [rewrite length_firstn, Hl; reflexivity |].
  split; [apply firstn_Forall_list; exact Hh | reflexivity].
Qed.

Lemma sendRmz_spec_witness :
  exists hash,
    sendRmz toLowerCase_latin1 sample_env 1700002000004
      {| toAddress := sample_address; amountRmz := 3; tokenId := js "bb22";
         mnemonic := None; wif := None |}
    = SendOk (js "dryrun_" ++ hash)
    /\ length hash = 16%nat.
Proof.
  destruct (sendRmz_spec toLowerCase_latin1 sample_env 1700002000004
              {| toAddress := sample_address; amountRmz := 3; tokenId := js "bb22";
                 mnemonic := None; wif := None |}) as (_ & H).
  destruct (H eq_refl) as (hash & Hs & Hl & _).
  exists hash. split; [exact Hs | exact Hl].
Defined.

Section CreateFacts.

Variables toLowerCase normalizeNFKD : jsstring -> jsstring.

Local Abbreviation create_handler' := (create_handler toLowerCase normalizeNFKD).
Local Abbreviation normalize := (normalizeAnswer toLowerCase normalizeNFKD).

(** X16. An authorized, well-formed create request: it is refused with 400
    when no answer is left after normalization, with 409 when the round
    exists, in both cases without a write; otherwise the round of
    [created_round] is stored (answers normalized, blank ones dropped, a
    window or reward that is missing or 0 replaced by 10 and 3, closing
    time the clock reading plus the window) and the answer is 200 with
    those values. *)
Theorem create_handler_spec (env : Env) (now : Z) (req : Request CreateBody)
    (w : World) (triviaId tweetId : jsstring) (answers : list jsstring) :
  authorized env req ->
  cb_triviaId (req_body req) = Some triviaId -> triviaId <> [] ->
  cb_tweetId (req_body req) = Some tweetId -> tweetId <> [] ->
  cb_correctAnswers (req_body req) = Some answers ->
  let normalized := List.filter truthy_str (map normalize answers) in
  let round := created_round now (req_body req) triviaId tweetId normalized in
  let out := run_handler (create_handler' env now req) w in
  (normalized = [] ->
   fst out = Some (error_response 400 "No valid answers provided.")
   /\ db (snd out) = db w)
  /\ (normalized <> [] -> getTrivia triviaId (db w) <> None ->
      fst out = Some (error_response 409 "Trivia already exists.")
      /\ db (snd out) = db w)
  /\ (normalized <> [] -> getTrivia triviaId (db w) = None ->
      createTrivia round (db w) = Some (db (snd out))
      /\ fst out
         = Some {| res_status := 200;
                   res_body :=
                     JObj [ (js "triviaId", JStr triviaId);
                            (js "tweetId", JStr tweetId);
                            (js "windowMinutes", JNum (ct_windowMinutes round));
                            (js "rewardRmz", JNum (ct_rewardRmz round));
                            (js "closesAt", JNum (ct_closesAt round)) ] |}).
Proof.
  intros Hauth Hid Hidne Htw Htwne Hans. cbv zeta.
  unfold run_handler.
  destruct (create_handler' env now req (with_response None w)) as [r W] eqn:Hout.
  cbn [fst snd].
  unfold create_handler in Hout.
  unfold bind at 1 in Hout.
  destruct (requireAdmin_cases env req (with_response None w))
    as [[_ Hr] | [Hno _]]; [| contradiction].
  rewrite Hr in Hout. cbn [negb] in Hout.
  rewrite Hid, Htw, Hans in Hout.
  apply truthy_str_true in Hidne, Htwne. rewrite Hidne, Htwne in Hout.
  cbn [negb orb] in Hout.
  destruct (List.filter truthy_str (map normalize answers)) as [| a0 rest] eqn:Hnorm.
  - run_leaf Hout. split; [intros _; split; reflexivity |].
    split; intros H; contradiction H; reflexivity.
  - split; [discriminate |].
    unfold bind at 1 in Hout. cbn [query] in Hout.
    change (db (with_response None w)) with (db w) in Hout.
    destruct (getTrivia triviaId (db w)) as [existing |] eqn:Hget.
    + run_leaf Hout. split; [intros _ _; split; reflexivity |].
      intros _ H; discriminate H.
    + run_leaf Hout. split; [intros _ H; contradiction H; reflexivity |].
      intros _ _. split; [| reflexivity].
      unfold created_round.
      destruct (createTrivia_getTrivia
                  {| ct_triviaId := triviaId;
                     ct_tweetId := tweetId;
                     ct_correctAnswers := a0 :: rest;
                     ct_windowMinutes :=
                       number_or (cb_windowMinutes (req_body req))
                         TRIVIA_WINDOW_MINUTES_DEFAULT;
                     ct_rewardRmz :=
                       number_or (cb_rewardRmz (req_body req)) REWARD_RMZ_DEFAULT;
                     ct_createdAt := now;
                     ct_closesAt :=
                       now + number_or (cb_windowMinutes (req_body req))
                               TRIVIA_WINDOW_MINUTES_DEFAULT * 60 * 1000 |}
                  (db w)) as (Hnone & _).
      cbv zeta.
      destruct (createTrivia _ (db w)) as [d' |] eqn:Hcreate; [reflexivity |].
      exfalso. destruct (proj1 Hnone eq_refl) as (r0 & Hr0). cbn [ct_triviaId] in Hr0.
      congruence.
Qed.

(** X17. Whatever the request, the create handler answers it, never touches
    the limiter or the payment executor, and writes to the database only
    when it answers 200. *)
Theorem create_handler_frame (env : Env) (now : Z) (req : Request CreateBody)
    (w : World) :
  let out := run_handler (create_handler' env now req) w in
  fst out <> None
  /\ sent (snd out) = sent w
  /\ rateLimitBuckets (snd out) = rateLimitBuckets w
  /\ (forall resp, fst out = Some resp -> res_status resp <> 200 ->
                   db (snd out) = db w).
Proof.
  cbv zeta. unfold run_handler.
  destruct (create_handler' env now req (with_response None w)) as [r W] eqn:Hout.
  cbn [fst snd].
  unfold create_handler in Hout.
  unfold bind at 1 in Hout.
  destruct (requireAdmin_cases env req (with_response None w))
    as [[_ Hr] | [_ Hr]]; rewrite Hr in Hout; cbn [negb] in Hout.
  2:{ run_leaf Hout. repeat split; try reflexivity; discriminate. }
  destruct (cb_triviaId (req_body req)) as [triviaId |];
    [| run_leaf Hout; repeat split; try reflexivity; discriminate].
  destruct (cb_tweetId (req_body req)) as [tweetId |];
    [| run_leaf Hout; repeat split; try reflexivity; discriminate].
  destruct (cb_correctAnswers (req_body req)) as [answers |];
    [| run_leaf Hout; repeat split; try reflexivity; discriminate].
  destruct (negb (truthy_str triviaId) || negb (truthy_str tweetId));
    [run_leaf Hout; repeat split; try reflexivity; discriminate |].
  destruct (List.filter truthy_str (map normalize answers));
    [run_leaf Hout; repeat split; try reflexivity; discriminate |].
  unfold bind at 1 in Hout. cbn [query] in Hout.
  destruct (getTrivia triviaId (db (with_response None w)));
    [run_leaf Hout; repeat split; try reflexivity; discriminate |].
  run_leaf Hout. split; [discriminate |]. split; [reflexivity |].
  split; [reflexivity |]. intros resp [= <-] H. contradiction H. reflexivity.
Qed.

End CreateFacts.

Lemma create_handler_spec_witness :
  exists d,
    createTrivia
      (created_round 1700000000000 (req_body (create_request (Some "Bearer s3cret"%string)))
         (js "trivia-002") (js "1850000000000000777") [js "paris"])
      sample_db = Some d
    /\ option_map closes_at (getTrivia (js "trivia-002") d) = Some 1700000600000.
Proof.
  destruct (create_handler_spec toLowerCase_latin1 normalizeNFKD_latin1 sample_env
              1700000000000 (create_request (Some "Bearer s3cret"%string))
              sample_world (js "trivia-002") (js "1850000000000000777") [js "Paris"])
    as (_ & _ & H).
  - exists (js "s3cret"). split; [reflexivity |]. split; [discriminate | reflexivity].
  - reflexivity.
  - discriminate.
  - reflexivity.
  - discriminate.
  - reflexivity.
  - destruct H as (Hc & _); [vm_compute; discriminate | reflexivity |].
    eexists. split; [exact Hc |]. vm_compute. reflexivity.
Defined.

(** *** Close *)

Lemma closeTrivia_frame (params : CloseTriviaParams) (d : Db) :
  trivia_payouts (closeTrivia params d) = trivia_payouts d
  /\ daily_spend (closeTrivia params d) = daily_spend d
  /\ trivia_claim_attempts (closeTrivia params d) = trivia_claim_attempts d
  /\ trivia_replies (closeTrivia params d) = trivia_replies d.
Proof. repeat split; reflexivity. Qed.

Ltac close_leaf H :=
  run_leaf H; eexists; split; [reflexivity |];
  cbn [res_status];
  repeat match goal with
         | |- _ /\ _ => split
         end;
  first [ reflexivity
        | exists []; symmetry; apply app_nil_r
        | intros; reflexivity
        | intros; discriminate ].

Ltac frame_goal :=
  first [ assumption
        | reflexivity
        | intros _; assumption
        | intros _ H; contradiction H; reflexivity
        | intros H; contradiction H; reflexivity
        | intros H; discriminate H ].

Section CloseFrame.

Variables toLowerCase normalizeNFKD : jsstring -> jsstring.
Variable Date_parse : jsstring -> option Z.

Local Abbreviation close_handler' :=
  (close_handler toLowerCase normalizeNFKD Date_parse).

Lemma close_handler_outcomes (env : Env) (inp : CloseInputs)
    (req : Request CloseBody) (w : World) :
  let out := run_handler (close_handler' env inp req) w in
  exists resp,
    fst out = Some resp
    /\ sent (snd out) = sent w
    /\ rateLimitBuckets (snd out) = rateLimitBuckets w
    /\ trivia_payouts (db (snd out)) = trivia_payouts (db w)
    /\ daily_spend (db (snd out)) = daily_spend (db w)
    /\ trivia_claim_attempts (db (snd out)) = trivia_claim_attempts (db w)
    /\ (exists added,
          trivia_replies (db (snd out)) = trivia_replies (db w) ++ added)
    /\ (res_status resp <> 200 ->
        trivia_rewards (db (snd out)) = trivia_rewards (db w))
    /\ (res_status resp <> 200 -> res_status resp <> 500 -> db (snd out) = db w)
    /\ (res_status resp = 200 ->
        exists id trivia stored,
          clb_triviaId (req_body req) = Some id
          /\ getTrivia id (db w) = Some trivia
          /\ status trivia = status_open
          /\ closes_at trivia <= ci_now inp
          /\ getTrivia id (db (snd out)) = Some stored
          /\ status stored = status_closed).
Proof.
  cbv zeta. unfold run_handler.
  destruct (close_handler' env inp req (with_response None w)) as [r W] eqn:Hout.
  cbn [fst snd].
  unfold close_handler in Hout.
  unfold bind at 1 in Hout.
  destruct (requireAdmin_cases env req (with_response None w))
    as [[_ Hr] | [_ Hr]]; rewrite Hr in Hout; cbn [negb] in Hout.
  2:{ close_leaf Hout. }
  destruct (clb_triviaId (req_body req)) as [[| c0 idrest] |] eqn:Hid;
    cbn [truthy_ostr truthy_str negb default from_option Datatypes.id] in Hout;
    [close_leaf Hout | | close_leaf Hout].
  set (triviaId := c0 :: idrest) in *.
  unfold bind at 1 in Hout. cbn [query] in Hout.
  change (db (with_response None w)) with (db w) in Hout.
  destruct (getTrivia triviaId (db w)) as [trivia |] eqn:Hget; [| close_leaf Hout].
  destruct (status trivia) eqn:Hstatus; [| close_leaf Hout].
  destruct (Z.ltb_spec (ci_now inp) (closes_at trivia)) as [Hopen | Hpast];
    [close_leaf Hout |].
  destruct (ci_twitter inp) as [| | fetch]; [close_leaf Hout | close_leaf Hout |].
  destruct (collectReplies _ _ _ fetch _ _ _ _ _ _) as [replies |];
    [| close_leaf Hout].
  unfold bind at 1 in Hout. cbn [update] in Hout.
  unfold bind at 1 in Hout. cbn [query] in Hout.
  cbn [db with_db with_response] in Hout.
  destruct (addReplies_frame replies (db w)) as (Hrw & Hpay & Hday & Hatt & Hpre).
  pose proof (getTrivia_has_id _ _ _ Hget) as Htid.
  assert (Hclosed : forall params,
             cl_triviaId params = trivia_id trivia ->
             getTrivia triviaId (closeTrivia params (addReplies replies (db w)))
             = Some (set_closed params trivia)).
  { intros params Hp. rewrite <- Htid, <- Hp. apply getTrivia_closeTrivia.
    rewrite getTrivia_addReplies, Hp, Htid. exact Hget. }
  destruct (truthy_ostr (TRIVIA_SALT env)); cbn [negb] in Hout.
  2:{ run_leaf Hout. eexists. split; [reflexivity |]. cbn [res_status].
      repeat split; frame_goal. }
  destruct (ci_blockHeight inp) as [blockHeight |].
  2:{ run_leaf Hout. eexists. split; [reflexivity |]. cbn [res_status].
      repeat split; frame_goal. }
  destruct (sort_by jsstring_leb _) as [| i0 rest] eqn:Hids.
  - run_leaf Hout. eexists. split; [reflexivity |]. cbn [res_status].
    repeat split; try frame_goal.
    intros _. exists triviaId, trivia. eexists.
      split; [reflexivity |]. split; [exact Hget |]. split; [exact Hstatus |].
      split; [exact Hpast |].
      split; [apply Hclosed; reflexivity | reflexivity].
  - match type of Hout with
    | context [match ?x with Some _ => _ | None => respond 500 _ end] =>
        destruct x as [winner |]
    end.
    + run_leaf Hout. eexists. split; [reflexivity |]. cbn [res_status].
      repeat split; try frame_goal.
      intros _. exists triviaId, trivia. eexists.
        split; [reflexivity |]. split; [exact Hget |]. split; [exact Hstatus |].
        split; [exact Hpast |].
        split; [apply Hclosed; reflexivity | reflexivity].
    + run_leaf Hout. eexists. split; [reflexivity |]. cbn [res_status].
      repeat split; frame_goal.
Qed.

(** X18. Whatever the request, the close handler answers it; it never touches
    the limiter, the payment executor, the payouts, the daily totals or
    the attempts on claim codes, and it never removes a stored reply. A
    round changes only when the answer is 200, and then the round of
    the request was open and past its closing time and is closed
    afterwards. An answer other than 200 and 500 comes with no write at
    all; with 500 the replies fetched may have been stored. *)
Theorem close_handler_frame (env : Env) (inp : CloseInputs)
    (req : Request CloseBody) (w : World) :
  let out := run_handler (close_handler' env inp req) w in
  exists resp,
    fst out = Some resp
    /\ sent (snd out) = sent w
    /\ rateLimitBuckets (snd out) = rateLimitBuckets w
    /\ trivia_payouts (db (snd out)) = trivia_payouts (db w)
    /\ daily_spend (db (snd out)) = daily_spend (db w)
    /\ trivia_claim_attempts (db (snd out)) = trivia_claim_attempts (db w)
    /\ (exists added,
          trivia_replies (db (snd out)) = trivia_replies (db w) ++ added)
    /\ (res_status resp <> 200 ->
        trivia_rewards (db (snd out)) = trivia_rewards (db w))
    /\ (res_status resp <> 200 -> res_status resp <> 500 -> db (snd out) = db w)
    /\ (res_status resp = 200 ->
        exists id trivia stored,
          clb_triviaId (req_body req) = Some id
          /\ getTrivia id (db w) = Some trivia
          /\ status trivia = status_open
          /\ closes_at trivia <= ci_now inp
          /\ getTrivia id (db (snd out)) = Some stored
          /\ status stored = status_closed).
Proof. apply close_handler_outcomes. Qed.

(** X19. A round is closed once. After a close request was answered 200, a
    further close request for the same round, with any environment and
    inputs, is answered by an error and leaves the rounds as they
    are. *)
Theorem close_handler_once (env env' : Env) (inp inp' : CloseInputs)
    (req req' : Request CloseBody) (w : World) (resp : Response) :
  fst (run_handler (close_handler' env inp req) w) = Some resp ->
  res_status resp = 200 ->
  clb_triviaId (req_body req') = clb_triviaId (req_body req) ->
  let w' := snd (run_handler (close_handler' env inp req) w) in
  let out' := run_handler (close_handler' env' inp' req') w' in
  (exists resp', fst out' = Some resp' /\ res_status resp' <> 200)
  /\ trivia_rewards (db (snd out')) = trivia_rewards (db w').
Proof.
  intros Hresp H200 Hsame. cbv zeta.
  destruct (close_handler_outcomes env inp req w)
    as (resp0 & Hresp0 & _ & _ & _ & _ & _ & _ & _ & _ & Hclosed).
  cbv zeta in Hresp0. rewrite Hresp in Hresp0. injection Hresp0 as <-.
  destruct (Hclosed H200) as (id & trivia & stored & Hid & _ & _ & _ & Hstored & Hst).
  destruct (close_handler_outcomes env' inp'
              req' (snd (run_handler (close_handler' env inp req) w)))
    as (resp' & Hresp' & _ & _ & _ & _ & _ & _ & Hrounds & _ & Hok).
  cbv zeta in Hresp', Hrounds, Hok.
  assert (Hnot : res_status resp' <> 200).
  { intros H. destruct (Hok H) as (id' & trivia' & _ & Hid' & Hget' & Hopen & _).
    rewrite Hsame, Hid in Hid'. injection Hid' as <-.
    rewrite Hstored in Hget'. injection Hget' as <-. congruence. }
  split; [exists resp'; split; [exact Hresp' | exact Hnot] |].
  apply Hrounds. exact Hnot.
Qed.

End CloseFrame.

Lemma close_handler_once_witness :
  trivia_rewards
    (db (snd (run_handler
                (close_handler toLowerCase_latin1 normalizeNFKD_latin1 no_date_parse
                   sample_env paris_inputs
                   (paris_close_request (Some "Bearer s3cret"%string)))
                (snd paris_close))))
  = trivia_rewards (db (snd paris_close)).
Proof.
  destruct (close_handler_once toLowerCase_latin1 normalizeNFKD_latin1 no_date_parse
              sample_env sample_env paris_inputs paris_inputs
              (paris_close_request (Some "Bearer s3cret"%string))
              (paris_close_request (Some "Bearer s3cret"%string))
              paris_world
              (default unauthorized_response (fst paris_close)))
    as (_ & H).
  - vm_compute. reflexivity.
  - vm_compute. reflexivity.
  - reflexivity.
  - exact H.
Defined.

(** *** Claim *)

Section ClaimPayment.

Variable toLowerCase : jsstring -> jsstring.

Local Abbreviation claim_handler' := (claim_handler toLowerCase).

Lemma claim_handler_payment (env : Env) (inp : ClaimInputs)
    (req : Request ClaimBody) (w : World)
    (claimCode address : jsstring) (claim : TriviaRecord) :
  claim_reaches_caps env inp req w claimCode address claim ->
  ~ cap_breached env (clock_now inp) (db w) claim address ->
  truthy_ostr (RMZ_TOKEN_ID env) = true ->
  let d0 :=
    after_clears
      (lock_expired (getClaimAttemptByCode claimCode (db w) ≫= ca_lock_expires_at)
         (clock_now inp))
      (lock_expired (lock_expires_at claim) (clock_now inp))
      claimCode (trivia_id claim) (clock_codeClear inp) (db w) in
  let out := run_handler (claim_handler' env inp req) w in
  sent (snd out) = sent w ++ [claim_payment env claim address]
  /\ match sendRmz toLowerCase env (clock_send inp) (claim_payment env claim address) with
     | SendNotImplemented =>
         fst out = Some (error_response 501 "payout_not_implemented")
         /\ db (snd out) = d0
     | SendOk txid =>
         fst out = Some (paid_response claim txid)
         /\ db (snd out)
            = snd (recordClaimAndPayout (claim_settlement inp claim address txid) d0)
     end.
Proof.
  intros (Hcode & Hcodene & Haddr & Haddrne & Hclaim & Hguards & Hused & Hvalid
          & Hexp & Hwinner & Hgate & Hown) Hnobreach Htoken.
  destruct Hguards as (Hipok' & Hcl & Hrl & Huserok).
  cbv zeta in Hipok', Huserok. cbv zeta.
  unfold run_handler.
  destruct (claim_handler' env inp req (with_response None w)) as [r W] eqn:Hout.
  cbn [fst snd].
  unfold claim_handler in Hout.
  rewrite Hcode, Haddr in Hout.
  cbn [truthy_ostr default from_option Datatypes.id] in Hout.
  apply truthy_str_true in Hcodene, Haddrne.
  rewrite Hcodene, Haddrne in Hout. cbn [negb orb] in Hout.
  set (limit := default 10 (CLAIM_RATE_LIMIT_PER_MINUTE env)) in *.
  unfold bind at 1 in Hout.
  destruct (allowRateLimit_run (js "ip:" ++ getRequestIp req) limit
              (clock_ipCheck inp) (with_response None w))
    as (allowed & bk & Hip & Hipok & Hipother).
  rewrite Hip in Hout.
  assert (allowed = true) as -> by (apply Hipok; exact Hipok').
  cbn [negb] in Hout.
  unfold bind at 1 in Hout. cbn [query] in Hout.
  cbn [db with_buckets with_response] in Hout.
  rewrite Hcl in Hout.
  unfold bind at 1 in Hout.
  destruct (lock_expired (getClaimAttemptByCode claimCode (db w) ≫= ca_lock_expires_at)
              (clock_now inp)) eqn:Hce;
    cbn [when_ update ret] in Hout.
  all: unfold bind at 1 in Hout; cbn [query] in Hout;
       cbn [db with_db with_buckets with_response] in Hout;
       rewrite ?getClaimByCode_clearClaimAttemptLock in Hout;
       rewrite Hclaim in Hout.
  all: unfold bind at 1 in Hout; cbn [elizaLogger] in Hout.
  all: rewrite Hrl in Hout.
  all: unfold bind at 1 in Hout.
  all: destruct (lock_expired (lock_expires_at claim) (clock_now inp)) eqn:Hre;
       cbn [when_ update ret] in Hout.
  all: unfold bind at 1 in Hout.
  all: rewrite Hwinner in Hout.
  all: destruct (truthy_ostr_some _ Hwinner) as (user & Huser & Huserne).
  all: match type of Hout with
       | context [allowRateLimit ?k ?l ?t ?w0] =>
           destruct (allowRateLimit_run k l t w0)
             as (userAllowed & bk' & Huc & Hucok & _);
           rewrite Huc in Hout
       end.
  all: assert (userAllowed = true) as ->
         by (apply Hucok;
             cbn [rateLimitBuckets with_buckets with_db with_log with_response];
             rewrite Huser; cbn [default from_option Datatypes.id];
             eapply rate_allows_lookup;
               [| exact (Huserok user Huser Huserne)];
             apply Hipother; apply ip_user_keys_differ).
  all: cbn [negb] in Hout.
  all: rewrite Hused, Hvalid in Hout; cbn [negb] in Hout.
  all: rewrite Hexp in Hout.
  all: rewrite Hgate, Hown in Hout; cbn [negb] in Hout.
  all: unfold bind at 1 in Hout; cbn [query] in Hout.
  all: unfold cap_breached in Hnobreach; cbv zeta in Hnobreach.
  all: assert (Hcaps :
         (default 50 (DAILY_CAP_RMZ env)
            <? getDailySpend (toDayKey (clock_now inp)) (db w) + reward_rmz claim)
           = false
         /\ (default 1 (MAX_WIN_PER_USER_PER_DAY env)
               <=? countWinsForUser (toDayKey (clock_now inp))
                     (default [] (winner_twitter_user_id claim)) (db w)) = false
         /\ (default 3 (MAX_RMZ_PER_USER_PER_DAY env)
               <? sumAddressSpend (toDayKey (clock_now inp)) address (db w)
                  + reward_rmz claim) = false)
         by (rewrite !Z.ltb_ge, Z.leb_gt; lia).
  all: destruct Hcaps as (Hcap1 & Hcap2 & Hcap3).
  all: change (getDailySpend ?k (db ?x)) with (getDailySpend k (db w)) in Hout.
  all: rewrite Hcap1 in Hout.
  all: unfold bind at 1 in Hout; cbn [query] in Hout.
  all: change (countWinsForUser ?k ?u (db ?x)) with (countWinsForUser k u (db w)) in Hout.
  all: rewrite Hcap2 in Hout.
  all: unfold bind at 1 in Hout; cbn [query] in Hout.
  all: change (sumAddressSpend ?k ?u (db ?x)) with (sumAddressSpend k u (db w)) in Hout.
  all: rewrite Hcap3 in Hout.
  all: rewrite Htoken in Hout; cbn [negb] in Hout.
  all: unfold bind at 1 in Hout; cbn [elizaLogger] in Hout.
  all: unfold bind at 1 in Hout; unfold await_sendRmz at 1 in Hout.
  all: fold (claim_payment env claim address) in Hout.
  all: destruct (sendRmz toLowerCase env (clock_send inp)
                   (claim_payment env claim address)) as [txid |].
  all: try (run_leaf Hout; split; [reflexivity |]; split; reflexivity).
  all: unfold store_recordClaimAndPayout in Hout.
  all: unfold bind at 1 in Hout; unfold bind at 1 in Hout; unfold call at 1 in Hout.
  all: cbn [db with_db with_log with_sent with_buckets with_response] in Hout.
  all: fold (claim_settlement inp claim address txid) in Hout.
  all: match type of Hout with
       | context [recordClaimAndPayout ?p ?d] =>
           destruct (recordClaimAndPayout p d) as [updated d1] eqn:Hrec
       end.
  all: destruct updated; cbn [negb when_] in Hout.
  all: run_leaf Hout; split; [reflexivity |]; split; [reflexivity |].
  all: unfold after_clears; cbn [db with_db]; rewrite Hrec; reflexivity.
Qed.

Lemma after_clears_rows (c1 c2 : bool) (code id : jsstring) (t : Z) (d : Db) :
  trivia_rewards (after_clears c1 c2 code id t d)
  = map (fun r => if c2 && has_trivia_id id r then set_lock 0 None r else r)
      (trivia_rewards d).
Proof.
  unfold after_clears. destruct c2; cbn [andb].
  - destruct c1; reflexivity.
  - rewrite map_id. destruct c1; reflexivity.
Qed.

Lemma getClaimByCode_in (code : jsstring) (d : Db) (claim : TriviaRecord) :
  getClaimByCode code d = Some claim ->
  In claim (trivia_rewards d) /\ claim_code claim = Some code.
Proof.
  intros H. apply find_some in H as [Hin Hc].
  split; [exact Hin | apply bool_decide_eq_true in Hc; exact Hc].
Qed.

(** X20. A claim that passes every check, in a dry run: [sendRmz] is called
    once, with the address and the reward of the round; the answer is
    200 with the transaction id; the round found by the claim code is
    marked used at the clock reading of the request, with the address
    and the transaction id, and its counter is reset; one payout is
    recorded; and the total of the day grows by the reward and stays
    within the daily cap. *)
Theorem claim_handler_pays (env : Env) (inp : ClaimInputs)
    (req : Request ClaimBody) (w : World)
    (claimCode address txid : jsstring) (claim : TriviaRecord) :
  claim_reaches_caps env inp req w claimCode address claim ->
  ~ cap_breached env (clock_now inp) (db w) claim address ->
  truthy_ostr (RMZ_TOKEN_ID env) = true ->
  used_at claim = None ->
  sendRmz toLowerCase env (clock_send inp) (claim_payment env claim address)
  = SendOk txid ->
  let out := run_handler (claim_handler' env inp req) w in
  let dayKey := toDayKey (clock_now inp) in
  fst out = Some (paid_response claim txid)
  /\ sent (snd out) = sent w ++ [claim_payment env claim address]
  /\ getClaimByCode claimCode (db (snd out))
     = Some (set_used {| mu_triviaId := trivia_id claim;
                         mu_usedAt := clock_now inp;
                         mu_usedAddress := address;
                         mu_txid := txid |} claim)
  /\ trivia_payouts (db (snd out))
     = trivia_payouts (db w)
       ++ [ {| p_id := Z.of_nat (length (trivia_payouts (db w))) + 1;
               p_trivia_id := trivia_id claim;
               p_twitter_user_id := default [] (winner_twitter_user_id claim);
               p_address := address;
               p_rmz_amount := reward_rmz claim;
               p_txid := txid;
               p_created_at := clock_now inp;
               p_day_key := dayKey |} ]
  /\ getDailySpend dayKey (db (snd out))
     = getDailySpend dayKey (db w) + reward_rmz claim
  /\ getDailySpend dayKey (db (snd out)) <= default 50 (DAILY_CAP_RMZ env).
Proof.
  intros Hreach Hnobreach Htoken Hunused Hsend. cbv zeta.
  destruct (claim_handler_payment env inp req w claimCode address claim
              Hreach Hnobreach Htoken) as (Hsent & Hout).
  cbv zeta in Hsent, Hout. rewrite Hsend in Hout. destruct Hout as (Hresp & Hdb).
  destruct Hreach as (_ & _ & _ & _ & Hclaim & _).
  destruct (getClaimByCode_in _ _ _ Hclaim) as (Hin & Hcc).
  set (c1 := lock_expired _ _) in Hdb.
  set (c2 := lock_expired (lock_expires_at claim) (clock_now inp)) in Hdb.
  set (d0 := after_clears c1 c2 claimCode (trivia_id claim) (clock_codeClear inp) (db w))
    in Hdb.
  set (params := claim_settlement inp claim address txid) in Hdb.
  pose proof (after_clears_rows c1 c2 claimCode (trivia_id claim)
                (clock_codeClear inp) (db w)) as Hrows. fold d0 in Hrows.
  destruct (after_clears_frame c1 c2 claimCode (trivia_id claim)
              (clock_codeClear inp) (db w)) as (Hpay0 & Hday0 & _).
  fold d0 in Hpay0, Hday0.
  assert (Htrue : fst (recordClaimAndPayout params d0) = true).
  { destruct (fst (recordClaimAndPayout params d0)) eqn:Hres; [reflexivity |].
    exfalso.
    assert (Hmark : fst (markClaimUsed
                           {| mu_triviaId := cp_triviaId params;
                              mu_usedAt := cp_usedAt params;
                              mu_usedAddress := cp_usedAddress params;
                              mu_txid := cp_txid params |} d0) = true).
    { apply markClaimUsed_true_iff.
      exists (if c2 && has_trivia_id (trivia_id claim) claim
              then set_lock 0 None claim else claim).
      split; [rewrite Hrows; apply in_map_iff; exists claim; split;
              [reflexivity | exact Hin] |].
      destruct (c2 && has_trivia_id (trivia_id claim) claim);
        split; try reflexivity; exact Hunused. }
    unfold recordClaimAndPayout in Hres.
    destruct (markClaimUsed _ d0) as [updated d1]. cbn [fst] in Hmark. subst updated.
    cbn [negb fst] in Hres. discriminate Hres. }
  destruct (recordClaimAndPayout_true params d0 Htrue) as (Hrw & Hpay & Hspend).
  cbv zeta in Hrw. rewrite <- Hdb in Hrw, Hpay, Hspend.
  split; [exact Hresp |]. split; [exact Hsent |]. split; [| split; [| split]].
  - unfold getClaimByCode, sql_get. rewrite Hrw.
    unfold markClaimUsed, sql_update. cbn [snd trivia_rewards with_trivia_rewards].
    rewrite Hrows.
    rewrite find_map_preserve
      by (intros r0; destruct (unused_with_id _ r0); reflexivity).
    rewrite find_map_preserve
      by (intros r0; destruct (c2 && has_trivia_id _ r0); reflexivity).
    unfold getClaimByCode, sql_get in Hclaim. rewrite Hclaim. cbn [option_map].
    f_equal.
    assert (Hself : has_trivia_id (trivia_id claim) claim = true)
      by apply jsstring_eqb_refl.
    rewrite Hself.
    assert (Hu : forall r0, trivia_id r0 = trivia_id claim -> used_at r0 = None ->
                 unused_with_id (cp_triviaId params) r0 = true).
    { intros r0 Hid Hu0. unfold unused_with_id, has_trivia_id. cbn [cp_triviaId params claim_settlement].
      rewrite Hid, jsstring_eqb_refl. cbn [andb]. apply bool_decide_eq_true. exact Hu0. }
    destruct c2; cbn [andb].
    + rewrite Hu by (try reflexivity; exact Hunused). reflexivity.
    + rewrite Hu by (try reflexivity; exact Hunused). reflexivity.
  - rewrite Hpay, Hpay0. reflexivity.
  - rewrite Hspend. cbn [cp_dayKey params claim_settlement].
    rewrite decide_True by reflexivity.
    unfold getDailySpend. rewrite Hday0. reflexivity.
  - rewrite Hspend. cbn [cp_dayKey params claim_settlement cp_rmzAmount].
    rewrite decide_True by reflexivity.
    unfold getDailySpend at 1. rewrite Hday0. fold (getDailySpend (toDayKey (clock_now inp)) (db w)).
    unfold cap_breached in Hnobreach. cbv zeta in Hnobreach. lia.
Qed.

(** X21. A claim that passes every check outside a dry run: [sendRmz] is
    called once and reports that the payout is not implemented; the
    answer is 501, and nothing of a settlement is written: no payout, no
    daily total, no settlement column, and no invalid attempt. *)
Theorem claim_handler_not_implemented (env : Env) (inp : ClaimInputs)
    (req : Request ClaimBody) (w : World)
    (claimCode address : jsstring) (claim : TriviaRecord) :
  claim_reaches_caps env inp req w claimCode address claim ->
  ~ cap_breached env (clock_now inp) (db w) claim address ->
  truthy_ostr (RMZ_TOKEN_ID env) = true ->
  isDryRun toLowerCase env = false ->
  let out := run_handler (claim_handler' env inp req) w in
  fst out = Some (error_response 501 "payout_not_implemented")
  /\ sent (snd out) = sent w ++ [claim_payment env claim address]
  /\ trivia_payouts (db (snd out)) = trivia_payouts (db w)
  /\ daily_spend (db (snd out)) = daily_spend (db w)
  /\ map (fun r => (trivia_id r, used_at r, used_address r, txid r))
         (trivia_rewards (db (snd out)))
     = map (fun r => (trivia_id r, used_at r, used_address r, txid r))
         (trivia_rewards (db w))
  /\ no_attempt_recorded w (snd out).
Proof.
  intros Hreach Hnobreach Htoken Hdry. cbv zeta.
  destruct (claim_handler_payment env inp req w claimCode address claim
              Hreach Hnobreach Htoken) as (Hsent & Hout).
  cbv zeta in Hsent, Hout.
  assert (Hsend : sendRmz toLowerCase env (clock_send inp)
                    (claim_payment env claim address) = SendNotImplemented)
    by (unfold sendRmz; rewrite Hdry; reflexivity).
  rewrite Hsend in Hout. destruct Hout as (Hresp & Hdb).
  match type of Hdb with
  | _ = after_clears ?c1 ?c2 ?code ?id ?t ?d =>
      destruct (after_clears_frame c1 c2 code id t d) as (Hp & Hd & Hcols & Hr & Hc)
  end.
  rewrite <- Hdb in Hp, Hd, Hcols, Hr, Hc.
  split; [exact Hresp |]. split; [exact Hsent |]. split; [exact Hp |].
  split; [exact Hd |]. split; [exact Hcols |]. split; [exact Hr | exact Hc].
Qed.

End ClaimPayment.

Lemma claim_handler_pays_witness :
  exists txid,
    fst (run_handler (claim_handler toLowerCase_latin1 sample_env claim_inputs
                        claim_request) sample_world)
    = Some (paid_response sample_round txid)
    /\ getDailySpend (toDayKey (clock_now claim_inputs))
         (db (snd (run_handler (claim_handler toLowerCase_latin1 sample_env claim_inputs
                                  claim_request) sample_world))) = 3.
Proof.
  eexists.
  destruct (claim_handler_pays toLowerCase_latin1 sample_env claim_inputs claim_request
              sample_world (js "00112233445566778899aabbccddeeff") sample_address
              (js "dryrun_" ++ firstn 16
                 (sha256_hex (sample_address ++ js ":3:bb22:1700002000004")))
              sample_round)
    as (Hresp & _ & _ & _ & Hspend & _).
  - split; [reflexivity |]. split; [discriminate |].
    split; [reflexivity |]. split; [discriminate |].
    split; [vm_compute; reflexivity |].
    split.
    { split; [vm_compute; exact I |].
      split; [vm_compute; reflexivity |].
      split; [vm_compute; reflexivity |].
      intros user _ _. vm_compute. exact I. }
    repeat split; vm_compute; reflexivity.
  - intros [H | [H | H]]; vm_compute in H;
      first [discriminate H | apply H; reflexivity].
  - reflexivity.
  - reflexivity.
  - vm_compute. reflexivity.
  - split; [exact Hresp |]. rewrite Hspend. vm_compute. reflexivity.
Defined.

Lemma claim_handler_not_implemented_witness :
  fst (run_handler (claim_handler toLowerCase_latin1 live_env claim_inputs
                      claim_request) sample_world)
  = Some (error_response 501 "payout_not_implemented").
Proof.
  apply (claim_handler_not_implemented toLowerCase_latin1 live_env claim_inputs
           claim_request sample_world (js "00112233445566778899aabbccddeeff")
           sample_address sample_round).
  - split; [reflexivity |]. split; [discriminate |].
    split; [reflexivity |]. split; [discriminate |].
    split; [vm_compute; reflexivity |].
    split.
    { split; [vm_compute; exact I |].
      split; [vm_compute; reflexivity |].
      split; [vm_compute; reflexivity |].
      intros user _ _. vm_compute. exact I. }
    repeat split; vm_compute; reflexivity.
  - intros [H | [H | H]]; vm_compute in H;
      first [discriminate H | apply H; reflexivity].
  - reflexivity.
  - vm_compute. reflexivity.
Defined.

Lemma lock_flags (lock : option Z) (now : Z) :
  lock <> Some 0 ->
  lock_active lock now = false ->
  (lock_expired lock now = true /\ exists l, lock = Some l /\ l <= now)
  \/ (lock_expired lock now = false /\ lock = None).
Proof.
  unfold lock_active, lock_expired. intros Hz.
  destruct lock as [l |]; cbn [truthy_num default from_option Datatypes.id andb];
    [| intros _; right; split; reflexivity].
  assert ((l =? 0) = false) as -> by (apply Z.eqb_neq; congruence). cbn [negb andb].
  intros H. apply Z.ltb_ge in H. left. split; [apply Z.leb_le; exact H | eauto].
Qed.

Section ClaimRejections.

Variable toLowerCase : jsstring -> jsstring.

Local Abbreviation claim_handler' := (claim_handler toLowerCase).

(** X22. A claim with a code that no round has. When the limiter lets the
    requester through and the code is not locked, the attempt is counted
    against the code, with the lazy expiry of its lock: the answer is 404
    while the count stays below three, and 429 from the third attempt
    on, which locks the code for fifteen minutes. No round, payout or
    daily total is written, no other code is counted, and the payment
    executor is not called. *)
Theorem claim_unknown_code (env : Env) (inp : ClaimInputs)
    (req : Request ClaimBody) (w : World) (claimCode address : jsstring) :
  clm_claimCode (req_body req) = Some claimCode -> claimCode <> [] ->
  clm_address (req_body req) = Some address -> address <> [] ->
  rate_allows (js "ip:" ++ getRequestIp req)
    (default 10 (CLAIM_RATE_LIMIT_PER_MINUTE env)) (clock_ipCheck inp)
    (rateLimitBuckets w) ->
  lock_active (snd (code_counter claimCode (db w))) (clock_now inp) = false ->
  snd (code_counter claimCode (db w)) <> Some 0 ->
  getClaimByCode claimCode (db w) = None ->
  0 < clock_now inp ->
  let out := run_handler (claim_handler' env inp req) w in
  let counter :=
    lazy_expiry_step (clock_now inp) 3 CLAIM_LOCK_MS (code_counter claimCode (db w)) in
  code_counter claimCode (db (snd out)) = counter
  /\ (fst counter < 3 ->
      fst out = Some (error_response 404 "Claim code not found."))
  /\ (3 <= fst counter ->
      fst out = Some rate_limited
      /\ snd counter = Some (clock_now inp + CLAIM_LOCK_MS))
  /\ (forall other, other <> claimCode ->
        code_counter other (db (snd out)) = code_counter other (db w))
  /\ trivia_rewards (db (snd out)) = trivia_rewards (db w)
  /\ trivia_payouts (db (snd out)) = trivia_payouts (db w)
  /\ daily_spend (db (snd out)) = daily_spend (db w)
  /\ sent (snd out) = sent w.
Proof.
  intros Hcode Hcodene Haddr Haddrne Hipok' Hactive Hzero Hnone Hnow. cbv zeta.
  unfold run_handler.
  destruct (claim_handler' env inp req (with_response None w)) as [r W] eqn:Hout.
  cbn [fst snd].
  unfold claim_handler in Hout.
  rewrite Hcode, Haddr in Hout.
  cbn [truthy_ostr default from_option Datatypes.id] in Hout.
  apply truthy_str_true in Hcodene, Haddrne.
  rewrite Hcodene, Haddrne in Hout. cbn [negb orb] in Hout.
  unfold bind at 1 in Hout.
  destruct (allowRateLimit_run (js "ip:" ++ getRequestIp req)
              (default 10 (CLAIM_RATE_LIMIT_PER_MINUTE env))
              (clock_ipCheck inp) (with_response None w))
    as (allowed & bk & Hip & Hipok & _).
  rewrite Hip in Hout.
  assert (allowed = true) as -> by (apply Hipok; exact Hipok').
  cbn [negb] in Hout.
  unfold bind at 1 in Hout. cbn [query] in Hout.
  cbn [db with_buckets with_response] in Hout.
  assert (Hlock : getClaimAttemptByCode claimCode (db w) ≫= ca_lock_expires_at
                  = snd (code_counter claimCode (db w))).
  { unfold code_counter. destruct (getClaimAttemptByCode claimCode (db w)); reflexivity. }
  rewrite Hlock, Hactive in Hout.
  unfold bind at 1 in Hout.
  unfold code_counter, getClaimAttemptByCode in *.
  destruct (lock_flags _ (clock_now inp) Hzero Hactive)
    as [(Hexp & l & Hl & Hle) | (Hexp & Hl)];
    rewrite Hexp in Hout; cbn [when_ update ret] in Hout.
  - (* the lock has expired and is cleared first *)
    destruct (trivia_claim_attempts (db w) !! claimCode) as [[a l0 u] |] eqn:Hrow;
      cbn [snd ca_lock_expires_at ca_invalid_attempts] in *; [| discriminate Hl].
    subst l0.
    unfold bind at 1 in Hout. cbn [query] in Hout.
    cbn [db with_db with_buckets with_response] in Hout.
    rewrite getClaimByCode_clearClaimAttemptLock, Hnone in Hout.
    unfold bind at 1 in Hout.
    unfold call, recordInvalidClaimCodeAttempt, getClaimAttemptByCode,
      clearClaimAttemptLock in Hout.
    cbn [db with_db with_buckets with_response trivia_claim_attempts
         with_trivia_claim_attempts at_key] in Hout.
    rewrite lookup_alter_eq, Hrow in Hout.
    cbn [fmap option_fmap option_map ca_invalid_attempts ca_lock_expires_at] in Hout.
    unfold next_attempt in Hout.
    cbn [at_now at_maxAttempts at_lockMs invalidAttempts lockExpiresAt
         lock_active truthy_num andb] in Hout.
    change (3 <=? 0 + 1) with false in Hout. cbn [lock_active truthy_num andb] in Hout.
    run_leaf Hout.
    cbn [trivia_claim_attempts with_trivia_claim_attempts trivia_rewards
         trivia_payouts daily_spend].
    unfold lazy_expiry_step. cbn [snd fst].
    assert ((l <=? clock_now inp) = true) as -> by (apply Z.leb_le; exact Hle).
    change (3 <=? 0 + 1) with false. cbn [fst snd].
    split; [rewrite lookup_insert_eq; reflexivity |].
    split; [intros _; reflexivity |].
    split; [intros H; exfalso; lia |].
    split; [| repeat split; reflexivity].
    intros other Hother.
    rewrite lookup_insert_ne by congruence.
    rewrite lookup_alter_ne by congruence. reflexivity.
  - (* no lock is stored *)
    unfold bind at 1 in Hout. cbn [query] in Hout.
    cbn [db with_db with_buckets with_response] in Hout.
    rewrite Hnone in Hout.
    unfold bind at 1 in Hout.
    unfold call, recordInvalidClaimCodeAttempt, getClaimAttemptByCode in Hout.
    cbn [db with_db with_buckets with_response trivia_claim_attempts
         with_trivia_claim_attempts at_key] in Hout.
    set (stored := match trivia_claim_attempts (db w) !! claimCode with
                   | Some a => ca_invalid_attempts a
                   | None => 0
                   end) in *.
    assert (Hstoredlock :
              match trivia_claim_attempts (db w) !! claimCode with
              | Some a => ca_lock_expires_at a
              | None => None
              end = None).
    { destruct (trivia_claim_attempts (db w) !! claimCode); exact Hl. }
    rewrite Hstoredlock in Hout.
    unfold next_attempt in Hout.
    cbn [at_now at_maxAttempts at_lockMs invalidAttempts lockExpiresAt] in Hout.
    assert (Hcounter :
              match trivia_claim_attempts (db w) !! claimCode with
              | Some a => (ca_invalid_attempts a, ca_lock_expires_at a)
              | None => (0, None)
              end = (stored, None)).
    { subst stored. destruct (trivia_claim_attempts (db w) !! claimCode) as [a |];
        [cbn in Hl; rewrite Hl |]; reflexivity. }
    rewrite Hcounter. unfold lazy_expiry_step. cbn [fst snd].
    destruct (Z.leb_spec 3 (stored + 1)) as [Hreach | Hbelow].
    + assert (Hact : lock_active (Some (clock_now inp + CLAIM_LOCK_MS)) (clock_now inp)
                     = true).
      { unfold lock_active, CLAIM_LOCK_MS. cbn [truthy_num default from_option Datatypes.id].
        apply andb_true_iff. split; [apply negb_true_iff, Z.eqb_neq | apply Z.ltb_lt]; lia. }
      rewrite Hact in Hout.
      run_leaf Hout.
      cbn [trivia_claim_attempts with_trivia_claim_attempts trivia_rewards
           trivia_payouts daily_spend fst snd].
      split; [rewrite lookup_insert_eq; reflexivity |].
      split; [intros H; exfalso; lia |].
      split; [intros _; split; reflexivity |].
      split; [| repeat split; reflexivity].
      intros other Hother. rewrite lookup_insert_ne by congruence. reflexivity.
    + cbn [lock_active truthy_num andb] in Hout.
      run_leaf Hout.
      cbn [trivia_claim_attempts with_trivia_claim_attempts trivia_rewards
           trivia_payouts daily_spend fst snd].
      split; [rewrite lookup_insert_eq; reflexivity |].
      split; [intros _; reflexivity |].
      split; [intros H; exfalso; lia |].
      split; [| repeat split; reflexivity].
      intros other Hother. rewrite lookup_insert_ne by congruence. reflexivity.
Qed.

Lemma ret_logs (w1 : World) :
  exists entries, (ret tt : M unit) w1 = (inl tt, with_log entries w1).
Proof. exists (log w1). destruct w1. reflexivity. Qed.

Lemma elizaLogger_logs (level : LogLevel) (message : jsstring) (w1 : World) :
  exists entries, elizaLogger level message w1 = (inl tt, with_log entries w1).
Proof. eexists. reflexivity. Qed.

Lemma reject_attempt_run (id : jsstring) (now : Z) (note : M unit) (code : Z)
    (message : string) (w0 : World) (r0 : TriviaRecord) :
  (forall w1, exists entries, note w1 = (inl tt, with_log entries w1)) ->
  getTrivia id (db w0) = Some r0 ->
  lock_expires_at r0 = None ->
  0 < now ->
  let p := {| at_key := id; at_now := now; at_maxAttempts := 3;
              at_lockMs := CLAIM_LOCK_MS |} in
  exists W,
    reject_attempt id now note code message w0 = (@inr unit unit tt, W)
    /\ response W
       = Some (if 3 <=? invalid_attempts r0 + 1
               then rate_limited else error_response code message)
    /\ db W = snd (recordInvalidAttempt p (db w0))
    /\ sent W = sent w0.
Proof.
  intros Hnote Hget Hlock Hnow. cbv zeta.
  unfold reject_attempt. unfold bind at 1. unfold call at 1.
  unfold recordInvalidAttempt at 1.
  unfold getTrivia in Hget. cbn [at_key]. rewrite Hget, Hlock.
  unfold next_attempt. cbn [at_now at_maxAttempts at_lockMs invalidAttempts lockExpiresAt].
  unfold bind at 1.
  match goal with
  | |- context [note ?w1] => destruct (Hnote w1) as (entries & ->)
  end.
  unfold recordInvalidAttempt. cbn [at_key]. rewrite Hget, Hlock.
  unfold next_attempt. cbn [at_now at_maxAttempts at_lockMs invalidAttempts lockExpiresAt snd].
  destruct (Z.leb_spec 3 (invalid_attempts r0 + 1)) as [Hreach | Hbelow].
  - assert (Hact : lock_active (Some (now + CLAIM_LOCK_MS)) now = true).
    { unfold lock_active, CLAIM_LOCK_MS. cbn [truthy_num default from_option Datatypes.id].
      apply andb_true_iff. split; [apply negb_true_iff, Z.eqb_neq | apply Z.ltb_lt]; lia. }
    rewrite Hact. eexists. split; [reflexivity |]. repeat split; reflexivity.
  - cbn [lock_active truthy_num andb]. eexists. split; [reflexivity |].
    repeat split; reflexivity.
Qed.

(** X23. A claim for an unsettled round that passes the guards but has a
    payout address of the wrong form, or is past its expiry, or comes
    from an address without the gating token: one invalid attempt is
    counted against the round, with the lazy expiry of its lock; the
    answer is the error of the rejection (400, 410 or 403) while the
    count stays below three and 429 from the third attempt on. The
    round stays unsettled, no payout or daily total is written and the
    payment executor is not called. *)
Theorem claim_rejected_counts_attempt (env : Env) (inp : ClaimInputs)
    (req : Request ClaimBody) (w : World)
    (claimCode address : jsstring) (claim : TriviaRecord) (rejection : Response) :
  clm_claimCode (req_body req) = Some claimCode -> claimCode <> [] ->
  clm_address (req_body req) = Some address -> address <> [] ->
  getClaimByCode claimCode (db w) = Some claim ->
  getTrivia (trivia_id claim) (db w) = Some claim ->
  claim_guards_pass env inp req w claimCode claim ->
  truthy_num (used_at claim) = false ->
  lock_expires_at claim <> Some 0 ->
  0 < clock_now inp ->
  claim_rejection env inp claim address = Some rejection ->
  let out := run_handler (claim_handler' env inp req) w in
  let counter :=
    lazy_expiry_step (clock_now inp) 3 CLAIM_LOCK_MS (round_counter claim) in
  (exists stored,
     getTrivia (trivia_id claim) (db (snd out)) = Some stored
     /\ round_counter stored = counter
     /\ used_at stored = used_at claim)
  /\ fst out = Some (if 3 <=? fst counter then rate_limited else rejection)
  /\ sent (snd out) = sent w
  /\ trivia_payouts (db (snd out)) = trivia_payouts (db w)
  /\ daily_spend (db (snd out)) = daily_spend (db w).
Proof.
  intros Hcode Hcodene Haddr Haddrne Hclaim Hprimary Hguards Hused Hzero Hnow Hrej.
  destruct Hguards as (Hipok' & Hcl & Hrl & Huserok).
  cbv zeta in Hipok', Huserok. cbv zeta.
  unfold run_handler.
  destruct (claim_handler' env inp req (with_response None w)) as [r W] eqn:Hout.
  cbn [fst snd].
  unfold claim_handler in Hout.
  rewrite Hcode, Haddr in Hout.
  cbn [truthy_ostr default from_option Datatypes.id] in Hout.
  apply truthy_str_true in Hcodene, Haddrne.
  rewrite Hcodene, Haddrne in Hout. cbn [negb orb] in Hout.
  set (limit := default 10 (CLAIM_RATE_LIMIT_PER_MINUTE env)) in *.
  unfold bind at 1 in Hout.
  destruct (allowRateLimit_run (js "ip:" ++ getRequestIp req) limit
              (clock_ipCheck inp) (with_response None w))
    as (allowed & bk & Hip & Hipok & Hipother).
  rewrite Hip in Hout.
  assert (allowed = true) as -> by (apply Hipok; exact Hipok').
  cbn [negb] in Hout.
  unfold bind at 1 in Hout. cbn [query] in Hout.
  cbn [db with_buckets with_response] in Hout.
  rewrite Hcl in Hout.
  unfold bind at 1 in Hout.
  set (c1 := lock_expired (getClaimAttemptByCode claimCode (db w) ≫= ca_lock_expires_at)
               (clock_now inp)) in *.
  assert (Hstep1 : forall w0 : World,
            when_ c1 (update (clearClaimAttemptLock claimCode (clock_codeClear inp))) w0
            = (inl tt,
               with_db (after_clears c1 false claimCode (trivia_id claim)
                          (clock_codeClear inp) (db w0)) w0)).
  { intros w0. unfold after_clears. destruct c1; unfold when_, update, ret;
      [reflexivity | destruct w0; reflexivity]. }
  rewrite Hstep1 in Hout.
  unfold bind at 1 in Hout; cbn [query] in Hout;
    cbn [db with_db with_buckets with_response] in Hout.
  assert (Hclaim1 : getClaimByCode claimCode
                      (after_clears c1 false claimCode (trivia_id claim)
                         (clock_codeClear inp) (db w)) = Some claim).
  { unfold after_clears. destruct c1;
      rewrite ?getClaimByCode_clearClaimAttemptLock; exact Hclaim. }
  rewrite Hclaim1 in Hout.
  unfold bind at 1 in Hout; cbn [elizaLogger] in Hout.
  rewrite Hrl in Hout.
  unfold bind at 1 in Hout.
  set (c2 := lock_expired (lock_expires_at claim) (clock_now inp)) in *.
  assert (Hstep2 : forall w0 : World,
            db w0 = after_clears c1 false claimCode (trivia_id claim)
                      (clock_codeClear inp) (db w) ->
            when_ c2 (update (clearClaimLock (trivia_id claim))) w0
            = (inl tt,
               with_db (after_clears c1 c2 claimCode (trivia_id claim)
                          (clock_codeClear inp) (db w)) w0)).
  { intros w0 Hw0. unfold after_clears in *. destruct c2; unfold when_, update, ret.
    - rewrite Hw0. reflexivity.
    - rewrite <- Hw0. destruct w0; reflexivity. }
  rewrite Hstep2 in Hout by reflexivity.
  set (d0 := after_clears c1 c2 claimCode (trivia_id claim) (clock_codeClear inp) (db w))
    in *.
  unfold bind at 1 in Hout.
  assert (Hrunuser :
            exists bk',
              (if truthy_ostr (winner_twitter_user_id claim)
               then allowRateLimit
                      (js "user:" ++ default [] (winner_twitter_user_id claim))
                      limit (clock_userCheck inp)
               else ret true)
                (with_db d0
                   (with_log
                      (log (with_db
                              (after_clears c1 false claimCode (trivia_id claim)
                                 (clock_codeClear inp) (db w))
                              (with_buckets bk (with_response None w)))
                       ++ [(LogInfo,
                            js "Claim request: " ++ trivia_id claim
                              ++ js " address " ++ address)])
                      (with_db
                         (after_clears c1 false claimCode (trivia_id claim)
                            (clock_codeClear inp) (db w))
                         (with_buckets bk (with_response None w)))))
              = (inl true,
                 with_buckets bk'
                   (with_db d0
                      (with_log
                         (log w
                          ++ [(LogInfo,
                               js "Claim request: " ++ trivia_id claim
                                 ++ js " address " ++ address)])
                         (with_buckets bk (with_response None w)))))).
  { destruct (truthy_ostr (winner_twitter_user_id claim)) eqn:Hwin.
    - destruct (truthy_ostr_some _ Hwin) as (user & Huser & Huserne).
      match goal with
      | |- context [allowRateLimit ?k ?l ?t ?w0] =>
          destruct (allowRateLimit_run k l t w0)
            as (userAllowed & bk' & Huc & Hucok & _)
      end.
      assert (userAllowed = true) as ->
        by (apply Hucok;
            cbn [rateLimitBuckets with_buckets with_db with_log with_response];
            rewrite Huser; cbn [default from_option Datatypes.id];
            eapply rate_allows_lookup;
            [| exact (Huserok user Huser Huserne)];
            apply Hipother; apply ip_user_keys_differ).
      exists bk'. rewrite Huc. reflexivity.
    - exists bk. cbn [ret]. reflexivity. }
  destruct Hrunuser as (bk' & Huserrun).
  rewrite Huserrun in Hout. cbn [negb] in Hout.
  rewrite Hused in Hout.
  (* the state of the round when the attempt is recorded *)
  pose proof (after_clears_rows c1 c2 claimCode (trivia_id claim)
                (clock_codeClear inp) (db w)) as Hrows. fold d0 in Hrows.
  destruct (after_clears_frame c1 c2 claimCode (trivia_id claim)
              (clock_codeClear inp) (db w)) as (Hpay0 & Hday0 & _).
  fold d0 in Hpay0, Hday0.
  set (r0 := if c2 then set_lock 0 None claim else claim).
  assert (Hget0 : getTrivia (trivia_id claim) d0 = Some r0).
  { unfold getTrivia, sql_get. rewrite Hrows.
    rewrite find_map_preserve
      by (intros x; destruct (c2 && has_trivia_id (trivia_id claim) x); reflexivity).
    unfold getTrivia, sql_get in Hprimary. rewrite Hprimary. cbn [option_map].
    assert (has_trivia_id (trivia_id claim) claim = true) as ->
      by apply jsstring_eqb_refl.
    rewrite andb_true_r. reflexivity. }
  assert (Hflags : (c2 = true /\ exists l, lock_expires_at claim = Some l
                                           /\ l <= clock_now inp)
                   \/ (c2 = false /\ lock_expires_at claim = None))
    by (apply lock_flags; assumption).
  assert (Hlock0 : lock_expires_at r0 = None).
  { subst r0. destruct Hflags as [(-> & _) | (-> & Hn)]; [reflexivity | exact Hn]. }
  assert (Hcounter : lazy_expiry_step (clock_now inp) 3 CLAIM_LOCK_MS (round_counter claim)
                     = lazy_expiry_step (clock_now inp) 3 CLAIM_LOCK_MS (round_counter r0)).
  { subst r0. destruct Hflags as [(-> & l & Hl & Hle) | (-> & _)]; [| reflexivity].
    unfold lazy_expiry_step, round_counter. cbn [snd set_lock invalid_attempts lock_expires_at].
    rewrite Hl. assert ((l <=? clock_now inp) = true) as -> by (apply Z.leb_le; exact Hle).
    reflexivity. }
  assert (Hused0 : used_at r0 = used_at claim) by (subst r0; destruct c2; reflexivity).
  assert (Htid0 : trivia_id r0 = trivia_id claim) by (subst r0; destruct c2; reflexivity).
  assert (Hfst : fst (lazy_expiry_step (clock_now inp) 3 CLAIM_LOCK_MS (round_counter r0))
                 = invalid_attempts r0 + 1).
  { unfold lazy_expiry_step, round_counter. cbn [snd]. rewrite Hlock0. reflexivity. }
  destruct (recordInvalidAttempt_step
              {| at_key := trivia_id claim; at_now := clock_now inp;
                 at_maxAttempts := 3; at_lockMs := CLAIM_LOCK_MS |} d0 r0 Hget0
              ltac:(rewrite Hlock0; discriminate))
    as (_ & stored & Hstored & Hsc & Hsu).
  cbn [at_key at_now at_maxAttempts at_lockMs] in Hstored, Hsc.
  assert (Hfinish : forall (note : M unit) code message w0,
            (forall w1, exists entries, note w1 = (inl tt, with_log entries w1)) ->
            db w0 = d0 -> sent w0 = sent w ->
            rejection = error_response code message ->
            reject_attempt (trivia_id claim) (clock_now inp) note code message w0
            = (r, W) ->
            (exists stored0,
               getTrivia (trivia_id claim) (db W) = Some stored0
               /\ round_counter stored0
                  = lazy_expiry_step (clock_now inp) 3 CLAIM_LOCK_MS (round_counter claim)
               /\ used_at stored0 = used_at claim)
            /\ response W
               = Some (if 3 <=? fst (lazy_expiry_step (clock_now inp) 3 CLAIM_LOCK_MS
                                       (round_counter claim))
                       then rate_limited else rejection)
            /\ sent W = sent w
            /\ trivia_payouts (db W) = trivia_payouts (db w)
            /\ daily_spend (db W) = daily_spend (db w)).
  { intros note code message w0 Hnote Hdb0 Hsent0 Hrejeq Hrun.
    destruct (reject_attempt_run (trivia_id claim) (clock_now inp) note code message
                w0 r0 Hnote ltac:(rewrite Hdb0; exact Hget0) Hlock0 Hnow)
      as (W' & Hrun' & Hresp' & Hdb' & Hsent').
    rewrite Hrun' in Hrun. injection Hrun as <- <-.
    rewrite Hdb0 in Hdb'.
    split; [exists stored; rewrite Hdb', Hcounter; split; [exact Hstored |];
            split; [exact Hsc | rewrite Hsu; exact Hused0] |].
    split; [rewrite Hresp', Hcounter, Hfst, Hrejeq; reflexivity |].
    split; [rewrite Hsent'; exact Hsent0 |].
    rewrite Hdb'. unfold recordInvalidAttempt. cbn [snd trivia_payouts daily_spend
                                                    with_trivia_rewards].
    split; [exact Hpay0 | exact Hday0]. }
  unfold claim_rejection in Hrej.
  destruct (isValidEcashAddress address); cbn [negb] in Hrej, Hout.
  2:{ injection Hrej as <-.
      eapply Hfinish; cycle 4;
        [exact Hout | apply ret_logs | reflexivity | reflexivity | reflexivity]. }
  destruct (truthy_num (claim_expires_at claim)
            && (default 0 (claim_expires_at claim) <? clock_now inp)).
  { injection Hrej as <-.
    eapply Hfinish; cycle 4;
        [exact Hout | apply ret_logs | reflexivity | reflexivity | reflexivity]. }
  destruct (truthy_ostr (winner_twitter_user_id claim)); cbn [negb andb] in Hrej, Hout;
    [| discriminate Hrej].
  destruct (truthy_ostr (RMZSTATE_TOKEN_ID env)); cbn [negb andb] in Hrej, Hout;
    [| discriminate Hrej].
  destruct (ownsToken inp address (default [] (RMZSTATE_TOKEN_ID env)));
    cbn [negb] in Hrej, Hout; [discriminate Hrej |].
  injection Hrej as <-.
  eapply Hfinish; cycle 4;
    [exact Hout | apply elizaLogger_logs | reflexivity | reflexivity | reflexivity].
Qed.

End ClaimRejections.

Lemma claim_unknown_code_witness :
  fst (run_handler (claim_handler toLowerCase_latin1 sample_env claim_inputs
                      wrong_code_request) sample_world)
  = Some (error_response 404 "Claim code not found.").
Proof.
  destruct (claim_unknown_code toLowerCase_latin1 sample_env claim_inputs
              wrong_code_request sample_world
              (js "ffffffffffffffffffffffffffffffff") sample_address)
    as (_ & H & _).
  - reflexivity.
  - discriminate.
  - reflexivity.
  - discriminate.
  - vm_compute. exact I.
  - vm_compute. reflexivity.
  - vm_compute. discriminate.
  - vm_compute. reflexivity.
  - vm_compute. reflexivity.
  - apply H. vm_compute. reflexivity.
Defined.

Lemma claim_rejected_counts_attempt_witness :
  fst (run_handler (claim_handler toLowerCase_latin1 sample_env claim_inputs
                      bad_address_request) sample_world)
  = Some (error_response 400 "invalid_address").
Proof.
  destruct (claim_rejected_counts_attempt toLowerCase_latin1 sample_env claim_inputs
              bad_address_request sample_world
              (js "00112233445566778899aabbccddeeff") (js "bitcoincash:qq")
              sample_round (error_response 400 "invalid_address"))
    as (_ & H & _).
  - reflexivity.
  - discriminate.
  - reflexivity.
  - discriminate.
  - vm_compute. reflexivity.
  - vm_compute. reflexivity.
  - split; [vm_compute; exact I |].
    split; [vm_compute; reflexivity |].
    split; [vm_compute; reflexivity |].
    intros user _ _. vm_compute. exact I.
  - reflexivity.
  - vm_compute. discriminate.
  - vm_compute. reflexivity.
  - vm_compute. reflexivity.
  - rewrite H. vm_compute. reflexivity.
Defined.

Lemma drop_slashes_spec (s : jsstring) :
  exists slashes,
    s = slashes ++ drop_slashes s
    /\ Forall (fun c => c = 47%N) slashes
    /\ match drop_slashes s with c :: _ => c <> 47%N | [] => True end.
Proof.
  induction s as [| c s (slashes & Heq & Hall & Hhead)]; cbn [drop_slashes].
  - exists []. split; [reflexivity |]. split; [constructor | exact I].
  - destruct (N.eqb_spec c 47) as [-> | Hc].
    + exists (47%N :: slashes). split; [cbn; f_equal; exact Heq |].
      split; [constructor; [reflexivity | exact Hall] | exact Hhead].
    + exists []. split; [reflexivity |]. split; [constructor | exact Hc].
Qed.

(** X24. The base URL of the oracle: [CHRONIK_URL] if it is set and not
    empty, else [CHRONIK_HTTP_URL]; the call throws exactly when neither
    is; and the result is the variable without its trailing slashes, all
    of them, so that it does not end in a slash. *)
Theorem getChronikUrl_spec (url http_url : option jsstring) :
  let base := if truthy_ostr url then url else http_url in
  (getChronikUrl url http_url = None <-> truthy_ostr base = false)
  /\ (forall result, getChronikUrl url http_url = Some result ->
        exists slashes,
          base = Some (result ++ slashes)
          /\ Forall (fun c => c = 47%N) slashes
          /\ (forall prefix, result <> prefix ++ [47%N])).
Proof.
  cbv zeta. unfold getChronikUrl.
  destruct (truthy_ostr (if truthy_ostr url then url else http_url)) eqn:Hb;
    cbn [negb].
  - split; [split; discriminate |].
    intros result [= <-].
    destruct (if truthy_ostr url then url else http_url) as [base |];
      [| discriminate Hb].
    cbn [default from_option Datatypes.id]. unfold strip_trailing_slashes.
    destruct (drop_slashes_spec (rev base)) as (slashes & Heq & Hall & Hhead).
    exists (rev slashes). split; [| split].
    + f_equal. rewrite <- rev_app_distr, <- Heq, rev_involutive. reflexivity.
    + apply Forall_rev. exact Hall.
    + intros prefix Hp. apply (f_equal (@rev N)) in Hp.
      rewrite rev_involutive, rev_app_distr in Hp. cbn in Hp.
      rewrite Hp in Hhead. apply Hhead. reflexivity.
  - split; [split; reflexivity | discriminate].
Qed.

Lemma getChronikUrl_spec_witness :
  getChronikUrl None (Some (js "https://chronik.example/xec//"))
  = Some (js "https://chronik.example/xec").
Proof.
  destruct (getChronikUrl_spec None (Some (js "https://chronik.example/xec//")))
    as (_ & H).
  destruct (H (js "https://chronik.example/xec") eq_refl) as (_ & _ & _ & _).
  reflexivity.
Defined.

Section ChronikFacts.

Variable toLowerCase : jsstring -> jsstring.
Variables CHRONIK_URL CHRONIK_HTTP_URL : option jsstring.
Variable http_get_json : jsstring -> option JsVal.
Variable BigInt_of_raw : JsVal -> option Z.

Local Abbreviation chronikFetch' :=
  (chronikFetch CHRONIK_URL CHRONIK_HTTP_URL http_get_json).
Local Abbreviation ownsToken' :=
  (chronik_ownsToken toLowerCase CHRONIK_URL CHRONIK_HTTP_URL http_get_json
     BigInt_of_raw).
Local Abbreviation hasToken' :=
  (hasToken toLowerCase CHRONIK_URL CHRONIK_HTTP_URL http_get_json).

(** X25. The oracle of the gating token. The amount held plays no part: an
    address owns the token exactly when one of the three endpoints
    (utxos, tokens, balance) answers and lists the token id, in any
    letter case, whatever amount goes with it. The call never throws:
    when the URL of the oracle is not configured, or no endpoint
    answers, the address does not own the token. *)
Theorem ownsToken_spec (address tokenId : jsstring) :
  ownsToken' address tokenId = hasToken' address tokenId
  /\ ((forall endpoint, In endpoint (token_endpoints address) ->
                        chronikFetch' endpoint = None) ->
      ownsToken' address tokenId = false)
  /\ (getChronikUrl CHRONIK_URL CHRONIK_HTTP_URL = None ->
      ownsToken' address tokenId = false).
Proof.
  assert (Hsame : ownsToken' address tokenId = hasToken' address tokenId).
  { unfold chronik_ownsToken.
    destruct (Z.ltb_spec 0 (getTokenBalance toLowerCase CHRONIK_URL CHRONIK_HTTP_URL
                              http_get_json BigInt_of_raw address tokenId))
      as [Hpos | _]; [| reflexivity].
    symmetry. unfold hasToken, token_endpoints. cbn [existsb].
    unfold getTokenBalance in Hpos.
    destruct (chronikFetch' (js "/address/" ++ address ++ js "/tokens")) as [data |];
      [| lia].
    unfold hasTokenInBalance.
    destruct (balance_tokens data) as [| | | | | ts |]; try lia.
    destruct (List.find (fun token => tokenMatch toLowerCase token tokenId) ts)
      as [token |] eqn:Hfind; [| lia].
    apply find_some in Hfind as [Hin Hmatch].
    assert (existsb (fun token => tokenMatch toLowerCase token tokenId) ts = true) as ->
      by (apply existsb_exists; eauto).
    rewrite orb_true_r, orb_true_l, orb_true_r. reflexivity. }
  assert (Hdown : (forall endpoint, In endpoint (token_endpoints address) ->
                                    chronikFetch' endpoint = None) ->
                  hasToken' address tokenId = false).
  { intros Hnone. unfold hasToken.
    apply not_true_is_false. intros H. apply existsb_exists in H.
    destruct H as (endpoint & Hin & Hhit). rewrite (Hnone endpoint Hin) in Hhit.
    discriminate Hhit. }
  split; [exact Hsame |]. split.
  - intros Hnone. rewrite Hsame. apply Hdown. exact Hnone.
  - intros Hurl. rewrite Hsame. apply Hdown. intros endpoint _.
    unfold chronikFetch. rewrite Hurl. reflexivity.
Qed.

End ChronikFacts.

Section RuntimeFacts.

Variable toLowerCase : jsstring -> jsstring.

Local Abbreviation getRuntime' := (getRuntime toLowerCase).

(** X26. The runtime a close request is served with. There is none exactly
    when the client has no agent registry or the registry is empty.
    Otherwise the runtime comes from the registry: the one registered
    under the agent id if there is one; the first in the registry when
    the request names no agent, and also when it names one that matches
    no key and no character name. *)
Theorem getRuntime_spec (agents : option (list (jsstring * Runtime)))
    (agentId : option jsstring) :
  (getRuntime' agents agentId = None <-> agents = None \/ agents = Some [])
  /\ (forall runtime, getRuntime' agents agentId = Some runtime ->
        exists entries, agents = Some entries /\ In runtime (map snd entries))
  /\ (forall entries id runtime,
        agents = Some entries -> agentId = Some id -> id <> [] ->
        agents_get id entries = Some runtime ->
        getRuntime' agents agentId = Some runtime)
  /\ (forall entries,
        agents = Some entries ->
        truthy_ostr agentId = false
        \/ (agents_get (default [] agentId) entries = None
            /\ forall runtime name,
                 In runtime (map snd entries) -> rt_name runtime = Some name ->
                 toLowerCase name <> toLowerCase (default [] agentId)) ->
        getRuntime' agents agentId = head (map snd entries)).
Proof.
  unfold getRuntime. destruct agents as [entries |].
  2:{ split; [split; [auto | reflexivity] |]. split; [discriminate |].
      split; intros; discriminate. }
  assert (Hfound : forall (x : option Runtime),
            (forall r, x = Some r -> In r (map snd entries)) ->
            forall y : option Runtime,
            (forall r, y = Some r -> In r (map snd entries)) ->
            forall r,
              match x with
              | Some runtime => Some runtime
              | None => match y with
                        | Some runtime => Some runtime
                        | None => head (map snd entries)
                        end
              end = Some r -> In r (map snd entries)).
  { intros x Hx y Hy r. destruct x as [rx |]; [intros [= <-]; apply Hx; reflexivity |].
    destruct y as [ry |]; [intros [= <-]; apply Hy; reflexivity |].
    destruct entries as [| [k rt] rest]; cbn; [discriminate | intros [= <-]; auto]. }
  assert (Hget_in : forall r, (if truthy_ostr agentId
                               then agents_get (default [] agentId) entries
                               else None) = Some r -> In r (map snd entries)).
  { intros r. destruct (truthy_ostr agentId); [| discriminate].
    unfold agents_get. destruct (List.find _ entries) as [[k rt] |] eqn:Hf;
      [| discriminate].
    intros [= <-]. apply find_some in Hf as [Hin _].
    apply in_map_iff. exists (k, rt). split; [reflexivity | exact Hin]. }
  assert (Hname_in : forall r,
            (if truthy_ostr agentId
             then List.find
                    (fun runtime =>
                       truthy_ostr (rt_name runtime)
                       && jsstring_eqb (toLowerCase (default [] (rt_name runtime)))
                                       (toLowerCase (default [] agentId)))
                    (map snd entries)
             else None) = Some r -> In r (map snd entries)).
  { intros r. destruct (truthy_ostr agentId); [| discriminate].
    intros Hf. apply find_some in Hf as [Hin _]. exact Hin. }
  split; [| split; [| split]].
  - split.
    + intros Hnone. right. destruct entries as [| [k rt] rest]; [reflexivity |].
      exfalso.
      destruct (if truthy_ostr agentId
                then agents_get (default [] agentId) ((k, rt) :: rest) else None);
        [discriminate Hnone |].
      destruct (if truthy_ostr agentId then List.find _ _ else None);
        discriminate Hnone.
    + intros [H | [= ->]]; [discriminate H |].
      destruct (truthy_ostr agentId); reflexivity.
  - intros runtime Hr. exists entries. split; [reflexivity |].
    exact (Hfound _ Hget_in _ Hname_in runtime Hr).
  - intros entries0 id runtime [= <-] -> Hne Hget.
    cbn [truthy_ostr default from_option Datatypes.id].
    apply truthy_str_true in Hne. rewrite Hne, Hget. reflexivity.
  - intros entries0 [= <-] [Hno | (Hkey & Hnames)].
    + rewrite Hno. reflexivity.
    + destruct (truthy_ostr agentId); [| reflexivity].
      rewrite Hkey.
      destruct (List.find _ (map snd entries)) as [rt |] eqn:Hf; [| reflexivity].
      exfalso. apply find_some in Hf as [Hin Hm].
      apply andb_true_iff in Hm as [Hn Heq].
      destruct (rt_name rt) as [name |] eqn:Hname; [| discriminate Hn].
      apply jsstring_eqb_eq in Heq. cbn in Heq.
      exact (Hnames rt name Hin Hname Heq).
Qed.

End RuntimeFacts.

Lemma holds_from_spec (check : Z -> bool) (fuel : nat) (from : Z) :
  holds_from check fuel from = true ->
  forall z, from <= z < from + Z.of_nat fuel -> check z = true.
Proof.
  revert from. induction fuel as [| k IH]; intros from H z Hz; [lia |].
  cbn [holds_from] in H. apply andb_true_iff in H as [Hhere Hrest].
  destruct (Z.eq_dec z from) as [-> | Hne]; [exact Hhere |].
  apply (IH (from + 1) Hrest). lia.
Qed.

Lemma era_day_checked (doe : Z) :
  0 <= doe < 146097 -> era_day_ok doe = true.
Proof.
  intros Hdoe.
  apply (holds_from_spec era_day_ok (Z.to_nat 146097) 0);
    [vm_compute; reflexivity |].
  rewrite Z2Nat.id by lia. lia.
Qed.

Lemma civil_from_days_shift (days era : Z) :
  civil_from_days (days + era * 146097)
  = let '(y, m, d) := civil_from_days days in (y + era * 400, m, d).
Proof.
  unfold civil_from_days.
  replace (days + era * 146097 + 719468) with (days + 719468 + era * 146097) by lia.
  rewrite Z.div_add by lia.
  set (e := (days + 719468) / 146097).
  replace (days + 719468 + era * 146097 - (e + era) * 146097)
    with (days + 719468 - e * 146097) by lia.
  cbv zeta. f_equal. f_equal. lia.
Qed.

Lemma days_from_civil_shift (y m d era : Z) :
  days_from_civil (y + era * 400, m, d) = days_from_civil (y, m, d) + era * 146097.
Proof.
  unfold days_from_civil.
  replace (if m <=? 2 then y + era * 400 - 1 else y + era * 400)
    with ((if m <=? 2 then y - 1 else y) + era * 400)
    by (destruct (m <=? 2); lia).
  set (y' := if m <=? 2 then y - 1 else y).
  rewrite Z.div_add by lia.
  replace (y' + era * 400 - (y' / 400 + era) * 400) with (y' - y' / 400 * 400) by lia.
  cbv zeta. lia.
Qed.

Lemma civil_round_trip_era (doe era : Z) :
  0 <= doe < 146097 ->
  days_from_civil (civil_from_days (doe - 719468 + era * 146097))
  = doe - 719468 + era * 146097
  /\ let '(y, m, d) := civil_from_days (doe - 719468 + era * 146097) in
     1 <= m <= 12 /\ 1 <= d <= 31.
Proof.
  intros Hdoe.
  pose proof (era_day_checked doe Hdoe) as Hok. unfold era_day_ok in Hok.
  rewrite civil_from_days_shift.
  destruct (civil_from_days (doe - 719468)) as [[y m] d].
  rewrite !andb_true_iff, Z.eqb_eq, !Z.leb_le in Hok.
  destruct Hok as ((((((Hinv & Hm1) & Hm2) & Hd1) & Hd2) & _) & _).
  split; [rewrite days_from_civil_shift, Hinv; reflexivity | lia].
Qed.

Lemma civil_round_trip (days : Z) :
  days_from_civil (civil_from_days days) = days
  /\ let '(y, m, d) := civil_from_days days in 1 <= m <= 12 /\ 1 <= d <= 31.
Proof.
  pose (doe := (days + 719468) mod 146097).
  pose (era := (days + 719468) / 146097).
  assert (Hdoe : 0 <= doe < 146097) by (apply Z.mod_pos_bound; lia).
  assert (Heq : days = doe - 719468 + era * 146097).
  { pose proof (Z.div_mod (days + 719468) 146097 ltac:(lia)). subst doe era. lia. }
  clearbody doe era. subst days.
  apply civil_round_trip_era. exact Hdoe.
Qed.

Lemma decimal_value_app (a : Z) (s1 s2 : jsstring) :
  decimal_value a (s1 ++ s2) = decimal_value (decimal_value a s1) s2.
Proof. apply fold_left_app. Qed.

Lemma digits_fuel_app (fuel : nat) (n : Z) (acc : jsstring) :
  digits_fuel fuel n acc = digits_fuel fuel n [] ++ acc.
Proof.
  revert n acc. induction fuel as [| f IH]; intros n acc; cbn [digits_fuel];
    [reflexivity |].
  destruct (n <? 10); [reflexivity |].
  rewrite IH. rewrite (IH (n / 10) [_]). rewrite <- app_assoc. reflexivity.
Qed.

Lemma digits_fuel_value (fuel : nat) (n : Z) :
  0 <= n < 2 ^ Z.of_nat fuel ->
  decimal_value 0 (digits_fuel fuel n []) = n.
Proof.
  revert n. induction fuel as [| f IH]; intros n Hn.
  - cbn in Hn. cbn. lia.
  - cbn [digits_fuel].
    assert (Hd : Z.of_N (Z.to_N (n mod 10 + 48)) - 48 = n mod 10).
    { rewrite Z2N.id; [lia |]. pose proof (Z.mod_pos_bound n 10 ltac:(lia)). lia. }
    destruct (Z.ltb_spec n 10) as [Hsmall | Hbig].
    + cbn [decimal_value fold_left]. rewrite Hd. rewrite Z.mod_small by lia. lia.
    + rewrite digits_fuel_app, decimal_value_app.
      rewrite IH.
      * cbn [decimal_value fold_left]. rewrite Hd.
        pose proof (Z.div_mod n 10 ltac:(lia)). lia.
      * rewrite Nat2Z.inj_succ, Z.pow_succ_r in Hn by lia.
        split; [apply Z.div_pos; lia |].
        apply Z.div_lt_upper_bound; lia.
Qed.

Lemma digits_fuel_head (fuel : nat) (n : Z) (acc : jsstring) :
  0 <= n ->
  match acc with c :: _ => c <> 45%N | [] => True end ->
  match digits_fuel fuel n acc with c :: _ => c <> 45%N | [] => True end.
Proof.
  revert n acc. induction fuel as [| f IH]; intros n acc Hn Hacc; cbn [digits_fuel];
    [exact Hacc |].
  assert (Hd : Z.to_N (n mod 10 + 48) <> 45%N).
  { pose proof (Z.mod_pos_bound n 10 ltac:(lia)) as Hmod. intros H.
    apply (f_equal Z.of_N) in H. rewrite Z2N.id in H by lia. lia. }
  destruct (n <? 10); [exact Hd |].
  apply IH; [apply Z.div_pos; lia | exact Hd].
Qed.

Lemma String_of_nonneg_value (n : Z) :
  0 <= n ->
  decimal_value 0 (String_of_nonneg n) = n
  /\ match String_of_nonneg n with c :: _ => c <> 45%N | [] => True end.
Proof.
  intros Hn. unfold String_of_nonneg. split.
  - apply digits_fuel_value. split; [exact Hn |].
    destruct (Z.eq_dec n 0) as [-> | Hpos]; [cbn; lia |].
    rewrite Nat2Z.inj_succ, Z2Nat.id by apply Z.log2_nonneg.
    apply Z.log2_spec. lia.
  - apply digits_fuel_head; [exact Hn | exact I].
Qed.

Lemma String_of_int_value (n : Z) : numeral_value (String_of_int n) = n.
Proof.
  unfold String_of_int. destruct (Z.ltb_spec n 0) as [Hneg | Hpos].
  - cbn [numeral_value].
    destruct (String_of_nonneg_value (- n) ltac:(lia)) as (Hv & _). lia.
  - destruct (String_of_nonneg_value n Hpos) as (Hv & Hh).
    unfold numeral_value. destruct (String_of_nonneg n) as [| c rest];
      [exact Hv |].
    destruct (N.eqb_spec c 45) as [-> | Hc]; [contradiction Hh; reflexivity |].
    destruct c as [| p]; [exact Hv |].
    repeat (destruct p as [p | p |]; try exact Hv; try (contradiction Hc; reflexivity)).
Qed.

Lemma two_digits_checked (n : Z) :
  0 <= n <= 31 ->
  length (padStart2 (String_of_int n)) = 2%nat
  /\ numeral_value (padStart2 (String_of_int n)) = n.
Proof.
  intros Hn.
  pose proof (holds_from_spec two_digits_ok 32 0 ltac:(vm_compute; reflexivity)
                n ltac:(lia)) as H.
  unfold two_digits_ok in H.
  rewrite andb_true_iff, Nat.eqb_eq, Z.eqb_eq in H. exact H.
Qed.

(** X27. The day key names the UTC day. Two time values of a [Date] get the
    same key exactly when they lie in the same UTC day, that is when
    they have the same quotient by 86 400 000 ms; so the daily totals
    and the daily limits of two claims meet exactly when the claims are
    handled on the same UTC day. *)
Theorem toDayKey_same_day (t1 t2 : Z) :
  date_in_range t1 -> date_in_range t2 ->
  (toDayKey t1 = toDayKey t2 <-> t1 / ms_per_day = t2 / ms_per_day).
Proof.
  unfold date_in_range. intros H1 H2.
  assert (Hkey : forall t, -8640000000000000 <= t <= 8640000000000000 ->
            toDayKey t
            = let '(y, m, d) := civil_from_days (t / ms_per_day) in
              String_of_int y ++ js "-" ++ padStart2 (String_of_int m)
                ++ js "-" ++ padStart2 (String_of_int d)).
  { intros t Ht. unfold toDayKey.
    assert ((t <? -8640000000000000) = false) as -> by (apply Z.ltb_ge; lia).
    assert ((8640000000000000 <? t) = false) as -> by (apply Z.ltb_ge; lia).
    reflexivity. }
  split; [| intros Heq; rewrite !Hkey, Heq by assumption; reflexivity].
  rewrite !Hkey by assumption.
  destruct (civil_round_trip (t1 / ms_per_day)) as (Hinv1 & Hr1).
  destruct (civil_round_trip (t2 / ms_per_day)) as (Hinv2 & Hr2).
  destruct (civil_from_days (t1 / ms_per_day)) as [[y1 m1] d1].
  destruct (civil_from_days (t2 / ms_per_day)) as [[y2 m2] d2].
  destruct (two_digits_checked m1 ltac:(lia)) as (Hlm1 & Hvm1).
  destruct (two_digits_checked m2 ltac:(lia)) as (Hlm2 & Hvm2).
  destruct (two_digits_checked d1 ltac:(lia)) as (Hld1 & Hvd1).
  destruct (two_digits_checked d2 ltac:(lia)) as (Hld2 & Hvd2).
  intros Heq.
  apply app_inj_2 in Heq as [Hy Hrest];
    [| rewrite !length_app, Hlm1, Hlm2, Hld1, Hld2; reflexivity].
  cbn [js map list_ascii_of_string app] in Hrest.
  injection Hrest as Hrest.
  apply app_inj_1 in Hrest as [Hm Hrest]; [| rewrite Hlm1, Hlm2; reflexivity].
  injection Hrest as Hd.
  apply (f_equal numeral_value) in Hy, Hm, Hd.
  rewrite !String_of_int_value in Hy. rewrite Hvm1, Hvm2 in Hm.
  rewrite Hvd1, Hvd2 in Hd. subst y2 m2 d2.
  rewrite <- Hinv1, <- Hinv2. reflexivity.
Qed.

Lemma toDayKey_same_day_witness :
  toDayKey 1700000000000 = toDayKey 1700002000001.
Proof.
  apply (toDayKey_same_day 1700000000000 1700002000001).
  - unfold date_in_range. lia.
  - unfold date_in_range. lia.
  - reflexivity.
Defined.

Lemma settlement_tables_set_lock (cond : TriviaRecord -> bool) (a : Z) (l : option Z)
    (d : Db) :
  settlement_tables
    (with_trivia_rewards (fst (sql_update cond (set_lock a l) (trivia_rewards d))) d)
  = settlement_tables d.
Proof.
  unfold settlement_tables. cbn [trivia_payouts daily_spend trivia_rewards
                                 trivia_replies with_trivia_rewards].
  rewrite key_fields_update. reflexivity.
Qed.

Lemma settlement_tables_attempts (m : gmap jsstring ClaimAttempt) (d : Db) :
  settlement_tables (with_trivia_claim_attempts m d) = settlement_tables d.
Proof. reflexivity. Qed.

Ltac same_tables :=
  unfold clearClaimLock, clearClaimAttemptLock, recordInvalidAttempt,
    recordInvalidClaimCodeAttempt;
  cbn [snd];
  rewrite ?settlement_tables_set_lock, ?settlement_tables_attempts,
    ?settlement_tables_set_lock, ?settlement_tables_attempts;
  reflexivity.

Ltac quiet_leaf H :=
  run_leaf H; eexists; split; [reflexivity |];
  split; [left; reflexivity |]; left; same_tables.

Ltac quiet_reject H :=
  cbv beta iota zeta delta [reject_attempt bind call elizaLogger ret] in H;
  match type of H with
  | context [recordInvalidAttempt ?p ?d] =>
      change (recordInvalidAttempt p d)
        with (fst (recordInvalidAttempt p d), snd (recordInvalidAttempt p d)) in H
  end;
  cbv beta iota in H;
  match type of H with
  | context [if lock_active ?l ?n then _ else _] => destruct (lock_active l n)
  end; quiet_leaf H.

Section ClaimSafety.

Variable toLowerCase : jsstring -> jsstring.

Local Abbreviation claim_handler' := (claim_handler toLowerCase).

(** X28. Whatever the request, the claim handler answers it, calls [sendRmz]
    at most once, and leaves the payouts, the daily totals, the
    settlement columns of every round and the replies as they are,
    unless it called [sendRmz], got a transaction id and answers 200: then
    its one write to them is one call of [recordClaimAndPayout]. *)
Theorem claim_handler_safety (env : Env) (inp : ClaimInputs)
    (req : Request ClaimBody) (w : World) :
  let out := run_handler (claim_handler' env inp req) w in
  exists resp,
    fst out = Some resp
    /\ (sent (snd out) = sent w
        \/ exists payment, sent (snd out) = sent w ++ [payment])
    /\ (settlement_tables (db (snd out)) = settlement_tables (db w)
        \/ (res_status resp = 200
            /\ exists payment params before,
                 sent (snd out) = sent w ++ [payment]
                 /\ sendRmz toLowerCase env (clock_send inp) payment
                    = SendOk (cp_txid params)
                 /\ settlement_tables before = settlement_tables (db w)
                 /\ db (snd out) = snd (recordClaimAndPayout params before))).
Proof.
  cbv zeta. unfold run_handler.
  destruct (claim_handler' env inp req (with_response None w)) as [r W] eqn:Hout.
  cbn [fst snd].
  unfold claim_handler in Hout.
  set (limit := default 10 (CLAIM_RATE_LIMIT_PER_MINUTE env)) in *.
  unfold bind at 1 in Hout.
  destruct (allowRateLimit_run (js "ip:" ++ getRequestIp req) limit
              (clock_ipCheck inp) (with_response None w))
    as (allowed & bk & Hip & _ & _).
  rewrite Hip in Hout. clear Hip.
  destruct allowed; cbn [negb] in Hout.
  2: { quiet_leaf Hout. }
  destruct (truthy_ostr (clm_claimCode (req_body req))) eqn:Hc;
    cbn [negb orb] in Hout.
  2: { quiet_leaf Hout. }
  destruct (truthy_ostr (clm_address (req_body req))) eqn:Ha;
    cbn [negb orb] in Hout.
  2: { quiet_leaf Hout. }
  destruct (truthy_ostr_some _ Hc) as (claimCode & Hcode & _).
  destruct (truthy_ostr_some _ Ha) as (address & Haddr & _).
  rewrite Hcode, Haddr in Hout.
  cbn [default from_option Datatypes.id] in Hout.
  unfold bind at 1 in Hout. cbn [query] in Hout.
  cbn [db with_buckets with_response] in Hout.
  set (codeLock := getClaimAttemptByCode claimCode (db w) ≫= ca_lock_expires_at) in *.
  destruct (lock_active codeLock (clock_now inp)) eqn:Hcl.
  { quiet_leaf Hout. }
  unfold bind at 1 in Hout.
  destruct (lock_expired codeLock (clock_now inp)) eqn:Hce;
    cbn [when_ update ret] in Hout.
  all: unfold bind at 1 in Hout; cbn [query] in Hout;
       cbn [db with_db with_buckets with_response] in Hout;
       rewrite ?getClaimByCode_clearClaimAttemptLock in Hout.
  all: destruct (getClaimByCode claimCode (db w)) as [claim |] eqn:Hclaim.
  (* claim code not found *)
  2, 4: cbv beta iota zeta delta [bind call] in Hout;
        match type of Hout with
        | context [recordInvalidClaimCodeAttempt ?p ?d] =>
            change (recordInvalidClaimCodeAttempt p d)
              with (fst (recordInvalidClaimCodeAttempt p d),
                    snd (recordInvalidClaimCodeAttempt p d)) in Hout
        end;
        cbv beta iota in Hout;
        match type of Hout with
        | context [if lock_active ?l ?n then _ else _] => destruct (lock_active l n)
        end; quiet_leaf Hout.
  all: unfold bind at 1 in Hout; cbn [elizaLogger] in Hout.
  all: destruct (lock_active (lock_expires_at claim) (clock_now inp)) eqn:Hrl;
       [quiet_leaf Hout |].
  all: unfold bind at 1 in Hout.
  all: destruct (lock_expired (lock_expires_at claim) (clock_now inp)) eqn:Hre;
       cbn [when_ update ret] in Hout.
  all: unfold bind at 1 in Hout.
  all: destruct (truthy_ostr (winner_twitter_user_id claim)) eqn:Hwinner.
  all: try (match type of Hout with
            | context [allowRateLimit ?k ?l ?t ?w0] =>
                destruct (allowRateLimit_run k l t w0)
                  as (userAllowed & bk' & Huc & _ & _);
                rewrite Huc in Hout; clear Huc
            end;
            destruct userAllowed; cbn [negb] in Hout;
            [| quiet_leaf Hout]).
  all: cbn [ret negb] in Hout.
  all: destruct (truthy_num (used_at claim)) eqn:Hused;
       [quiet_leaf Hout |].
  all: destruct (isValidEcashAddress address) eqn:Hvalid; cbn [negb] in Hout.
  all: try solve [quiet_reject Hout].
  all: destruct (truthy_num (claim_expires_at claim)
                 && (default 0 (claim_expires_at claim) <? clock_now inp)) eqn:Hexp;
       [quiet_reject Hout |].
  all: cbn [negb] in Hout.
  all: try solve [quiet_leaf Hout].
  all: destruct (truthy_ostr (RMZSTATE_TOKEN_ID env)) eqn:Hgate; cbn [negb] in Hout;
       [| quiet_leaf Hout].
  all: destruct (ownsToken inp address (default [] (RMZSTATE_TOKEN_ID env))) eqn:Hown;
       cbn [negb] in Hout; [| quiet_reject Hout].
  all: unfold bind at 1 in Hout; cbn [query] in Hout.
  all: match type of Hout with
       | context [if ?a <? ?b then _ else _] => destruct (a <? b)
       end.
  all: try solve [quiet_leaf Hout].
  all: unfold bind at 1 in Hout; cbn [query] in Hout.
  all: match type of Hout with
       | context [if ?a <=? ?b then _ else _] => destruct (a <=? b)
       end.
  all: try solve [quiet_leaf Hout].
  all: unfold bind at 1 in Hout; cbn [query] in Hout.
  all: match type of Hout with
       | context [if ?a <? ?b then _ else _] => destruct (a <? b)
       end.
  all: try solve [quiet_leaf Hout].
  all: destruct (truthy_ostr (RMZ_TOKEN_ID env)) eqn:Htoken; cbn [negb] in Hout;
       [| quiet_leaf Hout].
  all: unfold bind at 1 in Hout; cbn [elizaLogger] in Hout.
  all: unfold bind at 1 in Hout; cbn [await_sendRmz] in Hout.
  all: match type of Hout with
       | context [sendRmz ?a ?b ?c ?d] =>
           destruct (sendRmz a b c d) as [txid |] eqn:Hsend
       end.
  all: try solve [run_leaf Hout; eexists; split; [reflexivity |];
                  split; [right; eexists; reflexivity |]; left; same_tables].
  all: cbv beta iota zeta delta [store_recordClaimAndPayout bind call] in Hout.
  all: match type of Hout with
       | context [recordClaimAndPayout ?p ?d] =>
           destruct (recordClaimAndPayout p d) as [updated d'] eqn:Hrec
       end.
  all: cbn [db with_db with_sent with_log with_buckets with_response] in Hrec.
  all: destruct updated; cbn [negb when_] in Hout.
  all: run_leaf Hout; eexists; split; [reflexivity |].
  all: split; [right; eexists; reflexivity |].
  all: right; split; [reflexivity |].
  all: eexists; eexists; eexists.
  all: split; [reflexivity |].
  all: refine (conj _ (conj _ _));
       [ | | symmetry; exact (f_equal snd Hrec) ];
       [ cbn [cp_txid]; exact Hsend | same_tables ].
Qed.

End ClaimSafety.
